(** * The FUSE metadata broker of the MGM (mgm/FuseServer.cc)

    A shallow embedding of the capability store, the client registry and
    the metadata request handler of [FuseServer], together with the
    properties the design specification states about them. *)

From Stdlib Require Import ZArith QArith List Bool Ascii String Lia.
From Stdlib Require Import Decimal DecimalString DecimalPos DecimalZ.
From Stdlib Require Hexadecimal HexadecimalString.
From stdpp Require Import base option list gmap strings fin_maps fin_sets sorting.

Open Scope Z_scope.

Set Warnings "-clear-no-such-hyp".

(** ** Machine integers and constants *)

Module Int.

Definition two64 : Z := 2 ^ 64.

(** [uint64_t] arithmetic wraps modulo [2^64]. *)
Definition wrap64 (z : Z) : Z := z mod two64.

Definition add64 (a b : Z) : Z := wrap64 (a + b).

Definition in_u64 (z : Z) : Prop := 0 <= z < two64.

End Int.

(** errno values of <errno.h> (Linux) used by the server. *)
Module Errno.

Definition EPERM : Z := 1.
Definition ENOENT : Z := 2.
Definition EAGAIN : Z := 11.
Definition EEXIST : Z := 17.
Definition EINVAL : Z := 22.
Definition ENAMETOOLONG : Z := 36.
Definition ENOTEMPTY : Z := 39.
Definition ETIMEDOUT : Z := 110.
Definition EDQUOT : Z := 122.

End Errno.

(** Access-mode bits: [R_OK], [W_OK], [X_OK] come from <unistd.h>, the
    others are the [#define]s at the top of FuseServer.cc. *)
Module Mode.

Definition X_OK : Z := 1.
Definition W_OK : Z := 2.
Definition R_OK : Z := 4.
Definition D_OK : Z := 8.
Definition M_OK : Z := 16.
Definition C_OK : Z := 32.
Definition SA_OK : Z := 64.
Definition U_OK : Z := 128.
Definition SU_OK : Z := 256.

Definition S_IFMT : Z := 61440.
Definition S_IFDIR : Z := 16384.
Definition S_IFREG : Z := 32768.
Definition S_IFLNK : Z := 40960.
Definition S_IFIFO : Z := 4096.
Definition S_ISGID : Z := 1024.

Definition S_ISDIR (m : Z) : bool := Z.land m S_IFMT =? S_IFDIR.
Definition S_ISREG (m : Z) : bool := Z.land m S_IFMT =? S_IFREG.
Definition S_ISLNK (m : Z) : bool := Z.land m S_IFMT =? S_IFLNK.
Definition S_ISFIFO (m : Z) : bool := Z.land m S_IFMT =? S_IFIFO.

End Mode.

(** ** Strings and numbers *)

Module Str.

(** [std::to_string] on integers. *)
Definition to_string (z : Z) : string := NilZero.string_of_int (Z.to_int z).

(** [isspace] in the C locale. *)
Definition is_space (c : ascii) : bool :=
  let n := nat_of_ascii c in
  (n =? 32)%nat || ((9 <=? n)%nat && (n <=? 13)%nat).

Definition digit_of (c : ascii) : option Z :=
  let n := Z.of_nat (nat_of_ascii c) in
  if (48 <=? n) && (n <=? 57) then Some (n - 48) else None.

Fixpoint skip_spaces (s : string) : string :=
  match s with
  | String c r => if is_space c then skip_spaces r else s
  | EmptyString => s
  end.

(** The value of the longest prefix of digits, continuing from [acc]. *)
Fixpoint parse_digits (acc : Z) (s : string) : Z :=
  match s with
  | String c r =>
      match digit_of c with
      | Some d => parse_digits (10 * acc + d) r
      | None => acc
      end
  | EmptyString => acc
  end.

Definition parse_unsigned (s : string) : option Z :=
  match s with
  | String c r =>
      match digit_of c with
      | Some d => Some (parse_digits d r)
      | None => None
      end
  | EmptyString => None
  end.

(** The conversion underlying [strtol]: white space, an optional sign,
    decimal digits; [None] when there is no digit. *)
Definition parse_int (s : string) : option Z :=
  match skip_spaces s with
  | String "-" r => Z.opp <$> parse_unsigned r
  | String "+" r => parse_unsigned r
  | s' => parse_unsigned s'
  end.

(** [std::stoi], [std::stol], [std::stoll]: [None] stands for the
    exceptions [std::invalid_argument] and [std::out_of_range]. *)
Definition sto (bits : Z) (s : string) : option Z :=
  match parse_int s with
  | Some z =>
      if (- 2 ^ (bits - 1) <=? z) && (z <? 2 ^ (bits - 1)) then Some z
      else None
  | None => None
  end.

Definition stoi : string → option Z := sto 32.
Definition stol : string → option Z := sto 64.
Definition stoll : string → option Z := sto 64.

(** [atoll]: 0 when nothing can be converted. *)
Definition atoll (s : string) : Z := default 0 (parse_int s).

(** [s.substr(0, n)] *)
Fixpoint substr0 (n : nat) (s : string) : string :=
  match n, s with
  | S n', String c r => String c (substr0 n' r)
  | _, _ => EmptyString
  end.

(** [s.c_str() + n], for [n] within the string. *)
Fixpoint drop (n : nat) (s : string) : string :=
  match n, s with
  | S n', String _ r => drop n' r
  | _, _ => s
  end.

(** [s.find(sub) != std::string::npos] *)
Fixpoint contains (sub s : string) : bool :=
  String.prefix sub s
  || match s with
     | String _ r => contains sub r
     | EmptyString => false
     end.

End Str.

(** The value of a decimal numeral read from the left, continuing from
    [acc]. *)
Fixpoint uint_val (acc : Z) (d : uint) : Z :=
  match d with
  | Nil => acc
  | D0 l => uint_val (10 * acc) l
  | D1 l => uint_val (10 * acc + 1) l
  | D2 l => uint_val (10 * acc + 2) l
  | D3 l => uint_val (10 * acc + 3) l
  | D4 l => uint_val (10 * acc + 4) l
  | D5 l => uint_val (10 * acc + 5) l
  | D6 l => uint_val (10 * acc + 6) l
  | D7 l => uint_val (10 * acc + 7) l
  | D8 l => uint_val (10 * acc + 8) l
  | D9 l => uint_val (10 * acc + 9) l
  end.

(** ** Capabilities *)

(** The quota part of a capability. *)
Record quota_t := mkQuota {
  inode_quota : Z;
  volume_quota : Z;
  quota_inode : Z
}.

(** The virtual identity attached to a stored capability. *)
Record VirtualIdentity := mkVid {
  vid_uid : Z;
  vid_gid : Z;
  vid_sudoer : bool
}.

(** [capx]: the protobuf message [eos::fusex::cap] extended with the
    virtual identity.  The message type is generated code; its fields are
    the accessors FuseServer.cc uses. *)
Record capx := mkCap {
  cap_id : Z;
  cap_mode : Z;
  cap_vtime : Z;
  cap_vtime_ns : Z;
  cap_uid : Z;
  cap_gid : Z;
  cap_authid : string;
  cap_clientid : string;
  cap_clientuuid : string;
  cap_quota : quota_t;
  cap_max_file_size : Z;
  cap_vid : option VirtualIdentity
}.

(** [std::make_shared<capx>()]: a default-constructed message has zero
    numeric fields and empty strings. *)
Definition capx_default : capx :=
  {| cap_id := 0; cap_mode := 0; cap_vtime := 0; cap_vtime_ns := 0;
     cap_uid := 0; cap_gid := 0;
     cap_authid := ""; cap_clientid := ""; cap_clientuuid := "";
     cap_quota := mkQuota 0 0 0; cap_max_file_size := 0;
     cap_vid := None |}.

Definition set_vtime (t : Z) (c : capx) : capx :=
  {| cap_id := cap_id c; cap_mode := cap_mode c; cap_vtime := t;
     cap_vtime_ns := cap_vtime_ns c; cap_uid := cap_uid c;
     cap_gid := cap_gid c; cap_authid := cap_authid c;
     cap_clientid := cap_clientid c; cap_clientuuid := cap_clientuuid c;
     cap_quota := cap_quota c; cap_max_file_size := cap_max_file_size c;
     cap_vid := cap_vid c |}.

Definition set_vid (v : option VirtualIdentity) (c : capx) : capx :=
  {| cap_id := cap_id c; cap_mode := cap_mode c; cap_vtime := cap_vtime c;
     cap_vtime_ns := cap_vtime_ns c; cap_uid := cap_uid c;
     cap_gid := cap_gid c; cap_authid := cap_authid c;
     cap_clientid := cap_clientid c; cap_clientuuid := cap_clientuuid c;
     cap_quota := cap_quota c; cap_max_file_size := cap_max_file_size c;
     cap_vid := v |}.

(** ** Requests and responses *)

(** [md.operation()] *)
Inductive md_op :=
  GET | SET | DELETE | GETCAP | LS | GETLK | SETLK | SETLKW
| BEGINFLUSH | ENDFLUSH.

(** [md.type()] *)
Inductive md_type_t := MD | MDLS | EXCL.

#[global] Instance md_type_t_eq_dec : EqDecision md_type_t.
Proof. solve_decision. Defined.

#[global] Instance md_op_eq_dec : EqDecision md_op.
Proof. solve_decision. Defined.

(** A metadata request ([eos::fusex::md]); the message type is
    generated code, the fields are the accessors FuseServer.cc uses. *)
Record md := mkMd {
  md_operation : md_op;
  md_type : md_type_t;
  md_ino : Z;
  md_pino : Z;
  md_name : string;
  md_clientid : string;
  md_clientuuid : string;
  md_authid : string;
  md_implied_authid : string;
  md_mv_authid : string;
  md_reqid : Z;
  md_uid : Z;
  md_gid : Z;
  md_mode : Z;
  md_ctime : Z;
  md_ctime_ns : Z;
  md_mtime : Z;
  md_mtime_ns : Z;
  md_btime : Z;
  md_btime_ns : Z;
  md_pmtime : Z;
  md_pmtime_ns : Z;
  md_size : Z;
  md_target : string;
  md_attr : gmap string string
}.

(** A request of which only the auth-id and the two inodes matter. *)
Definition mkMdRef (a : string) (ino pino : Z) : md :=
  {| md_operation := GET; md_type := MD; md_ino := ino; md_pino := pino;
     md_name := ""; md_clientid := ""; md_clientuuid := "";
     md_authid := a; md_implied_authid := ""; md_mv_authid := "";
     md_reqid := 0; md_uid := 0; md_gid := 0; md_mode := 0;
     md_ctime := 0; md_ctime_ns := 0; md_mtime := 0; md_mtime_ns := 0;
     md_btime := 0; md_btime_ns := 0; md_pmtime := 0; md_pmtime_ns := 0;
     md_size := 0; md_target := ""; md_attr := ∅ |}.

(** [mv_md]: an otherwise empty request carrying an auth-id. *)
Definition md_with_authid (a : string) : md := mkMdRef a 0 0.

Inductive ack_code := ACK_OK | TEMPORARY_FAILURE | PERMANENT_FAILURE.

(** [eos::fusex::ack] *)
Record ack := mkAck {
  ack_code_ : ack_code;
  ack_err_no : Z;
  ack_err_msg : string;
  ack_transactionid : Z;
  ack_md_ino : Z
}.

(** [eos::fusex::response], by type. *)
Inductive response :=
| RSP_ACK (a : ack)
| RSP_EVICT (reason : string)
| RSP_NONE
| RSP_LEASE_RELEASECAP (ino : Z) (clientid : string)
| RSP_DENTRY_REMOVE (ino : Z) (clientid name : string)
| RSP_MD (ino pino : Z) (clientid : string)
| RSP_CAP (c : capx)
| RSP_DROPCAPS
| RSP_CONFIG (hbrate : Z) (dentrymessaging : bool).

(** Calls that leave the modelled classes. *)
Inductive effect :=
| Reply (identity : string) (rsp : response)
    (* gOFS->zMQ->mTask->reply *)
| DropLocks (owner : string)
    (* Locks().dropLocks(owner) *)
| ExpireFlush
    (* Flushs().expireFlush() *)
| RemoveCap (c : capx)
    (* Cap().Remove(cap) *)
| CallFillFileMD (ino : Z)
| CallFillContainerMD (ino : Z)
| CallFillContainerCAP (ino : Z)
| CallReleaseCAP (c : capx)
    (* Client().ReleaseCAP(cap->id(), cap->clientuuid(), cap->clientid()) *)
| CallDeleteEntry (c : capx) (name : string)
    (* Client().DeleteEntry(...) *)
| CallSendMD (c : capx) (ino pino : Z)
    (* Client().SendMD(md, ..., md_ino, md_pino, clock, p_mtime) *)
| WriteRecycleRecord (fid : Z)
| WriteRmRecord (fid : Z)
| CallRem (fid : Z).
    (* gOFS->_rem(fullpath, ...) *)

(** ** The capability store [FuseServer::Caps] *)

(** [std::multimap<time_t, authid_t>::insert]: the new pair goes behind
    every pair whose key is not larger. *)
Fixpoint multimap_insert (t : Z) (a : string) (l : list (Z * string))
  : list (Z * string) :=
  match l with
  | [] => [(t, a)]
  | (t', a') :: r =>
      if t' <=? t then (t', a') :: multimap_insert t a r
      else (t, a) :: l
  end.

Record Caps := mkCaps {
  mCaps : gmap string capx;
  mTimeOrderedCap : list (Z * string);
  mClientCaps : gmap string (gset string);
  mClientInoCaps : gmap string (gset Z);
  mInodeCaps : gmap Z (gset string)
}.

Definition Caps_empty : Caps :=
  {| mCaps := ∅; mTimeOrderedCap := []; mClientCaps := ∅;
     mClientInoCaps := ∅; mInodeCaps := ∅ |}.

(** [m[k].insert(x)] on a map of sets: [operator[]] creates the empty set
    when the key is missing. *)
Definition set_insert_at `{Countable K} `{Countable A}
  (k : K) (x : A) (m : gmap K (gset A)) : gmap K (gset A) :=
  <[k := {[x]} ∪ default ∅ (m !! k)]> m.

(** [Caps::Store] *)
Definition Store (ecap : capx) (vid : option VirtualIdentity) (s : Caps)
  : Caps :=
  let a := cap_authid ecap in
  {| mTimeOrderedCap :=
       match mCaps s !! a with
       | None => multimap_insert (cap_vtime ecap) a (mTimeOrderedCap s)
       | Some _ => mTimeOrderedCap s
       end;
     mClientCaps := set_insert_at (cap_clientid ecap) a (mClientCaps s);
     mClientInoCaps :=
       set_insert_at (cap_clientid ecap) (cap_id ecap) (mClientInoCaps s);
     mCaps := <[a := set_vid vid ecap]> (mCaps s);
     mInodeCaps := set_insert_at (cap_id ecap) a (mInodeCaps s) |}.

(** [Caps::Get]: the stored capability, or a fresh default one. *)
Definition Get (id : string) (s : Caps) : capx :=
  match mCaps s !! id with
  | Some c => c
  | None => capx_default
  end.

(** [FuseServer::ValidateCAP]: the returned pointer ([None] for the null
    pointer) and the value left in [errno].  [now] is [time(NULL)]. *)
Definition ValidateCAP (s : Caps) (md : md) (mode : Z) (now : Z)
  : option capx * Z :=
  let cap := Get (md_authid md) s in
  if cap_id cap =? 0 then (None, Errno.ENOENT)
  else if negb (cap_id cap =? md_ino md) && negb (cap_id cap =? md_pino md)
  then (None, Errno.EINVAL)
  else if Z.land (cap_mode cap) mode =? mode then
    if cap_vtime cap <=? Int.add64 now 60 then (None, Errno.ETIMEDOUT)
    else (Some cap, 0)
  else (None, Errno.EPERM).

(** Iteration over a [std::set<std::string>] visits the elements in
    increasing (byte-wise lexicographic) order. *)
Definition string_le (a b : string) : Prop := String.leb a b = true.

#[global] Instance string_le_dec a b : Decision (string_le a b).
Proof. unfold string_le. apply _. Defined.

Definition set_order (X : gset string) : list string :=
  merge_sort string_le (elements X).

(** [Caps::Delete]: one round of the loop over [mInodeCaps[md_ino]]. *)
Definition Delete_step (md_ino : Z) (s : Caps) (sit : string) : Caps :=
  let cc := (λ X : gset string, X ∖ {[sit]}) <$> mClientCaps s in
  match mCaps s !! sit with
  | Some cap =>
      {| mClientCaps := cc;
         mClientInoCaps :=
           match mClientInoCaps s !! cap_clientid cap with
           | Some X =>
               <[cap_clientid cap := X ∖ {[md_ino]}]> (mClientInoCaps s)
           | None => mClientInoCaps s
           end;
         mCaps := delete sit (mCaps s);
         mTimeOrderedCap := mTimeOrderedCap s;
         mInodeCaps := mInodeCaps s |}
  | None =>
      {| mClientCaps := cc;
         mClientInoCaps := mClientInoCaps s;
         mCaps := mCaps s;
         mTimeOrderedCap := mTimeOrderedCap s;
         mInodeCaps := mInodeCaps s |}
  end.

Definition Delete_loop (md_ino : Z) (l : list string) (s : Caps) : Caps :=
  fold_left (Delete_step md_ino) l s.

(** [Caps::Delete]: the return code and the store afterwards. *)
Definition Delete (md_ino : Z) (s : Caps) : Z * Caps :=
  match mInodeCaps s !! md_ino with
  | None => (Errno.ENOENT, s)
  | Some X =>
      let s' := Delete_loop md_ino (set_order X) s in
      (0, {| mClientCaps := mClientCaps s';
             mClientInoCaps := mClientInoCaps s';
             mCaps := mCaps s';
             mTimeOrderedCap := mTimeOrderedCap s';
             mInodeCaps := delete md_ino (mInodeCaps s') |})
  end.

(** *** Broadcasts *)

(** The loop of [Caps::BroadcastRelease] over the auth-ids registered for
    an inode; [bccaps] is the vector being filled. *)
Fixpoint release_loop (s : Caps) (authid : string) (refcap : capx)
  (l : list string) (bccaps : list capx) : list capx :=
  match l with
  | [] => bccaps
  | it :: r =>
      match mCaps s !! it with
      | None => release_loop s authid refcap r bccaps
      | Some cap =>
          if String.eqb (cap_authid cap) authid
          then release_loop s authid refcap r bccaps
          else if String.eqb (cap_clientuuid cap) (cap_clientuuid refcap)
          then release_loop s authid refcap r bccaps
          else if negb (cap_id cap =? 0)
          then release_loop s authid refcap r (bccaps ++ [cap])
          else release_loop s authid refcap r bccaps
      end
  end.

(** The inode whose subscribers [Caps::BroadcastRelease] addresses. *)
Definition release_inode (s : Caps) (md : md) : Z :=
  let refcap := Get (md_authid md) s in
  if cap_id refcap =? 0 then md_pino md else cap_id refcap.

(** [Caps::BroadcastRelease]: the capabilities [ReleaseCAP] is called
    for, in call order. *)
Definition BroadcastRelease (s : Caps) (md : md) : list capx :=
  let refcap := Get (md_authid md) s in
  match mInodeCaps s !! release_inode s md with
  | Some X => release_loop s (md_authid md) refcap (set_order X) []
  | None => []
  end.

(** The loop of [Caps::BroadcastMD]; [clients_sent] holds the uuids that
    already have a message. *)
Fixpoint md_loop (s : Caps) (authid : string) (refcap : capx)
  (l : list string) (clients_sent : gset string) (bccaps : list capx)
  : list capx :=
  match l with
  | [] => bccaps
  | it :: r =>
      match mCaps s !! it with
      | None => md_loop s authid refcap r clients_sent bccaps
      | Some cap =>
          if String.eqb (cap_authid cap) authid
          then md_loop s authid refcap r clients_sent bccaps
          else if String.eqb (cap_clientuuid cap) (cap_clientuuid refcap)
          then md_loop s authid refcap r clients_sent bccaps
          else if negb (cap_id cap =? 0)
                  && negb (bool_decide (cap_clientuuid cap ∈ clients_sent))
          then md_loop s authid refcap r
                 ({[cap_clientuuid cap]} ∪ clients_sent) (bccaps ++ [cap])
          else md_loop s authid refcap r clients_sent bccaps
      end
  end.

(** [Caps::BroadcastMD]: the capabilities [SendMD] is called for. *)
Definition BroadcastMD (s : Caps) (md : md) (md_pino : Z) : list capx :=
  let refcap := Get (md_authid md) s in
  match mInodeCaps s !! md_pino with
  | Some X => md_loop s (md_authid md) refcap (set_order X) ∅ []
  | None => []
  end.

(** The capabilities registered under inode [i]: the auth-ids of the
    inode index that resolve in the primary map. *)
Definition registered (s : Caps) (i : Z) (c : capx) : Prop :=
  ∃ X a, mInodeCaps s !! i = Some X ∧ a ∈ X ∧ mCaps s !! a = Some c.

(** The recipient rule of the broadcasts. *)
Definition recipient (s : Caps) (i : Z) (a0 u0 : string) (c : capx) : Prop :=
  registered s i c ∧ cap_authid c ≠ a0 ∧ cap_clientuuid c ≠ u0.

(** *** Test data *)

Definition mk_cap (a : string) (i : Z) (cl uu : string) (m vt : Z) : capx :=
  {| cap_id := i; cap_mode := m; cap_vtime := vt; cap_vtime_ns := 0;
     cap_uid := 1000; cap_gid := 1000;
     cap_authid := a; cap_clientid := cl; cap_clientuuid := uu;
     cap_quota := mkQuota 0 0 0; cap_max_file_size := 0;
     cap_vid := None |}.

Definition st2 : Caps :=
  Store (mk_cap "a3" 7 "c2" "u2" 66 1000) None
    (Store (mk_cap "a2" 7 "c2" "u2" 66 1000) None
       (Store (mk_cap "a1" 7 "c1" "u1" 66 1000) None Caps_empty)).

(** The claim of C1 read literally: some capability of the store fits
    the request. *)
Definition some_cap_fits (s : Caps) (md : md) (M now : Z) : Prop :=
  ∃ a c, mCaps s !! a = Some c
         ∧ (cap_id c = md_ino md ∨ cap_id c = md_pino md)
         ∧ Z.land (cap_mode c) M = M
         ∧ cap_vtime c > now + 60.

(** What the code checks: the capability stored under the auth-id of the
    request, and only that one. *)
Definition own_cap_fits (s : Caps) (md : md) (M now : Z) (c : capx)
  : Prop :=
  mCaps s !! md_authid md = Some c
  ∧ cap_id c ≠ 0
  ∧ (cap_id c = md_ino md ∨ cap_id c = md_pino md)
  ∧ Z.land (cap_mode c) M = M.

(** Consistency of the indices: every stored capability is registered
    under its inode in the inode index, and every entry of a client's
    inode set is backed by a stored capability of that client. *)
Definition Caps_consistent (s : Caps) : Prop :=
  (∀ a c, mCaps s !! a = Some c →
          ∃ X, mInodeCaps s !! cap_id c = Some X ∧ a ∈ X)
  ∧ (∀ k X i, mClientInoCaps s !! k = Some X → i ∈ X →
              ∃ a c, mCaps s !! a = Some c ∧ cap_clientid c = k
                     ∧ cap_id c = i).

(** "No capability of inode [i] is left in any index of [s']", where the
    capabilities of inode [i] are those the store [s] held before. *)
Definition gone_from_primary (i : Z) (s' : Caps) : Prop :=
  ∀ a c, mCaps s' !! a = Some c → cap_id c ≠ i.

Definition gone_from_client_caps (i : Z) (s s' : Caps) : Prop :=
  ∀ a c, mCaps s !! a = Some c → cap_id c = i →
         ∀ k X, mClientCaps s' !! k = Some X → a ∉ X.

Definition gone_from_client_inodes (i : Z) (s' : Caps) : Prop :=
  ∀ k X, mClientInoCaps s' !! k = Some X → i ∉ X.

Definition gone_from_inode_index (i : Z) (s' : Caps) : Prop :=
  mInodeCaps s' !! i = None.

Definition gone_from_expiry_index (i : Z) (s s' : Caps) : Prop :=
  ∀ a c, mCaps s !! a = Some c → cap_id c = i →
         ∀ t, (t, a) ∉ mTimeOrderedCap s'.

(** The inode index lists exactly the stored capabilities of each
    inode. *)
Definition Caps_exact (s : Caps) : Prop :=
  ∀ i X a, mInodeCaps s !! i = Some X → a ∈ X →
           ∃ c, mCaps s !! a = Some c ∧ cap_id c = i.

(** A capability may be stored when its auth-id is new, or when it
    refreshes a capability of the same client on the same inode. *)
Definition storable (ecap : capx) (s : Caps) : Prop :=
  ∀ c, mCaps s !! cap_authid ecap = Some c →
       cap_clientid c = cap_clientid ecap ∧ cap_id c = cap_id ecap.

(** The test every broadcast loop applies to a capability it found:
    not the originating auth-id, not the originating mount, and a
    non-zero inode id. *)
Definition addressed (a0 u0 : string) (c : capx) : Prop :=
  cap_authid c ≠ a0 ∧ cap_clientuuid c ≠ u0 ∧ cap_id c ≠ 0.

(** Store with two mounts on inode 0. *)
Definition st0 : Caps :=
  Store (mk_cap "z2" 0 "c2" "u2" 66 1000) None
    (Store (mk_cap "z1" 0 "c1" "u1" 66 1000) None Caps_empty).

(** The capabilities a broadcast loop over the auth-ids [l] selects. *)
Definition found (s : Caps) (a0 : string) (refcap : capx)
  (l : list string) (c : capx) : Prop :=
  ∃ a, a ∈ l ∧ mCaps s !! a = Some c
       ∧ addressed a0 (cap_clientuuid refcap) c.

(** ** The client registry [FuseServer::Clients] *)

(** [eos::fusex::heartbeat]; generated code, the fields are the
    accessors FuseServer.cc uses. *)
Record heartbeat := mkHb {
  hb_uuid : string;
  hb_clock : Z;
  hb_clock_ns : Z;
  hb_protversion : Z;
  hb_leasetime : Z;
  hb_shutdown : bool;
  hb_authextension : gmap string Z;
  hb_authrevocation : gmap string Z
}.

(** The session states the code assigns. *)
Inductive status_t := EVICTED | OFFLINE | VOLATILE | ONLINE.

#[global] Instance status_t_eq_dec : EqDecision status_t.
Proof. solve_decision. Defined.

Record Client := mkClient {
  heartbeat_ : heartbeat;
  state : status_t
}.

Definition set_state (st : status_t) (c : Client) : Client :=
  {| heartbeat_ := heartbeat_ c; state := st |}.

Record timespec := mkTs { tv_sec : Z; tv_nsec : Z }.

(** The windows are given in seconds. *)
Record Clients := mkClients {
  mMap : gmap string Client;
  mUUIDView : gmap string string;
  mHeartBeatWindow : Q;
  mHeartBeatOfflineWindow : Q;
  mHeartBeatRemoveWindow : Q;
  mHeartBeatInterval : Z;
  mQuotaCheckInterval : Z
}.

Definition with_maps (m : gmap string Client) (uv : gmap string string)
  (cl : Clients) : Clients :=
  {| mMap := m; mUUIDView := uv;
     mHeartBeatWindow := mHeartBeatWindow cl;
     mHeartBeatOfflineWindow := mHeartBeatOfflineWindow cl;
     mHeartBeatRemoveWindow := mHeartBeatRemoveWindow cl;
     mHeartBeatInterval := mHeartBeatInterval cl;
     mQuotaCheckInterval := mQuotaCheckInterval cl |}.

(** [tsnow.tv_sec - clock + ((int64_t) tsnow.tv_nsec - (int64_t) clock_ns)
    * 1.0 / 1000000000.0]: the age of a heartbeat in seconds, as an exact
    rational (the rounding of [double] is not modelled). *)
Definition heartbeat_age (tsnow : timespec) (hb : heartbeat) : Q :=
  Qplus (inject_Z (tv_sec tsnow - hb_clock hb))
        (Qdiv (Qmult (inject_Z (tv_nsec tsnow - hb_clock_ns hb)) (inject_Z 1))
              (inject_Z 1000000000)).

(** [a > b] on the rationals. *)
Definition Qgtb (a b : Q) : bool := negb (Qle_bool a b).

(** Iteration over a [std::map<std::string, V>] visits the entries in
    increasing key order. *)
Definition key_le {V} (p q : string * V) : Prop := string_le p.1 q.1.

#[global] Instance key_le_dec {V} (p q : string * V) : Decision (key_le p q).
Proof. unfold key_le. apply _. Defined.

Definition map_order {V} (m : gmap string V) : list (string * V) :=
  merge_sort key_le (map_to_list m).

(** [Clients::Evict]: the return code and the reply sent, if any. *)
Definition Evict (uv : gmap string string) (uuid reason : string)
  : Z * list effect :=
  match uv !! uuid with
  | None => (Errno.ENOENT, [])
  | Some id => (0, [Reply id (RSP_EVICT reason)])
  end.

Definition versionerror : string :=
  "Server supports PROTOCOLV3 and requires atleast PROTOCOLV2".

(** [Clients::leasetime] *)
Definition leasetime (cl : Clients) (uuid : string) : Z :=
  let leasetime :=
    match mUUIDView cl !! uuid with
    | Some id =>
        match mMap cl !! id with
        | Some c => hb_leasetime (heartbeat_ c)
        | None => 0
        end
    | None => 0
    end in
  if 7 * 86400 <? leasetime then 7 * 86400 else leasetime.

Section Registry.

(** The protocol version constant of the heartbeat message and the state
    of a freshly constructed [Client]; both are declared outside
    FuseServer.cc. *)
Variable PROTOCOLV2 : Z.
Variable fresh_state : status_t.

(** [Caps::Remove], which [Dispatch] calls for every capability a
    heartbeat revokes, is declared outside FuseServer.cc as well: what
    it does to the capability store is a parameter. *)
Variable Remove : capx → Caps → Caps.

(** What one pass of the loop over the sessions has collected. *)
Record sweep_acc := mkAcc {
  a_map : gmap string Client;
  a_evictmap : gmap string string;
  a_evictversionmap : gmap string string;
  a_effects : list effect
}.

(** The body of the loop of [MonitorHeartBeat] for the session [it]. *)
Definition hb_step (cl : Clients) (tsnow : timespec) (acc : sweep_acc)
  (it : string * Client) : sweep_acc :=
  let id := it.1 in
  let c := it.2 in
  let uuid := hb_uuid (heartbeat_ c) in
  let last_heartbeat := heartbeat_age tsnow (heartbeat_ c) in
  let acc1 :=
    if hb_shutdown (heartbeat_ c) then
      {| a_map := <[id := set_state EVICTED c]> (a_map acc);
         a_evictmap := <[uuid := id]> (a_evictmap acc);
         a_evictversionmap := a_evictversionmap acc;
         a_effects := a_effects acc |}
    else if Qgtb last_heartbeat (mHeartBeatWindow cl) then
      if Qgtb last_heartbeat (mHeartBeatOfflineWindow cl) then
        if Qgtb last_heartbeat (mHeartBeatRemoveWindow cl) then
          {| a_map := <[id := set_state EVICTED c]> (a_map acc);
             a_evictmap := <[uuid := id]> (a_evictmap acc);
             a_evictversionmap := a_evictversionmap acc;
             a_effects := a_effects acc |}
        else
          {| a_map := <[id := set_state OFFLINE c]> (a_map acc);
             a_evictmap := a_evictmap acc;
             a_evictversionmap := a_evictversionmap acc;
             a_effects :=
               if bool_decide (state c ≠ OFFLINE)
               then a_effects acc ++ [DropLocks uuid]
               else a_effects acc |}
      else
        {| a_map := <[id := set_state VOLATILE c]> (a_map acc);
           a_evictmap := a_evictmap acc;
           a_evictversionmap := a_evictversionmap acc;
           a_effects := a_effects acc |}
    else
      {| a_map := <[id := set_state ONLINE c]> (a_map acc);
         a_evictmap := a_evictmap acc;
         a_evictversionmap := a_evictversionmap acc;
         a_effects := a_effects acc |} in
  if hb_protversion (heartbeat_ c) <? PROTOCOLV2 then
    {| a_map := <[id := set_state EVICTED c]> (a_map acc1);
       a_evictmap := a_evictmap acc1;
       a_evictversionmap := <[uuid := id]> (a_evictversionmap acc1);
       a_effects := a_effects acc1 |}
  else acc1.

(** "delete clients to be evicted" *)
Definition erase_step (mu : gmap string Client * gmap string string)
  (it : string * string) : gmap string Client * gmap string string :=
  (delete it.2 mu.1, delete it.1 mu.2).

(** "delete client to be evicted because of a version mismatch" *)
Definition version_step
  (st : gmap string Client * gmap string string * list effect)
  (it : string * string)
  : gmap string Client * gmap string string * list effect :=
  let '(m, uv, eff) := st in
  (delete it.2 m, delete it.1 uv, eff ++ (Evict uv it.1 versionerror).2).

(** One round of the [while] loop of [Clients::MonitorHeartBeat]: the
    registry afterwards and the calls made, in order. *)
Definition MonitorHeartBeat (cl : Clients) (tsnow : timespec)
  : Clients * list effect :=
  let acc :=
    fold_left (hb_step cl tsnow) (map_order (mMap cl))
      {| a_map := mMap cl; a_evictmap := ∅; a_evictversionmap := ∅;
         a_effects := [] |} in
  let mu :=
    fold_left erase_step (map_order (a_evictmap acc))
      (a_map acc, mUUIDView cl) in
  let '(m, uv, eff) :=
    fold_left version_step (map_order (a_evictversionmap acc))
      (mu.1, mu.2, a_effects acc) in
  (with_maps m uv cl, eff ++ [ExpireFlush]).

(** The loop over [authextension] in [Clients::Dispatch]:
    [cap->set_vtime(cap->vtime() + it->second)] writes through the
    shared pointer into the store; for an unknown auth-id [Get] hands out
    a fresh capability with [vtime() == 0] and nothing happens. *)
Definition extend_step (caps : gmap string capx) (it : string * Z)
  : gmap string capx :=
  match caps !! it.1 with
  | Some cap =>
      if negb (cap_vtime cap =? 0)
      then <[it.1 := set_vtime (Int.add64 (cap_vtime cap) it.2) cap]> caps
      else caps
  | None => caps
  end.

Definition with_mCaps (m : gmap string capx) (s : Caps) : Caps :=
  {| mCaps := m; mTimeOrderedCap := mTimeOrderedCap s;
     mClientCaps := mClientCaps s; mClientInoCaps := mClientInoCaps s;
     mInodeCaps := mInodeCaps s |}.

Definition apply_authextension (ext : gmap string Z) (s : Caps) : Caps :=
  with_mCaps (fold_left extend_step (map_to_list ext) (mCaps s)) s.

(** The loop over [authrevocation]: the capabilities put into
    [caps_to_revoke] ([Get] never returns a null pointer). *)
Definition revocation_caps (rev : gmap string Z) (s : Caps) : list capx :=
  (λ it : string * Z, Get it.1 s) <$> map_to_list rev.

Definition set_heartbeat (hb : heartbeat) (o : option Client) : Client :=
  match o with
  | Some c => {| heartbeat_ := hb; state := state c |}
  | None => {| heartbeat_ := hb; state := fresh_state |}
  end.

(** The loop over [caps_to_revoke] at the end of [Clients::Dispatch]:
    [Cap().Remove] is called on the store for one capability after the
    other.  The program visits the set in the order of the addresses of
    the capabilities; the list here is in the order of the
    [authrevocation] map. *)
Definition revoke_caps (caps_to_revoke : list capx) (s : Caps) : Caps :=
  fold_left (λ s cap, Remove cap s) caps_to_revoke s.

(** [Clients::Dispatch]: the return value, the registry and the
    capability store afterwards, and the calls made.  The store is
    first run through the loop over [authextension]; for a client that
    is registered already, the capabilities named in [authrevocation]
    are then handed to [Cap().Remove], each call being recorded as
    well. *)
Definition Dispatch (cl : Clients) (caps : Caps) (tsnow : timespec)
  (identity : string) (hb : heartbeat)
  : bool * Clients * Caps * list effect :=
  let rc := negb (bool_decide (is_Some (mMap cl !! identity))) in
  let heartbeat_delay := heartbeat_age tsnow hb in
  if Qgtb heartbeat_delay (mHeartBeatOfflineWindow cl)
  then (rc, cl, caps, [])
  else
    let cl' :=
      with_maps
        (<[identity := set_heartbeat hb (mMap cl !! identity)]> (mMap cl))
        (<[hb_uuid hb := identity]> (mUUIDView cl)) cl in
    let caps' := apply_authextension (hb_authextension hb) caps in
    let caps_to_revoke := revocation_caps (hb_authrevocation hb) caps' in
    if rc then
      (rc, cl', caps',
       [Reply identity RSP_DROPCAPS;
        Reply identity (RSP_CONFIG (mHeartBeatInterval cl) true)])
    else
      (rc, cl', revoke_caps caps_to_revoke caps',
       RemoveCap <$> caps_to_revoke).

End Registry.

(** A [Remove] for the examples: the capability leaves the primary
    map. *)
Definition Remove_authid (cap : capx) (s : Caps) : Caps :=
  with_mCaps (delete (cap_authid cap) (mCaps s)) s.

(** A registry with windows of 5, 30 and 120 seconds. *)
Definition mk_registry (m : gmap string Client) (uv : gmap string string)
  : Clients :=
  {| mMap := m; mUUIDView := uv;
     mHeartBeatWindow := inject_Z 5;
     mHeartBeatOfflineWindow := inject_Z 30;
     mHeartBeatRemoveWindow := inject_Z 120;
     mHeartBeatInterval := 1; mQuotaCheckInterval := 16 |}.

Definition mk_hb (uuid : string) (clock : Z) (ver : Z) (sd : bool)
  : heartbeat :=
  {| hb_uuid := uuid; hb_clock := clock; hb_clock_ns := 0;
     hb_protversion := ver; hb_leasetime := 300; hb_shutdown := sd;
     hb_authextension := ∅; hb_authrevocation := ∅ |}.

(** One session "id1" of mount "u1" that sent its last heartbeat at
    second 0. *)
Definition reg1 (st : status_t) : Clients :=
  mk_registry {[ "id1"%string := mkClient (mk_hb "u1" 0 3 false) st ]}
              {[ "u1"%string := "id1"%string ]}.

(** ** The namespace view *)

(** [eos::MDException] *)
Record MDException := mkExc { e_errno : Z; e_msg : string }.

(** Modelled from the spec: the container metadata of the namespace view
    ([eos::IContainerMD], not part of FuseServer.cc):
    [{id, parent_id, name, ctime, mtime, uid, gid, mode, xattrs,
    children_containers, children_files}]. *)
Record ContainerMD := mkCmd {
  c_id : Z;
  c_parent : Z;
  c_name : string;
  c_uid : Z;
  c_gid : Z;
  c_mode : Z;
  c_ctime : Z * Z;
  c_mtime : Z * Z;
  c_attrs : gmap string string;
  c_containers : gmap string Z;
  c_files : gmap string Z
}.

(** Modelled from the spec: the file metadata of the namespace view
    ([eos::IFileMD], not part of FuseServer.cc): [{id, parent_id, name,
    ctime, mtime, size, uid, gid, flags, layout_id, xattrs,
    link_target}]; [f_unlinked] records [unlinkAllLocations]. *)
Record FileMD := mkFmd {
  f_id : Z;
  f_container : Z;
  f_name : string;
  f_uid : Z;
  f_gid : Z;
  f_size : Z;
  f_flags : Z;
  f_layout : Z;
  f_ctime : Z * Z;
  f_mtime : Z * Z;
  f_attrs : gmap string string;
  f_link : string;
  f_unlinked : bool
}.

(** Modelled from the spec: the namespace view, "lookup/create/update/
    remove of containers and files by id and by name-in-parent"; the
    directory and file services are not part of FuseServer.cc.  The
    objects the services hand out are shared, so every change is made in
    the view itself, keyed by id. *)
Record Namespace := mkNs {
  ns_containers : gmap Z ContainerMD;
  ns_files : gmap Z FileMD;
  ns_next_cid : Z;
  ns_next_fid : Z
}.

Definition c_update (f : ContainerMD → ContainerMD) (id : Z) (ns : Namespace)
  : Namespace :=
  {| ns_containers := alter f id (ns_containers ns);
     ns_files := ns_files ns;
     ns_next_cid := ns_next_cid ns; ns_next_fid := ns_next_fid ns |}.

Definition f_update (f : FileMD → FileMD) (id : Z) (ns : Namespace)
  : Namespace :=
  {| ns_containers := ns_containers ns;
     ns_files := alter f id (ns_files ns);
     ns_next_cid := ns_next_cid ns; ns_next_fid := ns_next_fid ns |}.

Definition c_with_name (n : string) (c : ContainerMD) : ContainerMD :=
  {| c_id := c_id c; c_parent := c_parent c; c_name := n; c_uid := c_uid c;
     c_gid := c_gid c; c_mode := c_mode c; c_ctime := c_ctime c;
     c_mtime := c_mtime c; c_attrs := c_attrs c;
     c_containers := c_containers c; c_files := c_files c |}.

Definition c_with_parent (p : Z) (c : ContainerMD) : ContainerMD :=
  {| c_id := c_id c; c_parent := p; c_name := c_name c; c_uid := c_uid c;
     c_gid := c_gid c; c_mode := c_mode c; c_ctime := c_ctime c;
     c_mtime := c_mtime c; c_attrs := c_attrs c;
     c_containers := c_containers c; c_files := c_files c |}.

Definition c_with_owner (u g m : Z) (ct mt : Z * Z) (c : ContainerMD)
  : ContainerMD :=
  {| c_id := c_id c; c_parent := c_parent c; c_name := c_name c; c_uid := u;
     c_gid := g; c_mode := m; c_ctime := ct; c_mtime := mt;
     c_attrs := c_attrs c;
     c_containers := c_containers c; c_files := c_files c |}.

Definition c_with_mtime (mt : Z * Z) (c : ContainerMD) : ContainerMD :=
  {| c_id := c_id c; c_parent := c_parent c; c_name := c_name c;
     c_uid := c_uid c; c_gid := c_gid c; c_mode := c_mode c;
     c_ctime := c_ctime c; c_mtime := mt; c_attrs := c_attrs c;
     c_containers := c_containers c; c_files := c_files c |}.

Definition c_with_attrs (a : gmap string string) (c : ContainerMD)
  : ContainerMD :=
  {| c_id := c_id c; c_parent := c_parent c; c_name := c_name c;
     c_uid := c_uid c; c_gid := c_gid c; c_mode := c_mode c;
     c_ctime := c_ctime c; c_mtime := c_mtime c; c_attrs := a;
     c_containers := c_containers c; c_files := c_files c |}.

Definition c_with_containers (m : gmap string Z) (c : ContainerMD)
  : ContainerMD :=
  {| c_id := c_id c; c_parent := c_parent c; c_name := c_name c;
     c_uid := c_uid c; c_gid := c_gid c; c_mode := c_mode c;
     c_ctime := c_ctime c; c_mtime := c_mtime c; c_attrs := c_attrs c;
     c_containers := m; c_files := c_files c |}.

Definition c_with_files (m : gmap string Z) (c : ContainerMD)
  : ContainerMD :=
  {| c_id := c_id c; c_parent := c_parent c; c_name := c_name c;
     c_uid := c_uid c; c_gid := c_gid c; c_mode := c_mode c;
     c_ctime := c_ctime c; c_mtime := c_mtime c; c_attrs := c_attrs c;
     c_containers := c_containers c; c_files := m |}.

Definition f_with_name (n : string) (f : FileMD) : FileMD :=
  {| f_id := f_id f; f_container := f_container f; f_name := n;
     f_uid := f_uid f; f_gid := f_gid f; f_size := f_size f;
     f_flags := f_flags f; f_layout := f_layout f; f_ctime := f_ctime f;
     f_mtime := f_mtime f; f_attrs := f_attrs f; f_link := f_link f;
     f_unlinked := f_unlinked f |}.

Definition f_with_container (p : Z) (f : FileMD) : FileMD :=
  {| f_id := f_id f; f_container := p; f_name := f_name f;
     f_uid := f_uid f; f_gid := f_gid f; f_size := f_size f;
     f_flags := f_flags f; f_layout := f_layout f; f_ctime := f_ctime f;
     f_mtime := f_mtime f; f_attrs := f_attrs f; f_link := f_link f;
     f_unlinked := f_unlinked f |}.

Definition f_with_attrs (a : gmap string string) (f : FileMD) : FileMD :=
  {| f_id := f_id f; f_container := f_container f; f_name := f_name f;
     f_uid := f_uid f; f_gid := f_gid f; f_size := f_size f;
     f_flags := f_flags f; f_layout := f_layout f; f_ctime := f_ctime f;
     f_mtime := f_mtime f; f_attrs := a; f_link := f_link f;
     f_unlinked := f_unlinked f |}.

Definition f_with_meta (u g sz fl : Z) (ct mt : Z * Z) (f : FileMD)
  : FileMD :=
  {| f_id := f_id f; f_container := f_container f; f_name := f_name f;
     f_uid := u; f_gid := g; f_size := sz;
     f_flags := fl; f_layout := f_layout f; f_ctime := ct;
     f_mtime := mt; f_attrs := f_attrs f; f_link := f_link f;
     f_unlinked := f_unlinked f |}.

Definition f_with_layout (l : Z) (f : FileMD) : FileMD :=
  {| f_id := f_id f; f_container := f_container f; f_name := f_name f;
     f_uid := f_uid f; f_gid := f_gid f; f_size := f_size f;
     f_flags := f_flags f; f_layout := l; f_ctime := f_ctime f;
     f_mtime := f_mtime f; f_attrs := f_attrs f; f_link := f_link f;
     f_unlinked := f_unlinked f |}.

Definition f_with_link (l : string) (f : FileMD) : FileMD :=
  {| f_id := f_id f; f_container := f_container f; f_name := f_name f;
     f_uid := f_uid f; f_gid := f_gid f; f_size := f_size f;
     f_flags := f_flags f; f_layout := f_layout f; f_ctime := f_ctime f;
     f_mtime := f_mtime f; f_attrs := f_attrs f; f_link := l;
     f_unlinked := f_unlinked f |}.

Definition f_unlink_all (f : FileMD) : FileMD :=
  {| f_id := f_id f; f_container := f_container f; f_name := f_name f;
     f_uid := f_uid f; f_gid := f_gid f; f_size := f_size f;
     f_flags := f_flags f; f_layout := f_layout f; f_ctime := f_ctime f;
     f_mtime := f_mtime f; f_attrs := f_attrs f; f_link := f_link f;
     f_unlinked := true |}.

Definition new_container (id : Z) : ContainerMD :=
  {| c_id := id; c_parent := 0; c_name := ""; c_uid := 0; c_gid := 0;
     c_mode := 0; c_ctime := (0, 0); c_mtime := (0, 0); c_attrs := ∅;
     c_containers := ∅; c_files := ∅ |}.

Definition new_file (id : Z) : FileMD :=
  {| f_id := id; f_container := 0; f_name := ""; f_uid := 0; f_gid := 0;
     f_size := 0; f_flags := 0; f_layout := 0; f_ctime := (0, 0);
     f_mtime := (0, 0); f_attrs := ∅; f_link := ""; f_unlinked := false |}.

(** The extended attributes that carry hard links. *)
Definition k_mdino : string := "sys.eos.mdino".
Definition k_nlink : string := "sys.eos.nlink".

(** ** The request handler [FuseServer::HandleMD] *)

(** The answers of an evaluated [eos::mgm::Acl]. *)
Record Acl := mkAcl {
  HasAcl : bool;
  CanRead : bool;
  CanWrite : bool;
  CanWriteOnce : bool;
  CanBrowse : bool;
  CanNotDelete : bool;
  IsMutable : bool
}.

(** What the handler reads from its surroundings: the client registry,
    the clock, and the collaborators whose code is not part of
    FuseServer.cc. *)
Record Env := mkEnv {
  env_clients : Clients;
  env_now : timespec;
  (* cmd->access(vid.uid, vid.gid, mode) *)
  env_access : ContainerMD → VirtualIdentity → Z → bool;
  (* Acl acl(attrmap, vid) *)
  env_acl : gmap string string → VirtualIdentity → Acl;
  (* FsView::gFsView.IsQuotaEnabled(space) *)
  env_quota_enabled : bool;
  (* Quota::QuotaBySpace: the available files when it succeeds *)
  env_avail_files : option Z;
  (* Policy::GetLayoutAndSpace *)
  env_layoutId : Z;
  (* eos::common::FileId *)
  FidToInode : Z → Z;
  InodeToFid : Z → Z;
  IsFileInode : Z → bool;
  (* EOS_COMMON_PATH_ATOMIC_FILE_PREFIX *)
  atomic_prefix : string;
  (* Recycle::gRecyclingAttribute *)
  gRecyclingAttribute : string
}.

(** What a request may change: the namespace, the capability store, the
    [response] string, and the calls made so far. *)
Record St := mkSt {
  st_ns : Namespace;
  st_caps : Caps;
  st_response : option response;
  st_effects : list effect
}.

(** How a piece of the handler ends: with a value, by throwing an
    [eos::MDException], by a [return] statement, or by a [std::]
    exception that nothing catches. *)
Inductive outcome (A : Type) : Type :=
| Val (a : A) (s : St)
| Throw (e : MDException) (s : St)
| Return (rc : Z) (s : St)
| Abort (s : St).

Arguments Val {A} a s.
Arguments Throw {A} e s.
Arguments Return {A} rc s.
Arguments Abort {A} s.

Definition M (A : Type) : Type := St → outcome A.

#[global] Instance M_ret : MRet M := λ A a s, Val a s.

#[global] Instance M_bind : MBind M := λ A B f m s,
  match m s with
  | Val a s' => f a s'
  | Throw e s' => Throw e s'
  | Return rc s' => Return rc s'
  | Abort s' => Abort s'
  end.

Definition throw {A} (errno : Z) (msg : string) : M A :=
  λ s, Throw (mkExc errno msg) s.

Definition return_ {A} (rc : Z) : M A := λ s, Return rc s.

Definition abort {A} : M A := λ s, Abort s.

(** [try { m } catch (eos::MDException& e) { h e }] *)
Definition try_catch {A} (m : M A) (h : MDException → M A) : M A :=
  λ s, match m s with
       | Throw e s' => h e s'
       | o => o
       end.

Definition skip : M unit := λ s, Val () s.

Definition get_ns : M Namespace := λ s, Val (st_ns s) s.

Definition get_caps : M Caps := λ s, Val (st_caps s) s.

Definition modify_ns (f : Namespace → Namespace) : M unit :=
  λ s, Val () {| st_ns := f (st_ns s); st_caps := st_caps s;
                 st_response := st_response s;
                 st_effects := st_effects s |}.

Definition modify_caps (f : Caps → Caps) : M unit :=
  λ s, Val () {| st_ns := st_ns s; st_caps := f (st_caps s);
                 st_response := st_response s;
                 st_effects := st_effects s |}.

(** [resp.SerializeToString(response)] *)
Definition set_response (r : response) : M unit :=
  λ s, Val () {| st_ns := st_ns s; st_caps := st_caps s;
                 st_response := Some r;
                 st_effects := st_effects s |}.

Definition emit (l : list effect) : M unit :=
  λ s, Val () {| st_ns := st_ns s; st_caps := st_caps s;
                 st_response := st_response s;
                 st_effects := st_effects s ++ l |}.

(** *** Namespace operations *)

(** Modelled from the spec: [eosDirectoryService->getContainerMD], the
    lookup of a container by id; an unknown id raises [ENOENT]. *)
Definition getContainerMD (id : Z) : M ContainerMD :=
  λ s, match ns_containers (st_ns s) !! id with
       | Some c => Val c s
       | None => Throw (mkExc Errno.ENOENT "No such container") s
       end.

(** Modelled from the spec: [eosFileService->getFileMD], the lookup of a
    file by id; an unknown id raises [ENOENT]. *)
Definition getFileMD (id : Z) : M FileMD :=
  λ s, match ns_files (st_ns s) !! id with
       | Some f => Val f s
       | None => Throw (mkExc Errno.ENOENT "No such file") s
       end.

(** Reading through a pointer obtained earlier: the object as it is
    now. *)
Definition cmd_of (id : Z) : M ContainerMD :=
  λ s, Val (default (new_container id) (ns_containers (st_ns s) !! id)) s.

Definition fmd_of (id : Z) : M FileMD :=
  λ s, Val (default (new_file id) (ns_files (st_ns s) !! id)) s.

(** Modelled from the spec: [IContainerMD::removeContainer(name)] and
    [removeFile(name)], removal of an entry by name-in-parent. *)
Definition removeContainer (pid : Z) (name : string) : M unit :=
  modify_ns (c_update (λ c, c_with_containers (delete name (c_containers c)) c) pid).

Definition removeFile (pid : Z) (name : string) : M unit :=
  modify_ns (c_update (λ c, c_with_files (delete name (c_files c)) c) pid).

(** Modelled from the spec: [IContainerMD::addContainer] and [addFile]:
    the child is entered under its name and gets the parent's id. *)
Definition addContainer (pid cid : Z) : M unit :=
  c ← cmd_of cid;
  modify_ns (c_update (λ p, c_with_containers
                              (<[c_name c := cid]> (c_containers p)) p) pid);;
  modify_ns (c_update (c_with_parent pid) cid).

Definition addFile (pid fid : Z) : M unit :=
  f ← fmd_of fid;
  modify_ns (c_update (λ p, c_with_files
                              (<[f_name f := fid]> (c_files p)) p) pid);;
  modify_ns (f_update (f_with_container pid) fid).

(** Modelled from the spec: [eosDirectoryService->removeContainer] and
    [eosFileService->removeFile], removal of an object by id. *)
Definition service_removeContainer (cid : Z) : M unit :=
  modify_ns (λ ns, {| ns_containers := delete cid (ns_containers ns);
                      ns_files := ns_files ns;
                      ns_next_cid := ns_next_cid ns;
                      ns_next_fid := ns_next_fid ns |}).

Definition service_removeFile (fid : Z) : M unit :=
  modify_ns (λ ns, {| ns_containers := ns_containers ns;
                      ns_files := delete fid (ns_files ns);
                      ns_next_cid := ns_next_cid ns;
                      ns_next_fid := ns_next_fid ns |}).

(** Modelled from the spec: [createContainer] and [createFile], creation
    of a fresh object. *)
Definition createContainer : M Z :=
  λ s, let ns := st_ns s in
       let id := ns_next_cid ns in
       Val id {| st_ns := {| ns_containers :=
                               <[id := new_container id]> (ns_containers ns);
                             ns_files := ns_files ns;
                             ns_next_cid := id + 1;
                             ns_next_fid := ns_next_fid ns |};
                 st_caps := st_caps s; st_response := st_response s;
                 st_effects := st_effects s |}.

Definition createFile : M Z :=
  λ s, let ns := st_ns s in
       let id := ns_next_fid ns in
       Val id {| st_ns := {| ns_containers := ns_containers ns;
                             ns_files := <[id := new_file id]> (ns_files ns);
                             ns_next_cid := ns_next_cid ns;
                             ns_next_fid := id + 1 |};
                 st_caps := st_caps s; st_response := st_response s;
                 st_effects := st_effects s |}.

(** Modelled from the spec: [eosView->renameContainer] and
    [renameFile]: the entry of the parent moves to the new name. *)
Definition renameContainer (cid : Z) (name : string) : M unit :=
  c ← cmd_of cid;
  removeContainer (c_parent c) (c_name c);;
  modify_ns (c_update (c_with_name name) cid);;
  modify_ns (c_update (λ p, c_with_containers
                              (<[name := cid]> (c_containers p)) p)
               (c_parent c)).

Definition renameFile (fid : Z) (name : string) : M unit :=
  f ← fmd_of fid;
  removeFile (f_container f) (f_name f);;
  modify_ns (f_update (f_with_name name) fid);;
  modify_ns (c_update (λ p, c_with_files (<[name := fid]> (c_files p)) p)
               (f_container f)).

(** Modelled from the spec: [IFileMD::getAttribute]; a missing attribute
    raises [ENOENT]. *)
Definition getAttribute (fid : Z) (key : string) : M string :=
  f ← fmd_of fid;
  match f_attrs f !! key with
  | Some v => mret v
  | None => throw Errno.ENOENT "Attribute not found"
  end.

Definition hasAttribute (fid : Z) (key : string) : M bool :=
  f ← fmd_of fid;
  mret (bool_decide (is_Some (f_attrs f !! key))).

Definition setAttribute (fid : Z) (key val : string) : M unit :=
  modify_ns (f_update (λ f, f_with_attrs (<[key := val]> (f_attrs f)) f) fid).

(** *** Permissions and capabilities *)

(** [FuseServer::ValidatePERM]: permissions re-derived from the container
    [md.md_pino()].  A failing lookup is caught inside and gives
    [false]. *)
Definition ValidatePERM (env : Env) (ns : Namespace) (md : md)
  (mode : string) (vid : VirtualIdentity) : bool :=
  match ns_containers ns !! md_pino md with
  | None => false
  | Some cmd =>
      let r_ok := env_access env cmd vid Mode.R_OK in
      let w_ok := env_access env cmd vid Mode.W_OK in
      let d_ok := w_ok in
      let acl := env_acl env (c_attrs cmd) vid in
      let '(r_ok, w_ok, d_ok) :=
        if HasAcl acl then
          let w_ok := if CanWrite acl then true else w_ok in
          let d_ok := if CanWrite acl then true else d_ok in
          let w_ok :=
            if negb (CanWrite acl || CanWriteOnce acl) then false else w_ok in
          let d_ok := if CanNotDelete acl then false else d_ok in
          let r_ok := if CanRead acl then true else r_ok in
          let w_ok := if negb (IsMutable acl) then false else w_ok in
          let d_ok := if negb (IsMutable acl) then false else d_ok in
          (r_ok, w_ok, d_ok)
        else (r_ok, w_ok, d_ok) in
      let accperm :=
        ("R" ++ (if r_ok then "R" else "")
             ++ (if w_ok then "WCKNV" else "")
             ++ (if d_ok then "D" else ""))%string in
      Str.contains mode accperm
  end.

(** [source_md]: a request that only names the parent to check. *)
Definition source_md (pino : Z) : md :=
  {| md_operation := GET; md_type := MD; md_ino := 0; md_pino := pino;
     md_name := ""; md_clientid := ""; md_clientuuid := "";
     md_authid := ""; md_implied_authid := ""; md_mv_authid := "";
     md_reqid := 0; md_uid := 0; md_gid := 0; md_mode := Mode.S_IFDIR;
     md_ctime := 0; md_ctime_ns := 0; md_mtime := 0; md_mtime_ns := 0;
     md_btime := 0; md_btime_ns := 0; md_pmtime := 0; md_pmtime_ns := 0;
     md_size := 0; md_target := ""; md_attr := ∅ |}.

(** [Caps::Imply] *)
Definition Imply (cl : Clients) (ts : timespec) (md_ino : Z)
  (authid implied_authid : string) (s : Caps) : bool * Caps :=
  let cap := Get authid s in
  if (cap_id cap =? 0) || (String.length implied_authid =? 0)%nat
  then (false, s)
  else
    let lt := leasetime cl (cap_clientuuid cap) in
    let vt := Int.add64 (tv_sec ts) (if lt =? 0 then 300 else lt) in
    let implied_cap :=
      {| cap_id := md_ino; cap_mode := cap_mode cap; cap_vtime := vt;
         cap_vtime_ns := tv_nsec ts; cap_uid := cap_uid cap;
         cap_gid := cap_gid cap; cap_authid := implied_authid;
         cap_clientid := cap_clientid cap;
         cap_clientuuid := cap_clientuuid cap;
         cap_quota := cap_quota cap;
         cap_max_file_size := cap_max_file_size cap;
         cap_vid := cap_vid cap |} in
    (true,
     {| mTimeOrderedCap :=
          multimap_insert vt implied_authid (mTimeOrderedCap s);
        mClientCaps :=
          set_insert_at (cap_clientid cap) implied_authid (mClientCaps s);
        mClientInoCaps :=
          set_insert_at (cap_clientid cap) md_ino (mClientInoCaps s);
        mCaps := <[implied_authid := implied_cap]> (mCaps s);
        mInodeCaps := set_insert_at md_ino implied_authid (mInodeCaps s) |}).

(** [Caps::BroadcastDeletion]: the capabilities [DeleteEntry] is called
    for.  The loop runs over the inode of the reference capability and
    skips the auth-id of the reference capability. *)
Definition BroadcastDeletion (s : Caps) (md : md) : list capx :=
  let refcap := Get (md_authid md) s in
  match mInodeCaps s !! cap_id refcap with
  | Some X => release_loop s (cap_authid refcap) refcap (set_order X) []
  | None => []
  end.

Definition bc_release (md : md) : M unit :=
  caps ← get_caps;
  emit (CallReleaseCAP <$> BroadcastRelease caps md).

Definition bc_deletion (md : md) (name : string) : M unit :=
  caps ← get_caps;
  emit ((λ c, CallDeleteEntry c name) <$> BroadcastDeletion caps md).

Definition bc_md (md : md) (ino pino : Z) : M unit :=
  caps ← get_caps;
  emit ((λ c, CallSendMD c ino pino) <$> BroadcastMD caps md pino).

(** The capability check in front of a mutation, with the fall-back to
    [ValidatePERM] when the capability is gone, foreign or timed out. *)
Definition check_cap (env : Env) (vid : VirtualIdentity) (md : md)
  (mode : Z) (perm : string) : M unit :=
  caps ← get_caps;
  ns ← get_ns;
  match ValidateCAP caps md mode (tv_sec (env_now env)) with
  | (Some _, _) => skip
  | (None, errno) =>
      if ((errno =? Errno.ENOENT) || (errno =? Errno.EINVAL)
          || (errno =? Errno.ETIMEDOUT))
         && ValidatePERM env ns md perm vid
      then skip
      else return_ Errno.EPERM
  end.

Inductive set_type := CREATE | UPDATE | RENAME | MOVE.

#[global] Instance set_type_eq_dec : EqDecision set_type.
Proof. solve_decision. Defined.

Definition ack_ok (md : md) (ino : Z) : response :=
  RSP_ACK {| ack_code_ := ACK_OK; ack_err_no := 0; ack_err_msg := "";
             ack_transactionid := md_reqid md; ack_md_ino := ino |}.

(** The acknowledgement built in the [catch] blocks. *)
Definition ack_failure (md : md) (err_no : Z) (err_msg : string) : response :=
  RSP_ACK {| ack_code_ := PERMANENT_FAILURE; ack_err_no := err_no;
             ack_err_msg := err_msg;
             ack_transactionid := md_reqid md; ack_md_ino := 0 |}.

Definition on_exception (md : md) (e : MDException) : M unit :=
  set_response (ack_failure md (e_errno e) (e_msg e)).

Definition has_atomic_prefix (env : Env) (name : string) : bool :=
  String.eqb (Str.substr0 (String.length (atomic_prefix env)) name)
             (atomic_prefix env).

(** ["%lu.%lu"] of the birth time *)
Definition btime_string (md : md) : string :=
  (Str.to_string (md_btime md) ++ "." ++ Str.to_string (md_btime_ns md))%string.

(** The attributes of the request that a directory takes over. *)
Definition dir_attr_kept (key : string) : bool :=
  negb (String.eqb (Str.substr0 3 key) "sys") || String.eqb key "sys.eos.btime".

(** *** SET on a directory *)

Definition set_dir_move (env : Env) (vid : VirtualIdentity) (md : md)
  (cmd : ContainerMD) : M set_type :=
  ns ← get_ns;
  if negb (ValidatePERM env ns (source_md (c_parent cmd)) "W" vid)
  then return_ Errno.EPERM
  else
    _ ← getContainerMD (c_parent cmd);
    removeContainer (c_parent cmd) (c_name cmd);;
    modify_ns (c_update (c_with_name (md_name md)) (md_ino md));;
    try_catch
      (pcmd ← cmd_of (md_pino md);
       match c_containers pcmd !! md_name md with
       | Some ex =>
           target ← cmd_of ex;
           if negb (size (c_files target) + size (c_containers target)
                    =? 0)%nat
           then return_ Errno.ENOTEMPTY
           else
             service_removeContainer ex;;
             removeContainer (md_pino md) (md_name md)
       | None => skip
       end)
      (λ _, skip);;
    addContainer (md_pino md) (md_ino md);;
    mret MOVE.

Definition set_dir_existing (env : Env) (vid : VirtualIdentity) (md : md)
  : M (set_type * Z * Z) :=
  if negb (String.length (md_implied_authid md) =? 0)%nat
  then return_ Errno.EEXIST
  else
    cmd ← getContainerMD (md_ino md);
    _ ← getContainerMD (md_pino md);
    op ← (if negb (c_parent cmd =? md_pino md)
          then set_dir_move env vid md cmd
          else mret UPDATE);
    cmd ← cmd_of (md_ino md);
    op ← (if negb (String.eqb (c_name cmd) (md_name md))
          then renameContainer (md_ino md) (md_name md);; mret RENAME
          else mret op);
    pcmd ← cmd_of (md_pino md);
    mret (op, md_ino md,
          if Z.land (c_mode pcmd) Mode.S_ISGID =? 0 then 0 else Mode.S_ISGID).

Definition set_dir_create (env : Env) (md : md) (exclusive : bool)
  : M (set_type * Z * Z) :=
  pcmd ← getContainerMD (md_pino md);
  if has_atomic_prefix env (md_name md) then return_ Errno.EPERM
  else if exclusive
          && bool_decide (is_Some (c_containers pcmd !! md_name md))
  then return_ Errno.EEXIST
  else
    id ← createContainer;
    modify_ns (c_update (c_with_name (md_name md)) id);;
    addContainer (md_pino md) id;;
    modify_caps (λ caps, (Imply (env_clients env) (env_now env) id
                            (md_authid md) (md_implied_authid md) caps).2);;
    modify_ns (c_update (λ c, c_with_attrs (c_attrs pcmd ∪ c_attrs c) c) id);;
    mret (CREATE, id, Mode.S_ISGID).

(** What a directory takes over from the request, once [cmd] is settled. *)
Definition set_dir_fields (md : md) (op : set_type) (ino sgid_mode : Z)
  : M unit :=
  modify_ns (c_update (c_with_name (md_name md)) ino);;
  modify_ns (c_update (c_with_owner (md_uid md) (md_gid md)
                         (Z.lor (md_mode md) sgid_mode)
                         (md_ctime md, md_ctime_ns md)
                         (md_mtime md, md_mtime_ns md)) ino);;
  modify_ns (c_update (λ c, c_with_attrs
               (filter (λ kv : string * string, dir_attr_kept kv.1 = true)
                  (md_attr md) ∪ c_attrs c) c) ino);;
  cmd ← cmd_of ino;
  (if negb (bool_decide (op = CREATE))
      && negb (size (c_attrs cmd) =? size (md_attr md))%nat
   then modify_ns (c_update (λ c, c_with_attrs
                     (filter (λ kv : string * string,
                                is_Some (md_attr md !! kv.1))
                        (c_attrs c)) c) ino)
   else skip);;
  (if bool_decide (op = CREATE)
   then modify_ns (c_update (λ c, c_with_attrs
                     (<["sys.eos.btime"%string := btime_string md]>
                        (c_attrs c)) c) ino)
   else skip);;
  (if negb (bool_decide (op = UPDATE)) && negb (md_pmtime md =? 0)
   then modify_ns (c_update (c_with_mtime (md_pmtime md, md_pmtime_ns md))
                     (md_pino md))
   else skip).

(** The acknowledgement and the broadcasts that end a successful SET on
    a directory. *)
Definition set_dir_finish (md : md) (op : set_type) (ino : Z) : M unit :=
  set_response (ack_ok md ino);;
  (if bool_decide (op = MOVE)
   then bc_release (md_with_authid (md_mv_authid md))
   else skip);;
  bc_release md.

(** The [try] block of the directory branch. *)
Definition set_dir_body (env : Env) (vid : VirtualIdentity) (md : md)
  : M unit :=
  let exclusive := bool_decide (md_type md = EXCL) in
  if negb (md_ino md =? 0) && exclusive then return_ Errno.EEXIST
  else
    r ← (if negb (md_ino md =? 0) then set_dir_existing env vid md
         else set_dir_create env md exclusive);
    set_dir_fields md r.1.1 r.1.2 r.2;;
    set_dir_finish md r.1.1 r.1.2.

Definition set_dir (env : Env) (vid : VirtualIdentity) (md : md) : M unit :=
  try_catch (set_dir_body env vid md) (on_exception md).

(** *** SET on a file *)

(** "the target might exist, so we remove it" *)
Definition remove_previous (md : md) : M unit :=
  pcmd ← cmd_of (md_pino md);
  match c_files pcmd !! md_name md with
  | Some ofmd =>
      try_catch
        (removeFile (md_pino md) (md_name md);;
         service_removeFile ofmd)
        (λ _, skip)
  | None => skip
  end.

Definition set_file_existing (md : md) (fid : Z) : M set_type :=
  fmd ← getFileMD fid;
  _ ← getContainerMD (md_pino md);
  if negb (f_container fmd =? md_pino md) then
    _ ← getContainerMD (f_container fmd);
    removeFile (f_container fmd) (f_name fmd);;
    modify_ns (f_update (f_with_name (md_name md)) fid);;
    remove_previous md;;
    addFile (md_pino md) fid;;
    mret MOVE
  else if negb (String.eqb (f_name fmd) (md_name md)) then
    remove_previous md;;
    renameFile fid (md_name md);;
    mret RENAME
  else mret UPDATE.

(** The creation of a hard link: target ["////hlnk<inode>"]. *)
(** The inode named by a hard-link target string. *)
Definition hardlink_inode (target : string) : Z :=
  Int.wrap64 (Str.atoll (Str.drop 8 target)).

(** The new link count of the target: one more than the attribute says,
    or one. *)
Definition next_nlink (tfid : Z) : M Z :=
  has ← hasAttribute tfid k_nlink;
  if has : bool then
    v ← getAttribute tfid k_nlink;
    match Str.stoi v with
    | Some n => mret (n + 1)
    | None => abort
    end
  else mret 1.

(** The namespace part of creating a hard link; the result is the new
    link entry. *)
Definition hardlink_entry (env : Env) (md : md) : M Z :=
  let tgt_md_ino := hardlink_inode (md_target md) in
  pcmd ← getContainerMD (md_pino md);
  if bool_decide (is_Some (c_containers pcmd !! md_name md))
  then return_ Errno.EEXIST
  else
    let tfid := InodeToFid env tgt_md_ino in
    _ ← getFileMD tfid;
    gmd ← createFile;
    nlink ← next_nlink tfid;
    setAttribute tfid k_nlink (Str.to_string nlink);;
    setAttribute gmd k_mdino (Str.to_string tgt_md_ino);;
    modify_ns (f_update (f_with_name (md_name md)) gmd);;
    addFile (md_pino md) gmd;;
    mret gmd.

Definition set_file_hardlink (env : Env) (md : md) : M unit :=
  gmd ← hardlink_entry env md;
  set_response (ack_ok md (FidToInode env gmd));;
  bc_md md (hardlink_inode (md_target md)) (md_pino md);;
  return_ 0.

Definition set_file_create (env : Env) (md : md) : M Z :=
  if has_atomic_prefix env (md_name md) then return_ Errno.EPERM
  else
    (if env_quota_enabled env then
       match env_avail_files env with
       | Some avail_files =>
           if avail_files =? 0 then return_ Errno.EDQUOT else skip
       | None => skip
       end
     else skip);;
    fmd ← createFile;
    modify_ns (f_update (f_with_name (md_name md)) fmd);;
    modify_ns (f_update (f_with_layout (env_layoutId env)) fmd);;
    addFile (md_pino md) fmd;;
    mret fmd.

Definition is_hardlink_target (target : string) : bool :=
  String.eqb (Str.substr0 8 target) "////hlnk".

(** What a file takes over from the request, once [fmd] is settled. *)
Definition set_file_fields (env : Env) (md : md) (op : set_type)
  (fmd ino : Z) : M unit :=
  modify_ns (f_update (f_with_name (md_name md)) fmd);;
  modify_ns (f_update (f_with_meta (md_uid md) (md_gid md) (md_size md)
                         (Z.land (md_mode md) 511)
                         (md_ctime md, md_ctime_ns md)
                         (md_mtime md, md_mtime_ns md)) fmd);;
  (if negb (bool_decide (op = UPDATE))
   then modify_ns (c_update (c_with_mtime (md_mtime md, md_mtime_ns md))
                     (md_pino md))
   else skip);;
  modify_ns (f_update (f_with_attrs
               (<["sys.eos.btime"%string := btime_string md]>
                  (md_attr md))) fmd);;
  _ ← getFileMD (InodeToFid env ino);
  skip.

Definition set_file_finish (md : md) (ino : Z) : M unit :=
  set_response (ack_ok md ino);;
  bc_md md ino (md_pino md).

(** The [try] block of the file branch. *)
Definition set_file_body (env : Env) (md : md) : M unit :=
  let exclusive := bool_decide (md_type md = EXCL) in
  let fid := InodeToFid env (md_ino md) in
  _ ← getContainerMD (md_pino md);
  if negb (md_ino md =? 0) && exclusive then return_ Errno.EEXIST
  else if negb (md_ino md =? 0) then
    op ← set_file_existing md fid;
    set_file_fields env md op fid (md_ino md);;
    set_file_finish md (md_ino md)
  else if is_hardlink_target (md_target md) then
    set_file_hardlink env md
  else
    fmd ← set_file_create env md;
    set_file_fields env md CREATE fmd (FidToInode env fmd);;
    set_file_finish md (FidToInode env fmd).

Definition set_file (env : Env) (md : md) : M unit :=
  try_catch (set_file_body env md) (on_exception md).

(** *** SET on a symbolic link *)

Definition set_link_fields (env : Env) (md : md) (op : set_type) (fmd : Z)
  : M unit :=
  modify_ns (f_update (f_with_name (md_name md)) fmd);;
  (if Mode.S_ISLNK (md_mode md)
   then modify_ns (f_update (f_with_link (md_target md)) fmd)
   else skip);;
  modify_ns (f_update (f_with_layout 0) fmd);;
  (if bool_decide (op = CREATE) then addFile (md_pino md) fmd
   else skip);;
  modify_ns (f_update (f_with_meta (md_uid md) (md_gid md)
                         (Z.of_nat (String.length (md_target md)))
                         (Z.land (md_mode md) 511)
                         (md_ctime md, md_ctime_ns md)
                         (md_mtime md, md_mtime_ns md)) fmd);;
  modify_ns (f_update (f_with_attrs
               (if bool_decide (op = CREATE)
                then {[ "sys.eos.btime"%string := btime_string md ]}
                else ∅)) fmd);;
  modify_ns (c_update (c_with_mtime (md_mtime md, md_mtime_ns md))
               (md_pino md)).

(** The [try] block of the link branch. *)
Definition set_link_body (env : Env) (md : md) : M unit :=
  let exclusive := bool_decide (md_type md = EXCL) in
  pcmd ← getContainerMD (md_pino md);
  let found := c_files pcmd !! md_name md in
  if bool_decide (is_Some found) && exclusive then return_ Errno.EEXIST
  else
    r ← match found with
        | Some fmd => mret (UPDATE, fmd)
        | None =>
            if has_atomic_prefix env (md_name md) then return_ Errno.EPERM
            else fmd ← createFile; mret (CREATE, fmd)
        end;
    set_link_fields env md r.1 r.2;;
    set_file_finish md (FidToInode env r.2).

Definition set_link (env : Env) (md : md) : M unit :=
  try_catch (set_link_body env md) (on_exception md).

(** The [SET] block of [HandleMD]. *)
Definition HandleMD_SET (env : Env) (vid : VirtualIdentity) (md : md)
  : M unit :=
  check_cap env vid md (Z.lor Mode.W_OK Mode.SA_OK) "W";;
  if Mode.S_ISDIR (md_mode md) then
    set_dir env vid md;; return_ 0
  else if Mode.S_ISREG (md_mode md) || Mode.S_ISFIFO (md_mode md) then
    set_file env md;; return_ 0
  else if Mode.S_ISLNK (md_mode md) || Mode.S_ISFIFO (md_mode md) then
    set_link env md;; return_ 0
  else skip.

(** *** DELETE *)

(** ["...eos.ino...%lx"]: the name that shelters a file whose last name
    is deleted while hard links remain. *)
Definition shelter_name (fid : Z) : string :=
  ("...eos.ino..."
   ++ HexadecimalString.NilZero.string_of_uint (N.to_hex_uint (Z.to_N fid)))%string.

(** The acknowledgement and the broadcasts that end a successful
    DELETE. *)
Definition delete_finish (md : md) (name : string) : M unit :=
  set_response (ack_ok md 0);;
  bc_release md;;
  bc_deletion md name;;
  modify_caps (λ caps, (Delete (md_ino md) caps).2);;
  return_ 0.

Definition unlink_file (pino fid : Z) (name : string) : M unit :=
  removeFile pino name;;
  modify_ns (f_update (f_with_container 0) fid);;
  modify_ns (f_update f_unlink_all fid).

(** The file being deleted is a link entry: the counter of the target
    goes down, or the target goes as well. *)
Definition delete_link_entry (env : Env) (md : md) (fid : Z) : M unit :=
  v ← getAttribute fid k_mdino;
  match Str.stoll v with
  | None => abort
  | Some tgt =>
      let gfid := InodeToFid env (Int.wrap64 tgt) in
      gmd ← getFileMD gfid;
      n ← getAttribute gfid k_nlink;
      match Str.stol n with
      | None => abort
      | Some n =>
          let nlink := n - 1 in
          if 0 <=? nlink
          then setAttribute gfid k_nlink (Str.to_string nlink)
          else unlink_file (md_pino md) gfid (f_name gmd)
      end
  end.

(** The file being deleted may be the target of hard links; the result
    is [doDelete]. *)
Definition delete_link_target (md : md) (fid : Z) : M bool :=
  n ← getAttribute fid k_nlink;
  match Str.stol n with
  | None => abort
  | Some n =>
      let nlink := n - 1 in
      if 0 <=? nlink then
        setAttribute fid k_nlink (Str.to_string nlink);;
        removeFile (md_pino md) (shelter_name fid);;
        renameFile fid (shelter_name fid);;
        mret false
      else mret true
  end.

(** The namespace part of deleting a regular file. *)
Definition delete_file_ns (env : Env) (md : md) (pcmd : ContainerMD)
  (fid : Z) : M unit :=
  has_mdino ← hasAttribute fid k_mdino;
  has_nlink ← hasAttribute fid k_nlink;
  if bool_decide (is_Some (c_attrs pcmd !! gRecyclingAttribute env))
     && negb has_mdino && negb has_nlink
  then emit [WriteRecycleRecord fid; CallRem fid]
  else
    doDelete ←
      (if has_mdino : bool then delete_link_entry env md fid;; mret true
       else if has_nlink : bool then delete_link_target md fid
       else mret true);
    if doDelete : bool then
      fmd ← fmd_of fid;
      unlink_file (md_pino md) fid (f_name fmd);;
      emit [WriteRmRecord fid]
    else skip.

Definition delete_file (env : Env) (md : md) (pcmd : ContainerMD) (fid : Z)
  : M unit :=
  delete_file_ns env md pcmd fid;;
  delete_finish md (md_name md).

(** The [try] block of the [DELETE] branch. *)
Definition delete_body (env : Env) (md : md) : M unit :=
  pcmd ← getContainerMD (md_pino md);
  let fid := InodeToFid env (md_ino md) in
  (if Mode.S_ISDIR (md_mode md)
   then _ ← getContainerMD (md_ino md); skip
   else _ ← getFileMD fid; skip);;
  modify_ns (c_update (c_with_mtime (md_mtime md, md_mtime_ns md))
               (md_pino md));;
  if Mode.S_ISDIR (md_mode md) then
    cmd ← cmd_of (md_ino md);
    if negb (size (c_containers cmd) =? 0)%nat
       || negb (size (c_files cmd) =? 0)%nat
    then
      set_response (ack_failure md Errno.ENOTEMPTY "directory not empty");;
      return_ 0
    else
      removeContainer (md_pino md) (c_name cmd);;
      service_removeContainer (md_ino md);;
      delete_finish md (c_name cmd)
  else if Mode.S_ISREG (md_mode md) || Mode.S_ISFIFO (md_mode md) then
    delete_file env md pcmd fid
  else if Mode.S_ISLNK (md_mode md) then
    fmd ← fmd_of fid;
    unlink_file (md_pino md) fid (f_name fmd);;
    delete_finish md (md_name md)
  else skip.

(** The [DELETE] block of [HandleMD]. *)
Definition HandleMD_DELETE (env : Env) (vid : VirtualIdentity) (md : md)
  : M unit :=
  check_cap env vid md Mode.D_OK "D";;
  try_catch (delete_body env md) (λ e, on_exception md e;; return_ 0).

(** How a call of [HandleMD] ends. *)
Inductive handled :=
| Returned (rc : Z) (s : St)
| Uncaught (s : St).

(** Running a block of [HandleMD]; behind the blocks the function ends
    with [return 0]. *)
Definition run (m : M unit) (s : St) : handled :=
  match m s with
  | Val _ s' => Returned 0 s'
  | Return rc s' => Returned rc s'
  | Throw _ s' => Uncaught s'
  | Abort s' => Uncaught s'
  end.

(** [FuseServer::HandleMD] for the two mutating operations. *)
Definition HandleMD (env : Env) (vid : VirtualIdentity) (md : md) (s : St)
  : handled :=
  match md_operation md with
  | SET => run (HandleMD_SET env vid md) s
  | DELETE => run (HandleMD_DELETE env vid md) s
  | _ => Returned 0 s
  end.

(** *** LS: attaching the children *)

(** The loop of the [LS] branch over the children map, as calls made for
    each child [(name, inode)]; [n_caps] counts the capabilities asked
    for so far. *)
Fixpoint ls_children (env : Env) (children : list (string * Z))
  (n_caps : nat) : list effect :=
  match children with
  | [] => []
  | it :: r =>
      if IsFileInode env it.2
      then CallFillFileMD it.2 :: ls_children env r n_caps
      else
        CallFillContainerMD it.2 ::
        (if (n_caps <? 16)%nat then
           if String.eqb (Str.substr0 1 it.1) "."
           then CallFillContainerCAP it.2 :: ls_children env r (S n_caps)
           else ls_children env r n_caps
         else ls_children env r n_caps)
  end.

(** The inodes for which [FillContainerCAP] is called. *)
Fixpoint cap_calls (l : list effect) : list Z :=
  match l with
  | [] => []
  | CallFillContainerCAP i :: r => i :: cap_calls r
  | _ :: r => cap_calls r
  end.

(** The children for which a capability is asked. *)
Definition ls_caps (env : Env) (children : list (string * Z)) : list Z :=
  cap_calls (ls_children env children 0).

Definition hidden (name : string) : bool :=
  String.eqb (Str.substr0 1 name) ".".

(** *** Test data *)

(** File inodes are file ids shifted by 28 bits. *)
Definition env0 (cl : Clients) (now : Z)
  (access : ContainerMD → VirtualIdentity → Z → bool) : Env :=
  {| env_clients := cl;
     env_now := mkTs now 0;
     env_access := access;
     env_acl := λ _ _, mkAcl false false false false false false true;
     env_quota_enabled := false;
     env_avail_files := None;
     env_layoutId := 0;
     FidToInode := λ fid, Z.shiftl fid 28;
     InodeToFid := λ ino, Z.shiftr ino 28;
     IsFileInode := λ ino, 268435456 <=? ino;
     atomic_prefix := ".sys.a#.";
     gRecyclingAttribute := "sys.recycle" |}.

Definition mk_dir (id parent : Z) (name : string)
  (dirs files : gmap string Z) : ContainerMD :=
  {| c_id := id; c_parent := parent; c_name := name; c_uid := 0; c_gid := 0;
     c_mode := 16877; c_ctime := (0, 0); c_mtime := (0, 0); c_attrs := ∅;
     c_containers := dirs; c_files := files |}.

Definition mk_file (id parent : Z) (name : string)
  (attrs : gmap string string) : FileMD :=
  {| f_id := id; f_container := parent; f_name := name; f_uid := 0;
     f_gid := 0; f_size := 0; f_flags := 420; f_layout := 0;
     f_ctime := (0, 0); f_mtime := (0, 0); f_attrs := attrs; f_link := "";
     f_unlinked := false |}.

(** Root 1 with the directories "P1" (2) and "P2" (3); the file "f"
    (id 5) lies in "P1" and the directory "d" (4) as well. *)
Definition ns1 : Namespace :=
  {| ns_containers :=
       {[ 1 := mk_dir 1 1 "" {[ "P1"%string := 2; "P2"%string := 3 ]} ∅;
          2 := mk_dir 2 1 "P1" {[ "d"%string := 4 ]} {[ "f"%string := 5 ]};
          3 := mk_dir 3 1 "P2" ∅ ∅;
          4 := mk_dir 4 2 "d" ∅ ∅ ]};
     ns_files := {[ 5 := mk_file 5 2 "f" ∅ ]};
     ns_next_cid := 10; ns_next_fid := 10 |}.

(** Client A ("a1") and client B ("b1") hold write capabilities on
    "P2"; nobody holds one on "P1". *)
Definition caps1 : Caps :=
  Store (mk_cap "b1" 3 "idB" "uB" 66 100000) None
    (Store (mk_cap "a1" 3 "idA" "uA" 66 100000) None Caps_empty).

Definition vidA : VirtualIdentity := mkVid 1000 1000 false.

(** Write access by mode bits on "P2" only. *)
Definition access_P2 (c : ContainerMD) (v : VirtualIdentity) (m : Z) : bool :=
  c_id c =? 3.

Definition env1 : Env := env0 (mk_registry ∅ ∅) 1000 access_P2.

Definition state1 : St :=
  {| st_ns := ns1; st_caps := caps1; st_response := None;
     st_effects := [] |}.

Definition mk_set (ino pino : Z) (name authid : string) (mode : Z)
  (target : string) : md :=
  {| md_operation := SET; md_type := MD; md_ino := ino; md_pino := pino;
     md_name := name; md_clientid := "idA"; md_clientuuid := "uA";
     md_authid := authid; md_implied_authid := ""; md_mv_authid := "";
     md_reqid := 77; md_uid := 1000; md_gid := 1000; md_mode := mode;
     md_ctime := 10; md_ctime_ns := 0; md_mtime := 10; md_mtime_ns := 0;
     md_btime := 10; md_btime_ns := 0; md_pmtime := 0; md_pmtime_ns := 0;
     md_size := 0; md_target := target; md_attr := ∅ |}.

Definition mk_delete (ino pino : Z) (name authid : string) (mode : Z) : md :=
  {| md_operation := DELETE; md_type := MD; md_ino := ino; md_pino := pino;
     md_name := name; md_clientid := "idA"; md_clientuuid := "uA";
     md_authid := authid; md_implied_authid := ""; md_mv_authid := "";
     md_reqid := 78; md_uid := 1000; md_gid := 1000; md_mode := mode;
     md_ctime := 10; md_ctime_ns := 0; md_mtime := 10; md_mtime_ns := 0;
     md_btime := 10; md_btime_ns := 0; md_pmtime := 0; md_pmtime_ns := 0;
     md_size := 0; md_target := ""; md_attr := ∅ |}.

(** MOVE of the file "f" (inode [5 << 28]) from "P1" to "P2", and MOVE
    of the directory "d" from "P1" to "P2". *)
Definition move_file : md := mk_set (Z.shiftl 5 28) 3 "f" "a1" 33188 "".
Definition move_dir : md := mk_set 4 3 "d" "a1" 16877 "".

(** The subdirectories among the children whose names begin with a
    dot, and those whose names do not. *)
Definition hidden_dirs (env : Env) (children : list (string * Z)) : list Z :=
  (List.filter (λ it : string * Z, negb (IsFileInode env it.2) && hidden it.1)
     children).*2.

Definition visible_dirs (env : Env) (children : list (string * Z)) : list Z :=
  (List.filter (λ it : string * Z,
                  negb (IsFileInode env it.2) && negb (hidden it.1))
     children).*2.

(** A listing with the visible subdirectory "a" (11), the hidden
    subdirectory ".b" (12) and the file "f". *)
Definition children1 : list (string * Z) :=
  [("a"%string, 11); (".b"%string, 12); ("f"%string, Z.shiftl 5 28)].

(** *** How a block treats the response *)

Definition final_state {A} (o : outcome A) : St :=
  match o with
  | Val _ s | Throw _ s | Return _ s | Abort s => s
  end.

(** [m] never writes the response. *)
Definition silent {A} (m : M A) : Prop :=
  ∀ s, st_response (final_state (m s)) = st_response s.

(** [m] neither throws nor returns an error code. *)
Definition finishing {A} (m : M A) : Prop :=
  ∀ s, match m s with
       | Return rc _ => rc = 0
       | Throw _ _ => False
       | _ => True
       end.

(** When [m] returns an error code, it has not written the response. *)
Definition returns_unanswered {A} (m : M A) : Prop :=
  ∀ s rc s', m s = Return rc s' → rc ≠ 0 → st_response s' = st_response s.

Definition with_response (r : response) (s : St) : St :=
  {| st_ns := st_ns s; st_caps := st_caps s; st_response := Some r;
     st_effects := st_effects s |}.

(** The capability check in front of the mutation, and the [try] block
    that the operation and the file type select. *)
Definition cap_check (env : Env) (vid : VirtualIdentity) (md : md) : M unit :=
  match md_operation md with
  | DELETE => check_cap env vid md Mode.D_OK "D"
  | _ => check_cap env vid md (Z.lor Mode.W_OK Mode.SA_OK) "W"
  end.

Definition try_block (env : Env) (vid : VirtualIdentity) (md : md)
  : option (M unit) :=
  match md_operation md with
  | SET =>
      if Mode.S_ISDIR (md_mode md) then Some (set_dir_body env vid md)
      else if Mode.S_ISREG (md_mode md) || Mode.S_ISFIFO (md_mode md)
      then Some (set_file_body env md)
      else if Mode.S_ISLNK (md_mode md) || Mode.S_ISFIFO (md_mode md)
      then Some (set_link_body env md)
      else None
  | DELETE => Some (delete_body env md)
  | _ => None
  end.

(** The directory "d" with a child, and the request to delete it. *)
Definition ns2 : Namespace :=
  {| ns_containers :=
       {[ 1 := mk_dir 1 1 "" {[ "P2"%string := 3 ]} ∅;
          3 := mk_dir 3 1 "P2" {[ "d"%string := 4 ]} ∅;
          4 := mk_dir 4 3 "d" ∅ {[ "f"%string := 5 ]} ]};
     ns_files := {[ 5 := mk_file 5 4 "f" ∅ ]};
     ns_next_cid := 10; ns_next_fid := 10 |}.

Definition caps2 : Caps :=
  Store (mk_cap "a1" 3 "idA" "uA" 74 100000) None Caps_empty.

Definition state2 : St :=
  {| st_ns := ns2; st_caps := caps2; st_response := None;
     st_effects := [] |}.

Definition rmdir_d : md := mk_delete 4 3 "d" "a1" 16877.

(** Creating a file in a parent that does not exist (inode 9), under a
    capability for that inode. *)
Definition caps9 : Caps :=
  Store (mk_cap "a9" 9 "idA" "uA" 66 100000) None Caps_empty.

Definition state9 : St :=
  {| st_ns := ns1; st_caps := caps9; st_response := None;
     st_effects := [] |}.

Definition create_in_9 : md := mk_set 0 9 "x" "a9" 33188 "".

(** *** The heartbeat rules, session by session *)

(** The session is put into [evictmap]: it shut down or its heartbeat is
    older than the remove window. *)
Definition times_out (cl : Clients) (tsnow : timespec) (c : Client) : bool :=
  let age := heartbeat_age tsnow (heartbeat_ c) in
  hb_shutdown (heartbeat_ c)
  || (Qgtb age (mHeartBeatWindow cl)
      && Qgtb age (mHeartBeatOfflineWindow cl)
      && Qgtb age (mHeartBeatRemoveWindow cl)).

(** The session is put into [evictversionmap]. *)
Definition version_old (PROTOCOLV2 : Z) (c : Client) : bool :=
  hb_protversion (heartbeat_ c) <? PROTOCOLV2.

(** The sweep calls [dropLocks] for the session. *)
Definition drops_locks (cl : Clients) (tsnow : timespec) (c : Client)
  : bool :=
  let age := heartbeat_age tsnow (heartbeat_ c) in
  negb (hb_shutdown (heartbeat_ c))
  && Qgtb age (mHeartBeatWindow cl)
  && Qgtb age (mHeartBeatOfflineWindow cl)
  && negb (Qgtb age (mHeartBeatRemoveWindow cl))
  && bool_decide (state c ≠ OFFLINE).

(** The state the sweep assigns to the session. *)
Definition session_state (PROTOCOLV2 : Z) (cl : Clients) (tsnow : timespec)
  (c : Client) : status_t :=
  let age := heartbeat_age tsnow (heartbeat_ c) in
  if version_old PROTOCOLV2 c then EVICTED
  else if hb_shutdown (heartbeat_ c) then EVICTED
  else if Qgtb age (mHeartBeatWindow cl) then
    if Qgtb age (mHeartBeatOfflineWindow cl) then
      if Qgtb age (mHeartBeatRemoveWindow cl) then EVICTED else OFFLINE
    else VOLATILE
  else ONLINE.

Definition is_drop (u : string) (e : effect) : bool :=
  match e with
  | DropLocks o => String.eqb o u
  | _ => false
  end.

(** How often [dropLocks(u)] is called. *)
Definition count_drops (u : string) (eff : list effect) : nat :=
  length (List.filter (is_drop u) eff).

Definition is_evict_reply (e : effect) : bool :=
  match e with
  | Reply _ (RSP_EVICT _) => true
  | _ => false
  end.

(** How many [EVICT] messages are sent. *)
Definition count_evict_replies (eff : list effect) : nat :=
  length (List.filter is_evict_reply eff).

(** No two sessions of the registry share a uuid. *)
Definition uuids_distinct (cl : Clients) : Prop :=
  ∀ id1 id2 c1 c2,
    mMap cl !! id1 = Some c1 → mMap cl !! id2 = Some c2 →
    hb_uuid (heartbeat_ c1) = hb_uuid (heartbeat_ c2) → id1 = id2.

Definition windows_ordered (cl : Clients) : Prop :=
  Qle (mHeartBeatWindow cl) (mHeartBeatOfflineWindow cl)
  ∧ Qle (mHeartBeatOfflineWindow cl) (mHeartBeatRemoveWindow cl).

(** What an extension by [delta] seconds makes of the capability stored
    under an auth-id, if any. *)
Definition extended (o : option capx) (delta : Z) : option capx :=
  match o with
  | Some cap =>
      if cap_vtime cap =? 0 then Some cap
      else Some (set_vtime (Int.add64 (cap_vtime cap) delta) cap)
  | None => None
  end.

(** A heartbeat of mount "u1" at second 100 that asks for [delta] more
    seconds for the capability "a1". *)
Definition hb_extend (delta : Z) : heartbeat :=
  {| hb_uuid := "u1"; hb_clock := 100; hb_clock_ns := 0;
     hb_protversion := 3; hb_leasetime := 300; hb_shutdown := false;
     hb_authextension := {[ "a1"%string := delta ]};
     hb_authrevocation := ∅ |}.

Definition st1 : Caps :=
  Store (mk_cap "a1" 7 "id1" "u1" 66 400) None Caps_empty.

(** *** Hard links *)

(** The attribute [key] of the file [fid]. *)
Definition attr_of (ns : Namespace) (fid : Z) (key : string) : option string :=
  f ← ns_files ns !! fid; f_attrs f !! key.

(** The link counter of the file inode [t]: the integer value of its
    attribute [sys.eos.nlink]. *)
Definition nlink (env : Env) (t : Z) (s : St) : option Z :=
  attr_of (st_ns s) (InodeToFid env t) k_nlink ≫= Str.stoi.

(** The target string of a hard link to the inode [t]. *)
Definition hlnk (t : Z) : string := ("////hlnk" ++ Str.to_string t)%string.

(** A request to create a hard link to [t]: a SET of a regular file
    without inode whose target is ["////hlnk<t>"]. *)
Definition hardlink_create (t : Z) (md : md) : Prop :=
  md_operation md = SET ∧ Mode.S_ISREG (md_mode md) = true
  ∧ md_ino md = 0 ∧ md_target md = hlnk t.

(** A request to delete, as a regular file, a link entry that points at
    [t]: the file of the request carries [sys.eos.mdino = t]. *)
Definition link_entry_delete (env : Env) (t : Z) (md : md) (s : St) : Prop :=
  md_operation md = DELETE ∧ Mode.S_ISREG (md_mode md) = true
  ∧ attr_of (st_ns s) (InodeToFid env (md_ino md)) k_mdino
    = Some (Str.to_string t).

(** The request was acknowledged with [OK], leaving the state [s']. *)
Definition succeeded (md : md) (h : handled) (s' : St) : Prop :=
  h = Returned 0 s' ∧ ∃ ino, st_response s' = Some (ack_ok md ino).

(** A run of successful hard link creations from [s] to [s']. *)
Fixpoint created (env : Env) (t : Z) (reqs : list (VirtualIdentity * md))
  (s s' : St) : Prop :=
  match reqs with
  | [] => s' = s
  | (vid, md) :: r =>
      hardlink_create t md
      ∧ ∃ s1, succeeded md (HandleMD env vid md s) s1 ∧ created env t r s1 s'
  end.

(** The file inode [t] is unlinked: detached from its container, all
    its locations unlinked. *)
Definition is_unlinked (ns : Namespace) (fid : Z) : Prop :=
  ∃ f, ns_files ns !! fid = Some f ∧ f_unlinked f = true ∧ f_container f = 0.

Definition unlinked (env : Env) (t : Z) (s : St) : Prop :=
  is_unlinked (st_ns s) (InodeToFid env t).

(** The state in which a call of [HandleMD] ends. *)
Definition state_after (h : handled) : St :=
  match h with
  | Returned _ s | Uncaught s => s
  end.

(** Two hard links "l1" and "l2" in "P2" to the file "f" of [ns1]
    (inode [5 << 28]); then "f" itself is deleted, and the two links
    after it. *)
Definition env3 : Env := env0 (mk_registry ∅ ∅) 1000 (λ _ _ _, true).

Definition inode5 : Z := Z.shiftl 5 28.
Definition link1 : md := mk_set 0 3 "l1" "a1" 33188 (hlnk inode5).
Definition link2 : md := mk_set 0 3 "l2" "a1" 33188 (hlnk inode5).
Definition unlink_f : md := mk_delete inode5 2 "f" "a1" 33188.
Definition unlink1 : md := mk_delete (Z.shiftl 10 28) 3 "l1" "a1" 33188.
Definition unlink2 : md := mk_delete (Z.shiftl 11 28) 3 "l2" "a1" 33188.

Definition caps3 : Caps :=
  Store (mk_cap "a1" 3 "idA" "uA" 74 100000) None Caps_empty.

Definition state3 : St :=
  {| st_ns := ns1; st_caps := caps3; st_response := None;
     st_effects := [] |}.

Definition state3_1 : St := state_after (HandleMD env3 vidA link1 state3).
Definition state3_2 : St := state_after (HandleMD env3 vidA link2 state3_1).
Definition state3_3 : St := state_after (HandleMD env3 vidA unlink_f state3_2).
Definition state3_4 : St := state_after (HandleMD env3 vidA unlink1 state3_3).
Definition state3_5 : St := state_after (HandleMD env3 vidA unlink2 state3_4).

(** A hard link to a symbolic link: the client creates the symbolic
    link "s" in "P2" (it becomes the file 10, inode [10 << 28]) and the
    hard link "l1" to it (file 11), asks for the attributes of "l1" and
    deletes "l1" with the mode of the answer, [S_IFLNK | 0777]. *)
Definition inode_s : Z := Z.shiftl 10 28.
Definition inode_l1 : Z := Z.shiftl 11 28.
Definition symlink_s : md := mk_set 0 3 "s" "a1" 41471 "f".
Definition link_s : md := mk_set 0 3 "l1" "a1" 33188 (hlnk inode_s).
Definition unlink_l1 : md := mk_delete inode_l1 3 "l1" "a1" 41471.

Definition state4_1 : St := state_after (HandleMD env3 vidA symlink_s state3).
Definition state4_2 : St := state_after (HandleMD env3 vidA link_s state4_1).
Definition state4_3 : St := state_after (HandleMD env3 vidA unlink_l1 state4_2).

(** *** Sequences of calls on the capability store *)

(** The expiry index holds one entry for every stored auth-id, and only
    those. *)
Definition time_index_exact (s : Caps) : Prop :=
  NoDup (mTimeOrderedCap s).*2
  ∧ ∀ a, a ∈ (mTimeOrderedCap s).*2 ↔ is_Some (mCaps s !! a).

(** The capability [Imply] derives from [cap] for the inode [md_ino]. *)
Definition implied (cl : Clients) (ts : timespec) (md_ino : Z)
  (implied_authid : string) (cap : capx) : capx :=
  let lt := leasetime cl (cap_clientuuid cap) in
  {| cap_id := md_ino; cap_mode := cap_mode cap;
     cap_vtime := Int.add64 (tv_sec ts) (if lt =? 0 then 300 else lt);
     cap_vtime_ns := tv_nsec ts; cap_uid := cap_uid cap;
     cap_gid := cap_gid cap; cap_authid := implied_authid;
     cap_clientid := cap_clientid cap;
     cap_clientuuid := cap_clientuuid cap;
     cap_quota := cap_quota cap;
     cap_max_file_size := cap_max_file_size cap;
     cap_vid := cap_vid cap |}.

(** The invariant of the four indices that [Store], [Imply] and
    [Delete] work on. *)
Definition indices_ok (s : Caps) : Prop := Caps_consistent s ∧ Caps_exact s.

(** *** How a block treats the state *)

(** [m] leaves the state as it found it, however it ends. *)
Definition pure {A} (m : M A) : Prop :=
  ∀ s, final_state (m s) = s.

(** [m] never leaves through a [return] statement. *)
Definition noreturn {A} (m : M A) : Prop :=
  ∀ s rc s', m s ≠ Return rc s'.

(** The only [return] statements [m] can leave through are [return 0]
    and [return ENOTEMPTY]. *)
Definition quiet {A} (m : M A) : Prop :=
  ∀ s rc s', m s = Return rc s' → rc = 0 ∨ rc = Errno.ENOTEMPTY.

(** When [m] returns an error code other than [ENOTEMPTY], the state is
    the one it started from. *)
Definition refuses_cleanly {A} (m : M A) : Prop :=
  ∀ s rc s', m s = Return rc s' → rc ≠ 0 → rc ≠ Errno.ENOTEMPTY → s' = s.

(** [m] leaves the capability store as it found it, however it ends. *)
Definition keeps_caps {A} (m : M A) : Prop :=
  ∀ s, st_caps (final_state (m s)) = st_caps s.

(** When [m] leaves with [return 0] and the acknowledgement [OK], it has
    deleted the capabilities of the inode of the request, and done
    nothing else to the capability store. *)
Definition deletes_caps {A} (md : md) (m : M A) : Prop :=
  ∀ s s' ino, m s = Return 0 s' →
              st_response s' = Some (ack_ok md ino) →
              st_caps s' = (Delete (md_ino md) (st_caps s)).2.

(** Root with "P1" (2) and "P2" (3); the directory "d" (4) lies in
    "P1", and "P2" holds a directory "d" (6) of its own with the file
    "x" in it. *)
Definition ns_move : Namespace :=
  {| ns_containers :=
       {[ 1 := mk_dir 1 1 "" {[ "P1"%string := 2; "P2"%string := 3 ]} ∅;
          2 := mk_dir 2 1 "P1" {[ "d"%string := 4 ]} ∅;
          3 := mk_dir 3 1 "P2" {[ "d"%string := 6 ]} ∅;
          4 := mk_dir 4 2 "d" ∅ ∅;
          6 := mk_dir 6 3 "d" ∅ {[ "x"%string := 7 ]} ]};
     ns_files := {[ 7 := mk_file 7 6 "x" ∅ ]};
     ns_next_cid := 10; ns_next_fid := 10 |}.

Definition state_move : St :=
  {| st_ns := ns_move; st_caps := caps1; st_response := None;
     st_effects := [] |}.

(** Client B holds a capability on the directory "d" (4) of [ns1];
    client A asks to remove the directory. *)
Definition caps_d : Caps :=
  Store (mk_cap "d1" 4 "idB" "uB" 66 100000) None caps3.

Definition state_d : St :=
  {| st_ns := ns1; st_caps := caps_d; st_response := None;
     st_effects := [] |}.

Definition rmdir_d4 : md := mk_delete 4 2 "d" "a1" 16877.

(** ** The lock table [FuseServer::Lock] *)

Section LockTable.

(** The lock tracker of one inode is a class of its own, declared
    outside FuseServer.cc; the table only constructs trackers, asks
    whether one is in use and forwards the removal of locks. *)
Context {LockTracker : Type}.
Variable new_tracker : LockTracker.
Variable inuse : LockTracker → bool.
Variable removelk_pid : Z → LockTracker → LockTracker.
Variable removelk_owner : string → LockTracker → LockTracker.

(** [Lock::getLocks]: the tracker of the inode, created when missing. *)
Definition getLocks (id : Z) (lockmap : gmap Z LockTracker)
  : LockTracker * gmap Z LockTracker :=
  match lockmap !! id with
  | Some t => (t, lockmap)
  | None => (new_tracker, <[id := new_tracker]> lockmap)
  end.

(** [Lock::purgeLocks]: the first loop collects the inodes whose tracker
    is not in use, the second erases them. *)
Definition purgeLocks (lockmap : gmap Z LockTracker) : gmap Z LockTracker :=
  let purgeset : gset Z :=
    fold_left (λ (ps : gset Z) (it : Z * LockTracker),
                 if negb (inuse it.2) then {[it.1]} ∪ ps else ps)
      (map_to_list lockmap) ∅ in
  fold_left (λ m k, delete k m) (elements purgeset) lockmap.

(** [Lock::dropLocks(id, pid)] *)
Definition dropLocks_pid (id pid : Z) (lockmap : gmap Z LockTracker)
  : Z * gmap Z LockTracker :=
  let '(retc, m) :=
    match lockmap !! id with
    | Some t => (0, <[id := removelk_pid pid t]> lockmap)
    | None => (Errno.ENOENT, lockmap)
    end in
  (retc, purgeLocks m).

(** [Lock::dropLocks(owner)] *)
Definition dropLocks_owner (owner : string) (lockmap : gmap Z LockTracker)
  : Z * gmap Z LockTracker :=
  (0, purgeLocks (removelk_owner owner <$> lockmap)).

End LockTable.

(** A tracker that is the list of the pids holding a lock. *)
Definition pid_tracker_inuse (t : list Z) : bool :=
  negb (bool_decide (t = [])).

Definition pid_tracker_removelk (pid : Z) (t : list Z) : list Z :=
  List.filter (λ p, negb (p =? pid)) t.

(** ** The flush table [FuseServer::Flush] *)

Section FlushTable.

(** [flush_info_t] is declared outside FuseServer.cc.  The two sweeps
    only ask whether the [ftime] of an entry still lies in the future:
    [eos::common::Timing::GetAgeInNs(&ftime) < 0]. *)
Context {flush_info_t : Type}.
Variable still_valid : flush_info_t → bool.

(** The loop over the clients of one inode: [has] and the map that is
    left.  Entries that are not valid any more are erased. *)
Definition flush_sweep (fm : gmap string flush_info_t)
  : bool * gmap string flush_info_t :=
  fold_left
    (λ (acc : bool * gmap string flush_info_t) (it : string * flush_info_t),
       if still_valid it.2 then (true, acc.2)
       else (acc.1, delete it.1 acc.2))
    (map_order fm) (false, fm).

(** [Flush::validateFlush] *)
Definition validateFlush (id : Z) (flushmap : gmap Z (gmap string flush_info_t))
  : bool * gmap Z (gmap string flush_info_t) :=
  match flushmap !! id with
  | Some fm =>
      let r := flush_sweep fm in
      (r.1, if (size r.2 =? 0)%nat then delete id flushmap
            else <[id := r.2]> flushmap)
  | None => (false, flushmap)
  end.

(** [Flush::expireFlush] *)
Definition expireFlush (flushmap : gmap Z (gmap string flush_info_t))
  : gmap Z (gmap string flush_info_t) :=
  fold_left
    (λ (m : gmap Z (gmap string flush_info_t))
       (it : Z * gmap string flush_info_t),
       let r := flush_sweep it.2 in
       if (size r.2 =? 0)%nat then delete it.1 m else <[it.1 := r.2]> m)
    (map_to_list flushmap) flushmap.

End FlushTable.

(** *** Messages to one mount *)

(** [Clients::ReleaseCAP]: the return code and the reply sent, if the
    uuid is known. *)
Definition ReleaseCAP (cl : Clients) (md_ino : Z) (uuid clientid : string)
  : Z * list effect :=
  match mUUIDView cl !! uuid with
  | None => (Errno.ENOENT, [])
  | Some id => (0, [Reply id (RSP_LEASE_RELEASECAP md_ino clientid)])
  end.

(** [Clients::DeleteEntry] *)
Definition DeleteEntry (cl : Clients) (md_ino : Z) (uuid clientid name : string)
  : Z * list effect :=
  match mUUIDView cl !! uuid with
  | None => (Errno.ENOENT, [])
  | Some id => (0, [Reply id (RSP_DENTRY_REMOVE md_ino clientid name)])
  end.

(** *** Broadcasts that do not come from a client *)

(** The loop of [BroadcastReleaseFromExternal] and of
    [BroadcastDeletionFromExternal] over the auth-ids registered for the
    inode. *)
Fixpoint external_loop (s : Caps) (l : list string) (bccaps : list capx)
  : list capx :=
  match l with
  | [] => bccaps
  | it :: r =>
      match mCaps s !! it with
      | None => external_loop s r bccaps
      | Some cap =>
          if negb (cap_id cap =? 0)
          then external_loop s r (bccaps ++ [cap])
          else external_loop s r bccaps
      end
  end.

(** [bccaps] when the loop is done. *)
Definition external_caps (s : Caps) (id : Z) : list capx :=
  match mInodeCaps s !! id with
  | Some X => external_loop s (set_order X) []
  | None => []
  end.

(** [Caps::BroadcastReleaseFromExternal] *)
Definition BroadcastReleaseFromExternal (cl : Clients) (s : Caps) (id : Z)
  : Z * list effect :=
  (0, flat_map (λ it, (ReleaseCAP cl (cap_id it) (cap_clientuuid it)
                         (cap_clientid it)).2)
        (external_caps s id)).

(** [Caps::BroadcastDeletionFromExternal] *)
Definition BroadcastDeletionFromExternal (cl : Clients) (s : Caps) (id : Z)
  (name : string) : Z * list effect :=
  (0, flat_map (λ it, (DeleteEntry cl (cap_id it) (cap_clientuuid it)
                         (cap_clientid it) name).2)
        (external_caps s id)).

(** The capability and the identity a message of an external broadcast
    goes to, for an auth-id of the inode index. *)
Definition external_target (cl : Clients) (s : Caps) (a : string)
  : option (string * capx * string) :=
  match mCaps s !! a with
  | Some c =>
      if cap_id c =? 0 then None
      else match mUUIDView cl !! cap_clientuuid c with
           | Some idr => Some (a, c, idr)
           | None => None
           end
  | None => None
  end.

(** [Clients::SendCAP] *)
Definition SendCAP (cl : Clients) (cap : capx) : Z * list effect :=
  match mUUIDView cl !! cap_clientuuid cap with
  | None => (Errno.ENOENT, [])
  | Some clientid => (0, [Reply clientid (RSP_CAP cap)])
  end.

(** [Caps::BroadcastCap]: the capability is sent when it names an
    inode; the function always answers -1. *)
Definition BroadcastCap (cl : Clients) (cap : capx) : Z * list effect :=
  if negb (cap_id cap =? 0) then (-1, (SendCAP cl cap).2) else (-1, []).

(** ** Issuing capabilities: [FuseServer::FillContainerCAP] *)

(** Permission bits of <sys/stat.h>. *)
Module Stat.

Definition S_IRUSR : Z := 256.
Definition S_IWUSR : Z := 128.
Definition S_IXUSR : Z := 64.
Definition S_IRGRP : Z := 32.
Definition S_IWGRP : Z := 16.
Definition S_IXGRP : Z := 8.
Definition S_IROTH : Z := 4.
Definition S_IWOTH : Z := 2.
Definition S_IXOTH : Z := 1.

End Stat.

(** The conversions of <stdlib.h> that [FillContainerCAP] uses. *)
Module CStr.

Definition LONG_MAX : Z := 2 ^ 63 - 1.
Definition LONG_MIN : Z := - 2 ^ 63.
Definition ULLONG_MAX : Z := 2 ^ 64 - 1.

Definition octal_digit_of (c : ascii) : option Z :=
  let n := Z.of_nat (nat_of_ascii c) in
  if (48 <=? n) && (n <=? 55) then Some (n - 48) else None.

(** The value of the longest prefix of octal digits, continuing from
    [acc]. *)
Fixpoint parse_octal (acc : Z) (s : string) : Z :=
  match s with
  | String c r =>
      match octal_digit_of c with
      | Some d => parse_octal (8 * acc + d) r
      | None => acc
      end
  | EmptyString => acc
  end.

Definition clamp_long (z : Z) : Z := Z.max LONG_MIN (Z.min LONG_MAX z).

(** [strtol(s, 0, 8)]: white space, an optional sign, octal digits; 0
    when there is no digit, the nearest [long] on overflow. *)
Definition strtol8 (s : string) : Z :=
  match Str.skip_spaces s with
  | String "-" r => clamp_long (- parse_octal 0 r)
  | String "+" r => clamp_long (parse_octal 0 r)
  | s' => clamp_long (parse_octal 0 s')
  end.

(** [strtoull(s, 0, 10)]: 0 when there is no digit, [ULLONG_MAX] on
    overflow; a negative value is negated in the unsigned type. *)
Definition strtoull10 (s : string) : Z :=
  match Str.parse_int s with
  | None => 0
  | Some z => if ULLONG_MAX <? Z.abs z then ULLONG_MAX else Int.wrap64 z
  end.

End CStr.

(** What [FillContainerCAP] asks an [Acl] object. *)
Record AclFlags := mkAclFlags {
  acl_IsMutable : bool;
  acl_CanRead : bool;
  acl_CanWrite : bool;
  acl_CanWriteOnce : bool;
  acl_CanBrowse : bool;
  acl_CanNotChmod : bool;
  acl_CanChmod : bool;
  acl_CanChown : bool;
  acl_CanUpdate : bool;
  acl_CanNotDelete : bool
}.

(** The fields of the virtual identity that name the authentication. *)
Record VidAuth := mkVidAuth {
  vid_prot : string;
  vid_dn : string;
  vid_uid_string : string
}.

(** What [FillContainerCAP] reads from its surroundings: the client
    registry, the clock, and the collaborators whose code is not part of
    FuseServer.cc.  [QuotaByPath] answers the available files, the
    available bytes and the quota inode when it succeeds. *)
Record CapEnv := mkCapEnv {
  cap_clients : Clients;
  cap_ts : timespec;
  Acl_Set : string → string → VirtualIdentity → bool → AclFlags;
  IsQuotaEnabled : string → bool;
  QuotaByPath : string → Z → Z → option (Z * Z * Z);
  random_uuidstring : string
}.

(** The subscript on [dir.mutable_attr()] with the key [k]: the value,
    and the map, in which a missing key has been entered with the empty
    string. *)
Definition attr_touch (k : string) (m : gmap string string)
  : string * gmap string string :=
  match m !! k with
  | Some v => (v, m)
  | None => (""%string, <[k := ""%string]> m)
  end.

(** [if (c) mode |= bits] and [if (c) mode &= ~bits] *)
Definition grant (c : bool) (bits mode : Z) : Z :=
  if c then Z.lor mode bits else mode.

Definition revoke (c : bool) (bits mode : Z) : Z :=
  if c then Z.land mode (Z.lnot bits) else mode.

(** [a & b] as a condition. *)
Definition bit_set (a b : Z) : bool := negb (Z.land a b =? 0).

Definition has_length (s : string) : bool := negb (String.length s =? 0)%nat.

(** [std::numeric_limits<long>::max() / 2]: the quota of a space without
    quota. *)
Definition noquota : Z := CStr.LONG_MAX / 2.

Definition write_bits : Z :=
  Z.lor Mode.U_OK (Z.lor Mode.W_OK (Z.lor Mode.D_OK
    (Z.lor Mode.SA_OK (Z.lor Mode.M_OK Mode.SU_OK)))).

(** The permissions from the mode bits of the directory, for an
    identity other than root. *)
Definition mode_from_bits (vid : VirtualIdentity) (dir : md) (mask : Z) : Z :=
  let mode := Mode.S_IFDIR in
  let mode :=
    grant (vid_sudoer vid)
      (Z.lor Mode.C_OK (Z.lor Mode.M_OK (Z.lor Mode.U_OK (Z.lor Mode.W_OK
         (Z.lor Mode.D_OK (Z.lor Mode.SA_OK Mode.SU_OK)))))) mode in
  let mode :=
    if vid_uid vid =? md_uid dir then
      let mode :=
        grant (bit_set (md_mode dir) Stat.S_IRUSR)
          (Z.lor Mode.R_OK (Z.lor Mode.M_OK Mode.SU_OK)) mode in
      let mode := grant (bit_set (md_mode dir) Stat.S_IWUSR) write_bits mode in
      grant (bit_set (Z.land (md_mode dir) mask) Stat.S_IXUSR) Mode.X_OK mode
    else mode in
  let mode :=
    if vid_gid vid =? md_gid dir then
      let mode :=
        grant (bit_set (Z.land (md_mode dir) mask) Stat.S_IRGRP)
          Mode.R_OK mode in
      let mode :=
        grant (bit_set (Z.land (md_mode dir) mask) Stat.S_IWGRP)
          write_bits mode in
      grant (bit_set (Z.land (md_mode dir) mask) Stat.S_IXGRP) Mode.X_OK mode
    else mode in
  let mode :=
    grant (bit_set (Z.land (md_mode dir) mask) Stat.S_IROTH) Mode.R_OK mode in
  let mode :=
    grant (bit_set (Z.land (md_mode dir) mask) Stat.S_IWOTH) write_bits mode in
  grant (bit_set (Z.land (md_mode dir) mask) Stat.S_IXOTH) Mode.X_OK mode.

(** The changes an ACL makes to the permissions. *)
Definition mode_from_acl (vid : VirtualIdentity) (dir : md) (acl : AclFlags)
  (mode : Z) : Z :=
  if acl_IsMutable acl then
    let mode := grant (acl_CanRead acl) Mode.R_OK mode in
    let mode :=
      grant (acl_CanWrite acl || acl_CanWriteOnce acl)
        (Z.lor Mode.W_OK (Z.lor Mode.SA_OK (Z.lor Mode.D_OK Mode.M_OK)))
        mode in
    let mode := grant (acl_CanBrowse acl) Mode.X_OK mode in
    let mode := revoke (acl_CanNotChmod acl) Mode.M_OK mode in
    let mode := grant (acl_CanChmod acl) Mode.M_OK mode in
    let mode := grant (acl_CanChown acl) Mode.C_OK mode in
    let mode :=
      grant (acl_CanUpdate acl) (Z.lor Mode.U_OK Mode.SA_OK) mode in
    revoke (negb (vid_uid vid =? md_uid dir) && acl_CanNotDelete acl)
      Mode.D_OK mode
  else mode.

(** The mode of the capability and the attributes of [dir] after the
    look-ups. *)
Definition cap_mode_for (e : CapEnv) (vid : VirtualIdentity) (dir : md)
  (mask : Z) (attr : gmap string string) : Z * gmap string string :=
  if vid_uid vid =? 0 then (Z.lor 255 Mode.S_IFDIR, attr)
  else
    let mode := mode_from_bits vid dir mask in
    let '(sysacl, attr) := attr_touch "sys.acl" attr in
    let '(useracl, attr) := attr_touch "user.acl" attr in
    if has_length sysacl || has_length useracl then
      let evaluseracl := bool_decide (is_Some (md_attr dir !! "sys.eval.useracl")) in
      (mode_from_acl vid dir (Acl_Set e sysacl useracl vid evaluseracl) mode,
       attr)
    else (mode, attr).

(** The owner of what is created under the capability: the owner of the
    directory when the ownership is sticky for the authentication, the
    identity itself otherwise. *)
Definition cap_owner (vid : VirtualIdentity) (auth : VidAuth) (dir : md)
  (ownerauth : string) : Z * Z :=
  if has_length ownerauth then
    if String.eqb ownerauth "*" then (md_uid dir, md_gid dir)
    else
      let ownerauth := (ownerauth +:+ ",")%string in
      let ownerkey :=
        (vid_prot auth +:+ ":" +:+
           (if String.eqb (vid_prot auth) "gsi" then vid_dn auth
            else vid_uid_string auth))%string in
      if Str.contains ownerkey ownerauth then (md_uid dir, md_gid dir)
      else (vid_uid vid, vid_gid vid)
  else (vid_uid vid, vid_gid vid).

(** The space the directory belongs to. *)
Definition dir_space (dir : md) : string :=
  match md_attr dir !! "sys.forced.space" with
  | Some v => v
  | None =>
      match md_attr dir !! "user.forced.space" with
      | Some v => v
      | None => "default"%string
      end
  end.

(** The quota part of the capability. *)
Definition cap_quota_for (e : CapEnv) (dir : md) (fullpath : string)
  (uid gid : Z) : quota_t :=
  if IsQuotaEnabled e (dir_space dir) then
    match QuotaByPath e fullpath uid gid with
    | Some (avail_files, avail_bytes, quota_inode) =>
        mkQuota (Int.wrap64 avail_files) (Int.wrap64 avail_bytes) quota_inode
    | None => mkQuota 0 0 0
    end
  else mkQuota noquota noquota 0.

(** [FuseServer::FillContainerCAP]: the capability entered in [dir]
    ([None] when the client has one already and only one is to be
    issued), the attributes of [dir] and the capability store
    afterwards.  The function always answers [true]. *)
Definition FillContainerCAP (e : CapEnv) (id : Z) (dir : md)
  (fullpath : string) (vid : VirtualIdentity) (auth : VidAuth)
  (reuse_uuid : string) (issue_only_one : bool) (s : Caps)
  : option capx * gmap string string * Caps :=
  if issue_only_one
     && match mClientInoCaps s !! md_clientid dir with
        | Some X => bool_decide (id ∈ X)
        | None => false
        end
  then (None, md_attr dir, s)
  else
    let ts := cap_ts e in
    let lt := leasetime (cap_clients e) (md_clientuuid dir) in
    let vtime :=
      Int.add64 (tv_sec ts) (if lt =? 0 then 300 else lt) in
    let '(sysmask, attr) := attr_touch "sys.mask" (md_attr dir) in
    let mask :=
      if has_length sysmask then Z.land 511 (CStr.strtol8 sysmask) else 511 in
    let '(mode, attr) := cap_mode_for e vid dir mask attr in
    let '(ownerauth, attr) := attr_touch "sys.owner.auth" attr in
    let '(uid, gid) := cap_owner vid auth dir ownerauth in
    let max_file_size :=
      match md_attr dir !! "sys.forced.maxsize" with
      | Some v => CStr.strtoull10 v
      | None => 512 * 1024 * 1024 * 1024
      end in
    let cap :=
      {| cap_id := id; cap_mode := mode; cap_vtime := vtime;
         cap_vtime_ns := tv_nsec ts; cap_uid := uid; cap_gid := gid;
         cap_authid :=
           if has_length reuse_uuid then reuse_uuid
           else random_uuidstring e;
         cap_clientid := md_clientid dir;
         cap_clientuuid := md_clientuuid dir;
         cap_quota := cap_quota_for e dir fullpath uid gid;
         cap_max_file_size := max_file_size;
         cap_vid := None |} in
    (Some cap, attr, Store cap (Some vid) s).

(** The mask of the directory, as [FillContainerCAP] computes it. *)
Definition dir_mask (dir : md) : Z :=
  let sysmask := default ""%string (md_attr dir !! "sys.mask") in
  if has_length sysmask then Z.land 511 (CStr.strtol8 sysmask) else 511.

(** The ACL in force for the capability, if any. *)
Definition dir_acl (e : CapEnv) (vid : VirtualIdentity) (dir : md)
  : option AclFlags :=
  let sysacl := default ""%string (md_attr dir !! "sys.acl") in
  let useracl := default ""%string (md_attr dir !! "user.acl") in
  if has_length sysacl || has_length useracl then
    Some (Acl_Set e sysacl useracl vid
            (bool_decide (is_Some (md_attr dir !! "sys.eval.useracl"))))
  else None.

(** A directory as [FillContainerCAP] sees it, and an environment
    without quota in which every ACL forbids deletion. *)
Definition dir_for (uid gid mode : Z) (clientid clientuuid : string)
  (attr : gmap string string) : md :=
  {| md_operation := GET; md_type := MD; md_ino := 0; md_pino := 0;
     md_name := ""; md_clientid := clientid; md_clientuuid := clientuuid;
     md_authid := ""; md_implied_authid := ""; md_mv_authid := "";
     md_reqid := 0; md_uid := uid; md_gid := gid; md_mode := mode;
     md_ctime := 0; md_ctime_ns := 0; md_mtime := 0; md_mtime_ns := 0;
     md_btime := 0; md_btime_ns := 0; md_pmtime := 0; md_pmtime_ns := 0;
     md_size := 0; md_target := ""; md_attr := attr |}.

Definition cenv1 : CapEnv :=
  {| cap_clients := reg1 ONLINE; cap_ts := mkTs 100 0;
     Acl_Set := λ _ _ _ _,
       mkAclFlags true false false false false false false false false true;
     IsQuotaEnabled := λ _, false;
     QuotaByPath := λ _ _ _, None;
     random_uuidstring := "r1" |}.

Definition dir1 : md :=
  dir_for 1000 1000 16832 "c1" "u1" {[ "sys.acl" := "u:2000:rwx!d" ]}.

Definition auth1 : VidAuth := mkVidAuth "krb5" "" "1000".

(** ** The quota check of [FuseServer::MonitorCaps] *)

(** [cap->mutable__quota()->set_inode_quota(avail_files)] and
    [set_volume_quota(avail_bytes)]: the fields are unsigned. *)
Definition set_quota (avail_files avail_bytes : Z) (c : capx) : capx :=
  {| cap_id := cap_id c; cap_mode := cap_mode c; cap_vtime := cap_vtime c;
     cap_vtime_ns := cap_vtime_ns c; cap_uid := cap_uid c;
     cap_gid := cap_gid c; cap_authid := cap_authid c;
     cap_clientid := cap_clientid c; cap_clientuuid := cap_clientuuid c;
     cap_quota :=
       mkQuota (Int.wrap64 avail_files) (Int.wrap64 avail_bytes)
         (quota_inode (cap_quota c));
     cap_max_file_size := cap_max_file_size c;
     cap_vid := cap_vid c |}.

(** [quotainfo_t]: a quota node with the identity it is checked for, and
    the auth-ids of the capabilities that depend on it. *)
Record quotainfo := mkQuotainfo {
  qi_uid : Z;
  qi_gid : Z;
  qi_qid : Z;
  qi_authids : list string
}.

(** [quotainfo::id()]: the three numbers printed with "%u:%u:%lu". *)
Definition quotainfo_id (uid gid qid : Z) : string :=
  (Str.to_string uid +:+ (":" +:+ (Str.to_string gid +:+
     (":" +:+ Str.to_string qid))))%string.

Definition push_authid (a : string) (qi : quotainfo) : quotainfo :=
  {| qi_uid := qi_uid qi; qi_gid := qi_gid qi; qi_qid := qi_qid qi;
     qi_authids := qi_authids qi ++ [a] |}.

(** One round of the loop over all capabilities: a capability with the
    quota of a space without quota, or without quota node, is passed
    over. *)
Definition qmap_step (qmap : gmap string quotainfo) (it : string * capx)
  : gmap string quotainfo :=
  if inode_quota (cap_quota it.2) =? noquota then qmap
  else if negb (quota_inode (cap_quota it.2) =? 0) then
    let qi :=
      mkQuotainfo (cap_uid it.2) (cap_gid it.2)
        (quota_inode (cap_quota it.2)) [] in
    let k := quotainfo_id (qi_uid qi) (qi_gid qi) (qi_qid qi) in
    match qmap !! k with
    | Some q => <[k := push_authid (cap_authid it.2) q]> qmap
    | None => <[k := push_authid (cap_authid it.2) qi]> qmap
    end
  else qmap.

Definition quota_groups (s : Caps) : gmap string quotainfo :=
  fold_left qmap_step (map_order (mCaps s)) ∅.

Definition out_of_quota (avail_files avail_bytes : Z) : bool :=
  (avail_files =? 0) || (avail_bytes =? 0).

(** The condition under which a capability is sent again: out of quota
    for the first time, or back to quota for the first time. *)
Definition quota_changed (avail_files avail_bytes : Z) (marked : bool) : bool :=
  (out_of_quota avail_files avail_bytes && negb marked)
  || (negb (out_of_quota avail_files avail_bytes) && marked).

(** One round of the loop over the auth-ids of a quota node.  The state
    is the capability store, the map [outofquota] and the messages
    sent. *)
Definition notify_step (cl : Clients) (now avail_files avail_bytes : Z)
  (st : Caps * gmap string Z * list effect) (auit : string)
  : Caps * gmap string Z * list effect :=
  let '(s, outofquota, eff) := st in
  if quota_changed avail_files avail_bytes
       (bool_decide (is_Some (outofquota !! auit)))
  then
    let '(s, eff) :=
      match mCaps s !! auit with
      | Some cap =>
          let cap := set_quota avail_files avail_bytes cap in
          (with_mCaps (<[auit := cap]> (mCaps s)) s,
           eff ++ (BroadcastCap cl cap).2)
      | None => (s, eff)
      end in
    (s,
     if out_of_quota avail_files avail_bytes
     then <[auit := now]> outofquota else delete auit outofquota,
     eff)
  else st.

(** One round of the loop over the quota nodes.  [QuotaBySpace] answers
    the available files and bytes when it succeeds. *)
Definition group_step (cl : Clients)
  (QuotaBySpace : Z → Z → Z → option (Z * Z)) (now : Z)
  (st : Caps * gmap string Z * list effect) (it : string * quotainfo)
  : Caps * gmap string Z * list effect :=
  match QuotaBySpace (qi_qid it.2) (qi_uid it.2) (qi_gid it.2) with
  | Some (avail_files, avail_bytes) =>
      fold_left (notify_step cl now avail_files avail_bytes)
        (qi_authids it.2) st
  | None => st
  end.

(** The loop that drops the marks older than an hour. *)
Definition expire_outofquota (now : Z) (outofquota : gmap string Z)
  : gmap string Z :=
  fold_left
    (λ (m : gmap string Z) (it : string * Z),
       if it.2 + 3600 <? now then delete it.1 m else m)
    (map_order outofquota) outofquota.

(** The quota check of one round of [FuseServer::MonitorCaps], from
    [time(NULL)] to the end of the loop over [outofquota]: the
    capability store, [outofquota] and the messages sent. *)
Definition MonitorCaps_quota (cl : Clients)
  (QuotaBySpace : Z → Z → Z → option (Z * Z)) (now : Z) (s : Caps)
  (outofquota : gmap string Z) : Caps * gmap string Z * list effect :=
  let qmap := quota_groups s in
  let '(s, outofquota, eff) :=
    fold_left (group_step cl QuotaBySpace now) (map_order qmap)
      (s, outofquota, []) in
  (s, expire_outofquota now outofquota, eff).

(** The auth-id of every stored capability is the key it is stored
    under. *)
Definition authids_are_keys (s : Caps) : Prop :=
  ∀ a c, mCaps s !! a = Some c → cap_authid c = a.

(** The capabilities the quota check looks at. *)
Definition watched (c : capx) : bool :=
  negb (inode_quota (cap_quota c) =? noquota)
  && negb (quota_inode (cap_quota c) =? 0).

(** The capability under [a] depends on a quota node for which
    [QuotaBySpace] gives these numbers. *)
Definition checked (QuotaBySpace : Z → Z → Z → option (Z * Z)) (s : Caps)
  (a : string) (c : capx) (avail_files avail_bytes : Z) : Prop :=
  mCaps s !! a = Some c ∧ watched c = true
  ∧ QuotaBySpace (quota_inode (cap_quota c)) (cap_uid c) (cap_gid c)
    = Some (avail_files, avail_bytes).

Fixpoint no_colon (s : string) : bool :=
  match s with
  | EmptyString => true
  | String c r => negb (Ascii.eqb c ":") && no_colon r
  end.

(** The quota node a capability depends on, as [quotainfo::id()] names
    it. *)
Definition cap_group (c : capx) : string :=
  quotainfo_id (cap_uid c) (cap_gid c) (quota_inode (cap_quota c)).

(** The auth-ids the loop over the quota nodes works through, each with
    the numbers [QuotaBySpace] gave for its node. *)
Definition quota_work (QuotaBySpace : Z → Z → Z → option (Z * Z))
  (groups : list (string * quotainfo)) : list (string * (Z * Z)) :=
  flat_map
    (λ it : string * quotainfo,
       match QuotaBySpace (qi_qid it.2) (qi_uid it.2) (qi_gid it.2) with
       | Some fb => (λ a, (a, fb)) <$> qi_authids it.2
       | None => []
       end) groups.

(** What one round of [notify_step] leaves for its auth-id: the mark,
    the capability and the messages. *)
Definition mark_after (now avail_files avail_bytes : Z) (mark : option Z)
  : option Z :=
  if out_of_quota avail_files avail_bytes then Some (default now mark)
  else None.

Definition cap_after (avail_files avail_bytes : Z) (mark : option Z)
  (c : option capx) : option capx :=
  if quota_changed avail_files avail_bytes (bool_decide (is_Some mark))
  then set_quota avail_files avail_bytes <$> c else c.

Definition news (cl : Clients) (avail_files avail_bytes : Z)
  (mark : option Z) (c : option capx) : list effect :=
  if quota_changed avail_files avail_bytes (bool_decide (is_Some mark))
  then match c with
       | Some cap => (BroadcastCap cl (set_quota avail_files avail_bytes cap)).2
       | None => []
       end
  else [].

(** A mark that the loop over [outofquota] keeps. *)
Definition keep_mark (now : Z) (mark : option Z) : option Z :=
  match mark with
  | Some t => if t + 3600 <? now then None else Some t
  | None => None
  end.

(** A store with two capabilities that depend on the quota node 5, and
    a quota service that has no files left for it. *)
Definition qcap (a : string) (uu : string) : capx :=
  {| cap_id := 7; cap_mode := 66; cap_vtime := 1000; cap_vtime_ns := 0;
     cap_uid := 1000; cap_gid := 1000;
     cap_authid := a; cap_clientid := "c1"; cap_clientuuid := uu;
     cap_quota := mkQuota 10 10 5; cap_max_file_size := 0;
     cap_vid := None |}.

Definition qstore : Caps :=
  Store (qcap "q2" "u9") None (Store (qcap "q1" "u1") None Caps_empty).

Definition no_files (qid uid gid : Z) : option (Z * Z) :=
  if qid =? 5 then Some (0, 100) else None.

(** ** Changing the heartbeat interval *)




(** ** The reply for a file: [FuseServer::FillFileMD] *)

(** The fields of [eos::fusex::md] that only the replies carry. *)
Record md_more := mkMore {
  md_atime : Z;
  md_atime_ns : Z;
  md_nlink : Z;
  md_clock : Z;
  md_err : Z
}.

(** What the two functions that fill a reply read from their
    surroundings: the inode arithmetic of [Env] and collaborators whose
    code is not part of FuseServer.cc.  [clock_of] is the clock the
    namespace services hand out with an object, [SplitKeyValue] and
    [EncodeInvalidUTF8] are functions of
    [eos::common::StringConversion], [getUri] is [eosView->getUri],
    taken not to fail for a container that exists, and [getTreeSize] is
    the method of the container. *)
Record FillEnv := mkFillEnv {
  fill_env : Env;
  clock_of : Z → Z;
  SplitKeyValue : string → string * string;
  EncodeInvalidUTF8 : string → string;
  getUri : ContainerMD → string;
  getTreeSize : ContainerMD → Z
}.

(** How [FillFileMD] ends: with its answer and the message as it has
    been filled, or with a [std::] exception of [std::stoll] or
    [std::stoi], which it does not catch. *)
Inductive filled :=
| Filled (ok : bool) (file : md) (more : md_more)
| Unhandled.

Definition more_with_err (e : Z) (x : md_more) : md_more :=
  {| md_atime := md_atime x; md_atime_ns := md_atime_ns x;
     md_nlink := md_nlink x; md_clock := md_clock x; md_err := e |}.

Definition md_with_name (n : string) (file : md) : md :=
  {| md_operation := md_operation file; md_type := md_type file;
     md_ino := md_ino file; md_pino := md_pino file; md_name := n;
     md_clientid := md_clientid file; md_clientuuid := md_clientuuid file;
     md_authid := md_authid file;
     md_implied_authid := md_implied_authid file;
     md_mv_authid := md_mv_authid file; md_reqid := md_reqid file;
     md_uid := md_uid file; md_gid := md_gid file; md_mode := md_mode file;
     md_ctime := md_ctime file; md_ctime_ns := md_ctime_ns file;
     md_mtime := md_mtime file; md_mtime_ns := md_mtime_ns file;
     md_btime := md_btime file; md_btime_ns := md_btime_ns file;
     md_pmtime := md_pmtime file; md_pmtime_ns := md_pmtime_ns file;
     md_size := md_size file; md_target := md_target file;
     md_attr := md_attr file |}.

(** Modelled from the spec: [IFileMD::isLink], the file has a
    [link_target]. *)
Definition isLink (f : FileMD) : bool := has_length (f_link f).

(** One round of the loop over the extended attributes: the attributes
    of the message and its birth time.  [strtoul] converts like
    [strtoull], [unsigned long] having 64 bits. *)
Definition fill_attr_step (fe : FillEnv)
  (has_mdino : bool) (st : gmap string string * (Z * Z))
  (elem : string * string) : gmap string string * (Z * Z) :=
  if has_mdino && String.eqb elem.1 k_nlink then st
  else
    let attr := <[elem.1 := elem.2]> st.1 in
    if String.eqb elem.1 "sys.eos.btime" then
      let kv := SplitKeyValue fe elem.2 in
      (attr, (CStr.strtoull10 kv.1, CStr.strtoull10 kv.2))
    else (attr, st.2).

(** The part of [FillFileMD] after the look-ups: [gmd] is the file of
    the inode, [fmd] the file whose data is reported.  The link count is
    an [int]; adding one to the counter is exact below [INT_MAX]. *)
Definition fill_file (fe : FillEnv) (clock : Z) (has_mdino : bool)
  (gmd fmd : FileMD) (file : md) (more : md_more) : filled :=
  let nlink :=
    match f_attrs fmd !! k_nlink with
    | Some v => (λ n, n + 1) <$> Str.stoi v
    | None => Some 1
    end in
  match nlink with
  | None => Unhandled
  | Some nlink =>
      let r :=
        fold_left (fill_attr_step fe has_mdino)
          (map_order (f_attrs fmd))
          (md_attr file, ((f_ctime fmd).1, (f_ctime fmd).2)) in
      let attr :=
        if has_mdino
        then <[k_mdino := default ""%string (f_attrs gmd !! k_mdino)]> r.1
        else r.1 in
      Filled true
        {| md_operation := md_operation file; md_type := md_type file;
           md_ino := FidToInode (fill_env fe) (f_id gmd);
           md_pino := f_container fmd;
           md_name := f_name gmd;
           md_clientid := md_clientid file;
           md_clientuuid := md_clientuuid file;
           md_authid := md_authid file;
           md_implied_authid := md_implied_authid file;
           md_mv_authid := md_mv_authid file; md_reqid := md_reqid file;
           md_uid := f_uid fmd; md_gid := f_gid fmd;
           md_mode :=
             Z.lor (f_flags fmd)
               (if isLink fmd then Mode.S_IFLNK else Mode.S_IFREG);
           md_ctime := (f_ctime fmd).1; md_ctime_ns := (f_ctime fmd).2;
           md_mtime := (f_mtime fmd).1; md_mtime_ns := (f_mtime fmd).2;
           md_btime := r.2.1; md_btime_ns := r.2.2;
           md_pmtime := md_pmtime file; md_pmtime_ns := md_pmtime_ns file;
           md_size := f_size fmd;
           md_target := if isLink fmd then f_link fmd else md_target file;
           md_attr := attr |}
        {| md_atime := (f_mtime fmd).1; md_atime_ns := (f_mtime fmd).2;
           md_nlink := nlink; md_clock := clock; md_err := 0 |}
  end.

(** [FuseServer::FillFileMD].  A file that is missing ends the function
    in its [catch] block, with what has been filled in until then. *)
Definition FillFileMD (fe : FillEnv) (ns : Namespace) (inode : Z)
  (file : md) (more : md_more) : filled :=
  let env := fill_env fe in
  match ns_files ns !! InodeToFid env inode with
  | None => Filled false file (more_with_err Errno.ENOENT more)
  | Some gmd =>
      let file := md_with_name (f_name gmd) file in
      match f_attrs gmd !! k_mdino with
      | Some v =>
          match Str.stoll v with
          | None => Unhandled
          | Some mdino =>
              let mdino := Int.wrap64 mdino in
              match ns_files ns !! InodeToFid env mdino with
              | None => Filled false file (more_with_err Errno.ENOENT more)
              | Some fmd =>
                  fill_file fe (clock_of fe (InodeToFid env mdino))
                    true gmd fmd file more
              end
          end
      | None =>
          fill_file fe (clock_of fe (InodeToFid env inode))
            false gmd gmd file more
      end
  end.

(** ** The reply for a directory: [FuseServer::FillContainerMD] *)

(** Further fields of [eos::fusex::md] that the reply for a directory
    carries. *)
Record dir_more := mkDirMore {
  dm_more : md_more;
  md_nchildren : Z;
  md_children : gmap string Z;
  md_fullpath : string
}.

(** One round of the loop over the extended attributes of a container;
    the birth time is looked for under [eos.btime]. *)
Definition fill_dir_attr_step (fe : FillEnv)
  (st : gmap string string * (Z * Z)) (elem : string * string)
  : gmap string string * (Z * Z) :=
  let attr := <[elem.1 := elem.2]> st.1 in
  if String.eqb elem.1 "eos.btime" then
    let kv := SplitKeyValue fe elem.2 in
    (attr, (CStr.strtoull10 kv.1, CStr.strtoull10 kv.2))
  else (attr, st.2).

(** The two loops that enter the children: first the files, with their
    inodes, then the containers.  The order in which the iterators visit
    a map is not specified; it matters only for names that have the same
    encoding. *)
Definition list_children (fe : FillEnv) (cmd : ContainerMD)
  (children : gmap string Z) : gmap string Z :=
  let children :=
    fold_left
      (λ (m : gmap string Z) (it : string * Z),
         <[EncodeInvalidUTF8 fe it.1 := FidToInode (fill_env fe) it.2]> m)
      (map_to_list (c_files cmd)) children in
  fold_left
    (λ (m : gmap string Z) (it : string * Z),
       <[EncodeInvalidUTF8 fe it.1 := it.2]> m)
    (map_to_list (c_containers cmd)) children.

(** [FuseServer::FillContainerMD]: the return code and the message as
    it has been filled. *)
Definition FillContainerMD (fe : FillEnv) (ns : Namespace) (id : Z)
  (dir : md) (more : dir_more) : Z * md * dir_more :=
  match ns_containers ns !! id with
  | None =>
      (Errno.ENOENT, dir,
       {| dm_more := more_with_err Errno.ENOENT (dm_more more);
          md_nchildren := md_nchildren more;
          md_children := md_children more;
          md_fullpath := md_fullpath more |})
  | Some cmd =>
      let r :=
        fold_left (fill_dir_attr_step fe) (map_order (c_attrs cmd))
          (md_attr dir, (md_btime dir, md_btime_ns dir)) in
      let nchildren :=
        Z.of_nat (size (c_containers cmd)) + Z.of_nat (size (c_files cmd)) in
      let filled_dir (type : md_type_t) : md :=
        {| md_operation := md_operation dir; md_type := type;
           md_ino := id; md_pino := c_parent cmd; md_name := c_name cmd;
           md_clientid := md_clientid dir;
           md_clientuuid := md_clientuuid dir;
           md_authid := md_authid dir;
           md_implied_authid := md_implied_authid dir;
           md_mv_authid := md_mv_authid dir; md_reqid := md_reqid dir;
           md_uid := c_uid cmd; md_gid := c_gid cmd; md_mode := c_mode cmd;
           md_ctime := (c_ctime cmd).1; md_ctime_ns := (c_ctime cmd).2;
           md_mtime := (c_mtime cmd).1; md_mtime_ns := (c_mtime cmd).2;
           md_btime := r.2.1; md_btime_ns := r.2.2;
           md_pmtime := md_pmtime dir; md_pmtime_ns := md_pmtime_ns dir;
           md_size := getTreeSize fe cmd; md_target := md_target dir;
           md_attr := r.1 |} in
      let filled_more (clock err : Z) (children : gmap string Z)
        : dir_more :=
        {| dm_more :=
             {| md_atime := (c_mtime cmd).1; md_atime_ns := (c_mtime cmd).2;
                md_nlink := 2; md_clock := clock; md_err := err |};
           md_nchildren := nchildren;
           md_children := children;
           md_fullpath := getUri fe cmd |} in
      if bool_decide (md_operation dir = LS) then
        if 32768 <? nchildren then
          (Errno.ENAMETOOLONG, filled_dir (md_type dir),
           filled_more (md_clock (dm_more more)) (md_err (dm_more more))
             (md_children more))
        else
          (0, filled_dir MDLS,
           filled_more (clock_of fe id) 0
             (list_children fe cmd (md_children more)))
      else
        (0, filled_dir MD,
         filled_more (clock_of fe id) 0 (md_children more))
  end.

(** The surroundings of [env3], with names that need no encoding. *)
Definition fenv3 : FillEnv :=
  {| fill_env := env3; clock_of := λ _, 0;
     SplitKeyValue := λ v, (v, ""%string);
     EncodeInvalidUTF8 := λ n, n;
     getUri := c_name; getTreeSize := λ _, 0 |}.

(** A listing request for the container 2 of [ns1]. *)
Definition ls_request : md :=
  {| md_operation := LS; md_type := MD; md_ino := 2; md_pino := 1;
     md_name := ""; md_clientid := "c1"; md_clientuuid := "u1";
     md_authid := "a1"; md_implied_authid := ""; md_mv_authid := "";
     md_reqid := 0; md_uid := 0; md_gid := 0; md_mode := 0;
     md_ctime := 0; md_ctime_ns := 0; md_mtime := 0; md_mtime_ns := 0;
     md_btime := 0; md_btime_ns := 0; md_pmtime := 0; md_pmtime_ns := 0;
     md_size := 0; md_target := ""; md_attr := ∅ |}.

Definition no_more : dir_more := mkDirMore (mkMore 0 0 0 0 0) 0 ∅ "".

(* ================================================================== *)
(** * Properties *)
(* ================================================================== *)

(** ** Printing and parsing numbers *)

Ltac eval_digit :=
  match goal with
  | |- context [Str.digit_of ?c] =>
      let v := eval vm_compute in (Str.digit_of c) in
      change (Str.digit_of c) with v; cbv iota beta
  end.

Lemma parse_digits_uint d acc :
  Str.parse_digits acc (NilEmpty.string_of_uint d) = uint_val acc d.
Proof.
  revert acc. induction d; intros acc; cbn [NilEmpty.string_of_uint uint_val];
    [done|..]; cbn [Str.parse_digits]; eval_digit; rewrite IHd; f_equal; lia.
Qed.

Lemma uint_val_of_uint_acc d acc :
  Zpos (Pos.of_uint_acc d acc) = uint_val (Zpos acc) d.
Proof.
  revert acc. induction d; intros acc; cbn [Pos.of_uint_acc uint_val];
    [done|..]; rewrite IHd; f_equal; lia.
Qed.

Lemma uint_val_of_uint d : uint_val 0 d = Z.of_N (Pos.of_uint d).
Proof.
  induction d; cbn [Pos.of_uint uint_val]; [done|..];
  try (rewrite <- IHd; f_equal; lia);
  cbn [Z.of_N]; rewrite uint_val_of_uint_acc; f_equal.
Qed.

Lemma parse_unsigned_pos p :
  Str.parse_unsigned (NilEmpty.string_of_uint (Pos.to_uint p)) = Some (Zpos p).
Proof.
  pose proof (DecimalPos.Unsigned.of_to p) as Hp.
  pose proof (uint_val_of_uint (Pos.to_uint p)) as Hv. rewrite Hp in Hv.
  pose proof (parse_digits_uint (Pos.to_uint p) 0) as Hd. rewrite Hv in Hd.
  cbn [Z.of_N] in Hd.
  destruct (Pos.to_uint p) eqn:E; cbn [NilEmpty.string_of_uint] in *;
    [discriminate|..];
    unfold Str.parse_unsigned; cbn [Str.parse_digits] in Hd; revert Hd;
    eval_digit; intros Hd; f_equal; rewrite <- Hd; f_equal.
Qed.

Lemma parse_int_unsigned s z :
  Str.parse_unsigned s = Some z → Str.parse_int s = Some z.
Proof.
  unfold Str.parse_int, Str.parse_unsigned.
  destruct s as [|c r]; [done|].
  destruct (Str.digit_of c) as [d|] eqn:Hd; [|done]. intros H.
  assert (Hs : Str.is_space c = false ∧ c ≠ "-"%char ∧ c ≠ "+"%char).
  { revert Hd. unfold Str.digit_of, Str.is_space.
    destruct c as [[] [] [] [] [] [] [] []]; vm_compute; try done;
      intros _; repeat split; discriminate. }
  destruct Hs as (Hs & Hm & Hp). cbn [Str.skip_spaces]. rewrite Hs.
  destruct c as [[] [] [] [] [] [] [] []]; try done; by rewrite ?Hd.
Qed.

Lemma parse_int_to_string z : Str.parse_int (Str.to_string z) = Some z.
Proof.
  unfold Str.to_string. destruct z as [|p|p]; [done|..];
    cbn [Z.to_int NilZero.string_of_int];
    pose proof (parse_unsigned_pos p) as H;
    pose proof (DecimalPos.Unsigned.to_uint_nonnil p) as Hn;
    assert (Hz : NilZero.string_of_uint (Pos.to_uint p)
                 = NilEmpty.string_of_uint (Pos.to_uint p))
      by (by destruct (Pos.to_uint p));
    rewrite Hz.
  - by apply parse_int_unsigned.
  - change (Z.opp <$> Str.parse_unsigned
              (NilEmpty.string_of_uint (Pos.to_uint p)) = Some (Z.neg p)).
    by rewrite H.
Qed.

Lemma sto_to_string bits z :
  - 2 ^ (bits - 1) <= z < 2 ^ (bits - 1) →
  Str.sto bits (Str.to_string z) = Some z.
Proof.
  intros [H1 H2]. unfold Str.sto. rewrite parse_int_to_string.
  apply Z.leb_le in H1. apply Z.ltb_lt in H2. by rewrite H1, H2.
Qed.

(** ** Lookup and validation of capabilities *)

Lemma Get_stored s a c : mCaps s !! a = Some c → Get a s = c.
Proof. unfold Get. by intros ->. Qed.

Lemma Get_missing s a : mCaps s !! a = None → Get a s = capx_default.
Proof. unfold Get. by intros ->. Qed.

(** C9. [Caps::Get] always hands back a capability: the stored one when
    the auth-id is present, otherwise a fresh default capability whose
    inode id, mode and vtime are all zero; [ValidateCAP] recognises the
    miss by the zero id and reports [ENOENT]. *)
Theorem Get_total_never_null (s : Caps) (a : string) :
  (∃ c, Get a s = c ∧
        match mCaps s !! a with
        | Some c' => c = c'
        | None => c = capx_default ∧ cap_id c = 0 ∧ cap_mode c = 0
                  ∧ cap_vtime c = 0
        end) ∧
  (∀ md mode now,
     md_authid md = a → cap_id (Get a s) = 0 →
     ValidateCAP s md mode now = (None, Errno.ENOENT)).
Proof.
  split.
  - exists (Get a s). split; [done|]. unfold Get.
    destruct (mCaps s !! a); [done|]. by repeat split.
  - intros md mode now <- Hz. unfold ValidateCAP. by rewrite Hz.
Qed.

Lemma Get_total_never_null_witness :
  ValidateCAP Caps_empty (mkMdRef "a1" 7 1) Mode.W_OK 100
  = (None, Errno.ENOENT).
Proof.
  apply (proj2 (Get_total_never_null Caps_empty "a1")); reflexivity.
Defined.

(** C1, counterexample.  The store holds a fitting capability for inode 7
    under auth-id "a1", but the request names the auth-id "zz": a fitting
    capability exists, yet [ValidateCAP] fails with [ENOENT]. *)
Lemma ValidateCAP_ignores_other_authids :
  let s := Store (mk_cap "a1" 7 "c1" "u1" 66 1000) None Caps_empty in
  let md := mkMdRef "zz" 7 1 in
  some_cap_fits s md 66 100
  ∧ ValidateCAP s md 66 100 = (None, Errno.ENOENT)
  ∧ ¬ (is_Some (fst (ValidateCAP s md 66 100)) ↔ some_cap_fits s md 66 100).
Proof.
  intros s md.
  assert (Hfit : some_cap_fits s md 66 100).
  { exists "a1"%string, (mk_cap "a1" 7 "c1" "u1" 66 1000).
    repeat split; try reflexivity. by left. }
  assert (Hv : ValidateCAP s md 66 100 = (None, Errno.ENOENT))
    by (vm_compute; reflexivity).
  split; [done|]. split; [done|].
  intros [_ H]. specialize (H Hfit). rewrite Hv in H.
  by destruct H.
Qed.

(** C1, amended.  [ValidateCAP] returns a capability exactly when the
    capability stored under the request's own auth-id has a non-zero
    inode id equal to [md_ino] or [md_pino], covers the mode mask and has
    a [vtime] beyond [now + 60] (computed in [uint64_t]); and it fails
    with [ETIMEDOUT] exactly when that capability fits except that its
    [vtime] is not beyond [now + 60]. *)
Theorem ValidateCAP_own_cap (s : Caps) (md : md) (M now : Z) :
  (∀ c, ValidateCAP s md M now = (Some c, 0)
        ↔ own_cap_fits s md M now c ∧ cap_vtime c > Int.add64 now 60)
  ∧ (is_Some (fst (ValidateCAP s md M now))
     ↔ ∃ c, own_cap_fits s md M now c ∧ cap_vtime c > Int.add64 now 60)
  ∧ (ValidateCAP s md M now = (None, Errno.ETIMEDOUT)
     ↔ ∃ c, own_cap_fits s md M now c ∧ cap_vtime c <= Int.add64 now 60).
Proof.
  assert (Hchar : ∀ r, ValidateCAP s md M now = r →
    (∀ c, r = (Some c, 0)
          ↔ own_cap_fits s md M now c ∧ cap_vtime c > Int.add64 now 60)
    ∧ (r = (None, Errno.ETIMEDOUT)
       ↔ ∃ c, own_cap_fits s md M now c ∧ cap_vtime c <= Int.add64 now 60)).
  { intros r <-. unfold ValidateCAP, own_cap_fits, Get.
    destruct (mCaps s !! md_authid md) as [c0|] eqn:Hc0; simpl.
    2:{ split; [intros c|]; split; try discriminate.
        - by intros [[? _] _].
        - by intros (c & [? _] & _). }
    destruct (Z.eqb_spec (cap_id c0) 0) as [Hz|Hz].
    { split; [intros c|]; split; try discriminate.
      - intros [(Hs & Hn & _) _]. by simplify_eq.
      - intros (c & (Hs & Hn & _) & _). by simplify_eq. }
    destruct (Z.eqb_spec (cap_id c0) (md_ino md)) as [Hi|Hi];
      destruct (Z.eqb_spec (cap_id c0) (md_pino md)) as [Hp|Hp]; simpl;
      try (destruct (Z.eqb_spec (Z.land (cap_mode c0) M) M) as [Hm|Hm];
           [destruct (Z.leb_spec (cap_vtime c0) (Int.add64 now 60)) as [Hv|Hv]|]);
      (split; [intros c|]; split;
       [ intros ?; simplify_eq; repeat split; auto; lia
       | intros [(Hs & Hn & Hid & Hmm) Hvv]; simplify_eq;
         try done; try lia; try (by destruct Hid)
       | intros ?; simplify_eq; try (exists c0; repeat split; auto; lia)
       | intros (c & (Hs & Hn & Hid & Hmm) & Hvv); simplify_eq;
         try done; try lia; try (by destruct Hid) ]). }
  destruct (Hchar _ eq_refl) as [H1 H2].
  split; [exact H1|]. split; [|exact H2].
  split.
  - intros [c Hc]. destruct (ValidateCAP s md M now) as [o e] eqn:Hv.
    simpl in Hc. subst o. exists c. apply H1.
    revert Hv. unfold ValidateCAP.
    repeat case_match; intros; simplify_eq; done.
  - intros (c & Hc). apply H1 in Hc. rewrite Hc. by eexists.
Qed.

(** ** [Caps::Delete] *)

Section DeleteLoop.

Variable i : Z.

Lemma Delete_step_mCaps s x a :
  mCaps (Delete_step i s x) !! a
  = if decide (a = x) then None else mCaps s !! a.
Proof.
  unfold Delete_step.
  destruct (mCaps s !! x) eqn:Hx; simpl; case_decide; subst;
    by rewrite ?lookup_delete_eq, ?lookup_delete_ne.
Qed.

Lemma Delete_step_mClientCaps s x k :
  mClientCaps (Delete_step i s x) !! k
  = (λ X : gset string, X ∖ {[x]}) <$> mClientCaps s !! k.
Proof.
  unfold Delete_step.
  destruct (mCaps s !! x); simpl; by rewrite lookup_fmap.
Qed.

Lemma Delete_step_untouched s x :
  mTimeOrderedCap (Delete_step i s x) = mTimeOrderedCap s
  ∧ mInodeCaps (Delete_step i s x) = mInodeCaps s.
Proof. unfold Delete_step. by destruct (mCaps s !! x). Qed.

(** A step only ever takes [i] out of inode sets. *)
Lemma Delete_step_mClientInoCaps s x k X' :
  mClientInoCaps (Delete_step i s x) !! k = Some X' →
  ∃ X, mClientInoCaps s !! k = Some X ∧ X' ⊆ X.
Proof.
  unfold Delete_step.
  destruct (mCaps s !! x) as [c|]; simpl; [|by eauto].
  destruct (mClientInoCaps s !! cap_clientid c) as [Y|] eqn:HY; [|by eauto].
  destruct (decide (cap_clientid c = k)) as [<-|Hne].
  - rewrite lookup_insert_eq. intros [= <-]. exists Y. split; [done|set_solver].
  - rewrite lookup_insert_ne by done. eauto.
Qed.

Lemma Delete_step_erases s x c X' :
  mCaps s !! x = Some c →
  mClientInoCaps (Delete_step i s x) !! cap_clientid c = Some X' →
  i ∉ X'.
Proof.
  unfold Delete_step. intros ->. simpl.
  destruct (mClientInoCaps s !! cap_clientid c) as [Y|] eqn:HY.
  - rewrite lookup_insert_eq. intros [= <-]. set_solver.
  - by rewrite HY.
Qed.

Lemma Delete_loop_mCaps l s a :
  mCaps (Delete_loop i l s) !! a
  = if decide (a ∈ l) then None else mCaps s !! a.
Proof.
  unfold Delete_loop. revert s.
  induction l as [|x l IH]; intros s; cbn [fold_left].
  - case_decide; [set_solver|done].
  - rewrite IH, Delete_step_mCaps.
    repeat case_decide; set_solver.
Qed.

Lemma Delete_loop_mClientCaps l s k :
  mClientCaps (Delete_loop i l s) !! k
  = (λ X : gset string, X ∖ list_to_set l) <$> mClientCaps s !! k.
Proof.
  unfold Delete_loop. revert s.
  induction l as [|x l IH]; intros s; simpl.
  - destruct (mClientCaps s !! k); simpl; [f_equal; set_solver|done].
  - rewrite IH, Delete_step_mClientCaps.
    destruct (mClientCaps s !! k); simpl; [f_equal; set_solver|done].
Qed.

Lemma Delete_loop_untouched l s :
  mTimeOrderedCap (Delete_loop i l s) = mTimeOrderedCap s
  ∧ mInodeCaps (Delete_loop i l s) = mInodeCaps s.
Proof.
  unfold Delete_loop. revert s.
  induction l as [|x l IH]; intros s; simpl; [done|].
  destruct (IH (Delete_step i s x)) as [-> ->].
  apply Delete_step_untouched.
Qed.

Lemma Delete_loop_mClientInoCaps l s k X' :
  mClientInoCaps (Delete_loop i l s) !! k = Some X' →
  ∃ X, mClientInoCaps s !! k = Some X ∧ X' ⊆ X.
Proof.
  unfold Delete_loop. revert s X'.
  induction l as [|x l IH]; intros s X'; simpl; [by eauto|].
  intros (Y & HY & Hs)%IH.
  apply Delete_step_mClientInoCaps in HY as (X & HX & Hs').
  exists X. split; [done|set_solver].
Qed.

(** Every capability met by the loop has [i] taken out of its client's
    inode set. *)
Lemma Delete_loop_erases l s a c X' :
  a ∈ l → mCaps s !! a = Some c →
  mClientInoCaps (Delete_loop i l s) !! cap_clientid c = Some X' →
  i ∉ X'.
Proof.
  revert s. induction l as [|x l IH]; intros s Hin Hc HX'.
  - by apply elem_of_nil in Hin.
  - change (Delete_loop i (x :: l) s)
      with (Delete_loop i l (Delete_step i s x)) in HX'.
    destruct (decide (a = x)) as [->|Hne].
    + apply Delete_loop_mClientInoCaps in HX' as (X & HX & Hs).
      pose proof (Delete_step_erases _ _ _ _ Hc HX). set_solver.
    + eapply (IH (Delete_step i s x)); [set_solver| |done].
      rewrite Delete_step_mCaps. by case_decide.
Qed.

End DeleteLoop.

Lemma elem_of_set_order (X : gset string) a : a ∈ set_order X ↔ a ∈ X.
Proof.
  unfold set_order. rewrite merge_sort_Permutation. apply elem_of_elements.
Qed.

Lemma NoDup_set_order (X : gset string) : NoDup (set_order X).
Proof.
  unfold set_order. rewrite merge_sort_Permutation. apply NoDup_elements.
Qed.

(** What [Delete] does to each index, without any assumption on the
    store. *)
Lemma Delete_effect i s X :
  mInodeCaps s !! i = Some X →
  let s' := snd (Delete i s) in
  fst (Delete i s) = 0
  ∧ (∀ a, mCaps s' !! a = if decide (a ∈ X) then None else mCaps s !! a)
  ∧ (∀ k, mClientCaps s' !! k
          = (λ Y : gset string, Y ∖ X) <$> mClientCaps s !! k)
  ∧ (∀ a c Y, a ∈ X → mCaps s !! a = Some c →
              mClientInoCaps s' !! cap_clientid c = Some Y → i ∉ Y)
  ∧ (∀ k Y', mClientInoCaps s' !! k = Some Y' →
             ∃ Y, mClientInoCaps s !! k = Some Y ∧ Y' ⊆ Y)
  ∧ mInodeCaps s' = delete i (mInodeCaps s)
  ∧ mTimeOrderedCap s' = mTimeOrderedCap s.
Proof.
  intros HX. unfold Delete. rewrite HX. simpl.
  split; [done|]. split; [|split; [|split; [|split; [|split]]]].
  - intros a. rewrite Delete_loop_mCaps.
    repeat case_decide; try done; by rewrite elem_of_set_order in *.
  - intros k. rewrite Delete_loop_mClientCaps.
    destruct (mClientCaps s !! k) as [Y|]; simpl; [|done].
    f_equal. apply set_eq. intros a.
    rewrite !elem_of_difference, elem_of_list_to_set, elem_of_set_order.
    done.
  - intros a c Y Ha Hc HY.
    eapply Delete_loop_erases; [|done|done]. by apply elem_of_set_order.
  - intros k Y'. apply Delete_loop_mClientInoCaps.
  - by destruct (Delete_loop_untouched i (set_order X) s) as [_ ->].
  - by destruct (Delete_loop_untouched i (set_order X) s) as [-> _].
Qed.

(** *** The index invariant *)

Lemma Caps_empty_consistent : Caps_consistent Caps_empty ∧ Caps_exact Caps_empty.
Proof.
  unfold Caps_consistent, Caps_exact. simpl.
  split; [split|]; intros; simplify_map_eq.
Qed.

Lemma lookup_set_insert_at `{Countable K} `{Countable A}
  (k k' : K) (x : A) (m : gmap K (gset A)) :
  set_insert_at k x m !! k'
  = if decide (k = k') then Some ({[x]} ∪ default ∅ (m !! k)) else m !! k'.
Proof. unfold set_insert_at. apply lookup_insert. Qed.

Lemma Store_consistent ecap vid s :
  storable ecap s →
  Caps_consistent s ∧ Caps_exact s →
  Caps_consistent (Store ecap vid s) ∧ Caps_exact (Store ecap vid s).
Proof.
  intros Hst [[W1 W2] W3]. unfold Store. split; [split|]; simpl.
  - intros a c. rewrite lookup_insert. case_decide as Ha.
    + intros [= <-]. simpl. rewrite lookup_set_insert_at.
      rewrite decide_True by done. eexists. split; [done|]. set_solver.
    + intros Hc. destruct (W1 a c Hc) as (X & HX & Hin).
      rewrite lookup_set_insert_at. case_decide as Hi.
      * eexists. split; [done|]. rewrite Hi, HX. set_solver.
      * eauto.
  - intros k X i. rewrite lookup_set_insert_at. case_decide as Hk.
    + intros [= <-] Hin. subst k.
      destruct (decide (i = cap_id ecap)) as [->|Hne].
      * exists (cap_authid ecap), (set_vid vid ecap).
        by rewrite lookup_insert_eq.
      * assert (Hold : ∃ Y, mClientInoCaps s !! cap_clientid ecap = Some Y
                            ∧ i ∈ Y).
        { destruct (mClientInoCaps s !! cap_clientid ecap) as [Y|];
            [exists Y|]; set_solver. }
        destruct Hold as (Y & HY & HiY).
        destruct (W2 _ _ _ HY HiY) as (a & c & Hac & Hcl & Hid).
        exists a, c. rewrite lookup_insert_ne; [done|].
        intros <-. destruct (Hst c Hac) as [_ ?]. congruence.
    + intros HX Hin.
      destruct (W2 _ _ _ HX Hin) as (a & c & Hac & Hcl & Hid).
      exists a, c. rewrite lookup_insert_ne; [done|].
      intros <-. destruct (Hst c Hac) as [? _]. congruence.
  - intros i X a. simpl. rewrite lookup_set_insert_at. case_decide as Hi.
    + intros [= <-] Hin. subst i.
      destruct (decide (a = cap_authid ecap)) as [->|Hne].
      * exists (set_vid vid ecap). by rewrite lookup_insert_eq.
      * rewrite lookup_insert_ne by done.
        destruct (mInodeCaps s !! cap_id ecap) as [Y|] eqn:HY;
          [|set_solver].
        apply (W3 _ Y); [done|set_solver].
    + intros HX Hin. destruct (W3 _ _ _ HX Hin) as (c & Hac & Hid).
      exists c. rewrite lookup_insert_ne; [done|].
      intros <-. destruct (Hst c Hac) as [_ ?]. congruence.
Qed.

(** C3, counterexample.  One capability for inode 7 is stored and the
    inode is then deleted: the expiry index still lists its auth-id. *)
Lemma Delete_keeps_expiry_entry :
  let s := Store (mk_cap "a1" 7 "c1" "u1" 66 1000) None Caps_empty in
  fst (Delete 7 s) = 0
  ∧ mTimeOrderedCap (snd (Delete 7 s)) = [(1000, "a1"%string)]
  ∧ ¬ gone_from_expiry_index 7 s (snd (Delete 7 s)).
Proof.
  intros s.
  assert (Ht : mTimeOrderedCap (snd (Delete 7 s)) = [(1000, "a1"%string)])
    by (vm_compute; reflexivity).
  split; [by vm_compute|]. split; [done|].
  intros H.
  apply (H "a1"%string (mk_cap "a1" 7 "c1" "u1" 66 1000) eq_refl eq_refl 1000).
  rewrite Ht. apply list_elem_of_here.
Qed.

(** C3, amended.  On a store with consistent indices, after [Delete i]
    no capability of inode [i] is left in the primary map, in any
    client's capability set, in any client's inode set or in the inode
    index; the time-ordered expiry index is left exactly as it was. *)
Theorem Delete_clears_indices (i : Z) (s : Caps) :
  Caps_consistent s →
  let s' := snd (Delete i s) in
  gone_from_primary i s'
  ∧ gone_from_client_caps i s s'
  ∧ gone_from_client_inodes i s'
  ∧ gone_from_inode_index i s'
  ∧ mTimeOrderedCap s' = mTimeOrderedCap s.
Proof.
  intros [W1 W2] s'.
  destruct (mInodeCaps s !! i) as [X|] eqn:HX.
  - destruct (Delete_effect i s X HX)
      as (_ & Hc & Hcc & Her & Hmono & Hi & Ht). fold s' in Hc, Hcc, Her, Hmono, Hi, Ht.
    assert (Hreg : ∀ a c, mCaps s !! a = Some c → cap_id c = i → a ∈ X).
    { intros a c Hac Hid. destruct (W1 a c Hac) as (X0 & HX0 & Ha).
      rewrite Hid, HX in HX0. by simplify_eq. }
    repeat split.
    + intros a c Hac Hid. rewrite Hc in Hac. case_decide; [done|].
      eauto.
    + intros a c Hac Hid k Y HY. rewrite Hcc in HY.
      destruct (mClientCaps s !! k); simplify_eq/=.
      specialize (Hreg _ _ Hac eq_refl). set_solver.
    + intros k Y' HY' Hin.
      destruct (Hmono _ _ HY') as (Y & HY & Hsub).
      destruct (W2 k Y i HY (Hsub _ Hin)) as (a & c & Hac & <- & Hid).
      by eapply (Her a c Y' (Hreg _ _ Hac Hid) Hac HY').
    + unfold gone_from_inode_index. rewrite Hi. apply lookup_delete_eq.
    + done.
  - assert (s' = s) as -> by (unfold s', Delete; by rewrite HX).
    repeat split; try done.
    + intros a c Hac Hid. destruct (W1 a c Hac) as (X0 & HX0 & _).
      rewrite Hid, HX in HX0. done.
    + intros a c Hac Hid. destruct (W1 a c Hac) as (X0 & HX0 & _).
      rewrite Hid, HX in HX0. done.
    + intros k Y HY Hin.
      destruct (W2 k Y i HY Hin) as (a & c & Hac & _ & Hid).
      destruct (W1 a c Hac) as (X0 & HX0 & _).
      rewrite Hid, HX in HX0. done.
Qed.

Lemma Delete_clears_indices_witness :
  let s := Store (mk_cap "a1" 7 "c1" "u1" 66 1000) None Caps_empty in
  gone_from_primary 7 (snd (Delete 7 s))
  ∧ gone_from_inode_index 7 (snd (Delete 7 s)).
Proof.
  intros s.
  assert (Hs : Caps_consistent s).
  { apply Store_consistent; [|apply Caps_empty_consistent].
    intros c. unfold Caps_empty. simpl. by rewrite lookup_empty. }
  destruct (Delete_clears_indices 7 s Hs) as (H1 & _ & _ & H4 & _).
  exact (conj H1 H4).
Defined.

(** [Delete] keeps the indices consistent. *)
Lemma Delete_consistent i s :
  Caps_consistent s ∧ Caps_exact s →
  Caps_consistent (snd (Delete i s)) ∧ Caps_exact (snd (Delete i s)).
Proof.
  intros [[W1 W2] W3].
  destruct (mInodeCaps s !! i) as [X|] eqn:HX.
  2:{ unfold Delete. rewrite HX. by repeat split. }
  destruct (Delete_effect i s X HX)
    as (_ & Hc & Hcc & Her & Hmono & Hi & Ht).
  set (s' := snd (Delete i s)) in *.
  split; [split|].
  - intros a c. rewrite Hc. case_decide as Ha; [done|]. intros Hac.
    destruct (W1 a c Hac) as (X0 & HX0 & Hin).
    exists X0. split; [|done]. rewrite Hi.
    rewrite lookup_delete_ne; [done|]. intros ->. by simplify_eq.
  - intros k Y' j HY' Hj.
    destruct (Hmono _ _ HY') as (Y & HY & Hsub).
    destruct (W2 k Y j HY (Hsub _ Hj)) as (a & c & Hac & Hcl & Hid).
    exists a, c. rewrite Hc. case_decide as Ha; [|done].
    exfalso. destruct (W3 _ _ _ HX Ha) as (c' & Hac' & Hid').
    simplify_eq. by eapply (Her a c Y' Ha Hac HY').
  - intros j Y a. rewrite Hi. intros HY Ha.
    destruct (decide (i = j)) as [<-|Hne]; [by rewrite lookup_delete_eq in HY|].
    rewrite lookup_delete_ne in HY by done.
    destruct (W3 _ _ _ HY Ha) as (c & Hac & Hid).
    exists c. split; [|done]. rewrite Hc. case_decide as HaX; [|done].
    destruct (W3 _ _ _ HX HaX) as (c' & Hac' & Hid'). by simplify_eq.
Qed.

(** ** Broadcast recipients *)

Section BroadcastLoops.

Variables (s : Caps) (a0 : string) (refcap : capx).

Lemma release_loop_spec l acc c :
  c ∈ release_loop s a0 refcap l acc ↔ c ∈ acc ∨ found s a0 refcap l c.
Proof.
  unfold found, addressed. revert acc.
  induction l as [|it r IH]; intros acc; cbn [release_loop].
  - split; [auto|]. intros [?|(a & Ha & _)]; [done|]. by apply elem_of_nil in Ha.
  - destruct (mCaps s !! it) as [cap|] eqn:Hit.
    2:{ rewrite IH. split; intros [?|(a & Ha & Hc & Hok)]; auto; right;
        exists a; (split; [|done]).
        - by right.
        - apply elem_of_cons in Ha as [->|?]; [congruence|done]. }
    destruct (String.eqb_spec (cap_authid cap) a0) as [Ea|Ea];
      [|destruct (String.eqb_spec (cap_clientuuid cap) (cap_clientuuid refcap))
          as [Eu|Eu];
        [|destruct (Z.eqb_spec (cap_id cap) 0) as [Ez|Ez]; cbn [negb]]];
      rewrite IH; try rewrite elem_of_app, list_elem_of_singleton;
      (split; [intros [H|H]|intros [H|(a & Ha & Hc & Hok)]]);
      try (by auto);
      try (destruct H as (a & Ha & Hc & Hok); right; exists a;
           split; [by right|done]);
      try (apply elem_of_cons in Ha as [->|Ha];
           [simplify_eq; try (by destruct Hok as (? & ? & ?)); auto
           |right; exists a; done]).
    + destruct H as [H| ->]; [by left|].
      right. exists it. split; [by left|done].
Qed.

(** Invariant of the [BroadcastMD] loop: [clients_sent] is the set of
    uuids of [bccaps], and no uuid occurs twice. *)
Lemma md_loop_spec l sent acc :
  (∀ u, u ∈ sent ↔ u ∈ cap_clientuuid <$> acc) →
  NoDup (cap_clientuuid <$> acc) →
  let res := md_loop s a0 refcap l sent acc in
  NoDup (cap_clientuuid <$> res)
  ∧ (∀ c, c ∈ res → c ∈ acc ∨ found s a0 refcap l c)
  ∧ (∀ u, u ∈ cap_clientuuid <$> res
          ↔ u ∈ cap_clientuuid <$> acc
            ∨ ∃ c, found s a0 refcap l c ∧ cap_clientuuid c = u).
Proof.
  unfold found, addressed. revert sent acc.
  induction l as [|it r IH]; intros sent acc Hsent Hnd; cbn [md_loop]; cbv zeta.
  - split; [done|]. split; [auto|]. intros u. split; [auto|].
    intros [?|(c & (a & Ha & _) & _)]; [done|]. by apply elem_of_nil in Ha.
  - assert (Hskip : ∀ cap, mCaps s !! it = Some cap →
              (¬ (cap_authid cap ≠ a0 ∧ cap_clientuuid cap ≠ cap_clientuuid refcap
                  ∧ cap_id cap ≠ 0)
               ∨ cap_clientuuid cap ∈ sent) →
              let res := md_loop s a0 refcap r sent acc in
              NoDup (cap_clientuuid <$> res)
              ∧ (∀ c, c ∈ res → c ∈ acc ∨
                   ∃ a, a ∈ it :: r ∧ mCaps s !! a = Some c
                        ∧ cap_authid c ≠ a0
                        ∧ cap_clientuuid c ≠ cap_clientuuid refcap
                        ∧ cap_id c ≠ 0)
              ∧ (∀ u, u ∈ cap_clientuuid <$> res
                   ↔ u ∈ cap_clientuuid <$> acc
                     ∨ ∃ c, (∃ a, a ∈ it :: r ∧ mCaps s !! a = Some c
                                  ∧ cap_authid c ≠ a0
                                  ∧ cap_clientuuid c ≠ cap_clientuuid refcap
                                  ∧ cap_id c ≠ 0)
                            ∧ cap_clientuuid c = u)).
    { intros cap Hcap Hwhy res.
      destruct (IH sent acc Hsent Hnd) as (N & M & U). fold res in N, M, U.
      split; [done|]. split.
      - intros c [?|(a & Ha & Hc)]%M; [by left|].
        right. exists a. split; [by right|done].
      - intros u. rewrite U. split.
        + intros [?|(c & (a & Ha & Hc) & Hu)]; [by left|].
          right. exists c. split; [|done]. exists a. split; [by right|done].
        + intros [?|(c & (a & Ha & Hc & Hok) & Hu)]; [by left|].
          apply elem_of_cons in Ha as [->|Ha].
          * simplify_eq. destruct Hwhy as [Hno|Hin]; [done|].
            left. by apply Hsent.
          * right. exists c. split; [|done]. by exists a. }
    destruct (mCaps s !! it) as [cap|] eqn:Hit.
    2:{ destruct (IH sent acc Hsent Hnd) as (N & M & U).
        split; [done|]. split.
        - intros c [?|(a & Ha & Hc)]%M; [by left|].
          right. exists a. split; [by right|done].
        - intros u. rewrite U. split.
          + intros [?|(c & (a & Ha & Hc) & Hu)]; [by left|].
            right. exists c. split; [|done]. exists a. split; [by right|done].
          + intros [?|(c & (a & Ha & Hc & Hok) & Hu)]; [by left|].
            apply elem_of_cons in Ha as [->|Ha]; [congruence|].
            right. exists c. split; [|done]. by exists a. }
    destruct (String.eqb_spec (cap_authid cap) a0) as [Ea|Ea].
    { apply (Hskip cap eq_refl). left. by intros (? & _). }
    destruct (String.eqb_spec (cap_clientuuid cap) (cap_clientuuid refcap))
      as [Eu|Eu].
    { apply (Hskip cap eq_refl). left. by intros (_ & ? & _). }
    destruct (Z.eqb_spec (cap_id cap) 0) as [Ez|Ez]; cbn [negb andb].
    { apply (Hskip cap eq_refl). left. by intros (_ & _ & ?). }
    case_bool_decide as Hin; cbn [negb].
    { apply (Hskip cap eq_refl). by right. }
    clear Hskip.
    assert (Hsent' : ∀ u, u ∈ {[cap_clientuuid cap]} ∪ sent
                          ↔ u ∈ cap_clientuuid <$> acc ++ [cap]).
    { intros u. rewrite fmap_app, elem_of_app, elem_of_union, Hsent.
      simpl. rewrite list_elem_of_singleton, elem_of_singleton. tauto. }
    assert (Hnd' : NoDup (cap_clientuuid <$> acc ++ [cap])).
    { rewrite fmap_app. apply NoDup_app. split; [done|]. split.
      - intros u Hu. simpl. rewrite list_elem_of_singleton. intros ->.
        by apply Hin, Hsent.
      - simpl. apply NoDup_singleton. }
    destruct (IH _ _ Hsent' Hnd') as (N & M & U).
    split; [done|]. split.
    + intros c [Hc|(a & Ha & Hc)]%M.
      * apply elem_of_app in Hc as [?|Hc]; [by left|].
        apply list_elem_of_singleton in Hc as ->.
        right. exists it. split; [by left|done].
      * right. exists a. split; [by right|done].
    + intros u. rewrite U, fmap_app, elem_of_app. simpl.
      rewrite list_elem_of_singleton. split.
      * intros [[?| ->]|(c & (a & Ha & Hc) & Hu)]; [by left| |].
        -- right. exists cap. split; [|done]. exists it. split; [by left|done].
        -- right. exists c. split; [|done]. exists a. split; [by right|done].
      * intros [?|(c & (a & Ha & Hc & Hok) & Hu)]; [by left; left|].
        apply elem_of_cons in Ha as [->|Ha].
        -- simplify_eq. left. by right.
        -- right. exists c. split; [|done]. by exists a.
Qed.

End BroadcastLoops.

Lemma found_recipient s a0 refcap i X c :
  mInodeCaps s !! i = Some X →
  found s a0 refcap (set_order X) c
  ↔ recipient s i a0 (cap_clientuuid refcap) c ∧ cap_id c ≠ 0.
Proof.
  intros HX. unfold found, recipient, registered, addressed. split.
  - intros (a & Ha & Hc & H1 & H2 & H3). apply elem_of_set_order in Ha.
    repeat split; try done. by exists X, a.
  - intros (((X' & a & HX' & Ha & Hc) & H1 & H2) & H3). simplify_eq.
    exists a. by rewrite elem_of_set_order.
Qed.

Lemma no_recipient_without_index s i a0 u0 c :
  mInodeCaps s !! i = None → ¬ recipient s i a0 u0 c.
Proof. intros HX ((X & a & HX' & _) & _). congruence. Qed.

(** C2, counterexample.  (a) Mount "u2" holds two capabilities, "a2" and
    "a3", on inode 7 and mount "u1" mutates the inode through "a1": both
    capabilities satisfy the recipient rule, but the MD broadcast
    addresses only "a2".  (b) On inode 0 the capability "z2" of another
    mount satisfies the rule, but the release broadcast addresses
    nobody. *)
Lemma Broadcast_not_all_recipients :
  (let md := mkMdRef "a1" 9 7 in
   let c3 := mk_cap "a3" 7 "c2" "u2" 66 1000 in
   recipient st2 7 "a1" (cap_clientuuid (Get "a1" st2)) c3
   ∧ BroadcastMD st2 md 7 = [mk_cap "a2" 7 "c2" "u2" 66 1000]
   ∧ c3 ∉ BroadcastMD st2 md 7)
  ∧ (let md := mkMdRef "z1" 0 0 in
     let c2 := mk_cap "z2" 0 "c2" "u2" 66 1000 in
     recipient st0 (release_inode st0 md) "z1"
       (cap_clientuuid (Get "z1" st0)) c2
     ∧ BroadcastRelease st0 md = []).
Proof.
  split.
  - intros md c3.
    assert (Hb : BroadcastMD st2 md 7 = [mk_cap "a2" 7 "c2" "u2" 66 1000])
      by (vm_compute; reflexivity).
    split; [|split; [done|]].
    + split; [|split; [done|by vm_compute]].
      exists {[ "a1"; "a2"; "a3" ]}%string, "a3"%string.
      split; [by vm_compute|]. split; [set_solver|by vm_compute].
    + rewrite Hb. intros H%list_elem_of_singleton. discriminate.
  - intros md c2. split; [|by vm_compute].
    split; [|split; [done|by vm_compute]].
    exists {[ "z1"; "z2" ]}%string, "z2"%string.
    split; [by vm_compute|]. split; [set_solver|by vm_compute].
Qed.

(** C2, amended.  For a mutation sent under auth-id [a0], whose stored
    capability belongs to mount [u0]: the release broadcast addresses
    exactly the capabilities registered under the inode that have a
    non-zero inode id, an auth-id other than [a0] and a mount other than
    [u0]; the MD broadcast addresses only such capabilities, one for
    each mount that holds any of them. *)
Theorem Broadcast_recipients (s : Caps) (md : md) (pino : Z) :
  let a0 := md_authid md in
  let u0 := cap_clientuuid (Get a0 s) in
  (∀ c, c ∈ BroadcastRelease s md
        ↔ recipient s (release_inode s md) a0 u0 c ∧ cap_id c ≠ 0)
  ∧ (∀ c, c ∈ BroadcastMD s md pino
          → recipient s pino a0 u0 c ∧ cap_id c ≠ 0)
  ∧ (∀ u, u ∈ cap_clientuuid <$> BroadcastMD s md pino
          ↔ ∃ c, (recipient s pino a0 u0 c ∧ cap_id c ≠ 0)
                 ∧ cap_clientuuid c = u)
  ∧ NoDup (cap_clientuuid <$> BroadcastMD s md pino).
Proof.
  intros a0 u0. subst u0 a0. split; [|split; [|split]].
  - intros c. unfold BroadcastRelease.
    destruct (mInodeCaps s !! release_inode s md) as [X|] eqn:HX.
    + rewrite release_loop_spec, <- (found_recipient _ _ _ _ _ _ HX).
      split; [intros [H|H]|intros H]; [by apply elem_of_nil in H|done|by right].
    + split; [by intros H%elem_of_nil|].
      intros [H _]. by apply no_recipient_without_index in H.
  - intros c. unfold BroadcastMD.
    destruct (mInodeCaps s !! pino) as [X|] eqn:HX;
      [|by intros H%elem_of_nil].
    intros H.
    destruct (md_loop_spec s (md_authid md) (Get (md_authid md) s) (set_order X) ∅ []) as (_ & M & _).
    { intros u. simpl. split; [set_solver|by intros ?%elem_of_nil]. }
    { constructor. }
    apply M in H as [H|H]; [by apply elem_of_nil in H|].
    by apply (found_recipient _ _ _ _ _ _ HX).
  - intros u. unfold BroadcastMD.
    destruct (mInodeCaps s !! pino) as [X|] eqn:HX.
    + destruct (md_loop_spec s (md_authid md) (Get (md_authid md) s) (set_order X) ∅ []) as (_ & _ & U).
      { intros u'. simpl. split; [set_solver|by intros ?%elem_of_nil]. }
      { constructor. }
      rewrite U. simpl. split.
      * intros [H|(c & Hc & Hu)]; [by apply elem_of_nil in H|].
        exists c. split; [|done]. by apply (found_recipient _ _ _ _ _ _ HX).
      * intros (c & Hc & Hu). right. exists c. split; [|done].
        by apply (found_recipient _ _ _ _ _ _ HX).
    + simpl. split; [by intros H%elem_of_nil|].
      intros (c & [H _] & _). by apply no_recipient_without_index in H.
  - unfold BroadcastMD.
    destruct (mInodeCaps s !! pino) as [X|] eqn:HX; [|constructor].
    destruct (md_loop_spec s (md_authid md) (Get (md_authid md) s) (set_order X) ∅ []) as (N & _ & _);
      [|constructor|done].
    intros u'. simpl. split; [set_solver|by intros ?%elem_of_nil].
Qed.

(** ** The heartbeat sweep *)

Lemma elem_of_map_order {V} (m : gmap string V) k v :
  (k, v) ∈ map_order m ↔ m !! k = Some v.
Proof.
  unfold map_order. rewrite merge_sort_Permutation.
  apply elem_of_map_to_list.
Qed.

Lemma NoDup_map_order {V} (m : gmap string V) : NoDup (map_order m).*1.
Proof.
  unfold map_order. rewrite merge_sort_Permutation.
  apply NoDup_fst_map_to_list.
Qed.

Lemma Qgtb_true a b : Qgtb a b = true ↔ Qlt b a.
Proof.
  unfold Qgtb. rewrite negb_true_iff, <- not_true_iff_false, Qle_bool_iff.
  split; [apply Qnot_le_lt|apply Qlt_not_le].
Qed.

Lemma Qgtb_false a b : Qgtb a b = false ↔ Qle a b.
Proof.
  unfold Qgtb. rewrite negb_false_iff. apply Qle_bool_iff.
Qed.

Section Sweep.

Variables (PROTOCOLV2 : Z) (cl : Clients) (tsnow : timespec).

#[local] Abbreviation uuid_of c := (hb_uuid (heartbeat_ c)).

Lemma hb_step_eq acc it :
  hb_step PROTOCOLV2 cl tsnow acc it
  = {| a_map :=
         <[it.1 := set_state (session_state PROTOCOLV2 cl tsnow it.2) it.2]>
           (a_map acc);
       a_evictmap :=
         if times_out cl tsnow it.2
         then <[uuid_of it.2 := it.1]> (a_evictmap acc)
         else a_evictmap acc;
       a_evictversionmap :=
         if version_old PROTOCOLV2 it.2
         then <[uuid_of it.2 := it.1]> (a_evictversionmap acc)
         else a_evictversionmap acc;
       a_effects :=
         a_effects acc
         ++ (if drops_locks cl tsnow it.2 then [DropLocks (uuid_of it.2)]
             else []) |}.
Proof.
  unfold hb_step, session_state, times_out, drops_locks, version_old.
  destruct it as [id c]. cbn [fst snd].
  destruct (hb_protversion (heartbeat_ c) <? PROTOCOLV2);
    destruct (hb_shutdown (heartbeat_ c));
    destruct (Qgtb (heartbeat_age tsnow (heartbeat_ c)) (mHeartBeatWindow cl));
    destruct (Qgtb (heartbeat_age tsnow (heartbeat_ c))
                (mHeartBeatOfflineWindow cl));
    destruct (Qgtb (heartbeat_age tsnow (heartbeat_ c))
                (mHeartBeatRemoveWindow cl));
    cbn [a_map a_evictmap a_evictversionmap a_effects andb orb negb];
    rewrite ?insert_insert_eq, ?app_nil_r; try reflexivity;
    destruct (bool_decide (state c ≠ OFFLINE));
    rewrite ?app_nil_r; reflexivity.
Qed.

(** Filling a [std::map] with [map[uuid] = id] for the sessions that
    satisfy [P]. *)
Lemma collect_sound (P : Client → bool) (sel : sweep_acc → gmap string string)
  (upd : ∀ acc it, sel (hb_step PROTOCOLV2 cl tsnow acc it)
                   = if P it.2 then <[uuid_of it.2 := it.1]> (sel acc)
                     else sel acc)
  l acc u id :
  sel (fold_left (hb_step PROTOCOLV2 cl tsnow) l acc) !! u = Some id →
  sel acc !! u = Some id
  ∨ ∃ c, (id, c) ∈ l ∧ uuid_of c = u ∧ P c = true.
Proof.
  revert acc. induction l as [|[id' c'] l IH]; intros acc; cbn [fold_left].
  - auto.
  - intros [H|(c & Hc & Hu & HP)]%IH.
    + rewrite upd in H. cbn [fst snd] in H.
      destruct (P c') eqn:HP; [|by left].
      destruct (decide (uuid_of c' = u)) as [<-|Hne].
      * rewrite lookup_insert_eq in H. simplify_eq.
        right. exists c'. split; [by left|done].
      * rewrite lookup_insert_ne in H by done. by left.
    + right. exists c. split; [by right|done].
Qed.

Lemma collect_keep (P : Client → bool) (sel : sweep_acc → gmap string string)
  (upd : ∀ acc it, sel (hb_step PROTOCOLV2 cl tsnow acc it)
                   = if P it.2 then <[uuid_of it.2 := it.1]> (sel acc)
                     else sel acc)
  l acc u id :
  (∀ id' c', (id', c') ∈ l → uuid_of c' = u → id' = id) →
  sel acc !! u = Some id →
  sel (fold_left (hb_step PROTOCOLV2 cl tsnow) l acc) !! u = Some id.
Proof.
  revert acc. induction l as [|[id' c'] l IH]; intros acc Huniq Hacc;
    cbn [fold_left]; [done|].
  apply IH.
  - intros i c Hin. apply Huniq. by right.
  - rewrite upd. cbn [fst snd]. destruct (P c'); [|done].
    destruct (decide (uuid_of c' = u)) as [Hu|Hne].
    + rewrite <- Hu, lookup_insert_eq. f_equal.
      apply (Huniq id' c'); [by left|done].
    + by rewrite lookup_insert_ne.
Qed.

Lemma collect_complete (P : Client → bool)
  (sel : sweep_acc → gmap string string)
  (upd : ∀ acc it, sel (hb_step PROTOCOLV2 cl tsnow acc it)
                   = if P it.2 then <[uuid_of it.2 := it.1]> (sel acc)
                     else sel acc)
  l acc id c :
  (id, c) ∈ l → P c = true →
  (∀ id' c', (id', c') ∈ l → uuid_of c' = uuid_of c → id' = id) →
  sel (fold_left (hb_step PROTOCOLV2 cl tsnow) l acc) !! uuid_of c = Some id.
Proof.
  revert acc. induction l as [|[id' c'] l IH]; intros acc Hin HP Huniq;
    cbn [fold_left].
  - by apply elem_of_nil in Hin.
  - apply elem_of_cons in Hin as [Heq|Hin].
    + simplify_eq. apply (collect_keep P sel upd).
      * intros i c0 Hi. apply Huniq. by right.
      * rewrite upd. cbn [fst snd]. rewrite HP. apply lookup_insert_eq.
    + apply IH; [done|done|]. intros i c0 Hi. apply Huniq. by right.
Qed.

Lemma sel_evictmap acc it :
  a_evictmap (hb_step PROTOCOLV2 cl tsnow acc it)
  = if times_out cl tsnow it.2
    then <[uuid_of it.2 := it.1]> (a_evictmap acc) else a_evictmap acc.
Proof. by rewrite hb_step_eq. Qed.

Lemma sel_evictversionmap acc it :
  a_evictversionmap (hb_step PROTOCOLV2 cl tsnow acc it)
  = if version_old PROTOCOLV2 it.2
    then <[uuid_of it.2 := it.1]> (a_evictversionmap acc)
    else a_evictversionmap acc.
Proof. by rewrite hb_step_eq. Qed.

Lemma hb_loop_map l acc id :
  NoDup l.*1 →
  a_map (fold_left (hb_step PROTOCOLV2 cl tsnow) l acc) !! id
  = match list_find (λ it, it.1 = id) l with
    | Some (_, it) =>
        Some (set_state (session_state PROTOCOLV2 cl tsnow it.2) it.2)
    | None => a_map acc !! id
    end.
Proof.
  revert acc. induction l as [|[id' c'] l IH]; intros acc Hnd;
    cbn [fold_left]; [done|].
  apply NoDup_cons in Hnd as [Hnotin Hnd]. rewrite IH by done.
  cbn [list_find]. cbn [fst]. case_decide as Hid.
  - subst id'. destruct (list_find (λ it, it.1 = id) l) as [[n it]|] eqn:Hf.
    + apply list_find_Some in Hf as (Hl & Hit & _).
      exfalso. apply Hnotin. apply list_elem_of_fmap. exists it.
      split; [done|]. by eapply list_elem_of_lookup_2.
    + simpl. rewrite hb_step_eq. cbn [a_map fst snd].
      apply lookup_insert_eq.
  - destruct (list_find (λ it, it.1 = id) l) as [[n it]|] eqn:Hf; simpl;
      [done|].
    rewrite hb_step_eq. cbn [a_map fst]. by rewrite lookup_insert_ne.
Qed.

Lemma hb_loop_effects l acc :
  a_effects (fold_left (hb_step PROTOCOLV2 cl tsnow) l acc)
  = a_effects acc
    ++ flat_map (λ it, if drops_locks cl tsnow it.2
                       then [DropLocks (uuid_of it.2)] else []) l.
Proof.
  revert acc. induction l as [|it l IH]; intros acc; cbn [fold_left flat_map].
  - by rewrite app_nil_r.
  - rewrite IH, hb_step_eq. cbn [a_effects]. by rewrite <- app_assoc.
Qed.

End Sweep.

Lemma erase_loop_spec l m uv :
  let r := fold_left erase_step l (m, uv) in
  (∀ k, r.1 !! k = if decide (k ∈ l.*2) then None else m !! k)
  ∧ (∀ u, r.2 !! u = if decide (u ∈ l.*1) then None else uv !! u).
Proof.
  revert m uv. induction l as [|[u0 k0] l IH]; intros m uv; cbn [fold_left].
  - split; intros ?; case_decide as H; try done; by apply elem_of_nil in H.
  - destruct (IH (delete k0 m) (delete u0 uv)) as [Hm Hu].
    unfold erase_step at 2. cbn [fst snd].
    split.
    + intros k. rewrite Hm. rewrite fmap_cons. cbn [snd].
      repeat case_decide; try done.
      * set_solver.
      * apply elem_of_cons in H0 as [->|?]; [apply lookup_delete_eq|done].
      * rewrite lookup_delete_ne; [done|]. set_solver.
    + intros u. rewrite Hu. rewrite fmap_cons. cbn [fst].
      repeat case_decide; try done.
      * set_solver.
      * apply elem_of_cons in H0 as [->|?]; [apply lookup_delete_eq|done].
      * rewrite lookup_delete_ne; [done|]. set_solver.
Qed.

Lemma version_step_pair m uv eff u k :
  version_step (m, uv, eff) (u, k)
  = (delete k m, delete u uv, eff ++ (Evict uv u versionerror).2).
Proof. reflexivity. Qed.

Lemma version_loop_spec l m uv eff :
  let r := fold_left version_step l (m, uv, eff) in
  (∀ k, r.1.1 !! k = if decide (k ∈ l.*2) then None else m !! k)
  ∧ (∀ u, r.1.2 !! u = if decide (u ∈ l.*1) then None else uv !! u)
  ∧ (∃ sent, r.2 = eff ++ sent
       ∧ ∀ e, e ∈ sent →
              ∃ u idr, u ∈ l.*1 ∧ uv !! u = Some idr
                       ∧ e = Reply idr (RSP_EVICT versionerror)).
Proof.
  revert m uv eff.
  induction l as [|[u0 k0] l IH]; intros m uv eff; cbn [fold_left].
  - split; [|split].
    + intros ?; case_decide as H; try done; by apply elem_of_nil in H.
    + intros ?; case_decide as H; try done; by apply elem_of_nil in H.
    + exists []. split; [by rewrite app_nil_r|]. by intros e ?%elem_of_nil.
  - rewrite version_step_pair.
    destruct (IH (delete k0 m) (delete u0 uv)
                 (eff ++ (Evict uv u0 versionerror).2))
      as (Hm & Hu & sent & Hsent & Hall).
    split; [|split].
    + intros k. rewrite Hm. rewrite fmap_cons. cbn [snd].
      repeat case_decide; try done.
      * set_solver.
      * apply elem_of_cons in H0 as [->|?]; [apply lookup_delete_eq|done].
      * rewrite lookup_delete_ne; [done|]. set_solver.
    + intros u. rewrite Hu. rewrite fmap_cons. cbn [fst].
      repeat case_decide; try done.
      * set_solver.
      * apply elem_of_cons in H0 as [->|?]; [apply lookup_delete_eq|done].
      * rewrite lookup_delete_ne; [done|]. set_solver.
    + exists ((Evict uv u0 versionerror).2 ++ sent).
      split; [by rewrite Hsent, app_assoc|].
      intros e [He|He]%elem_of_app.
      * unfold Evict in He. destruct (uv !! u0) as [idr|] eqn:Hidr;
          cbn [snd] in He; [|by apply elem_of_nil in He].
        apply list_elem_of_singleton in He as ->.
        exists u0, idr. rewrite fmap_cons. split; [by left|done].
      * destruct (Hall e He) as (u & idr & Hin & Hlk & ->).
        exists u, idr. rewrite fmap_cons. split; [by right|].
        split; [|done].
        destruct (decide (u0 = u)) as [->|Hne];
          [by rewrite lookup_delete_eq in Hlk|].
        by rewrite lookup_delete_ne in Hlk.
Qed.

Lemma MonitorHeartBeat_eq PROTOCOLV2 cl tsnow :
  let acc :=
    fold_left (hb_step PROTOCOLV2 cl tsnow) (map_order (mMap cl))
      {| a_map := mMap cl; a_evictmap := ∅; a_evictversionmap := ∅;
         a_effects := [] |} in
  let mu :=
    fold_left erase_step (map_order (a_evictmap acc))
      (a_map acc, mUUIDView cl) in
  let r :=
    fold_left version_step (map_order (a_evictversionmap acc))
      (mu.1, mu.2, a_effects acc) in
  MonitorHeartBeat PROTOCOLV2 cl tsnow
  = (with_maps r.1.1 r.1.2 cl, r.2 ++ [ExpireFlush]).
Proof.
  intros acc mu r. unfold MonitorHeartBeat. fold acc. fold mu. fold r.
  by destruct r as [[m uv] eff].
Qed.

Lemma count_drops_app u a b :
  count_drops u (a ++ b) = (count_drops u a + count_drops u b)%nat.
Proof. unfold count_drops. by rewrite List.filter_app, length_app. Qed.

Lemma count_drops_none u l :
  (∀ e, e ∈ l → is_drop u e = false) → count_drops u l = 0%nat.
Proof.
  unfold count_drops. induction l as [|e l IH]; intros H; [done|].
  cbn [List.filter]. rewrite (H e) by (by left).
  apply IH. intros e' He'. apply H. by right.
Qed.

Lemma count_drops_sessions cl tsnow (l : list (string * Client)) id c :
  (id, c) ∈ l → NoDup l.*1 →
  (∀ id' c', (id', c') ∈ l →
             hb_uuid (heartbeat_ c') = hb_uuid (heartbeat_ c) → id' = id) →
  count_drops (hb_uuid (heartbeat_ c))
    (flat_map (λ it, if drops_locks cl tsnow it.2
                     then [DropLocks (hb_uuid (heartbeat_ it.2))] else []) l)
  = if drops_locks cl tsnow c then 1%nat else 0%nat.
Proof.
  induction l as [|[id' c'] l IH]; intros Hin Hnd Huniq.
  - by apply elem_of_nil in Hin.
  - cbn [flat_map]. rewrite count_drops_app. cbn [snd fst].
    rewrite fmap_cons in Hnd. apply NoDup_cons in Hnd as [Hnotin Hnd].
    apply elem_of_cons in Hin as [Heq|Hin].
    + injection Heq as <- <-.
      rewrite (count_drops_none _ (flat_map _ l)).
      * destruct (drops_locks cl tsnow c); [|done].
        unfold count_drops. cbn. by rewrite String.eqb_refl.
      * intros e He. apply list_elem_of_In, in_flat_map in He
          as ([i x] & Hx%list_elem_of_In & He). cbn [snd] in He.
        destruct (drops_locks cl tsnow x); [|by destruct He].
        destruct He as [<-|[]]. cbn.
        apply String.eqb_neq. intros Hu.
        apply Hnotin. apply list_elem_of_fmap. exists (i, x).
        split; [|done]. cbn. symmetry. apply (Huniq i x); [by right|done].
    + rewrite IH; [|done|done|].
      * assert (Hne : hb_uuid (heartbeat_ c') ≠ hb_uuid (heartbeat_ c)).
        { intros Hu. apply Hnotin. apply list_elem_of_fmap. exists (id, c).
          split; [|done]. cbn. apply (Huniq id' c'); [by left|done]. }
        destruct (drops_locks cl tsnow c'); [|done].
        unfold count_drops at 1. cbn.
        apply String.eqb_neq in Hne. by rewrite Hne.
      * intros i x Hx. apply Huniq. by right.
Qed.

Lemma list_find_key {V} (l : list (string * V)) id :
  NoDup l.*1 →
  ∀ c, (id, c) ∈ l →
       ∃ n, list_find (λ it : string * V, it.1 = id) l = Some (n, (id, c)).
Proof.
  intros Hnd c Hin.
  destruct (list_find (λ it : string * V, it.1 = id) l) as [[n [i x]]|] eqn:Hf.
  - apply list_find_Some in Hf as (Hl & Hi & _). cbn in Hi. subst i.
    exists n. do 2 f_equal. f_equal.
    apply list_elem_of_lookup_2 in Hl.
    apply list_elem_of_lookup in Hin as [j Hj], Hl as [k Hk].
    assert (j = k).
    { eapply NoDup_lookup; [done| |].
      - rewrite list_lookup_fmap, Hj. done.
      - rewrite list_lookup_fmap, Hk. done. }
    subst. congruence.
  - apply list_find_None in Hf. rewrite Forall_forall in Hf.
    exfalso. by apply (Hf (id, c)).
Qed.

(** The state classification of a session that speaks a supported
    protocol version. *)
Lemma session_state_cases PROTOCOLV2 cl tsnow c :
  windows_ordered cl →
  version_old PROTOCOLV2 c = false →
  let age := heartbeat_age tsnow (heartbeat_ c) in
  let sd := hb_shutdown (heartbeat_ c) in
  (sd = false → Qle age (mHeartBeatWindow cl) →
   session_state PROTOCOLV2 cl tsnow c = ONLINE
   ∧ times_out cl tsnow c = false ∧ drops_locks cl tsnow c = false)
  ∧ (sd = false → Qlt (mHeartBeatWindow cl) age →
     Qle age (mHeartBeatOfflineWindow cl) →
     session_state PROTOCOLV2 cl tsnow c = VOLATILE
     ∧ times_out cl tsnow c = false ∧ drops_locks cl tsnow c = false)
  ∧ (sd = false → Qlt (mHeartBeatOfflineWindow cl) age →
     Qle age (mHeartBeatRemoveWindow cl) →
     session_state PROTOCOLV2 cl tsnow c = OFFLINE
     ∧ times_out cl tsnow c = false
     ∧ drops_locks cl tsnow c = bool_decide (state c ≠ OFFLINE))
  ∧ (sd = true ∨ Qlt (mHeartBeatRemoveWindow cl) age →
     times_out cl tsnow c = true ∧ drops_locks cl tsnow c = false).
Proof.
  intros [H12 H23] Hv age sd.
  unfold session_state, times_out, drops_locks. rewrite Hv.
  fold age. fold sd.
  split; [|split; [|split]].
  - intros -> H1%Qgtb_false. rewrite H1. done.
  - intros -> H1%Qgtb_true H2%Qgtb_false. rewrite H1, H2. done.
  - intros -> H2 H3%Qgtb_false.
    assert (H1 : Qlt (mHeartBeatWindow cl) age)
      by (eapply Qle_lt_trans; done).
    apply Qgtb_true in H1, H2. rewrite H1, H2, H3. done.
  - intros [->|H3]; [done|].
    assert (H2 : Qlt (mHeartBeatOfflineWindow cl) age)
      by (eapply Qle_lt_trans; done).
    assert (H1 : Qlt (mHeartBeatWindow cl) age)
      by (eapply Qle_lt_trans; done).
    apply Qgtb_true in H1, H2, H3. rewrite H1, H2, H3.
    by destruct sd.
Qed.

Lemma elem_of_values_map_order (m : gmap string string) v :
  v ∈ (map_order m).*2 ↔ ∃ k, m !! k = Some v.
Proof.
  rewrite list_elem_of_fmap. split.
  - intros ([k v'] & -> & H%elem_of_map_order). by exists k.
  - intros [k H]. exists (k, v). split; [done|]. by apply elem_of_map_order.
Qed.

Lemma elem_of_keys_map_order (m : gmap string string) k :
  k ∈ (map_order m).*1 ↔ is_Some (m !! k).
Proof.
  rewrite list_elem_of_fmap. split.
  - intros ([k' v] & -> & H%elem_of_map_order). by exists v.
  - intros [v H]. exists (k, v). split; [done|]. by apply elem_of_map_order.
Qed.

(** What one sweep does to a session that speaks a supported protocol
    version, and which replies a sweep sends. *)
Lemma MonitorHeartBeat_session PROTOCOLV2 cl tsnow id c :
  mMap cl !! id = Some c →
  uuids_distinct cl →
  version_old PROTOCOLV2 c = false →
  let r := MonitorHeartBeat PROTOCOLV2 cl tsnow in
  let u := hb_uuid (heartbeat_ c) in
  mMap r.1 !! id
  = (if times_out cl tsnow c then None
     else Some (set_state (session_state PROTOCOLV2 cl tsnow c) c))
  ∧ (times_out cl tsnow c = true → mUUIDView r.1 !! u = None)
  ∧ count_drops u r.2 = (if drops_locks cl tsnow c then 1%nat else 0%nat).
Proof.
  intros Hc Hdist Hvold r u. subst r u. rewrite MonitorHeartBeat_eq.
  set (l := map_order (mMap cl)).
  set (acc := fold_left _ l _).
  set (mu := fold_left erase_step _ _).
  set (rr := fold_left version_step _ _).
  assert (Hin : (id, c) ∈ l) by by apply elem_of_map_order.
  assert (Hnd : NoDup l.*1) by apply NoDup_map_order.
  assert (Huniq : ∀ id' c', (id', c') ∈ l →
            hb_uuid (heartbeat_ c') = hb_uuid (heartbeat_ c) → id' = id).
  { intros id' c' Hin' Hu. apply elem_of_map_order in Hin'.
    by apply (Hdist id' id c' c). }
  assert (Hsame : ∀ c', (id, c') ∈ l → c' = c).
  { intros c' Hin'. apply elem_of_map_order in Hin'. congruence. }
  assert (Hmap : a_map acc !! id
                 = Some (set_state (session_state PROTOCOLV2 cl tsnow c) c)).
  { unfold acc. rewrite hb_loop_map by done.
    destruct (list_find_key l id Hnd c Hin) as [n ->]. done. }
  destruct (erase_loop_spec (map_order (a_evictmap acc)) (a_map acc)
              (mUUIDView cl)) as [Hm1 Hu1]. fold mu in Hm1, Hu1.
  destruct (version_loop_spec (map_order (a_evictversionmap acc))
              mu.1 mu.2 (a_effects acc))
    as (Hm2 & Hu2 & sent & Hsent & Hall). fold rr in Hm2, Hu2, Hsent.
  assert (Hnv : id ∉ (map_order (a_evictversionmap acc)).*2).
  { intros [k Hk]%elem_of_values_map_order.
    apply (collect_sound _ _ _ _ a_evictversionmap
             (sel_evictversionmap _ _ _)) in Hk
      as [Hk|(c' & Hc' & _ & Hold)]; [done|].
    apply Hsame in Hc'. congruence. }
  cbn [fst snd with_maps mMap mUUIDView].
  split; [|split].
  - rewrite Hm2, decide_False by done. rewrite Hm1, Hmap.
    destruct (times_out cl tsnow c) eqn:Hto.
    + rewrite decide_True; [done|].
      apply elem_of_values_map_order. exists (hb_uuid (heartbeat_ c)).
      by apply (collect_complete _ _ _ _ a_evictmap (sel_evictmap _ _ _)).
    + rewrite decide_False; [done|].
      intros [k Hk]%elem_of_values_map_order.
      apply (collect_sound _ _ _ _ a_evictmap (sel_evictmap _ _ _)) in Hk
        as [Hk|(c' & Hc' & _ & Hold)]; [done|].
      apply Hsame in Hc'. congruence.
  - intros Hto. rewrite Hu2. case_decide; [done|]. rewrite Hu1.
    rewrite decide_True; [done|].
    apply elem_of_keys_map_order. exists id.
    by apply (collect_complete _ _ _ _ a_evictmap (sel_evictmap _ _ _)).
  - rewrite Hsent, !count_drops_app.
    unfold acc at 1. rewrite hb_loop_effects. cbn [a_effects app].
    rewrite (count_drops_sessions cl tsnow l id c Hin Hnd Huniq).
    rewrite (count_drops_none _ sent).
    + unfold count_drops. cbn. lia.
    + intros e He. by destruct (Hall e He) as (? & ? & _ & _ & ->).
Qed.

Lemma MonitorHeartBeat_replies PROTOCOLV2 cl tsnow e :
  e ∈ (MonitorHeartBeat PROTOCOLV2 cl tsnow).2 →
  is_evict_reply e = true →
  ∃ id0 c0 idr, mMap cl !! id0 = Some c0
                ∧ version_old PROTOCOLV2 c0 = true
                ∧ mUUIDView cl !! hb_uuid (heartbeat_ c0) = Some idr
                ∧ e = Reply idr (RSP_EVICT versionerror).
Proof.
  rewrite MonitorHeartBeat_eq.
  set (l := map_order (mMap cl)).
  set (acc := fold_left _ l _).
  set (mu := fold_left erase_step _ _).
  set (rr := fold_left version_step _ _).
  destruct (erase_loop_spec (map_order (a_evictmap acc)) (a_map acc)
              (mUUIDView cl)) as [Hm1 Hu1]. fold mu in Hm1, Hu1.
  destruct (version_loop_spec (map_order (a_evictversionmap acc))
              mu.1 mu.2 (a_effects acc))
    as (Hm2 & Hu2 & sent & Hsent & Hall). fold rr in Hm2, Hu2, Hsent.
  cbn [snd]. rewrite Hsent. unfold acc at 1. rewrite hb_loop_effects.
  cbn [a_effects app].
  rewrite !elem_of_app. intros [[He|He]|He] Hrep.
  - apply list_elem_of_In, in_flat_map in He as ([i x] & _ & He).
    cbn [snd] in He. destruct (drops_locks cl tsnow x); [|by destruct He].
    destruct He as [<-|[]]. discriminate.
  - destruct (Hall e He) as (u & idr & [v Hk]%elem_of_keys_map_order & Hlk & ->).
    apply (collect_sound _ _ _ _ a_evictversionmap
             (sel_evictversionmap _ _ _)) in Hk
      as [Hk|(c' & Hc' & Hu' & Hold)]; [done|].
    exists v, c', idr. apply elem_of_map_order in Hc'.
    rewrite Hu1 in Hlk. case_decide; [done|]. subst u. done.
  - apply list_elem_of_singleton in He as ->. discriminate.
Qed.

(** C6, counterexample.  Windows 5/30/120 s; the only session sent its
    last heartbeat at second 0 and the sweep runs at second 130: the
    session is removed but no [EVICT] message is sent. *)
Lemma MonitorHeartBeat_timeout_sends_no_evict :
  let r := MonitorHeartBeat 2 (reg1 OFFLINE) (mkTs 130 0) in
  mMap r.1 = ∅ ∧ r.2 = [ExpireFlush] ∧ count_evict_replies r.2 ≠ 1%nat.
Proof. vm_compute. repeat split; try reflexivity. discriminate. Qed.

(** C6, amended.  With ordered windows and distinct uuids, a sweep
    treats a session that speaks a supported protocol version by the age
    [Δ] of its heartbeat: [ONLINE] for [Δ ≤ HB_WIN], [VOLATILE] for
    [HB_WIN < Δ ≤ OFFLINE_WIN], [OFFLINE] for [OFFLINE_WIN < Δ ≤
    REMOVE_WIN] with one [dropLocks(uuid)] call unless the session was
    [OFFLINE] already; for [Δ > REMOVE_WIN] or after a shutdown the
    session is removed from the registry.  [EVICT] messages are sent
    only on behalf of sessions whose protocol version is too old. *)
Theorem MonitorHeartBeat_rules (PROTOCOLV2 : Z) (cl : Clients)
  (tsnow : timespec) (id : string) (c : Client) :
  mMap cl !! id = Some c →
  windows_ordered cl →
  uuids_distinct cl →
  PROTOCOLV2 <= hb_protversion (heartbeat_ c) →
  let age := heartbeat_age tsnow (heartbeat_ c) in
  let sd := hb_shutdown (heartbeat_ c) in
  let u := hb_uuid (heartbeat_ c) in
  let r := MonitorHeartBeat PROTOCOLV2 cl tsnow in
  (sd = false → Qle age (mHeartBeatWindow cl) →
   mMap r.1 !! id = Some (set_state ONLINE c) ∧ count_drops u r.2 = 0%nat)
  ∧ (sd = false → Qlt (mHeartBeatWindow cl) age →
     Qle age (mHeartBeatOfflineWindow cl) →
     mMap r.1 !! id = Some (set_state VOLATILE c)
     ∧ count_drops u r.2 = 0%nat)
  ∧ (sd = false → Qlt (mHeartBeatOfflineWindow cl) age →
     Qle age (mHeartBeatRemoveWindow cl) →
     mMap r.1 !! id = Some (set_state OFFLINE c)
     ∧ count_drops u r.2
       = if decide (state c = OFFLINE) then 0%nat else 1%nat)
  ∧ (sd = true ∨ Qlt (mHeartBeatRemoveWindow cl) age →
     mMap r.1 !! id = None ∧ mUUIDView r.1 !! u = None
     ∧ count_drops u r.2 = 0%nat)
  ∧ (∀ e, e ∈ r.2 → is_evict_reply e = true →
          ∃ id0 c0 idr,
            mMap cl !! id0 = Some c0
            ∧ hb_protversion (heartbeat_ c0) < PROTOCOLV2
            ∧ mUUIDView cl !! hb_uuid (heartbeat_ c0) = Some idr
            ∧ e = Reply idr (RSP_EVICT versionerror)).
Proof.
  intros Hc Hw Hdist Hver age sd u r.
  assert (Hvold : version_old PROTOCOLV2 c = false).
  { unfold version_old. apply Z.ltb_ge. lia. }
  destruct (MonitorHeartBeat_session PROTOCOLV2 cl tsnow id c Hc Hdist Hvold)
    as (Hm & Hu & Hd). fold r in Hm, Hu, Hd. fold u in Hu, Hd.
  destruct (session_state_cases PROTOCOLV2 cl tsnow c Hw Hvold)
    as (C1 & C2 & C3 & C4). fold age in C1, C2, C3, C4. fold sd in C1, C2, C3, C4.
  split; [|split; [|split; [|split]]].
  - intros Hsd Ha. destruct (C1 Hsd Ha) as (Hs & Ht & Hdl).
    by rewrite Hm, Hd, Hs, Ht, Hdl.
  - intros Hsd Ha Hb. destruct (C2 Hsd Ha Hb) as (Hs & Ht & Hdl).
    by rewrite Hm, Hd, Hs, Ht, Hdl.
  - intros Hsd Ha Hb. destruct (C3 Hsd Ha Hb) as (Hs & Ht & Hdl).
    rewrite Hm, Hd, Hs, Ht, Hdl. split; [done|].
    case_bool_decide; case_decide; done.
  - intros Hx. destruct (C4 Hx) as (Ht & Hdl).
    rewrite Hm, Hd, Ht, Hdl. auto.
  - intros e He Hrep.
    destruct (MonitorHeartBeat_replies PROTOCOLV2 cl tsnow e He Hrep)
      as (id0 & c0 & idr & H0 & Hold & Hlk & ->).
    exists id0, c0, idr. repeat split; try done.
    unfold version_old in Hold. by apply Z.ltb_lt.
Qed.

Lemma reg1_uuids_distinct st : uuids_distinct (reg1 st).
Proof.
  intros id1 id2 c1 c2 H1 H2 _. unfold reg1, mk_registry in *. simpl in *.
  apply lookup_singleton_Some in H1 as [<- _].
  by apply lookup_singleton_Some in H2 as [<- _].
Qed.

Lemma MonitorHeartBeat_rules_witness :
  let r := MonitorHeartBeat 2 (reg1 VOLATILE) (mkTs 40 0) in
  mMap r.1 !! "id1"%string
  = Some (mkClient (mk_hb "u1" 0 3 false) OFFLINE)
  ∧ count_drops "u1" r.2 = 1%nat.
Proof.
  assert (Hw : windows_ordered (reg1 VOLATILE))
    by (split; vm_compute; discriminate).
  assert (Hv : 2 <= hb_protversion (heartbeat_ (mkClient (mk_hb "u1" 0 3 false) VOLATILE)))
    by (vm_compute; discriminate).
  destruct (MonitorHeartBeat_rules 2 (reg1 VOLATILE) (mkTs 40 0) "id1"
              (mkClient (mk_hb "u1" 0 3 false) VOLATILE)
              eq_refl Hw (reg1_uuids_distinct VOLATILE) Hv)
    as (_ & _ & H3 & _).
  apply H3; [reflexivity| |]; vm_compute; [reflexivity|discriminate].
Defined.

(** ** Lease extension by heartbeat *)

Lemma extend_step_lookup caps it b :
  extend_step caps it !! b
  = if decide (it.1 = b) then extended (caps !! b) it.2 else caps !! b.
Proof.
  unfold extend_step, extended. destruct it as [a d]. cbn [fst snd].
  case_decide as Hab.
  - subst b. destruct (caps !! a) as [cap|] eqn:Ha; [|done].
    destruct (cap_vtime cap =? 0); cbn [negb]; [done|].
    apply lookup_insert_eq.
  - destruct (caps !! a) as [cap|] eqn:Ha; [|done].
    destruct (cap_vtime cap =? 0); cbn [negb]; [done|].
    by rewrite lookup_insert_ne.
Qed.

Lemma extend_loop_lookup (l : list (string * Z)) caps b :
  NoDup l.*1 →
  fold_left extend_step l caps !! b
  = match list_find (λ it : string * Z, it.1 = b) l with
    | Some (_, it) => extended (caps !! b) it.2
    | None => caps !! b
    end.
Proof.
  revert caps. induction l as [|[a d] l IH]; intros caps Hnd;
    cbn [fold_left]; [done|].
  rewrite fmap_cons in Hnd. apply NoDup_cons in Hnd as [Hnotin Hnd].
  rewrite IH by done. cbn [list_find fst]. case_decide as Hab.
  - subst b.
    destruct (list_find (λ it : string * Z, it.1 = a) l) as [[n it]|] eqn:Hf.
    + apply list_find_Some in Hf as (Hl & Hit & _). exfalso.
      apply Hnotin, list_elem_of_fmap. exists it.
      split; [done|]. by eapply list_elem_of_lookup_2.
    + cbn. rewrite extend_step_lookup. cbn [fst snd]. by rewrite decide_True.
  - destruct (list_find (λ it : string * Z, it.1 = b) l) as [[n it]|] eqn:Hf;
      cbn; rewrite extend_step_lookup; cbn [fst]; by rewrite decide_False.
Qed.

Lemma apply_authextension_lookup ext s b :
  mCaps (apply_authextension ext s) !! b
  = match ext !! b with
    | Some delta => extended (mCaps s !! b) delta
    | None => mCaps s !! b
    end.
Proof.
  unfold apply_authextension. cbn [with_mCaps mCaps].
  rewrite extend_loop_lookup by apply NoDup_fst_map_to_list.
  destruct (ext !! b) as [delta|] eqn:Hb.
  - apply elem_of_map_to_list in Hb.
    destruct (list_find_key (map_to_list ext) b
                (NoDup_fst_map_to_list ext) delta Hb) as [n ->]. done.
  - destruct (list_find _ _) as [[n [a d]]|] eqn:Hf; [|done].
    apply list_find_Some in Hf as (Hl & Hit & _). cbn in Hit. subst a.
    apply list_elem_of_lookup_2, elem_of_map_to_list in Hl. congruence.
Qed.

Lemma Dispatch_accepted fresh Remove cl caps tsnow identity hb :
  Qle (heartbeat_age tsnow hb) (mHeartBeatOfflineWindow cl) →
  (Dispatch fresh Remove cl caps tsnow identity hb).1.2
  = let caps' := apply_authextension (hb_authextension hb) caps in
    if bool_decide (is_Some (mMap cl !! identity))
    then revoke_caps Remove
           (revocation_caps (hb_authrevocation hb) caps') caps'
    else caps'.
Proof.
  intros H%Qgtb_false. unfold Dispatch. rewrite H.
  by destruct (bool_decide _).
Qed.

Lemma revocation_caps_empty s : revocation_caps ∅ s = [].
Proof. unfold revocation_caps. by rewrite map_to_list_empty. Qed.

Lemma Dispatch_dropped fresh Remove cl caps tsnow identity hb :
  Qlt (mHeartBeatOfflineWindow cl) (heartbeat_age tsnow hb) →
  ∃ rc, Dispatch fresh Remove cl caps tsnow identity hb = (rc, cl, caps, []).
Proof.
  intros H%Qgtb_true. unfold Dispatch. rewrite H. by eexists.
Qed.

(** C10.  When [Dispatch] accepts a heartbeat, the loop over its
    [authextension] map turns the store [caps] into a store [caps'] in
    which an entry [a -> delta] has moved the [vtime] of the capability
    stored under [a] to [vtime + delta] (in [uint64_t], without any
    ceiling), provided the capability exists and its [vtime] is not
    zero; an entry for an unknown auth-id changes nothing and creates
    nothing; capabilities not named in the map, and all other indices,
    stay as they are.  [caps'] is the store [Dispatch] leaves when the
    client is seen for the first time or the heartbeat revokes nothing;
    for a registered client the store it leaves is [caps'] after the
    calls of [Cap().Remove], in some order, for the capabilities that
    [authrevocation] names, whatever [Remove] does. *)
Theorem Dispatch_extends_vtime (fresh : status_t)
  (Remove : capx → Caps → Caps) (cl : Clients)
  (caps : Caps) (tsnow : timespec) (identity : string) (hb : heartbeat)
  (a : string) (delta : Z) :
  Qle (heartbeat_age tsnow hb) (mHeartBeatOfflineWindow cl) →
  hb_authextension hb !! a = Some delta →
  let caps' := apply_authextension (hb_authextension hb) caps in
  let final := (Dispatch fresh Remove cl caps tsnow identity hb).1.2 in
  (∀ c, mCaps caps !! a = Some c → cap_vtime c ≠ 0 →
        mCaps caps' !! a
        = Some (set_vtime (Int.add64 (cap_vtime c) delta) c)
        ∧ (0 <= cap_vtime c → 0 <= delta →
           cap_vtime c + delta < Int.two64 →
           ∃ c', mCaps caps' !! a = Some c'
                 ∧ cap_vtime c' = cap_vtime c + delta))
  ∧ (∀ c, mCaps caps !! a = Some c → cap_vtime c = 0 →
          mCaps caps' !! a = Some c)
  ∧ (mCaps caps !! a = None → mCaps caps' !! a = None)
  ∧ (∀ b, hb_authextension hb !! b = None →
          mCaps caps' !! b = mCaps caps !! b)
  ∧ mTimeOrderedCap caps' = mTimeOrderedCap caps
  ∧ mClientCaps caps' = mClientCaps caps
  ∧ mClientInoCaps caps' = mClientInoCaps caps
  ∧ mInodeCaps caps' = mInodeCaps caps
  ∧ (mMap cl !! identity = None → final = caps')
  ∧ (hb_authrevocation hb = ∅ → final = caps')
  ∧ (is_Some (mMap cl !! identity) →
     ∃ l, l ≡ₚ revocation_caps (hb_authrevocation hb) caps'
          ∧ final = revoke_caps Remove l caps').
Proof.
  intros Hacc Ha caps' final.
  assert (Hfinal : final
    = if bool_decide (is_Some (mMap cl !! identity))
      then revoke_caps Remove
             (revocation_caps (hb_authrevocation hb) caps') caps'
      else caps')
    by (by apply Dispatch_accepted).
  split; [|split; [|split; [|split; [|split; [|split; [|split;
    [|split; [|split; [|split]]]]]]]]]; try done.
  - intros c Hc Hv. subst caps'.
    rewrite apply_authextension_lookup, Ha, Hc.
    unfold extended. apply Z.eqb_neq in Hv. rewrite Hv.
    split; [done|]. intros H0 Hd Hlt. eexists. split; [done|].
    cbn. unfold Int.add64, Int.wrap64. apply Z.mod_small. lia.
  - intros c Hc Hv. subst caps'.
    rewrite apply_authextension_lookup, Ha, Hc.
    unfold extended. apply Z.eqb_eq in Hv. by rewrite Hv.
  - intros Hc. subst caps'. by rewrite apply_authextension_lookup, Ha, Hc.
  - intros b Hb. subst caps'. by rewrite apply_authextension_lookup, Hb.
  - intros Hnew. rewrite Hfinal, bool_decide_eq_false_2; [done|].
    rewrite Hnew. by intros [? ?].
  - intros Hrev. rewrite Hfinal, Hrev, revocation_caps_empty.
    by destruct (bool_decide _).
  - intros Hreg. eexists. split; [reflexivity|].
    by rewrite Hfinal, bool_decide_eq_true_2.
Qed.

Lemma Dispatch_extends_vtime_witness :
  ∃ c', mCaps (Dispatch ONLINE Remove_authid (reg1 ONLINE) st1 (mkTs 100 0)
                 "id1" (hb_extend 1000000000)).1.2 !! "a1"%string = Some c'
        ∧ cap_vtime c' = 400 + 1000000000.
Proof.
  assert (Hacc : Qle (heartbeat_age (mkTs 100 0) (hb_extend 1000000000))
                     (mHeartBeatOfflineWindow (reg1 ONLINE)))
    by (vm_compute; discriminate).
  destruct (Dispatch_extends_vtime ONLINE Remove_authid (reg1 ONLINE) st1
              (mkTs 100 0) "id1" (hb_extend 1000000000) "a1" 1000000000
              Hacc eq_refl)
    as (H & _ & _ & _ & _ & _ & _ & _ & _ & Hleft & _).
  rewrite (Hleft eq_refl).
  destruct (H (mk_cap "a1" 7 "id1" "u1" 66 400) eq_refl) as [_ H'].
  - vm_compute. discriminate.
  - apply H'; vm_compute; congruence.
Defined.

(** The lease time read from the registry never exceeds seven days,
    while an accepted extension may push a capability far beyond. *)
Lemma leasetime_ceiling cl uuid : leasetime cl uuid <= 7 * 86400.
Proof.
  unfold leasetime.
  destruct (Z.ltb_spec (7 * 86400)
    (match mUUIDView cl !! uuid with
     | Some id => match mMap cl !! id with
                  | Some c => hb_leasetime (heartbeat_ c)
                  | None => 0
                  end
     | None => 0
     end)); lia.
Qed.

Example extension_beyond_ceiling :
  let now := 100 in
  let r := Dispatch ONLINE Remove_authid (reg1 ONLINE) st1 (mkTs now 0)
             "id1" (hb_extend 1000000000) in
  cap_vtime (Get "a1" r.1.2) - now > 7 * 86400.
Proof. vm_compute. reflexivity. Qed.

(** ** LS: implicit capabilities for children *)

Lemma ls_children_caps env l n :
  cap_calls (ls_children env l n) = take (16 - n) (hidden_dirs env l).
Proof.
  unfold hidden_dirs, hidden. revert n.
  induction l as [|[name ino] l IH]; intros n; cbn [ls_children List.filter].
  - rewrite fmap_nil. by rewrite take_nil.
  - cbn [fst snd]. destruct (IsFileInode env ino); cbn [negb andb cap_calls].
    + apply IH.
    + destruct (Nat.ltb_spec n 16) as [Hn|Hn].
      * destruct (String.eqb (Str.substr0 1 name) "."); cbn [cap_calls].
        -- rewrite IH. rewrite fmap_cons. cbn [snd].
           replace (16 - n)%nat with (S (16 - S n)) by lia. done.
        -- apply IH.
      * rewrite IH. replace (16 - n)%nat with 0%nat by lia.
        by rewrite !take_0.
Qed.

(** What the loop does: capabilities are asked for the first 16
    subdirectories whose names begin with a dot, and for nothing else. *)
Lemma ls_caps_hidden_only env l :
  ls_caps env l = take 16 (hidden_dirs env l).
Proof. unfold ls_caps. by rewrite ls_children_caps. Qed.

(** C7, the code at a failing input.  Listing a directory with the
    visible subdirectory "a" and the hidden subdirectory ".b" asks for a
    capability on ".b" and for none on "a", although the comment in the
    loop says "skip hidden directories". *)
Theorem LS_caps_go_to_hidden_children :
  ls_caps env1 children1 = [12]
  ∧ visible_dirs env1 children1 = [11]
  ∧ 11 ∉ ls_caps env1 children1.
Proof.
  assert (H : ls_caps env1 children1 = [12]) by (vm_compute; reflexivity).
  split; [done|]. split; [by vm_compute|].
  rewrite H. intros Hin%list_elem_of_singleton. discriminate.
Qed.

(** ** MOVE and the write permission on the source parent *)

(** C4, the code at a failing input.  Client A holds a write capability
    on "P2" only and has no write permission on "P1".  Moving the file
    "f" from "P1" to "P2" is acknowledged with [OK]: the file changes its
    parent and the MD update is broadcast to client B. *)
Theorem MOVE_file_ignores_source_parent :
  ValidatePERM env1 ns1 (source_md 2) "W" vidA = false
  ∧ ∃ s', HandleMD env1 vidA move_file state1 = Returned 0 s'
          ∧ st_response s' = Some (ack_ok move_file (Z.shiftl 5 28))
          ∧ f_container <$> ns_files (st_ns s') !! 5 = Some 3
          ∧ c_files <$> ns_containers (st_ns s') !! 2 = Some ∅
          ∧ st_effects s'
            = [CallSendMD (mk_cap "b1" 3 "idB" "uB" 66 100000)
                          (Z.shiftl 5 28) 3].
Proof.
  split; [by vm_compute|].
  destruct (HandleMD env1 vidA move_file state1) as [rc s'|s'] eqn:H;
    [|by vm_compute in H].
  exists s'.
  assert (rc = 0) as -> by (vm_compute in H; congruence).
  split; [done|].
  assert (Hs : Returned 0 s' = HandleMD env1 vidA move_file state1) by done.
  clear H. vm_compute in Hs. injection Hs as ->.
  repeat split; vm_compute; reflexivity.
Qed.

(** ** Error paths of the mutations *)

Create HintDb silent.

Lemma silent_bind {A B} (m : M A) (f : A → M B) :
  silent m → (∀ a, silent (f a)) → silent (m ≫= f).
Proof.
  intros Hm Hf s. unfold mbind, M_bind. specialize (Hm s).
  destruct (m s) as [a s1|e s1|rc s1|s1]; simpl in *; try done.
  by rewrite Hf.
Qed.

Lemma silent_try {A} (m : M A) (h : MDException → M A) :
  silent m → (∀ e, silent (h e)) → silent (try_catch m h).
Proof.
  intros Hm Hh s. unfold try_catch. specialize (Hm s).
  destruct (m s) as [a s1|e s1|rc s1|s1]; simpl in *; try done.
  by rewrite Hh.
Qed.

Lemma silent_if {A} (b : bool) (m1 m2 : M A) :
  silent m1 → silent m2 → silent (if b then m1 else m2).
Proof. by destruct b. Qed.

Lemma silent_mret {A} (a : A) : silent (mret a : M A).
Proof. by intros s. Qed.

Lemma silent_throw {A} n msg : silent (@throw A n msg).
Proof. by intros s. Qed.

Lemma silent_return {A} rc : silent (@return_ A rc).
Proof. by intros s. Qed.

Lemma silent_abort {A} : silent (@abort A).
Proof. by intros s. Qed.

Lemma silent_skip : silent skip.
Proof. by intros s. Qed.

Lemma silent_get_ns : silent get_ns.
Proof. by intros s. Qed.

Lemma silent_get_caps : silent get_caps.
Proof. by intros s. Qed.

Lemma silent_modify_ns f : silent (modify_ns f).
Proof. by intros s. Qed.

Lemma silent_modify_caps f : silent (modify_caps f).
Proof. by intros s. Qed.

Lemma silent_emit l : silent (emit l).
Proof. by intros s. Qed.

Lemma silent_getContainerMD id : silent (getContainerMD id).
Proof. intros s. unfold getContainerMD. by destruct (_ !! _). Qed.

Lemma silent_getFileMD id : silent (getFileMD id).
Proof. intros s. unfold getFileMD. by destruct (_ !! _). Qed.

Lemma silent_cmd_of id : silent (cmd_of id).
Proof. by intros s. Qed.

Lemma silent_fmd_of id : silent (fmd_of id).
Proof. by intros s. Qed.

Lemma silent_createContainer : silent createContainer.
Proof. by intros s. Qed.

Lemma silent_createFile : silent createFile.
Proof. by intros s. Qed.

#[export] Hint Resolve silent_mret silent_throw silent_return silent_abort
  silent_skip silent_get_ns silent_get_caps silent_modify_ns
  silent_modify_caps silent_emit silent_getContainerMD silent_getFileMD
  silent_cmd_of silent_fmd_of silent_createContainer silent_createFile
  : silent.

(** Splits a block along its binds, conditionals and matches. *)
Ltac silent_step :=
  first
    [ assumption
    | match goal with |- forall _, _ => intro end
    | apply silent_bind
    | apply silent_try
    | apply silent_if
    | solve [auto with silent]
    | match goal with
      | |- silent (match ?x with _ => _ end) => destruct x
      end ].

Ltac solve_silent := repeat silent_step.

Lemma silent_removeContainer p n : silent (removeContainer p n).
Proof. unfold removeContainer. solve_silent. Qed.

Lemma silent_removeFile p n : silent (removeFile p n).
Proof. unfold removeFile. solve_silent. Qed.

Lemma silent_addContainer p c : silent (addContainer p c).
Proof. unfold addContainer. solve_silent. Qed.

Lemma silent_addFile p f : silent (addFile p f).
Proof. unfold addFile. solve_silent. Qed.

Lemma silent_service_removeContainer c : silent (service_removeContainer c).
Proof. unfold service_removeContainer. solve_silent. Qed.

Lemma silent_service_removeFile f : silent (service_removeFile f).
Proof. unfold service_removeFile. solve_silent. Qed.

#[export] Hint Resolve silent_removeContainer silent_removeFile
  silent_addContainer silent_addFile silent_service_removeContainer
  silent_service_removeFile : silent.

Lemma silent_renameContainer c n : silent (renameContainer c n).
Proof. unfold renameContainer. solve_silent. Qed.

Lemma silent_renameFile f n : silent (renameFile f n).
Proof. unfold renameFile. solve_silent. Qed.

Lemma silent_getAttribute f k : silent (getAttribute f k).
Proof. unfold getAttribute. solve_silent. Qed.

Lemma silent_hasAttribute f k : silent (hasAttribute f k).
Proof. unfold hasAttribute. solve_silent. Qed.

Lemma silent_setAttribute f k v : silent (setAttribute f k v).
Proof. unfold setAttribute. solve_silent. Qed.

Lemma silent_bc_release md : silent (bc_release md).
Proof. unfold bc_release. solve_silent. Qed.

Lemma silent_bc_deletion md n : silent (bc_deletion md n).
Proof. unfold bc_deletion. solve_silent. Qed.

Lemma silent_bc_md md i p : silent (bc_md md i p).
Proof. unfold bc_md. solve_silent. Qed.

#[export] Hint Resolve silent_renameContainer silent_renameFile
  silent_getAttribute silent_hasAttribute silent_setAttribute
  silent_bc_release silent_bc_deletion silent_bc_md : silent.

Lemma silent_check_cap env vid md mode perm :
  silent (check_cap env vid md mode perm).
Proof. unfold check_cap. solve_silent. Qed.

Lemma silent_set_dir_move env vid md cmd : silent (set_dir_move env vid md cmd).
Proof. unfold set_dir_move. solve_silent. Qed.

#[export] Hint Resolve silent_check_cap silent_set_dir_move : silent.

Lemma silent_set_dir_existing env vid md : silent (set_dir_existing env vid md).
Proof. unfold set_dir_existing. solve_silent. Qed.

Lemma silent_set_dir_create env md x : silent (set_dir_create env md x).
Proof. unfold set_dir_create. solve_silent. Qed.

Lemma silent_set_dir_fields md op ino sg : silent (set_dir_fields md op ino sg).
Proof. unfold set_dir_fields. solve_silent. Qed.

Lemma silent_remove_previous md : silent (remove_previous md).
Proof. unfold remove_previous. solve_silent. Qed.

#[export] Hint Resolve silent_set_dir_existing silent_set_dir_create
  silent_set_dir_fields silent_remove_previous : silent.

Lemma silent_set_file_existing md fid : silent (set_file_existing md fid).
Proof. unfold set_file_existing. solve_silent. Qed.

Lemma silent_next_nlink t : silent (next_nlink t).
Proof. unfold next_nlink. solve_silent. Qed.

#[export] Hint Resolve silent_set_file_existing silent_next_nlink : silent.

Lemma silent_hardlink_entry env md : silent (hardlink_entry env md).
Proof. unfold hardlink_entry. solve_silent. Qed.

Lemma silent_set_file_create env md : silent (set_file_create env md).
Proof. unfold set_file_create. solve_silent. Qed.

Lemma silent_set_file_fields env md op f i :
  silent (set_file_fields env md op f i).
Proof. unfold set_file_fields. solve_silent. Qed.

Lemma silent_set_link_fields env md op f : silent (set_link_fields env md op f).
Proof. unfold set_link_fields. solve_silent. Qed.

Lemma silent_unlink_file p f n : silent (unlink_file p f n).
Proof. unfold unlink_file. solve_silent. Qed.

#[export] Hint Resolve silent_hardlink_entry silent_set_file_create
  silent_set_file_fields silent_set_link_fields silent_unlink_file : silent.

Lemma silent_delete_link_entry env md f : silent (delete_link_entry env md f).
Proof. unfold delete_link_entry. solve_silent. Qed.

Lemma silent_delete_link_target md f : silent (delete_link_target md f).
Proof. unfold delete_link_target. solve_silent. Qed.

#[export] Hint Resolve silent_delete_link_entry silent_delete_link_target
  : silent.

Lemma silent_delete_file_ns env md p f : silent (delete_file_ns env md p f).
Proof. unfold delete_file_ns. solve_silent. Qed.

#[export] Hint Resolve silent_delete_file_ns : silent.

Create HintDb finishing.

Lemma finishing_bind {A B} (m : M A) (f : A → M B) :
  finishing m → (∀ a, finishing (f a)) → finishing (m ≫= f).
Proof.
  intros Hm Hf s. unfold mbind, M_bind. specialize (Hm s).
  destruct (m s) as [a s1|e s1|rc s1|s1]; try done. apply Hf.
Qed.

Lemma finishing_if {A} (b : bool) (m1 m2 : M A) :
  finishing m1 → finishing m2 → finishing (if b then m1 else m2).
Proof. by destruct b. Qed.

Lemma finishing_return0 {A} : finishing (@return_ A 0).
Proof. by intros s. Qed.

Lemma finishing_skip : finishing skip.
Proof. by intros s. Qed.

Lemma finishing_set_response r : finishing (set_response r).
Proof. by intros s. Qed.

Lemma finishing_modify_caps f : finishing (modify_caps f).
Proof. by intros s. Qed.

Lemma finishing_emit l : finishing (emit l).
Proof. by intros s. Qed.

Lemma finishing_get_caps : finishing get_caps.
Proof. by intros s. Qed.

#[export] Hint Resolve finishing_return0 finishing_skip
  finishing_set_response finishing_modify_caps finishing_emit
  finishing_get_caps : finishing.

Ltac finishing_step :=
  first
    [ assumption
    | match goal with |- forall _, _ => intro end
    | apply finishing_bind
    | apply finishing_if
    | solve [auto with finishing] ].

Ltac solve_finishing := repeat finishing_step.

Lemma finishing_bc_release md : finishing (bc_release md).
Proof. unfold bc_release. solve_finishing. Qed.

Lemma finishing_bc_deletion md n : finishing (bc_deletion md n).
Proof. unfold bc_deletion. solve_finishing. Qed.

Lemma finishing_bc_md md i p : finishing (bc_md md i p).
Proof. unfold bc_md. solve_finishing. Qed.

#[export] Hint Resolve finishing_bc_release finishing_bc_deletion
  finishing_bc_md : finishing.

Lemma finishing_set_dir_finish md op ino : finishing (set_dir_finish md op ino).
Proof. unfold set_dir_finish. solve_finishing. Qed.

Lemma finishing_set_file_finish md ino : finishing (set_file_finish md ino).
Proof. unfold set_file_finish. solve_finishing. Qed.

Lemma finishing_delete_finish md n : finishing (delete_finish md n).
Proof. unfold delete_finish. solve_finishing. Qed.

Lemma finishing_on_exception md e : finishing (on_exception md e).
Proof. unfold on_exception. solve_finishing. Qed.

#[export] Hint Resolve finishing_set_dir_finish finishing_set_file_finish
  finishing_delete_finish finishing_on_exception : finishing.

Lemma unanswered_finishing {A} (m : M A) : finishing m → returns_unanswered m.
Proof. intros H s rc s' Hm Hrc. specialize (H s). by rewrite Hm in H. Qed.

Lemma unanswered_silent {A} (m : M A) : silent m → returns_unanswered m.
Proof. intros H s rc s' Hm _. specialize (H s). by rewrite Hm in H. Qed.

Lemma unanswered_bind {A B} (m : M A) (f : A → M B) :
  silent m → (∀ a, returns_unanswered (f a)) → returns_unanswered (m ≫= f).
Proof.
  intros Hm Hf s rc s'. unfold mbind, M_bind. specialize (Hm s).
  destruct (m s) as [a s1|e s1|rc1 s1|s1]; simpl in *; try done.
  - intros H Hrc. rewrite <- Hm. by eapply Hf.
  - intros [= <- <-] _. done.
Qed.

Lemma unanswered_if {A} (b : bool) (m1 m2 : M A) :
  returns_unanswered m1 → returns_unanswered m2 →
  returns_unanswered (if b then m1 else m2).
Proof. by destruct b. Qed.

Lemma unanswered_try {A} (m : M A) (h : MDException → M A) :
  returns_unanswered m → (∀ e, finishing (h e)) →
  returns_unanswered (try_catch m h).
Proof.
  intros Hm Hh s rc s'. unfold try_catch.
  destruct (m s) as [a s1|e s1|rc1 s1|s1] eqn:E; try done.
  - intros H Hrc. specialize (Hh e s1). rewrite H in Hh. done.
  - intros [= <- <-]. by apply Hm.
Qed.

Ltac unanswered_step :=
  first
    [ assumption
    | match goal with |- forall _, _ => intro end
    | apply unanswered_finishing; solve [solve_finishing]
    | apply unanswered_silent; solve [solve_silent]
    | apply unanswered_bind; [solve [solve_silent]|]
    | apply unanswered_if ].

Ltac solve_unanswered := repeat unanswered_step.

Lemma unanswered_set_dir_body env vid md :
  returns_unanswered (set_dir_body env vid md).
Proof. unfold set_dir_body. solve_unanswered. Qed.

Lemma unanswered_set_file_body env md :
  returns_unanswered (set_file_body env md).
Proof. unfold set_file_body, set_file_hardlink. solve_unanswered. Qed.

Lemma unanswered_set_link_body env md :
  returns_unanswered (set_link_body env md).
Proof. unfold set_link_body. solve_unanswered. Qed.

Lemma unanswered_delete_body env md :
  returns_unanswered (delete_body env md).
Proof. unfold delete_body, delete_file. solve_unanswered. Qed.

Lemma unanswered_then {A B} (m : M A) (f : A → M B) :
  returns_unanswered m → (∀ a, finishing (f a)) →
  returns_unanswered (m ≫= f).
Proof.
  intros Hm Hf s rc s'. unfold mbind, M_bind.
  destruct (m s) as [a s1|e s1|rc1 s1|s1] eqn:E; try done.
  - intros H Hrc. specialize (Hf a s1). rewrite H in Hf. done.
  - intros [= <- <-]. by apply Hm.
Qed.

Lemma unanswered_HandleMD_SET env vid md :
  returns_unanswered (HandleMD_SET env vid md).
Proof.
  unfold HandleMD_SET, set_dir, set_file, set_link.
  apply unanswered_bind; [solve_silent|intros _].
  repeat apply unanswered_if;
    try (apply unanswered_finishing; solve [solve_finishing]);
    (apply unanswered_then; [|solve_finishing]);
    (apply unanswered_try; [|solve_finishing]).
  - apply unanswered_set_dir_body.
  - apply unanswered_set_file_body.
  - apply unanswered_set_link_body.
Qed.

Lemma unanswered_HandleMD_DELETE env vid md :
  returns_unanswered (HandleMD_DELETE env vid md).
Proof.
  unfold HandleMD_DELETE.
  apply unanswered_bind; [solve_silent|intros _].
  apply unanswered_try; [apply unanswered_delete_body|solve_finishing].
Qed.

Lemma run_error (m : M unit) s rc s' :
  run m s = Returned rc s' → rc ≠ 0 → m s = Return rc s'.
Proof.
  unfold run. destruct (m s); intros [= <- <-] H; done.
Qed.

Lemma HandleMD_error_unanswered env vid md s rc s' :
  HandleMD env vid md s = Returned rc s' → rc ≠ 0 →
  st_response s' = st_response s.
Proof.
  unfold HandleMD. intros H Hrc.
  destruct (md_operation md);
    try (injection H as <- <-; done).
  - eapply unanswered_HandleMD_SET; [by apply run_error|done].
  - eapply unanswered_HandleMD_DELETE; [by apply run_error|done].
Qed.

Lemma check_cap_state env vid md mode perm s a s' :
  check_cap env vid md mode perm s = Val a s' → s' = s.
Proof.
  unfold check_cap, mbind, M_bind, get_caps, get_ns, skip, return_. simpl.
  destruct (ValidateCAP _ _ _ _) as [[c|] errno]; [by intros [= _ <-]|].
  destruct (_ && _); [by intros [= _ <-]|done].
Qed.

Lemma HandleMD_exception env vid md s body e s1 :
  try_block env vid md = Some body →
  cap_check env vid md s = Val () s →
  body s = Throw e s1 →
  HandleMD env vid md s
  = Returned 0 (with_response (ack_failure md (e_errno e) (e_msg e)) s1).
Proof.
  unfold try_block, cap_check, HandleMD. intros Hb Hc Ht.
  destruct (md_operation md); try done.
  - unfold HandleMD_SET, run, mbind, M_bind. rewrite Hc.
    unfold set_dir, set_file, set_link, try_catch.
    destruct (Mode.S_ISDIR _);
      [|destruct (_ || _); [|destruct (_ || _); [|done]]];
      injection Hb as <-; by rewrite Ht.
  - unfold HandleMD_DELETE, run, mbind, M_bind. rewrite Hc.
    unfold try_catch. simplify_eq. by rewrite Ht.
Qed.

Lemma lookup_c_update_children f id ns i c :
  (∀ x, c_containers (f x) = c_containers x) →
  (∀ x, c_files (f x) = c_files x) →
  ns_containers ns !! i = Some c →
  ∃ c', ns_containers (c_update f id ns) !! i = Some c'
        ∧ c_containers c' = c_containers c ∧ c_files c' = c_files c.
Proof.
  intros H1 H2 Hc. unfold c_update; simpl.
  destruct (decide (id = i)) as [->|Hne].
  - rewrite lookup_alter_eq, Hc. simpl. eauto.
  - rewrite lookup_alter_ne by done. eauto.
Qed.

Lemma DELETE_nonempty_directory env vid md s pcmd cmd :
  md_operation md = DELETE →
  Mode.S_ISDIR (md_mode md) = true →
  cap_check env vid md s = Val () s →
  ns_containers (st_ns s) !! md_pino md = Some pcmd →
  ns_containers (st_ns s) !! md_ino md = Some cmd →
  c_containers cmd ≠ ∅ ∨ c_files cmd ≠ ∅ →
  ∃ s', HandleMD env vid md s = Returned 0 s'
        ∧ st_response s'
          = Some (ack_failure md Errno.ENOTEMPTY "directory not empty").
Proof.
  intros Hop Hdir Hc Hp Hi Hne.
  unfold HandleMD, cap_check in *. rewrite Hop in *.
  unfold HandleMD_DELETE, run, mbind, M_bind. rewrite Hc.
  unfold try_catch, delete_body, mbind, M_bind, getContainerMD.
  rewrite Hp, Hdir, Hi. cbn [skip modify_ns cmd_of st_ns].
  destruct (lookup_c_update_children
              (c_with_mtime (md_mtime md, md_mtime_ns md)) (md_pino md)
              (st_ns s) (md_ino md) cmd) as (c' & Hc' & Hd & Hf);
    [done..|].
  rewrite Hc'. cbn [default]. unfold id. rewrite Hd, Hf.
  assert (Hsz : negb (size (c_containers cmd) =? 0)%nat
                || negb (size (c_files cmd) =? 0)%nat = true).
  { apply orb_true_iff.
    destruct Hne as [H|H]; [left|right]; apply negb_true_iff, Nat.eqb_neq;
      by rewrite map_size_empty_iff. }
  rewrite Hsz. cbn. eauto.
Qed.

(** C5, as stated, does not hold: the SET request [move_dir] fails
    (the requester may not write to the source parent), and the handler
    leaves with the return code [EPERM] without writing any response:
    no ACK with PERMANENT_FAILURE reaches the client. *)
Lemma SET_error_without_response :
  md_operation move_dir = SET
  ∧ HandleMD env1 vidA move_dir state1 = Returned Errno.EPERM state1
  ∧ st_response state1 = None.
Proof. repeat split; vm_compute; reflexivity. Qed.

(** C5, amended: the error paths of SET and DELETE fall in two groups.
    Whenever [HandleMD] leaves with a non-zero return code, it has not
    written the response.  Whenever the [try] block of the operation
    throws a namespace exception [e] after the capability check has
    passed, [HandleMD] returns 0 and the response is the ACK with code
    PERMANENT_FAILURE, the exception's errno and message and the
    request's [reqid]; the same ACK with [ENOTEMPTY] answers the DELETE
    of a directory that has children. *)
Theorem mutation_error_paths env vid md s :
  (∀ rc s',
     HandleMD env vid md s = Returned rc s' → rc ≠ 0 →
     st_response s' = st_response s)
  ∧ (∀ body e s1,
       try_block env vid md = Some body →
       cap_check env vid md s = Val () s →
       body s = Throw e s1 →
       HandleMD env vid md s
       = Returned 0 (with_response (ack_failure md (e_errno e) (e_msg e)) s1))
  ∧ (∀ pcmd cmd,
       md_operation md = DELETE →
       Mode.S_ISDIR (md_mode md) = true →
       cap_check env vid md s = Val () s →
       ns_containers (st_ns s) !! md_pino md = Some pcmd →
       ns_containers (st_ns s) !! md_ino md = Some cmd →
       c_containers cmd ≠ ∅ ∨ c_files cmd ≠ ∅ →
       ∃ s', HandleMD env vid md s = Returned 0 s'
             ∧ st_response s'
               = Some (ack_failure md Errno.ENOTEMPTY "directory not empty")).
Proof.
  split; [|split].
  - intros rc s'. apply HandleMD_error_unanswered.
  - intros body e s1. apply HandleMD_exception.
  - intros pcmd cmd. apply DELETE_nonempty_directory.
Qed.

Lemma mutation_error_paths_witness :
  HandleMD env1 vidA create_in_9 state9
  = Returned 0
      (with_response (ack_failure create_in_9 Errno.ENOENT "No such container")
         state9)
  ∧ ∃ s', HandleMD env1 vidA rmdir_d state2 = Returned 0 s'
          ∧ st_response s'
            = Some (ack_failure rmdir_d Errno.ENOTEMPTY "directory not empty").
Proof.
  split.
  - apply (proj1 (proj2 (mutation_error_paths env1 vidA create_in_9 state9))
             (set_file_body env1 create_in_9)
             (mkExc Errno.ENOENT "No such container") state9);
      vm_compute; reflexivity.
  - apply (proj2 (proj2 (mutation_error_paths env1 vidA rmdir_d state2))
             (mk_dir 3 1 "P2" {[ "d"%string := 4 ]} ∅)
             (mk_dir 4 3 "d" ∅ {[ "f"%string := 5 ]}));
      try (vm_compute; reflexivity).
    right. vm_compute. discriminate.
Defined.

(** ** Hard links and the link counter *)


Lemma next_nlink_eq tfid tf s :
  ns_files (st_ns s) !! tfid = Some tf →
  next_nlink tfid s
  = match f_attrs tf !! k_nlink with
    | Some v => match Str.stoi v with
                | Some n => Val (n + 1) s
                | None => Abort s
                end
    | None => Val 1 s
    end.
Proof.
  intros H. unfold next_nlink, hasAttribute, getAttribute, mbind, M_bind,
    fmd_of, mret, M_ret, abort.
  rewrite H. cbn [default]. unfold id.
  destruct (f_attrs tf !! k_nlink) as [v|] eqn:Hv.
  - rewrite bool_decide_eq_true_2 by eauto. rewrite H. cbn. rewrite Hv.
    by destruct (Str.stoi v).
  - rewrite bool_decide_eq_false_2; [done|]. by intros [? ?].
Qed.

Lemma hardlink_entry_step env md s gmd s1 :
  hardlink_entry env md s = Val gmd s1 →
  let tfid := InodeToFid env (hardlink_inode (md_target md)) in
  tfid < ns_next_fid (st_ns s) →
  tfid < ns_next_fid (st_ns s1)
  ∧ match attr_of (st_ns s) tfid k_nlink with
    | Some v => ∃ n, Str.stoi v = Some n
                     ∧ attr_of (st_ns s1) tfid k_nlink = Some (Str.to_string (n + 1))
    | None => attr_of (st_ns s1) tfid k_nlink = Some (Str.to_string 1)
    end.
Proof.
  intros H tfid Hlt. revert H.
  unfold hardlink_entry. fold tfid.
  unfold mbind at 1. unfold M_bind at 1.
  unfold getContainerMD.
  destruct (ns_containers (st_ns s) !! md_pino md) as [pcmd|]; [|done].
  case_bool_decide; [done|].
  unfold mbind at 1. unfold M_bind at 1. unfold getFileMD.
  destruct (ns_files (st_ns s) !! tfid) as [tf|] eqn:Htf; [|done].
  unfold mbind at 1. unfold M_bind at 1. unfold createFile. cbv zeta.
  unfold mbind at 1. unfold M_bind at 1.
  rewrite (next_nlink_eq tfid tf).
  2:{ cbn. rewrite lookup_insert_ne by lia. done. }
  unfold attr_of. rewrite Htf. cbn [mbind option_bind].
  assert (Hgen : ∀ k, 
    (setAttribute tfid k_nlink (Str.to_string k)
        ≫= λ _ : (),
             setAttribute (ns_next_fid (st_ns s)) k_mdino
               (Str.to_string (hardlink_inode (md_target md)))
             ≫= λ _ : (),
                  modify_ns
                    (f_update (f_with_name (md_name md))
                       (ns_next_fid (st_ns s)))
                  ≫= λ _ : (),
                       addFile (md_pino md) (ns_next_fid (st_ns s))
                       ≫= λ _ : (), mret (ns_next_fid (st_ns s)))
    {|
      st_ns :=
        {|
          ns_containers := ns_containers (st_ns s);
          ns_files :=
            <[ns_next_fid (st_ns s):=new_file (ns_next_fid (st_ns s))]>
              (ns_files (st_ns s));
          ns_next_cid := ns_next_cid (st_ns s);
          ns_next_fid := ns_next_fid (st_ns s) + 1
        |};
      st_caps := st_caps s;
      st_response := st_response s;
      st_effects := st_effects s
    |} = Val gmd s1 →
    tfid < ns_next_fid (st_ns s1) ∧
    (ns_files (st_ns s1) !! tfid ≫= λ f : FileMD, f_attrs f !! k_nlink) = Some (Str.to_string k)).
  { intros k. unfold setAttribute, addFile, modify_ns, fmd_of, mbind at 1 2 3 4 5 6 7, M_bind, mret, M_ret.
    cbn [st_ns st_caps st_response st_effects f_update c_update ns_files ns_containers ns_next_fid ns_next_cid].
    intros [= <- <-].
    cbn [st_ns st_caps st_response st_effects f_update c_update ns_files ns_containers ns_next_fid ns_next_cid].
    split; [lia|].
    rewrite !lookup_alter_ne by lia. rewrite lookup_alter_eq.
    rewrite lookup_insert_ne by lia. rewrite Htf. cbn.
    by rewrite lookup_insert_eq. }
  destruct (f_attrs tf !! k_nlink) as [v|].
  - destruct (Str.stoi v) as [n|]; [|done]. intros H1. destruct (Hgen _ H1). eauto.
  - intros H1. by destruct (Hgen _ H1).
Qed.
Lemma bind_Val {A B} (m : M A) (f : A → M B) s a s1 :
  m s = Val a s1 → (m ≫= f) s = f a s1.
Proof. intros H. unfold mbind, M_bind. by rewrite H. Qed.

Lemma check_cap_cases env vid md mode perm s :
  check_cap env vid md mode perm s = Val () s
  ∨ check_cap env vid md mode perm s = Return Errno.EPERM s.
Proof.
  unfold check_cap, mbind, M_bind, get_caps, get_ns, skip, return_.
  destruct (ValidateCAP _ _ _ _) as [[c|] errno]; [by left|].
  destruct (_ && _); [by left|by right].
Qed.

Lemma S_ISREG_not_dir m : Mode.S_ISREG m = true → Mode.S_ISDIR m = false.
Proof.
  unfold Mode.S_ISREG, Mode.S_ISDIR. intros H%Z.eqb_eq. rewrite H. done.
Qed.

Lemma is_hardlink_target_hlnk t : is_hardlink_target (hlnk t) = true.
Proof. done. Qed.

Lemma hardlink_inode_hlnk t : 0 <= t < 2 ^ 63 → hardlink_inode (hlnk t) = t.
Proof.
  intros Ht. unfold hardlink_inode, hlnk.
  change (Str.drop 8 _) with (Str.to_string t).
  unfold Str.atoll. rewrite parse_int_to_string. cbn [default]. unfold id.
  unfold Int.wrap64, Int.two64. apply Z.mod_small. lia.
Qed.

Lemma hardlink_entry_return env md s rc s1 :
  hardlink_entry env md s = Return rc s1 → rc = Errno.EEXIST.
Proof.
  unfold hardlink_entry, next_nlink, hasAttribute, getAttribute, setAttribute,
    addFile, mbind, M_bind, getContainerMD, getFileMD, createFile, fmd_of,
    modify_ns, mret, M_ret, return_, throw, abort.
  intros H. repeat case_match; simplify_eq; done.
Qed.

Lemma hardlink_success env vid md t s s' :
  hardlink_create t md → succeeded md (HandleMD env vid md s) s' →
  ∃ gmd s1, hardlink_entry env md s = Val gmd s1 ∧ st_ns s' = st_ns s1.
Proof.
  intros (Hop & Hreg & Hino & Htgt) [Hh [ino Hr]].
  unfold HandleMD in Hh. rewrite Hop in Hh.
  unfold run, HandleMD_SET in Hh. unfold mbind at 1, M_bind at 1 in Hh.
  match type of Hh with
  | context [check_cap ?e ?v ?m ?mode ?p ?s] =>
      destruct (check_cap_cases e v m mode p s) as [Hc|Hc]
  end; rewrite Hc in Hh; [|by injection Hh].
  rewrite (S_ISREG_not_dir _ Hreg), Hreg in Hh. cbn [orb] in Hh.
  unfold set_file, try_catch, set_file_body in Hh.
  unfold mbind at 1 2, M_bind at 1 2, getContainerMD in Hh.
  destruct (ns_containers (st_ns s) !! md_pino md) as [pcmd|].
  2:{ injection Hh as <-. cbn in Hr. discriminate Hr. }
  rewrite Hino, Htgt, is_hardlink_target_hlnk in Hh. cbn [Z.eqb negb andb] in Hh.
  unfold set_file_hardlink in Hh.
  unfold mbind at 1, M_bind at 1 in Hh.
  destruct (hardlink_entry env md s) as [gmd s1|e s1|rc s1|s1] eqn:He.
  - exists gmd, s1. split; [done|]. by injection Hh as <-.
  - injection Hh as <-. cbn in Hr. discriminate Hr.
  - apply hardlink_entry_return in He. subst rc. by injection Hh.
  - done.
Qed.
Lemma created_counter env t reqs :
  0 <= t < 2 ^ 63 →
  ∀ s s' k,
    InodeToFid env t < ns_next_fid (st_ns s) →
    0 <= k →
    k + Z.of_nat (length reqs) < 2 ^ 31 →
    attr_of (st_ns s) (InodeToFid env t) k_nlink
    = (if k =? 0 then None else Some (Str.to_string k)) →
    created env t reqs s s' →
    attr_of (st_ns s') (InodeToFid env t) k_nlink
    = (if k + Z.of_nat (length reqs) =? 0 then None
       else Some (Str.to_string (k + Z.of_nat (length reqs)))).
Proof.
  intros Ht. induction reqs as [|[vid md] r IH]; intros s s' k Hlt Hk Hmax Ha.
  - cbn [created length]. intros ->. by rewrite Z.add_0_r.
  - cbn [created]. intros [Hreq (s1 & Hs & Hr)].
    destruct (hardlink_success env vid md t s s1 Hreq Hs) as (gmd & s2 & He & Hns).
    destruct (hardlink_entry_step env md s gmd s2 He) as [Hlt' Hstep].
    { destruct Hreq as (_ & _ & _ & ->). by rewrite hardlink_inode_hlnk. }
    destruct Hreq as (_ & _ & _ & Htgt). rewrite Htgt, hardlink_inode_hlnk in * by done.
    rewrite <- Hns in *. rewrite Ha in Hstep.
    rewrite length_cons, Nat2Z.inj_succ in *.
    replace (k + Z.succ (Z.of_nat (length r)))
      with ((k + 1) + Z.of_nat (length r)) by lia.
    apply (IH s1 s' (k + 1)); [done|lia|lia| |done].
    replace (k + 1 =? 0) with false by (symmetry; apply Z.eqb_neq; lia).
    destruct (k =? 0) eqn:Hk0.
    + apply Z.eqb_eq in Hk0. by subst k.
    + destruct Hstep as (n & Hn & ->).
      rewrite (sto_to_string 32) in Hn by (apply Z.eqb_neq in Hk0; lia).
      by injection Hn as <-.
Qed.
Lemma hasAttribute_eq fid key f s :
  ns_files (st_ns s) !! fid = Some f →
  hasAttribute fid key s = Val (bool_decide (is_Some (f_attrs f !! key))) s.
Proof.
  intros H. unfold hasAttribute, fmd_of, mbind, M_bind. by rewrite H.
Qed.

Lemma getAttribute_eq fid key f v s :
  ns_files (st_ns s) !! fid = Some f → f_attrs f !! key = Some v →
  getAttribute fid key s = Val v s.
Proof.
  intros H Hv. unfold getAttribute, fmd_of, mbind, M_bind. rewrite H.
  cbn [default]. unfold id. by rewrite Hv.
Qed.

Lemma attr_of_Some ns fid key v :
  attr_of ns fid key = Some v →
  ∃ f, ns_files ns !! fid = Some f ∧ f_attrs f !! key = Some v.
Proof.
  unfold attr_of. destruct (ns_files ns !! fid) as [f|]; [|done]. eauto.
Qed.

Lemma sto_widen v n : Str.stoi v = Some n → Str.stol v = Some n ∧ - 2 ^ 31 <= n < 2 ^ 31.
Proof.
  unfold Str.stoi, Str.stol, Str.sto. destruct (Str.parse_int v) as [z|]; [|done].
  destruct (_ && _) eqn:H; [|done]. intros [= ->].
  apply andb_true_iff in H as [H1%Z.leb_le H2%Z.ltb_lt].
  change (32 - 1) with 31 in *. change (64 - 1) with 63.
  split; [|lia].
  assert (H3 : - 2 ^ 63 <= n) by lia. assert (H4 : n < 2 ^ 63) by lia.
  apply Z.leb_le in H3. apply Z.ltb_lt in H4. by rewrite H3, H4.
Qed.

Lemma attr_of_alter g i ns j key :
  (∀ x, f_attrs (g x) = f_attrs x) →
  attr_of (f_update g i ns) j key = attr_of ns j key.
Proof.
  intros Hg. unfold attr_of, f_update. cbn [ns_files].
  destruct (decide (i = j)) as [->|Hne].
  - rewrite lookup_alter_eq. destruct (ns_files ns !! j); [|done]. cbn. by rewrite Hg.
  - by rewrite lookup_alter_ne.
Qed.

Lemma bind_eq {A B} (m : M A) (f : A → M B) s :
  (m ≫= f) s
  = match m s with
    | Val a s' => f a s'
    | Throw e s' => Throw e s'
    | Return rc s' => Return rc s'
    | Abort s' => Abort s'
    end.
Proof. done. Qed.

Lemma is_unlinked_f_update g i ns j :
  (∀ x, f_unlinked x = true → f_container x = 0 →
        f_unlinked (g x) = true ∧ f_container (g x) = 0) →
  is_unlinked ns j → is_unlinked (f_update g i ns) j.
Proof.
  intros Hg (f & Hf & Hu & Hc). unfold is_unlinked, f_update. cbn [ns_files].
  destruct (decide (i = j)) as [->|Hne].
  - rewrite lookup_alter_eq, Hf. cbn. eexists. split; [done|]. by apply Hg.
  - rewrite lookup_alter_ne by done. eauto.
Qed.

Lemma is_unlinked_c_update g i ns j :
  is_unlinked ns j → is_unlinked (c_update g i ns) j.
Proof. done. Qed.

Lemma is_unlinked_unlink ns j f :
  ns_files ns !! j = Some f →
  is_unlinked (f_update f_unlink_all j (f_update (f_with_container 0) j ns)) j.
Proof.
  intros Hf. unfold is_unlinked, f_update. cbn [ns_files].
  rewrite !lookup_alter_eq, Hf. cbn. eauto.
Qed.

Lemma delete_file_ns_link_entry env md pcmd t s lf tf nv n :
  0 <= t < 2 ^ 63 →
  ns_files (st_ns s) !! InodeToFid env (md_ino md) = Some lf →
  f_attrs lf !! k_mdino = Some (Str.to_string t) →
  ns_files (st_ns s) !! InodeToFid env t = Some tf →
  f_attrs tf !! k_nlink = Some nv →
  Str.stol nv = Some n →
  ∃ s1, delete_file_ns env md pcmd (InodeToFid env (md_ino md)) s = Val () s1
        ∧ st_response s1 = st_response s
        ∧ if 0 <=? n - 1
          then attr_of (st_ns s1) (InodeToFid env t) k_nlink
               = Some (Str.to_string (n - 1))
          else unlinked env t s1.
Proof.
  intros Ht Hlf Hmdino Htf Hnlink Hn. unfold delete_file_ns.
  rewrite bind_eq, (hasAttribute_eq _ _ lf) by done.
  rewrite bind_eq, (hasAttribute_eq _ _ lf) by done.
  rewrite Hmdino. rewrite (bool_decide_eq_true_2 (is_Some (Some _))) by eauto.
  cbn [negb]. rewrite andb_false_r. cbn [andb].
  rewrite bind_eq. rewrite bind_eq. unfold delete_link_entry.
  rewrite bind_eq, (getAttribute_eq _ _ lf (Str.to_string t)) by done.
  unfold Str.stoll. rewrite (sto_to_string 64) by lia.
  replace (Int.wrap64 t) with t
    by (symmetry; apply Z.mod_small; unfold Int.two64; lia).
  rewrite bind_eq. unfold getFileMD at 1. rewrite Htf.
  rewrite bind_eq, (getAttribute_eq _ _ tf nv) by done.
  rewrite Hn. cbv zeta.
  destruct (0 <=? n - 1).
  - unfold setAttribute, unlink_file, removeFile, fmd_of, emit, modify_ns,
      mret, M_ret, mbind, M_bind.
    eexists. split; [reflexivity|]. split; [reflexivity|].
    cbn [st_ns]. rewrite !attr_of_alter by done.
    unfold attr_of, c_update, f_update. cbn [ns_files].
    rewrite lookup_alter_eq, Htf. cbn. by rewrite lookup_insert_eq.
  - unfold setAttribute, unlink_file, removeFile, fmd_of, emit, modify_ns,
      mret, M_ret, mbind, M_bind.
    eexists. split; [reflexivity|]. split; [reflexivity|].
    unfold unlinked. cbn [st_ns].
    apply is_unlinked_f_update; [by intros x Hx Hx'|].
    apply is_unlinked_f_update; [by intros x Hx Hx'|].
    apply is_unlinked_c_update.
    by apply (is_unlinked_unlink _ _ tf).
Qed.

Lemma delete_finish_eq md name s :
  ∃ s1, delete_finish md name s = Return 0 s1
        ∧ st_ns s1 = st_ns s.
Proof.
  unfold delete_finish, bc_release, bc_deletion, set_response, modify_caps,
    emit, get_caps, return_, mbind, M_bind.
  eexists. split; reflexivity.
Qed.

Lemma link_delete env vid md t s s' n :
  0 <= t < 2 ^ 63 →
  link_entry_delete env t md s →
  nlink env t s = Some n →
  succeeded md (HandleMD env vid md s) s' →
  if 0 <=? n - 1 then nlink env t s' = Some (n - 1) else unlinked env t s'.
Proof.
  intros Ht (Hop & Hreg & Hattr) Hn [Hh [ino Hr]].
  apply attr_of_Some in Hattr as (lf & Hlf & Hmdino).
  unfold nlink in Hn.
  destruct (attr_of (st_ns s) (InodeToFid env t) k_nlink) as [nv|] eqn:Hnv;
    [|done].
  cbn in Hn. apply sto_widen in Hn as [Hn Hrange].
  apply attr_of_Some in Hnv as (tf & Htf & Hnlink).
  unfold HandleMD in Hh. rewrite Hop in Hh.
  unfold run, HandleMD_DELETE in Hh. unfold mbind at 1, M_bind at 1 in Hh.
  match type of Hh with
  | context [check_cap ?e ?v ?m ?mode ?p ?s] =>
      destruct (check_cap_cases e v m mode p s) as [Hc|Hc]
  end; rewrite Hc in Hh; [|by injection Hh].
  unfold try_catch, delete_body in Hh.
  rewrite bind_eq in Hh. unfold getContainerMD at 1 in Hh.
  destruct (ns_containers (st_ns s) !! md_pino md) as [pcmd|].
  2:{ injection Hh as <-. cbn in Hr. discriminate Hr. }
  rewrite (S_ISREG_not_dir _ Hreg), Hreg in Hh. cbn [orb] in Hh.
  rewrite bind_eq in Hh. rewrite bind_eq in Hh. unfold getFileMD at 1 in Hh.
  rewrite Hlf in Hh. cbn [skip] in Hh.
  rewrite bind_eq in Hh. unfold modify_ns at 1 in Hh.
  unfold delete_file in Hh. rewrite bind_eq in Hh.
  match type of Hh with
  | context [delete_file_ns _ _ _ _ ?s0] =>
      destruct (delete_file_ns_link_entry env md pcmd t s0 lf tf nv n)
        as (s1 & Hd & _ & Hres); [done..|]
  end.
  rewrite Hd in Hh.
  destruct (delete_finish_eq md (md_name md) s1) as (s2 & Hf & Hns).
  rewrite Hf in Hh. injection Hh as <-.
  unfold nlink, unlinked. rewrite Hns.
  destruct (0 <=? n - 1) eqn:Hpos; [|done].
  rewrite Hres. cbn. apply Z.leb_le in Hpos.
  apply (sto_to_string 32). lia.
Qed.

(** The link counter of a hard-linked file, as long as the link entries
    are deleted with the mode of a regular file.  Let [t] be a file inode
    (below [2^63]) whose file id was handed out by the namespace.
    Starting from a state in which [t] carries no [sys.eos.nlink], after
    [N] successful hard link creations with target ["////hlnk<t>"]
    ([1 <= N], [N] an [int]) the integer value of [sys.eos.nlink] of [t]
    is [N].  A successful DELETE, sent with the mode of a regular file,
    of a link entry pointing at [t], with the counter at [n], leaves the
    counter at [n - 1] when that is not negative; when it would be
    negative, the target [t] is unlinked. *)
Theorem hardlink_counter env t (Ht : 0 <= t < 2 ^ 63) :
  (∀ reqs s s',
     InodeToFid env t < ns_next_fid (st_ns s) →
     attr_of (st_ns s) (InodeToFid env t) k_nlink = None →
     created env t reqs s s' →
     1 <= Z.of_nat (length reqs) < 2 ^ 31 →
     nlink env t s' = Some (Z.of_nat (length reqs)))
  ∧ (∀ vid md s s' n,
       link_entry_delete env t md s →
       nlink env t s = Some n →
       succeeded md (HandleMD env vid md s) s' →
       if 0 <=? n - 1 then nlink env t s' = Some (n - 1)
       else unlinked env t s').
Proof.
  split.
  - intros reqs s s' Hlt Ha Hc HN.
    pose proof (created_counter env t reqs Ht s s' 0 Hlt) as H.
    rewrite Z.add_0_l in H. specialize (H ltac:(lia) ltac:(lia) Ha Hc).
    replace (Z.of_nat (length reqs) =? 0) with false in H
      by (symmetry; apply Z.eqb_neq; lia).
    unfold nlink. rewrite H. cbn. apply (sto_to_string 32). lia.
  - intros vid md s s' n. by apply link_delete.
Qed.

Lemma hardlink_counter_witness :
  nlink env3 inode5 state3_2 = Some 2
  ∧ nlink env3 inode5 state3_4 = Some 0
  ∧ unlinked env3 inode5 state3_5.
Proof.
  assert (Ht : 0 <= inode5 < 2 ^ 63) by (by vm_compute).
  split; [|split].
  - apply (proj1 (hardlink_counter env3 inode5 Ht)
             [(vidA, link1); (vidA, link2)] state3 state3_2).
    + by vm_compute.
    + by vm_compute.
    + split; [repeat split; by vm_compute|].
      exists state3_1. split.
      { split; [by vm_compute|]. eexists. by vm_compute. }
      split; [repeat split; by vm_compute|].
      exists state3_2. split; [|done].
      split; [by vm_compute|]. eexists. by vm_compute.
    + by vm_compute.
  - apply (proj2 (hardlink_counter env3 inode5 Ht)
             vidA unlink1 state3_3 state3_4 1).
    + repeat split; by vm_compute.
    + by vm_compute.
    + split; [by vm_compute|]. eexists. by vm_compute.
  - apply (proj2 (hardlink_counter env3 inode5 Ht)
             vidA unlink2 state3_4 state3_5 0).
    + repeat split; by vm_compute.
    + by vm_compute.
    + split; [by vm_compute|]. eexists. by vm_compute.
Defined.

(** C8.  The link counter misses a delete that arrives with the mode of
    a symbolic link.  In the namespace [ns1] the client creates the
    symbolic link "s" and one hard link "l1" to it: the counter
    [sys.eos.nlink] of "s" is 1, "l1" carries [sys.eos.mdino] with the
    inode of "s", and [FillFileMD] reports "l1" with the mode of its
    target, a symbolic link.  The DELETE of "l1" with that mode is
    acknowledged with [OK] and takes "l1" out of its directory, but the
    counter of "s" is still 1: it has not gone down by one.  The same
    DELETE sent with the mode of a regular file brings the counter to
    0. *)
Theorem DELETE_link_entry_as_symlink :
  succeeded symlink_s (HandleMD env3 vidA symlink_s state3) state4_1
  ∧ hardlink_create inode_s link_s
  ∧ attr_of (st_ns state4_1) (InodeToFid env3 inode_s) k_nlink = None
  ∧ succeeded link_s (HandleMD env3 vidA link_s state4_1) state4_2
  ∧ nlink env3 inode_s state4_2 = Some 1
  ∧ attr_of (st_ns state4_2) (InodeToFid env3 (md_ino unlink_l1)) k_mdino
    = Some (Str.to_string inode_s)
  ∧ (∃ file more,
       FillFileMD fenv3 (st_ns state4_2) inode_l1 ls_request
         (mkMore 0 0 0 0 0) = Filled true file more
       ∧ md_mode file = md_mode unlink_l1
       ∧ Mode.S_ISLNK (md_mode file) = true)
  ∧ md_operation unlink_l1 = DELETE
  ∧ succeeded unlink_l1 (HandleMD env3 vidA unlink_l1 state4_2) state4_3
  ∧ (∃ p, ns_containers (st_ns state4_2) !! 3 = Some p
          ∧ c_files p !! "l1"%string = Some 11)
  ∧ (∃ p, ns_containers (st_ns state4_3) !! 3 = Some p
          ∧ c_files p !! "l1"%string = None)
  ∧ unlinked env3 inode_l1 state4_3
  ∧ nlink env3 inode_s state4_3 = Some 1
  ∧ ¬ unlinked env3 inode_s state4_3
  ∧ (∃ s', succeeded (mk_delete inode_l1 3 "l1" "a1" 33188)
             (HandleMD env3 vidA (mk_delete inode_l1 3 "l1" "a1" 33188)
                state4_2) s'
           ∧ nlink env3 inode_s s' = Some 0).
Proof.
  split; [|split; [|split; [|split; [|split; [|split; [|split; [|split;
    [|split; [|split; [|split; [|split; [|split; [|split]]]]]]]]]]]]].
  - split; [by vm_compute|]. eexists. by vm_compute.
  - by vm_compute.
  - by vm_compute.
  - split; [by vm_compute|]. eexists. by vm_compute.
  - by vm_compute.
  - by vm_compute.
  - eexists _, _. split; [by vm_compute|]. split; by vm_compute.
  - done.
  - split; [by vm_compute|]. eexists. by vm_compute.
  - eexists. split; by vm_compute.
  - eexists. split; by vm_compute.
  - eexists. split; [by vm_compute|]. split; by vm_compute.
  - by vm_compute.
  - intros (f & Hf & Hu & _). vm_compute in Hf. injection Hf as <-.
    discriminate Hu.
  - eexists. split; [split; [by vm_compute|eexists; by vm_compute]|].
    by vm_compute.
Qed.

(** ** MOVE of a directory

    The directory branch does what the file branch omits: a MOVE whose
    requester may not write to the source parent is refused with
    [EPERM], and the state stays as it was. *)

Lemma SET_dir_move_checks_source env vid md s cmd pcmd :
  md_operation md = SET →
  Mode.S_ISDIR (md_mode md) = true →
  cap_check env vid md s = Val () s →
  md_ino md ≠ 0 →
  md_type md ≠ EXCL →
  md_implied_authid md = ""%string →
  ns_containers (st_ns s) !! md_ino md = Some cmd →
  ns_containers (st_ns s) !! md_pino md = Some pcmd →
  c_parent cmd ≠ md_pino md →
  ValidatePERM env (st_ns s) (source_md (c_parent cmd)) "W" vid = false →
  HandleMD env vid md s = Returned Errno.EPERM s.
Proof.
  intros Hop Hdir Hc Hino Hex Himp Hcmd Hpcmd Hpar Hperm.
  unfold HandleMD, cap_check in *. rewrite Hop in *.
  unfold HandleMD_SET, run. rewrite bind_eq, Hc, Hdir.
  rewrite bind_eq. unfold set_dir, try_catch, set_dir_body.
  apply Z.eqb_neq in Hino, Hpar. rewrite Hino.
  rewrite bool_decide_eq_false_2 by done. cbn [negb andb].
  rewrite bind_eq. unfold set_dir_existing. rewrite Himp. cbn [String.length Nat.eqb negb].
  rewrite bind_eq. unfold getContainerMD at 1. rewrite Hcmd.
  rewrite bind_eq. unfold getContainerMD at 1. rewrite Hpcmd.
  rewrite bind_eq, Hpar. cbn [negb]. unfold set_dir_move.
  rewrite bind_eq. unfold get_ns at 1. rewrite Hperm. done.
Qed.

(** ** The capability store: storing, looking up, deleting *)

Lemma Store_lookup ecap vid s a :
  mCaps (Store ecap vid s) !! a
  = if decide (cap_authid ecap = a) then Some (set_vid vid ecap)
    else mCaps s !! a.
Proof. unfold Store. cbn [mCaps]. apply lookup_insert. Qed.

(** [Store] followed by [Get]: the auth-id of the stored capability
    resolves to it (with the identity attached), every other auth-id
    resolves as before, and the capability is registered in the inode
    index and in both client indices. *)
Theorem Store_then_Get ecap vid s :
  Get (cap_authid ecap) (Store ecap vid s) = set_vid vid ecap
  ∧ (∀ a, a ≠ cap_authid ecap → Get a (Store ecap vid s) = Get a s)
  ∧ (∃ X, mInodeCaps (Store ecap vid s) !! cap_id ecap = Some X
          ∧ cap_authid ecap ∈ X)
  ∧ (∃ X, mClientCaps (Store ecap vid s) !! cap_clientid ecap = Some X
          ∧ cap_authid ecap ∈ X)
  ∧ (∃ X, mClientInoCaps (Store ecap vid s) !! cap_clientid ecap = Some X
          ∧ cap_id ecap ∈ X).
Proof.
  split; [|split; [|split; [|split]]].
  - unfold Get. rewrite Store_lookup. by rewrite decide_True.
  - intros a Ha. unfold Get. rewrite Store_lookup. by rewrite decide_False.
  - unfold Store. cbn [mInodeCaps]. rewrite lookup_set_insert_at.
    rewrite decide_True by done. eexists. split; [done|]. set_solver.
  - unfold Store. cbn [mClientCaps]. rewrite lookup_set_insert_at.
    rewrite decide_True by done. eexists. split; [done|]. set_solver.
  - unfold Store. cbn [mClientInoCaps]. rewrite lookup_set_insert_at.
    rewrite decide_True by done. eexists. split; [done|]. set_solver.
Qed.

Lemma Store_then_Get_witness :
  Get "a2" (Store (mk_cap "a1" 7 "c1" "u1" 66 5000) None st2) = Get "a2" st2.
Proof.
  destruct (Store_then_Get (mk_cap "a1" 7 "c1" "u1" 66 5000) None st2)
    as (_ & H & _).
  apply H. by vm_compute.
Defined.


(** The life of a capability.  A request under the auth-id of a
    capability just stored is validated when the capability names one of
    the request's inodes, covers the mode and is not about to expire;
    once [Delete] has run for its inode, the same request finds no
    capability ([ENOENT]). *)
Theorem cap_lifecycle ecap vid s md M now :
  md_authid md = cap_authid ecap →
  (cap_id ecap ≠ 0 →
   cap_id ecap = md_ino md ∨ cap_id ecap = md_pino md →
   Z.land (cap_mode ecap) M = M →
   Int.add64 now 60 < cap_vtime ecap →
   ValidateCAP (Store ecap vid s) md M now = (Some (set_vid vid ecap), 0))
  ∧ (Delete (cap_id ecap) (Store ecap vid s)).1 = 0
  ∧ ValidateCAP (Delete (cap_id ecap) (Store ecap vid s)).2 md M now
    = (None, Errno.ENOENT).
Proof.
  intros Ha.
  assert (Hget : Get (cap_authid ecap) (Store ecap vid s) = set_vid vid ecap).
  { unfold Get. rewrite Store_lookup. by rewrite decide_True. }
  assert (HX : ∃ X, mInodeCaps (Store ecap vid s) !! cap_id ecap = Some X
                    ∧ cap_authid ecap ∈ X).
  { unfold Store. cbn [mInodeCaps]. rewrite lookup_set_insert_at.
    rewrite decide_True by done. eexists. split; [done|]. set_solver. }
  destruct HX as (X & HX & Hin).
  split; [|split].
  - intros Hid Hino Hmode Hvt. unfold ValidateCAP. rewrite Ha, Hget.
    cbn [set_vid cap_id cap_mode cap_vtime].
    apply Z.eqb_neq in Hid. rewrite Hid.
    assert (Hm : negb (cap_id ecap =? md_ino md)
                 && negb (cap_id ecap =? md_pino md) = false).
    { destruct Hino as [<-|<-]; rewrite Z.eqb_refl; cbn;
        [done|by rewrite andb_false_r]. }
    rewrite Hm. apply Z.eqb_eq in Hmode. rewrite Hmode.
    by rewrite (proj2 (Z.leb_gt _ _) Hvt).
  - by destruct (Delete_effect _ _ _ HX) as [-> _].
  - destruct (Delete_effect _ _ _ HX) as (_ & Hc & _).
    unfold ValidateCAP, Get. rewrite Ha, Hc. by rewrite decide_True.
Qed.

Lemma cap_lifecycle_witness :
  ValidateCAP (Store (mk_cap "a1" 7 "c1" "u1" 66 1000) None Caps_empty)
    (mkMdRef "a1" 7 1) 2 100
  = (Some (mk_cap "a1" 7 "c1" "u1" 66 1000), 0)
  ∧ ValidateCAP
      (Delete 7 (Store (mk_cap "a1" 7 "c1" "u1" 66 1000) None Caps_empty)).2
      (mkMdRef "a1" 7 1) 2 100
    = (None, Errno.ENOENT).
Proof.
  destruct (cap_lifecycle (mk_cap "a1" 7 "c1" "u1" 66 1000) None Caps_empty
              (mkMdRef "a1" 7 1) 2 100 eq_refl) as (H1 & _ & H3).
  split; [|exact H3].
  apply H1; [by vm_compute|by left|by vm_compute|by vm_compute].
Defined.

(** *** The expiry index under [Store] *)

Lemma multimap_insert_perm t a l :
  multimap_insert t a l ≡ₚ (t, a) :: l.
Proof.
  induction l as [|[t' a'] l IH]; cbn [multimap_insert]; [done|].
  destruct (t' <=? t); [|done]. rewrite IH. apply Permutation_swap.
Qed.

Lemma Caps_empty_time_index : time_index_exact Caps_empty.
Proof.
  split; [constructor|]. intros a. cbn. rewrite lookup_empty.
  split; [by intros ?%elem_of_nil|by intros [? ?]].
Qed.

(** [Store] keeps the expiry index in step with the primary map: one
    entry per stored auth-id.  A capability stored again under its
    auth-id gets no second entry, and its first entry is not moved:
    the index is left exactly as it was. *)
Theorem Store_time_index ecap vid s :
  time_index_exact s →
  time_index_exact (Store ecap vid s)
  ∧ (is_Some (mCaps s !! cap_authid ecap) →
     mTimeOrderedCap (Store ecap vid s) = mTimeOrderedCap s).
Proof.
  intros [Hnd Hiff]. unfold time_index_exact, Store.
  cbn [mTimeOrderedCap mCaps].
  destruct (mCaps s !! cap_authid ecap) as [c|] eqn:Hc.
  - split; [|done]. split; [done|]. intros a. rewrite Hiff.
    rewrite lookup_insert. case_decide; [|done]. subst a. rewrite Hc.
    split; eauto.
  - split; [|by intros [? ?]].
    assert (Hp : (multimap_insert (cap_vtime ecap) (cap_authid ecap)
                    (mTimeOrderedCap s)).*2
                 ≡ₚ cap_authid ecap :: (mTimeOrderedCap s).*2).
    { by rewrite multimap_insert_perm. }
    split.
    + rewrite Hp. constructor; [|done]. rewrite Hiff, Hc. by intros [? ?].
    + intros a. rewrite Hp, elem_of_cons, Hiff, lookup_insert.
      case_decide; [subst a; split; eauto|].
      split; [by intros [?|?]|by right].
Qed.

Lemma Store_time_index_witness :
  time_index_exact st2
  ∧ mTimeOrderedCap (Store (mk_cap "a1" 7 "c1" "u1" 66 5000) None st2)
    = mTimeOrderedCap st2.
Proof.
  assert (H0 : time_index_exact Caps_empty) by apply Caps_empty_time_index.
  pose proof (Store_time_index (mk_cap "a1" 7 "c1" "u1" 66 1000) None _ H0)
    as [H1 _].
  pose proof (Store_time_index (mk_cap "a2" 7 "c2" "u2" 66 1000) None _ H1)
    as [H2 _].
  pose proof (Store_time_index (mk_cap "a3" 7 "c2" "u2" 66 1000) None _ H2)
    as [H3 _].
  split; [exact H3|].
  apply (Store_time_index (mk_cap "a1" 7 "c1" "u1" 66 5000) None st2 H3).
  vm_compute. by eexists.
Defined.

(** *** [Delete] on an inode without capabilities *)

(** [Delete] of an inode that has no entry in the inode index answers
    [ENOENT] and leaves the store alone; a second [Delete] of the same
    inode always finds nothing left to do. *)
Theorem Delete_twice i s :
  (mInodeCaps s !! i = None → Delete i s = (Errno.ENOENT, s))
  ∧ Delete i (Delete i s).2 = (Errno.ENOENT, (Delete i s).2).
Proof.
  assert (H : ∀ s', mInodeCaps s' !! i = None → Delete i s' = (Errno.ENOENT, s')).
  { intros s' Hs'. unfold Delete. by rewrite Hs'. }
  split; [apply H|]. apply H.
  destruct (mInodeCaps s !! i) as [X|] eqn:HX.
  - destruct (Delete_effect i s X HX) as (_ & _ & _ & _ & _ & -> & _).
    apply lookup_delete_eq.
  - by rewrite (H s HX).
Qed.

Lemma Delete_twice_witness :
  Delete 9 st2 = (Errno.ENOENT, st2).
Proof.
  apply (proj1 (Delete_twice 9 st2)). by vm_compute.
Defined.

(** *** Implied capabilities *)

Lemma Imply_success cl ts md_ino authid implied_authid s :
  cap_id (Get authid s) ≠ 0 → implied_authid ≠ ""%string →
  Imply cl ts md_ino authid implied_authid s
  = (true,
     {| mTimeOrderedCap :=
          multimap_insert
            (cap_vtime (implied cl ts md_ino implied_authid (Get authid s)))
            implied_authid (mTimeOrderedCap s);
        mClientCaps :=
          set_insert_at (cap_clientid (Get authid s)) implied_authid
            (mClientCaps s);
        mClientInoCaps :=
          set_insert_at (cap_clientid (Get authid s)) md_ino
            (mClientInoCaps s);
        mCaps := <[implied_authid :=
                     implied cl ts md_ino implied_authid (Get authid s)]>
                   (mCaps s);
        mInodeCaps := set_insert_at md_ino implied_authid (mInodeCaps s) |}).
Proof.
  intros Hid%Z.eqb_neq Hne. unfold Imply. rewrite Hid.
  destruct implied_authid; [done|]. done.
Qed.

Lemma Imply_refused cl ts md_ino authid implied_authid s :
  cap_id (Get authid s) = 0 ∨ implied_authid = ""%string →
  Imply cl ts md_ino authid implied_authid s = (false, s).
Proof.
  intros [Hz| ->]; unfold Imply.
  - by rewrite Hz.
  - by rewrite orb_true_r.
Qed.

Lemma Imply_lookup cl ts md_ino authid implied_authid s :
  cap_id (Get authid s) ≠ 0 → implied_authid ≠ ""%string →
  Get implied_authid (Imply cl ts md_ino authid implied_authid s).2
  = implied cl ts md_ino implied_authid (Get authid s).
Proof.
  intros Hid Hne. rewrite Imply_success by done. cbn [snd].
  unfold Get at 1. cbn [mCaps]. by rewrite lookup_insert_eq.
Qed.

(** [Imply] refuses, without touching the store, when the parent
    auth-id resolves to no capability (or to one on inode 0) or when the
    implied auth-id is empty.  Otherwise it answers [true]; the implied
    auth-id then resolves to a copy of the parent capability for the new
    inode, valid until now plus the lease time of the client (300 s when
    it has none), every other auth-id resolves as before, and the new
    capability is registered under the new inode. *)
Theorem Imply_spec cl ts md_ino authid implied_authid s :
  let r := Imply cl ts md_ino authid implied_authid s in
  let cap := Get authid s in
  (cap_id cap = 0 ∨ implied_authid = ""%string → r = (false, s))
  ∧ (cap_id cap ≠ 0 → implied_authid ≠ ""%string →
     r.1 = true
     ∧ Get implied_authid r.2 = implied cl ts md_ino implied_authid cap
     ∧ (∀ a, a ≠ implied_authid → Get a r.2 = Get a s)
     ∧ (∃ X, mInodeCaps r.2 !! md_ino = Some X ∧ implied_authid ∈ X)).
Proof.
  cbv zeta. split.
  - apply Imply_refused.
  - intros Hid Hne. split; [by rewrite Imply_success|].
    split; [by apply Imply_lookup|].
    rewrite Imply_success by done. cbn [fst snd]. split.
    + intros a Ha. unfold Get at 1 3. cbn [mCaps].
      by rewrite lookup_insert_ne.
    + cbn [mInodeCaps]. rewrite lookup_set_insert_at, decide_True by done.
      eexists. split; [done|]. set_solver.
Qed.

Lemma Imply_spec_witness :
  Get "i1" (Imply (reg1 ONLINE) (mkTs 100 0) 9 "a1" "i1" st2).2
  = implied (reg1 ONLINE) (mkTs 100 0) 9 "i1" (Get "a1" st2).
Proof.
  destruct (Imply_spec (reg1 ONLINE) (mkTs 100 0) 9 "a1" "i1" st2) as [_ H].
  destruct H as (_ & H & _); [by vm_compute|by vm_compute|exact H].
Defined.

(** A request on the new inode under the implied auth-id is validated
    for every mode the parent capability covers, as long as the lease
    time used exceeds the 60 s safety margin of [ValidateCAP]. *)
Theorem Imply_then_ValidateCAP cl ts ino authid implied_authid s md M :
  let cap := Get authid s in
  let lt := leasetime cl (cap_clientuuid cap) in
  let lease := if lt =? 0 then 300 else lt in
  cap_id cap ≠ 0 → implied_authid ≠ ""%string → ino ≠ 0 →
  md_authid md = implied_authid → md_ino md = ino →
  Z.land (cap_mode cap) M = M →
  0 <= tv_sec ts → tv_sec ts + 604800 < 2 ^ 64 →
  60 < lease →
  ValidateCAP (Imply cl ts ino authid implied_authid s).2 md M (tv_sec ts)
  = (Some (implied cl ts ino implied_authid cap), 0).
Proof.
  cbv zeta. intros Hid Hne Hino Ha Hmd Hmode Hts Hmax Hlease.
  pose proof (Imply_lookup cl ts ino authid implied_authid s Hid Hne)
    as Hget.
  unfold ValidateCAP. rewrite Ha, Hget. cbn [implied cap_id cap_mode cap_vtime].
  apply Z.eqb_neq in Hino. rewrite Hino, Hmd, Z.eqb_refl. cbn [negb andb].
  apply Z.eqb_eq in Hmode. rewrite Hmode.
  pose proof (leasetime_ceiling cl (cap_clientuuid (Get authid s))) as Hc.
  change (2 ^ 64) with 18446744073709551616 in Hmax.
  set (lease := if leasetime cl _ =? 0 then 300 else _) in *.
  assert (lease <= 604800).
  { subst lease. destruct (leasetime cl _ =? 0); [clear; lia|lia]. }
  unfold Int.add64, Int.wrap64, Int.two64.
  change (2 ^ 64) with 18446744073709551616 in *.
  rewrite !Z.mod_small by lia.
  by rewrite (proj2 (Z.leb_gt _ _)) by lia.
Qed.

Lemma Imply_then_ValidateCAP_witness :
  ValidateCAP (Imply (reg1 ONLINE) (mkTs 100 0) 9 "a1" "i1" st2).2
    (mkMdRef "i1" 9 7) 2 100
  = (Some (implied (reg1 ONLINE) (mkTs 100 0) 9 "i1" (Get "a1" st2)), 0).
Proof.
  apply (Imply_then_ValidateCAP (reg1 ONLINE) (mkTs 100 0) 9 "a1" "i1" st2
           (mkMdRef "i1" 9 7) 2); by vm_compute.
Defined.

(** *** The index invariant under [Store], [Imply] and [Delete] *)

Lemma indices_ok_ext s s' :
  mCaps s = mCaps s' → mClientInoCaps s = mClientInoCaps s' →
  mInodeCaps s = mInodeCaps s' →
  indices_ok s → indices_ok s'.
Proof.
  unfold indices_ok, Caps_consistent, Caps_exact.
  by intros -> -> ->.
Qed.

(** The index invariant (every stored capability is listed under its
    inode, the inode index lists stored capabilities only, every entry
    of a client's inode set is backed by a capability) holds for the
    empty store and is kept by [Store] and [Imply], as long as an auth-id
    is only re-used for the same client and inode, and by [Delete]. *)
Theorem indices_invariant :
  indices_ok Caps_empty
  ∧ (∀ ecap vid s, storable ecap s → indices_ok s →
                   indices_ok (Store ecap vid s))
  ∧ (∀ cl ts ino authid implied_authid s,
       storable (implied cl ts ino implied_authid (Get authid s)) s →
       indices_ok s →
       indices_ok (Imply cl ts ino authid implied_authid s).2)
  ∧ (∀ i s, indices_ok s → indices_ok (Delete i s).2).
Proof.
  split; [apply Caps_empty_consistent|]. split; [|split].
  - intros ecap vid s. apply Store_consistent.
  - intros cl ts ino authid implied_authid s Hst Hs.
    destruct (decide (cap_id (Get authid s) = 0 ∨ implied_authid = ""%string))
      as [Hz|Hnz].
    + by rewrite Imply_refused.
    + rewrite Imply_success by tauto. cbn [snd].
      eapply indices_ok_ext;
        [..|exact (Store_consistent _ (cap_vid (Get authid s)) s Hst Hs)];
        done.
  - intros i s. apply Delete_consistent.
Qed.

Lemma indices_invariant_witness :
  indices_ok st2 ∧ indices_ok (Delete 7 st2).2.
Proof.
  destruct indices_invariant as (H0 & HS & _ & HD).
  assert (H : indices_ok st2).
  { repeat apply HS; try exact H0; intros c; vm_compute; intros [=]. }
  split; [exact H|]. by apply HD.
Defined.

(** *** How long an implied capability lives *)

(** Whatever lease time a client announces in its heartbeats, the
    capability that [Imply] stores expires more than zero and at most
    604800 seconds (seven days) after it was issued. *)
Theorem implied_lifetime cl ts ino authid implied_authid s :
  cap_id (Get authid s) ≠ 0 → implied_authid ≠ ""%string →
  0 <= tv_sec ts → tv_sec ts + 604800 < 2 ^ 64 →
  (∀ id c, mMap cl !! id = Some c → 0 <= hb_leasetime (heartbeat_ c)) →
  tv_sec ts
  < cap_vtime (Get implied_authid (Imply cl ts ino authid implied_authid s).2)
  <= tv_sec ts + 604800.
Proof.
  intros Hid Hne Hts Hmax Hpos. rewrite Imply_lookup by done.
  unfold implied. cbn [cap_vtime].
  set (u := cap_clientuuid (Get authid s)).
  pose proof (leasetime_ceiling cl u) as Hc.
  assert (Hl : 0 <= leasetime cl u).
  { unfold leasetime.
    destruct (mUUIDView cl !! u) as [id|]; [|done].
    destruct (mMap cl !! id) as [c|] eqn:Hm; [|done].
    specialize (Hpos id c Hm). by destruct (_ <? _); lia. }
  change (2 ^ 64) with 18446744073709551616 in Hmax.
  unfold Int.add64, Int.wrap64, Int.two64.
  change (2 ^ 64) with 18446744073709551616.
  destruct (Z.eqb_spec (leasetime cl u) 0);
    rewrite Z.mod_small by lia; lia.
Qed.

Lemma implied_lifetime_witness :
  100 < cap_vtime (Get "i1" (Imply (reg1 ONLINE) (mkTs 100 0) 9 "a1" "i1"
                               st2).2)
  <= 100 + 604800.
Proof.
  apply (implied_lifetime (reg1 ONLINE) (mkTs 100 0) 9 "a1" "i1" st2).
  - by vm_compute.
  - by vm_compute.
  - by vm_compute.
  - by vm_compute.
  - intros id c H. unfold reg1, mk_registry in H. cbn in H.
    apply lookup_singleton_Some in H as [_ <-]. by vm_compute.
Defined.

(** ** The client registry: sweeps and heartbeats *)

Lemma session_state_live PROTOCOLV2 cl tsnow c :
  version_old PROTOCOLV2 c = false → times_out cl tsnow c = false →
  session_state PROTOCOLV2 cl tsnow c ≠ EVICTED.
Proof.
  unfold session_state, times_out. intros -> H.
  destruct (hb_shutdown (heartbeat_ c)); [done|]. cbn [orb] in H.
  destruct (Qgtb _ (mHeartBeatWindow cl)); [|done].
  destruct (Qgtb _ (mHeartBeatOfflineWindow cl)); [|done].
  destruct (Qgtb _ (mHeartBeatRemoveWindow cl)); done.
Qed.

(** A session that the sweep keeps also keeps its entry in the uuid
    view. *)
Lemma sweep_uuid_kept PROTOCOLV2 cl tsnow id c :
  uuids_distinct cl →
  mMap cl !! id = Some c →
  version_old PROTOCOLV2 c = false →
  times_out cl tsnow c = false →
  mUUIDView (MonitorHeartBeat PROTOCOLV2 cl tsnow).1 !! hb_uuid (heartbeat_ c)
  = mUUIDView cl !! hb_uuid (heartbeat_ c).
Proof.
  intros Hdist Hc Hv Hto. rewrite MonitorHeartBeat_eq.
  set (l := map_order (mMap cl)).
  set (acc := fold_left _ l _).
  set (mu := fold_left erase_step _ _).
  set (rr := fold_left version_step _ _).
  destruct (erase_loop_spec (map_order (a_evictmap acc)) (a_map acc)
              (mUUIDView cl)) as [_ Hu1]. fold mu in Hu1.
  destruct (version_loop_spec (map_order (a_evictversionmap acc))
              mu.1 mu.2 (a_effects acc))
    as (_ & Hu2 & _). fold rr in Hu2.
  assert (Huniq : ∀ id' c0, (id', c0) ∈ l →
            hb_uuid (heartbeat_ c0) = hb_uuid (heartbeat_ c) → c0 = c).
  { intros id' c0 Hin' Hu. apply elem_of_map_order in Hin'.
    assert (id' = id) by (by apply (Hdist id' id c0 c)). congruence. }
  cbn [fst snd with_maps mUUIDView].
  rewrite Hu2. rewrite decide_False.
  - rewrite Hu1. rewrite decide_False; [done|].
    intros [k Hk]%elem_of_keys_map_order.
    apply (collect_sound _ _ _ _ a_evictmap (sel_evictmap _ _ _)) in Hk
      as [Hk|(c0 & Hc0 & Hu & Hold)]; [done|].
    apply Huniq in Hc0; [|done]. congruence.
  - intros [k Hk]%elem_of_keys_map_order.
    apply (collect_sound _ _ _ _ a_evictversionmap
             (sel_evictversionmap _ _ _)) in Hk
      as [Hk|(c0 & Hc0 & Hu & Hold)]; [done|].
    apply Huniq in Hc0; [|done]. congruence.
Qed.

(** Who is left after a sweep.  When no two sessions share a uuid, every
    session that [MonitorHeartBeat] leaves in the registry was there
    before, speaks a supported protocol version, has neither shut down
    nor exceeded the remove window, carries the state the sweep computed
    (never [EVICTED]), and still has its entry in the uuid view. *)
Theorem MonitorHeartBeat_survivors PROTOCOLV2 cl tsnow id c' :
  uuids_distinct cl →
  let r := MonitorHeartBeat PROTOCOLV2 cl tsnow in
  mMap r.1 !! id = Some c' →
  ∃ c, mMap cl !! id = Some c
       ∧ c' = set_state (session_state PROTOCOLV2 cl tsnow c) c
       ∧ state c' ≠ EVICTED
       ∧ version_old PROTOCOLV2 c = false
       ∧ times_out cl tsnow c = false
       ∧ mUUIDView r.1 !! hb_uuid (heartbeat_ c)
         = mUUIDView cl !! hb_uuid (heartbeat_ c).
Proof.
  intros Hdist r Hr.
  assert (Heq := MonitorHeartBeat_eq PROTOCOLV2 cl tsnow).
  cbv zeta in Heq.
  set (l := map_order (mMap cl)) in *.
  set (acc := fold_left _ l _) in *.
  set (mu := fold_left erase_step _ _) in *.
  set (rr := fold_left version_step _ _) in *.
  assert (Hnd : NoDup l.*1) by apply NoDup_map_order.
  destruct (erase_loop_spec (map_order (a_evictmap acc)) (a_map acc)
              (mUUIDView cl)) as [Hm1 Hu1]. fold mu in Hm1, Hu1.
  destruct (version_loop_spec (map_order (a_evictversionmap acc))
              mu.1 mu.2 (a_effects acc))
    as (Hm2 & Hu2 & _). fold rr in Hm2, Hu2.
  assert (Hrm : mMap r.1 = rr.1.1) by (subst r; by rewrite Heq).
  assert (Hru : mUUIDView r.1 = rr.1.2) by (subst r; by rewrite Heq).
  destruct (mMap cl !! id) as [c|] eqn:Hc.
  2:{ exfalso. rewrite Hrm, Hm2 in Hr. case_decide; [done|].
      rewrite Hm1 in Hr. case_decide; [done|].
      unfold acc in Hr. rewrite hb_loop_map in Hr by done.
      destruct (list_find _ l) as [[n [id' c0]]|] eqn:Hf.
      - apply list_find_Some in Hf as (Hl & Hid & _). cbn in Hid. subst id'.
        apply list_elem_of_lookup_2, elem_of_map_order in Hl. congruence.
      - cbn [a_map] in Hr. congruence. }
  assert (Hin : (id, c) ∈ l) by by apply elem_of_map_order.
  assert (Huniq : ∀ id' c0, (id', c0) ∈ l →
            hb_uuid (heartbeat_ c0) = hb_uuid (heartbeat_ c) → id' = id).
  { intros id' c0 Hin' Hu. apply elem_of_map_order in Hin'.
    by apply (Hdist id' id c0 c). }
  assert (Hsame : ∀ c0, (id, c0) ∈ l → c0 = c).
  { intros c0 Hin'. apply elem_of_map_order in Hin'. congruence. }
  destruct (version_old PROTOCOLV2 c) eqn:Hv.
  { exfalso. rewrite Hrm, Hm2 in Hr. rewrite decide_True in Hr; [done|].
    apply elem_of_values_map_order. exists (hb_uuid (heartbeat_ c)).
    by apply (collect_complete _ _ _ _ a_evictversionmap
                (sel_evictversionmap _ _ _)). }
  destruct (MonitorHeartBeat_session PROTOCOLV2 cl tsnow id c Hc Hdist Hv)
    as (Hs & _ & _). fold r in Hs. rewrite Hs in Hr.
  destruct (times_out cl tsnow c) eqn:Hto; [done|].
  injection Hr as <-. exists c. split; [done|]. split; [done|].
  split; [by apply session_state_live|]. split; [done|]. split; [done|].
  by apply (sweep_uuid_kept PROTOCOLV2 cl tsnow id c).
Qed.

Lemma MonitorHeartBeat_survivors_witness :
  ∃ c, mMap (reg1 ONLINE) !! "id1"%string = Some c
       ∧ mkClient (mk_hb "u1" 0 3 false) ONLINE
         = set_state (session_state 2 (reg1 ONLINE) (mkTs 3 0) c) c.
Proof.
  destruct (MonitorHeartBeat_survivors 2 (reg1 ONLINE) (mkTs 3 0) "id1"
              (mkClient (mk_hb "u1" 0 3 false) ONLINE)
              (reg1_uuids_distinct ONLINE))
    as (c & H1 & H2 & _); [by vm_compute|].
  by exists c.
Defined.

Lemma Dispatch_accepted_registry fresh Remove cl caps tsnow identity hb :
  Qle (heartbeat_age tsnow hb) (mHeartBeatOfflineWindow cl) →
  (Dispatch fresh Remove cl caps tsnow identity hb).1.1.2
  = with_maps
      (<[identity := set_heartbeat fresh hb (mMap cl !! identity)]> (mMap cl))
      (<[hb_uuid hb := identity]> (mUUIDView cl)) cl.
Proof.
  intros H%Qgtb_false. unfold Dispatch. rewrite H.
  by destruct (negb _).
Qed.

(** A heartbeat keeps its session alive.  Take a registry whose windows
    are ordered (heartbeat window, then offline window, then remove
    window), in which no two sessions share a uuid and no session other
    than the sender's carries the uuid of the heartbeat.  When this
    registry accepts a heartbeat that is not older than the heartbeat
    window, does not announce a shutdown and speaks a supported protocol
    version, the next sweep (at the same instant) finds the session in
    the registry, sets it [ONLINE], keeps the entry of its uuid in the
    uuid view and does not drop the locks of its uuid; this holds
    whatever state the session was in before, also for a session seen
    for the first time. *)
Theorem heartbeat_keeps_session_online PROTOCOLV2 fresh Remove cl caps
  tsnow identity hb :
  windows_ordered cl →
  uuids_distinct cl →
  (∀ id c, mMap cl !! id = Some c →
           hb_uuid (heartbeat_ c) = hb_uuid hb → id = identity) →
  Qle (heartbeat_age tsnow hb) (mHeartBeatWindow cl) →
  hb_shutdown hb = false →
  PROTOCOLV2 <= hb_protversion hb →
  let cl' := (Dispatch fresh Remove cl caps tsnow identity hb).1.1.2 in
  let r := MonitorHeartBeat PROTOCOLV2 cl' tsnow in
  (∃ st, mMap cl' !! identity = Some (mkClient hb st))
  ∧ mMap r.1 !! identity = Some (mkClient hb ONLINE)
  ∧ mUUIDView r.1 !! hb_uuid hb = Some identity
  ∧ count_drops (hb_uuid hb) r.2 = 0%nat.
Proof.
  intros [H12 H23] Hdist Hfree Hage Hsd Hver cl' r.
  assert (Hacc : Qle (heartbeat_age tsnow hb) (mHeartBeatOfflineWindow cl))
    by (eapply Qle_trans; done).
  assert (Hcl' : cl' = with_maps
            (<[identity := set_heartbeat fresh hb (mMap cl !! identity)]>
               (mMap cl))
            (<[hb_uuid hb := identity]> (mUUIDView cl)) cl)
    by (by apply Dispatch_accepted_registry).
  set (c := set_heartbeat fresh hb (mMap cl !! identity)) in *.
  assert (Hc : ∃ st, c = mkClient hb st).
  { subst c. unfold set_heartbeat. destruct (mMap cl !! identity); eauto. }
  destruct Hc as [st Hst].
  assert (Hlook : mMap cl' !! identity = Some c).
  { rewrite Hcl'. cbn [with_maps mMap]. apply lookup_insert_eq. }
  assert (Hdist' : uuids_distinct cl').
  { intros id1 id2 c1 c2. rewrite Hcl'. cbn [with_maps mMap].
    rewrite !lookup_insert. repeat case_decide; subst.
    - done.
    - intros [= <-] H2 Hu. rewrite Hst in Hu. cbn in Hu.
      symmetry. by eapply Hfree.
    - intros H1 [= <-] Hu. rewrite Hst in Hu. cbn in Hu.
      by eapply Hfree.
    - apply Hdist. }
  assert (Hv : version_old PROTOCOLV2 c = false).
  { unfold version_old. rewrite Hst. cbn. by apply Z.ltb_ge. }
  assert (Hw' : windows_ordered cl') by (by rewrite Hcl').
  destruct (session_state_cases PROTOCOLV2 cl' tsnow c Hw' Hv)
    as (Hon & _).
  destruct Hon as (Hs & Hto & Hdr).
  { rewrite Hst. done. }
  { rewrite Hst, Hcl'. done. }
  destruct (MonitorHeartBeat_session PROTOCOLV2 cl' tsnow identity c
              Hlook Hdist' Hv) as (Hm & _ & Hd).
  fold r in Hm, Hd. rewrite Hto, Hs in Hm. rewrite Hdr in Hd.
  split; [exists st; by rewrite Hlook, Hst|].
  split; [by rewrite Hm, Hst|]. split.
  - pose proof (sweep_uuid_kept PROTOCOLV2 cl' tsnow identity c
                  Hdist' Hlook Hv Hto) as Hu.
    fold r in Hu. rewrite Hst in Hu. cbn [heartbeat_ hb_uuid] in Hu.
    rewrite Hu, Hcl'. cbn [with_maps mUUIDView]. apply lookup_insert_eq.
  - by rewrite Hst in Hd.
Qed.

Lemma heartbeat_keeps_session_online_witness :
  let hb := mk_hb "u1" 100 3 false in
  let cl' := (Dispatch ONLINE Remove_authid (reg1 OFFLINE) Caps_empty
                (mkTs 102 0) "id1" hb).1.1.2 in
  mMap (MonitorHeartBeat 2 cl' (mkTs 102 0)).1 !! "id1"%string
  = Some (mkClient hb ONLINE).
Proof.
  cbv zeta.
  apply (heartbeat_keeps_session_online 2 ONLINE Remove_authid
           (reg1 OFFLINE) Caps_empty (mkTs 102 0) "id1"
           (mk_hb "u1" 100 3 false)).
  - split; vm_compute; discriminate.
  - apply reg1_uuids_distinct.
  - intros id c H _. unfold reg1, mk_registry in H. cbn in H.
    by apply lookup_singleton_Some in H as [<- _].
  - vm_compute. discriminate.
  - reflexivity.
  - vm_compute. discriminate.
Defined.

(** *** The first heartbeat of a client *)





(** ** Refused mutations *)

Create HintDb pure.
Create HintDb noreturn.

Lemma pure_bind {A B} (m : M A) (f : A → M B) :
  pure m → (∀ a, pure (f a)) → pure (m ≫= f).
Proof.
  intros Hm Hf s. unfold mbind, M_bind. specialize (Hm s).
  destruct (m s) as [a s1|e s1|rc s1|s1]; cbn in *; try done.
  subst s1. apply Hf.
Qed.

Lemma pure_if {A} (b : bool) (m1 m2 : M A) :
  pure m1 → pure m2 → pure (if b then m1 else m2).
Proof. by destruct b. Qed.

Lemma pure_mret {A} (a : A) : pure (mret a).
Proof. by intros s. Qed.

Lemma pure_throw {A} e msg : pure (@throw A e msg).
Proof. by intros s. Qed.

Lemma pure_return {A} rc : pure (@return_ A rc).
Proof. by intros s. Qed.

Lemma pure_abort {A} : pure (@abort A).
Proof. by intros s. Qed.

Lemma pure_skip : pure skip.
Proof. by intros s. Qed.

Lemma pure_get_ns : pure get_ns.
Proof. by intros s. Qed.

Lemma pure_get_caps : pure get_caps.
Proof. by intros s. Qed.

Lemma pure_getContainerMD id : pure (getContainerMD id).
Proof. intros s. unfold getContainerMD. by destruct (_ !! _). Qed.

Lemma pure_getFileMD id : pure (getFileMD id).
Proof. intros s. unfold getFileMD. by destruct (_ !! _). Qed.

Lemma pure_cmd_of id : pure (cmd_of id).
Proof. by intros s. Qed.

Lemma pure_fmd_of id : pure (fmd_of id).
Proof. by intros s. Qed.

#[export] Hint Resolve pure_mret pure_throw pure_return pure_abort pure_skip
  pure_get_ns pure_get_caps pure_getContainerMD pure_getFileMD pure_cmd_of
  pure_fmd_of : pure.

Ltac pure_step :=
  first
    [ assumption
    | match goal with |- forall _, _ => intro end
    | apply pure_bind
    | apply pure_if
    | solve [auto with pure]
    | match goal with
      | |- pure (match ?x with _ => _ end) => destruct x
      end ].

Ltac solve_pure := repeat pure_step.

Lemma pure_check_cap env vid md mode perm :
  pure (check_cap env vid md mode perm).
Proof. unfold check_cap. solve_pure. Qed.

#[export] Hint Resolve pure_check_cap : pure.

Lemma noreturn_bind {A B} (m : M A) (f : A → M B) :
  noreturn m → (∀ a, noreturn (f a)) → noreturn (m ≫= f).
Proof.
  intros Hm Hf s rc s'. unfold mbind, M_bind. specialize (Hm s).
  destruct (m s) as [a s1|e s1|rc1 s1|s1];
    first [done | apply Hf | by destruct (Hm rc1 s1)].
Qed.

Lemma noreturn_try {A} (m : M A) (h : MDException → M A) :
  noreturn m → (∀ e, noreturn (h e)) → noreturn (try_catch m h).
Proof.
  intros Hm Hh s rc s'. unfold try_catch. specialize (Hm s).
  destruct (m s) as [a s1|e s1|rc1 s1|s1];
    first [done | apply Hh | by destruct (Hm rc1 s1)].
Qed.

Lemma noreturn_if {A} (b : bool) (m1 m2 : M A) :
  noreturn m1 → noreturn m2 → noreturn (if b then m1 else m2).
Proof. by destruct b. Qed.

Lemma noreturn_mret {A} (a : A) : noreturn (mret a).
Proof. by intros s rc s'. Qed.

Lemma noreturn_throw {A} e msg : noreturn (@throw A e msg).
Proof. by intros s rc s'. Qed.

Lemma noreturn_abort {A} : noreturn (@abort A).
Proof. by intros s rc s'. Qed.

Lemma noreturn_skip : noreturn skip.
Proof. by intros s rc s'. Qed.

Lemma noreturn_get_ns : noreturn get_ns.
Proof. by intros s rc s'. Qed.

Lemma noreturn_get_caps : noreturn get_caps.
Proof. by intros s rc s'. Qed.

Lemma noreturn_modify_ns f : noreturn (modify_ns f).
Proof. by intros s rc s'. Qed.

Lemma noreturn_modify_caps f : noreturn (modify_caps f).
Proof. by intros s rc s'. Qed.

Lemma noreturn_set_response r : noreturn (set_response r).
Proof. by intros s rc s'. Qed.

Lemma noreturn_emit l : noreturn (emit l).
Proof. by intros s rc s'. Qed.

Lemma noreturn_getContainerMD id : noreturn (getContainerMD id).
Proof. intros s rc s'. unfold getContainerMD. by destruct (_ !! _). Qed.

Lemma noreturn_getFileMD id : noreturn (getFileMD id).
Proof. intros s rc s'. unfold getFileMD. by destruct (_ !! _). Qed.

Lemma noreturn_cmd_of id : noreturn (cmd_of id).
Proof. by intros s rc s'. Qed.

Lemma noreturn_fmd_of id : noreturn (fmd_of id).
Proof. by intros s rc s'. Qed.

Lemma noreturn_createContainer : noreturn createContainer.
Proof. by intros s rc s'. Qed.

Lemma noreturn_createFile : noreturn createFile.
Proof. by intros s rc s'. Qed.

#[export] Hint Resolve noreturn_mret noreturn_throw noreturn_abort
  noreturn_skip noreturn_get_ns noreturn_get_caps noreturn_modify_ns
  noreturn_modify_caps noreturn_set_response noreturn_emit
  noreturn_getContainerMD noreturn_getFileMD noreturn_cmd_of
  noreturn_fmd_of noreturn_createContainer noreturn_createFile : noreturn.

Ltac noreturn_step :=
  first
    [ assumption
    | match goal with |- forall _, _ => intro end
    | apply noreturn_bind
    | apply noreturn_try
    | apply noreturn_if
    | solve [auto with noreturn]
    | match goal with
      | |- noreturn (match ?x with _ => _ end) => destruct x
      end ].

Ltac solve_noreturn := repeat noreturn_step.

Lemma noreturn_removeContainer p n : noreturn (removeContainer p n).
Proof. unfold removeContainer. solve_noreturn. Qed.

Lemma noreturn_removeFile p n : noreturn (removeFile p n).
Proof. unfold removeFile. solve_noreturn. Qed.

Lemma noreturn_addContainer p c : noreturn (addContainer p c).
Proof. unfold addContainer. solve_noreturn. Qed.

Lemma noreturn_addFile p f : noreturn (addFile p f).
Proof. unfold addFile. solve_noreturn. Qed.

Lemma noreturn_service_removeContainer c :
  noreturn (service_removeContainer c).
Proof. unfold service_removeContainer. solve_noreturn. Qed.

Lemma noreturn_service_removeFile f : noreturn (service_removeFile f).
Proof. unfold service_removeFile. solve_noreturn. Qed.

#[export] Hint Resolve noreturn_removeContainer noreturn_removeFile
  noreturn_addContainer noreturn_addFile noreturn_service_removeContainer
  noreturn_service_removeFile : noreturn.

Lemma noreturn_renameContainer c n : noreturn (renameContainer c n).
Proof. unfold renameContainer. solve_noreturn. Qed.

Lemma noreturn_renameFile f n : noreturn (renameFile f n).
Proof. unfold renameFile. solve_noreturn. Qed.

Lemma noreturn_getAttribute f k : noreturn (getAttribute f k).
Proof. unfold getAttribute. solve_noreturn. Qed.

Lemma noreturn_hasAttribute f k : noreturn (hasAttribute f k).
Proof. unfold hasAttribute. solve_noreturn. Qed.

Lemma noreturn_setAttribute f k v : noreturn (setAttribute f k v).
Proof. unfold setAttribute. solve_noreturn. Qed.

Lemma noreturn_bc_release md : noreturn (bc_release md).
Proof. unfold bc_release. solve_noreturn. Qed.

Lemma noreturn_bc_deletion md n : noreturn (bc_deletion md n).
Proof. unfold bc_deletion. solve_noreturn. Qed.

Lemma noreturn_bc_md md i p : noreturn (bc_md md i p).
Proof. unfold bc_md. solve_noreturn. Qed.

#[export] Hint Resolve noreturn_renameContainer noreturn_renameFile
  noreturn_getAttribute noreturn_hasAttribute noreturn_setAttribute
  noreturn_bc_release noreturn_bc_deletion noreturn_bc_md : noreturn.

Lemma noreturn_set_dir_fields md op ino sg :
  noreturn (set_dir_fields md op ino sg).
Proof. unfold set_dir_fields. solve_noreturn. Qed.

Lemma noreturn_set_dir_finish md op ino : noreturn (set_dir_finish md op ino).
Proof. unfold set_dir_finish. solve_noreturn. Qed.

Lemma noreturn_remove_previous md : noreturn (remove_previous md).
Proof. unfold remove_previous. solve_noreturn. Qed.

#[export] Hint Resolve noreturn_set_dir_fields noreturn_set_dir_finish
  noreturn_remove_previous : noreturn.

Lemma noreturn_set_file_existing md fid : noreturn (set_file_existing md fid).
Proof. unfold set_file_existing. solve_noreturn. Qed.

Lemma noreturn_next_nlink t : noreturn (next_nlink t).
Proof. unfold next_nlink. solve_noreturn. Qed.

Lemma noreturn_set_file_fields env md op f i :
  noreturn (set_file_fields env md op f i).
Proof. unfold set_file_fields. solve_noreturn. Qed.

Lemma noreturn_set_file_finish md i : noreturn (set_file_finish md i).
Proof. unfold set_file_finish. solve_noreturn. Qed.

Lemma noreturn_set_link_fields env md op f :
  noreturn (set_link_fields env md op f).
Proof. unfold set_link_fields. solve_noreturn. Qed.

Lemma noreturn_unlink_file p f n : noreturn (unlink_file p f n).
Proof. unfold unlink_file. solve_noreturn. Qed.

#[export] Hint Resolve noreturn_set_file_existing noreturn_next_nlink
  noreturn_set_file_fields noreturn_set_file_finish noreturn_set_link_fields
  noreturn_unlink_file : noreturn.

Lemma noreturn_delete_link_entry env md f :
  noreturn (delete_link_entry env md f).
Proof. unfold delete_link_entry. solve_noreturn. Qed.

Lemma noreturn_delete_link_target md f : noreturn (delete_link_target md f).
Proof. unfold delete_link_target. solve_noreturn. Qed.

#[export] Hint Resolve noreturn_delete_link_entry noreturn_delete_link_target
  : noreturn.

Lemma noreturn_delete_file_ns env md pcmd f :
  noreturn (delete_file_ns env md pcmd f).
Proof. unfold delete_file_ns. solve_noreturn. Qed.

#[export] Hint Resolve noreturn_delete_file_ns : noreturn.

Create HintDb quiet.

Lemma quiet_noreturn {A} (m : M A) : noreturn m → quiet m.
Proof. intros H s rc s' Hm. by destruct (H s rc s'). Qed.

Lemma quiet_bind {A B} (m : M A) (f : A → M B) :
  quiet m → (∀ a, quiet (f a)) → quiet (m ≫= f).
Proof.
  intros Hm Hf s rc s'. unfold mbind, M_bind. specialize (Hm s).
  destruct (m s) as [a s1|e s1|rc1 s1|s1]; try done.
  - apply Hf.
  - intros [= <- <-]. by eapply Hm.
Qed.

Lemma quiet_try {A} (m : M A) (h : MDException → M A) :
  quiet m → (∀ e, quiet (h e)) → quiet (try_catch m h).
Proof.
  intros Hm Hh s rc s'. unfold try_catch. specialize (Hm s).
  destruct (m s) as [a s1|e s1|rc1 s1|s1]; try done.
  - apply Hh.
  - intros [= <- <-]. by eapply Hm.
Qed.

Lemma quiet_if {A} (b : bool) (m1 m2 : M A) :
  quiet m1 → quiet m2 → quiet (if b then m1 else m2).
Proof. by destruct b. Qed.

Lemma quiet_return0 {A} : quiet (@return_ A 0).
Proof. intros s rc s' [= <- _]. by left. Qed.

Lemma quiet_return_ENOTEMPTY {A} : quiet (@return_ A Errno.ENOTEMPTY).
Proof. intros s rc s' [= <- _]. by right. Qed.

#[export] Hint Resolve quiet_return0 quiet_return_ENOTEMPTY : quiet.

Ltac quiet_step :=
  first
    [ assumption
    | match goal with |- forall _, _ => intro end
    | apply quiet_noreturn; solve [solve_noreturn]
    | apply quiet_bind
    | apply quiet_try
    | apply quiet_if
    | solve [auto with quiet]
    | match goal with
      | |- quiet (match ?x with _ => _ end) => destruct x
      end ].

Ltac solve_quiet := repeat quiet_step.

Lemma clean_pure {A} (m : M A) : pure m → refuses_cleanly m.
Proof. intros H s rc s' Hm _ _. specialize (H s). by rewrite Hm in H. Qed.

Lemma clean_quiet {A} (m : M A) : quiet m → refuses_cleanly m.
Proof. intros H s rc s' Hm H0 H1. by destruct (H s rc s' Hm). Qed.

Lemma clean_bind_pure {A B} (m : M A) (f : A → M B) :
  pure m → (∀ a, refuses_cleanly (f a)) → refuses_cleanly (m ≫= f).
Proof.
  intros Hm Hf s rc s'. unfold mbind, M_bind. specialize (Hm s).
  destruct (m s) as [a s1|e s1|rc1 s1|s1]; cbn in Hm; subst; try done.
  - apply Hf.
  - by intros [= <- <-].
Qed.

Lemma clean_then_quiet {A B} (m : M A) (f : A → M B) :
  refuses_cleanly m → (∀ a, quiet (f a)) → refuses_cleanly (m ≫= f).
Proof.
  intros Hm Hf s rc s'. unfold mbind, M_bind.
  destruct (m s) as [a s1|e s1|rc1 s1|s1] eqn:E; try done.
  - intros H H0 H1. by destruct (Hf a s1 rc s' H).
  - intros [= <- <-]. by apply Hm.
Qed.

Lemma clean_if {A} (b : bool) (m1 m2 : M A) :
  refuses_cleanly m1 → refuses_cleanly m2 →
  refuses_cleanly (if b then m1 else m2).
Proof. by destruct b. Qed.

Lemma clean_try {A} (m : M A) (h : MDException → M A) :
  refuses_cleanly m → (∀ e, quiet (h e)) → refuses_cleanly (try_catch m h).
Proof.
  intros Hm Hh s rc s'. unfold try_catch.
  destruct (m s) as [a s1|e s1|rc1 s1|s1] eqn:E; try done.
  - intros H H0 H1. by destruct (Hh e s1 rc s' H).
  - intros [= <- <-]. by apply Hm.
Qed.

Create HintDb clean.

Ltac solve_clean :=
  repeat first
    [ assumption
    | match goal with |- forall _, _ => intro end
    | solve [auto with clean]
    | apply clean_pure; solve [solve_pure]
    | apply clean_quiet; solve [solve_quiet]
    | apply clean_bind_pure; [solve [solve_pure]|]
    | apply clean_if
    | match goal with
      | |- refuses_cleanly (match ?x with _ => _ end) => destruct x
      end
    | apply clean_then_quiet; [solve [solve_clean]|solve [solve_quiet]]
    | apply clean_try; [solve [solve_clean]|solve [solve_quiet]] ].

Lemma quiet_on_exception md e : quiet (on_exception md e).
Proof. unfold on_exception. solve_quiet. Qed.

#[export] Hint Resolve quiet_on_exception : quiet.

Lemma clean_set_dir_move env vid md cmd :
  refuses_cleanly (set_dir_move env vid md cmd).
Proof. unfold set_dir_move. solve_clean. Qed.

#[export] Hint Resolve clean_set_dir_move : clean.

Lemma clean_set_dir_existing env vid md :
  refuses_cleanly (set_dir_existing env vid md).
Proof. unfold set_dir_existing. solve_clean. Qed.

Lemma clean_set_dir_create env md ex :
  refuses_cleanly (set_dir_create env md ex).
Proof. unfold set_dir_create. solve_clean. Qed.

#[export] Hint Resolve clean_set_dir_existing clean_set_dir_create : clean.

Lemma clean_set_dir_body env vid md :
  refuses_cleanly (set_dir_body env vid md).
Proof. unfold set_dir_body. solve_clean. Qed.

Lemma clean_hardlink_entry env md : refuses_cleanly (hardlink_entry env md).
Proof. unfold hardlink_entry. solve_clean. Qed.

Lemma clean_set_file_create env md : refuses_cleanly (set_file_create env md).
Proof. unfold set_file_create. solve_clean. Qed.

#[export] Hint Resolve clean_hardlink_entry clean_set_file_create : clean.

Lemma clean_set_file_body env md : refuses_cleanly (set_file_body env md).
Proof. unfold set_file_body, set_file_hardlink. solve_clean. Qed.

Lemma clean_set_link_body env md : refuses_cleanly (set_link_body env md).
Proof. unfold set_link_body. solve_clean. Qed.

Lemma quiet_delete_finish md n : quiet (delete_finish md n).
Proof. unfold delete_finish. solve_quiet. Qed.

#[export] Hint Resolve quiet_delete_finish : quiet.

Lemma clean_delete_body env md : refuses_cleanly (delete_body env md).
Proof. unfold delete_body, delete_file. solve_clean. Qed.

#[export] Hint Resolve clean_set_dir_body clean_set_file_body
  clean_set_link_body clean_delete_body : clean.

Lemma clean_HandleMD_SET env vid md : refuses_cleanly (HandleMD_SET env vid md).
Proof. unfold HandleMD_SET, set_dir, set_file, set_link. solve_clean. Qed.

Lemma clean_HandleMD_DELETE env vid md :
  refuses_cleanly (HandleMD_DELETE env vid md).
Proof. unfold HandleMD_DELETE. solve_clean. Qed.

(** A mutation that [HandleMD] refuses with an error code other than
    [ENOTEMPTY] ([EPERM], [EEXIST], [EDQUOT]) has changed nothing: the
    namespace, the capability store, the response and the calls made
    are as before the request. *)
Theorem HandleMD_refusal_is_clean env vid md s rc s' :
  HandleMD env vid md s = Returned rc s' →
  rc ≠ 0 → rc ≠ Errno.ENOTEMPTY →
  s' = s.
Proof.
  unfold HandleMD. intros H Hrc Hne.
  destruct (md_operation md); try (injection H as <- <-; done).
  - eapply clean_HandleMD_SET; [by apply run_error|done|done].
  - eapply clean_HandleMD_DELETE; [by apply run_error|done|done].
Qed.

Lemma HandleMD_refusal_is_clean_witness :
  state_after (HandleMD env1 vidA move_dir state1) = state1.
Proof.
  apply (HandleMD_refusal_is_clean env1 vidA move_dir state1 Errno.EPERM).
  - by vm_compute.
  - by vm_compute.
  - by vm_compute.
Defined.

(** ** A directory MOVE onto a non-empty target *)

Lemma lookup_c_update_ne f id ns i :
  id ≠ i → ns_containers (c_update f id ns) !! i = ns_containers ns !! i.
Proof. intros H. unfold c_update. cbn. by rewrite lookup_alter_ne. Qed.

Lemma lookup_c_update_eq f id ns :
  ns_containers (c_update f id ns) !! id = f <$> ns_containers ns !! id.
Proof. unfold c_update. cbn. by rewrite lookup_alter_eq. Qed.

(** The refusal with [ENOTEMPTY] is not atomic.  When a directory is
    moved onto a name under which the new parent holds a non-empty
    directory, [HandleMD] returns [ENOTEMPTY] without any response, but
    by then the directory has been taken out of the children of its
    source parent and carries its new name: it is listed under no
    parent. *)
Theorem MOVE_onto_nonempty_target env vid md s cmd pcmd spar ex target :
  md_operation md = SET →
  Mode.S_ISDIR (md_mode md) = true →
  cap_check env vid md s = Val () s →
  md_ino md ≠ 0 →
  md_type md ≠ EXCL →
  md_implied_authid md = ""%string →
  ns_containers (st_ns s) !! md_ino md = Some cmd →
  ns_containers (st_ns s) !! md_pino md = Some pcmd →
  ns_containers (st_ns s) !! c_parent cmd = Some spar →
  c_parent cmd ≠ md_pino md →
  c_parent cmd ≠ md_ino md →
  ValidatePERM env (st_ns s) (source_md (c_parent cmd)) "W" vid = true →
  c_containers pcmd !! md_name md = Some ex →
  ex ≠ c_parent cmd →
  ns_containers (st_ns s) !! ex = Some target →
  c_files target ≠ ∅ ∨ c_containers target ≠ ∅ →
  ∃ s', HandleMD env vid md s = Returned Errno.ENOTEMPTY s'
        ∧ st_response s' = st_response s
        ∧ (∃ sp', ns_containers (st_ns s') !! c_parent cmd = Some sp'
                  ∧ c_containers sp' !! c_name cmd = None)
        ∧ (∃ c', ns_containers (st_ns s') !! md_ino md = Some c'
                 ∧ c_name c' = md_name md ∧ c_parent c' = c_parent cmd).
Proof.
  intros Hop Hdir Hc Hino Hex Himp Hcmd Hpcmd Hspar Hpar Hself Hperm
    Hfound Hexp Htarget Hne.
  unfold HandleMD, cap_check in *. rewrite Hop in *.
  unfold HandleMD_SET, run. rewrite bind_eq, Hc, Hdir.
  rewrite bind_eq. unfold set_dir, try_catch, set_dir_body.
  apply Z.eqb_neq in Hino. rewrite Hino.
  rewrite bool_decide_eq_false_2 by done. cbn [negb andb].
  rewrite bind_eq. unfold set_dir_existing. rewrite Himp.
  cbn [String.length Nat.eqb negb].
  rewrite bind_eq. unfold getContainerMD at 1. rewrite Hcmd.
  rewrite bind_eq. unfold getContainerMD at 1. rewrite Hpcmd.
  rewrite bind_eq. rewrite (proj2 (Z.eqb_neq _ _) Hpar). cbn [negb].
  unfold set_dir_move.
  rewrite bind_eq. unfold get_ns at 1. rewrite Hperm. cbn [negb].
  rewrite bind_eq. unfold getContainerMD at 1. rewrite Hspar.
  rewrite bind_eq. unfold removeContainer at 1, modify_ns at 1.
  rewrite bind_eq. unfold modify_ns at 1. cbn [st_ns].
  rewrite bind_eq. unfold try_catch.
  rewrite bind_eq. unfold cmd_of at 1. cbn [st_ns].
  set (nsA := c_update _ (c_parent cmd) (st_ns s)).
  set (nsB := c_update (c_with_name (md_name md)) (md_ino md) nsA).
  assert (Hp2 : ∃ p', ns_containers nsB !! md_pino md = Some p'
                      ∧ c_containers p' = c_containers pcmd).
  { destruct (lookup_c_update_children (c_with_name (md_name md))
                (md_ino md) nsA (md_pino md) pcmd) as (p' & Hp' & Hcc & _);
      [done|done| |by eauto].
    subst nsA. by rewrite lookup_c_update_ne. }
  destruct Hp2 as (p' & Hp' & Hcc). rewrite Hp'. cbn [default]. unfold id.
  rewrite Hcc, Hfound.
  rewrite bind_eq. unfold cmd_of at 1. cbn [st_ns].
  assert (Ht2 : ∃ t', ns_containers nsB !! ex = Some t'
                      ∧ c_containers t' = c_containers target
                      ∧ c_files t' = c_files target).
  { apply (lookup_c_update_children (c_with_name (md_name md))
             (md_ino md) nsA ex target); [done|done|].
    subst nsA. by rewrite lookup_c_update_ne. }
  destruct Ht2 as (t' & Ht' & Htc & Htf). rewrite Ht'. cbn [default].
  unfold id. rewrite Htc, Htf.
  assert (Hsz : negb (size (c_files target) + size (c_containers target)
                      =? 0)%nat = true).
  { apply negb_true_iff, Nat.eqb_neq.
    destruct Hne as [H|H]; apply map_size_non_empty_iff in H; lia. }
  rewrite Hsz. cbn [return_].
  eexists. split; [reflexivity|]. cbn [st_response st_ns].
  split; [done|]. split.
  - exists (c_with_containers (delete (c_name cmd) (c_containers spar)) spar).
    split; [|cbn; apply lookup_delete_eq].
    subst nsB nsA. rewrite lookup_c_update_ne by done.
    by rewrite lookup_c_update_eq, Hspar.
  - exists (c_with_name (md_name md) cmd). split; [|done].
    subst nsB nsA. rewrite lookup_c_update_eq.
    rewrite lookup_c_update_ne by done. by rewrite Hcmd.
Qed.

Lemma MOVE_onto_nonempty_target_witness :
  ∃ s', HandleMD env3 vidA move_dir state_move = Returned Errno.ENOTEMPTY s'
        ∧ st_response s' = None
        ∧ (∃ sp', ns_containers (st_ns s') !! 2 = Some sp'
                  ∧ c_containers sp' !! "d"%string = None)
        ∧ (∃ c', ns_containers (st_ns s') !! 4 = Some c'
                 ∧ c_name c' = "d"%string ∧ c_parent c' = 2).
Proof.
  apply (MOVE_onto_nonempty_target env3 vidA move_dir state_move
           (mk_dir 4 2 "d" ∅ ∅)
           (mk_dir 3 1 "P2" {[ "d"%string := 6 ]} ∅)
           (mk_dir 2 1 "P1" {[ "d"%string := 4 ]} ∅)
           6 (mk_dir 6 3 "d" ∅ {[ "x"%string := 7 ]}));
    try (by vm_compute).
  left. by vm_compute.
Defined.

(** ** DELETE and the capabilities of the deleted inode *)

Create HintDb keeps_caps.

Lemma keeps_caps_bind {A B} (m : M A) (f : A → M B) :
  keeps_caps m → (∀ a, keeps_caps (f a)) → keeps_caps (m ≫= f).
Proof.
  intros Hm Hf s. unfold mbind, M_bind. specialize (Hm s).
  destruct (m s) as [a s1|e s1|rc s1|s1]; cbn in *; try done.
  rewrite <- Hm. apply Hf.
Qed.

Lemma keeps_caps_try {A} (m : M A) (h : MDException → M A) :
  keeps_caps m → (∀ e, keeps_caps (h e)) → keeps_caps (try_catch m h).
Proof.
  intros Hm Hh s. unfold try_catch. specialize (Hm s).
  destruct (m s) as [a s1|e s1|rc s1|s1]; cbn in *; try done.
  rewrite <- Hm. apply Hh.
Qed.

Lemma keeps_caps_if {A} (b : bool) (m1 m2 : M A) :
  keeps_caps m1 → keeps_caps m2 → keeps_caps (if b then m1 else m2).
Proof. by destruct b. Qed.

Lemma keeps_caps_pure {A} (m : M A) : pure m → keeps_caps m.
Proof. intros H s. by rewrite H. Qed.

Lemma keeps_caps_modify_ns f : keeps_caps (modify_ns f).
Proof. by intros s. Qed.

Lemma keeps_caps_set_response r : keeps_caps (set_response r).
Proof. by intros s. Qed.

Lemma keeps_caps_emit l : keeps_caps (emit l).
Proof. by intros s. Qed.

Lemma keeps_caps_createFile : keeps_caps createFile.
Proof. by intros s. Qed.

Lemma keeps_caps_createContainer : keeps_caps createContainer.
Proof. by intros s. Qed.

#[export] Hint Resolve keeps_caps_modify_ns keeps_caps_set_response
  keeps_caps_emit keeps_caps_createFile keeps_caps_createContainer
  : keeps_caps.

Ltac solve_keeps_caps :=
  repeat first
    [ assumption
    | match goal with |- forall _, _ => intro end
    | solve [auto with keeps_caps]
    | apply keeps_caps_pure; solve [solve_pure]
    | apply keeps_caps_bind
    | apply keeps_caps_try
    | apply keeps_caps_if
    | match goal with
      | |- keeps_caps (match ?x with _ => _ end) => destruct x
      end ].

Lemma keeps_caps_removeContainer p n : keeps_caps (removeContainer p n).
Proof. unfold removeContainer. solve_keeps_caps. Qed.

Lemma keeps_caps_removeFile p n : keeps_caps (removeFile p n).
Proof. unfold removeFile. solve_keeps_caps. Qed.

Lemma keeps_caps_service_removeContainer c :
  keeps_caps (service_removeContainer c).
Proof. unfold service_removeContainer. solve_keeps_caps. Qed.

Lemma keeps_caps_renameFile f n : keeps_caps (renameFile f n).
Proof. unfold renameFile, removeFile. solve_keeps_caps. Qed.

Lemma keeps_caps_getAttribute f k : keeps_caps (getAttribute f k).
Proof. unfold getAttribute. solve_keeps_caps. Qed.

Lemma keeps_caps_hasAttribute f k : keeps_caps (hasAttribute f k).
Proof. unfold hasAttribute. solve_keeps_caps. Qed.

Lemma keeps_caps_setAttribute f k v : keeps_caps (setAttribute f k v).
Proof. unfold setAttribute. solve_keeps_caps. Qed.

#[export] Hint Resolve keeps_caps_removeContainer keeps_caps_removeFile
  keeps_caps_service_removeContainer keeps_caps_renameFile
  keeps_caps_getAttribute keeps_caps_hasAttribute keeps_caps_setAttribute
  : keeps_caps.

Lemma keeps_caps_unlink_file p f n : keeps_caps (unlink_file p f n).
Proof. unfold unlink_file. solve_keeps_caps. Qed.

#[export] Hint Resolve keeps_caps_unlink_file : keeps_caps.

Lemma keeps_caps_delete_link_entry env md f :
  keeps_caps (delete_link_entry env md f).
Proof. unfold delete_link_entry. solve_keeps_caps. Qed.

Lemma keeps_caps_delete_link_target md f :
  keeps_caps (delete_link_target md f).
Proof. unfold delete_link_target. solve_keeps_caps. Qed.

#[export] Hint Resolve keeps_caps_delete_link_entry
  keeps_caps_delete_link_target : keeps_caps.

Lemma keeps_caps_delete_file_ns env md pcmd f :
  keeps_caps (delete_file_ns env md pcmd f).
Proof. unfold delete_file_ns. solve_keeps_caps. Qed.

#[export] Hint Resolve keeps_caps_delete_file_ns : keeps_caps.

Lemma deletes_caps_bind {A B} md (m : M A) (f : A → M B) :
  noreturn m → keeps_caps m → (∀ a, deletes_caps md (f a)) →
  deletes_caps md (m ≫= f).
Proof.
  intros Hn Hk Hf s s' ino. unfold mbind, M_bind.
  specialize (Hn s). specialize (Hk s).
  destruct (m s) as [a s1|e s1|rc s1|s1]; cbn in Hk; try done.
  - rewrite <- Hk. apply Hf.
  - by destruct (Hn rc s1).
Qed.

Lemma deletes_caps_if {A} md (b : bool) (m1 m2 : M A) :
  deletes_caps md m1 → deletes_caps md m2 →
  deletes_caps md (if b then m1 else m2).
Proof. by destruct b. Qed.

Lemma deletes_caps_noreturn {A} md (m : M A) :
  noreturn m → deletes_caps md m.
Proof. intros H s s' ino Hm. by destruct (H s 0 s'). Qed.

Lemma deletes_caps_delete_finish md name :
  deletes_caps md (delete_finish md name).
Proof.
  intros s s' ino.
  unfold delete_finish, bc_release, bc_deletion, set_response, modify_caps,
    emit, get_caps, return_, mbind, M_bind.
  by intros [= <-] _.
Qed.

Lemma deletes_caps_refusal {A} md e msg :
  deletes_caps md (set_response (ack_failure md e msg);; @return_ A 0).
Proof.
  intros s s' ino. unfold set_response, return_, mbind, M_bind.
  by intros [= <-] H.
Qed.

Lemma deletes_caps_delete_body env md : deletes_caps md (delete_body env md).
Proof.
  unfold delete_body, delete_file.
  apply deletes_caps_bind; [solve_noreturn|solve_keeps_caps|intros pcmd].
  apply deletes_caps_bind; [solve_noreturn|solve_keeps_caps|intros _].
  apply deletes_caps_bind; [solve_noreturn|solve_keeps_caps|intros _].
  repeat apply deletes_caps_if.
  - apply deletes_caps_bind; [solve_noreturn|solve_keeps_caps|intros cmd].
    apply deletes_caps_if; [apply deletes_caps_refusal|].
    apply deletes_caps_bind; [solve_noreturn|solve_keeps_caps|intros _].
    apply deletes_caps_bind; [solve_noreturn|solve_keeps_caps|intros _].
    apply deletes_caps_delete_finish.
  - apply deletes_caps_bind; [solve_noreturn|solve_keeps_caps|intros _].
    apply deletes_caps_delete_finish.
  - apply deletes_caps_bind; [solve_noreturn|solve_keeps_caps|intros fmd].
    apply deletes_caps_bind; [solve_noreturn|solve_keeps_caps|intros _].
    apply deletes_caps_delete_finish.
  - apply deletes_caps_noreturn. solve_noreturn.
Qed.

Lemma delete_finish_returns md name s :
  ∃ s', delete_finish md name s = Return 0 s'.
Proof.
  unfold delete_finish, bc_release, bc_deletion, set_response, modify_caps,
    emit, get_caps, return_, mbind, M_bind. by eexists.
Qed.

(** When the [try] block of DELETE runs to its end without a [return],
    it has not written the response. *)
Lemma delete_body_falls_through env md s a s1 :
  delete_body env md s = Val a s1 → st_response s1 = st_response s.
Proof.
  assert (Hb : ∀ {A B} (m : M A) (f : A → M B) s a s1,
            silent m →
            (∀ x s0, f x s0 = Val a s1 → st_response s1 = st_response s0) →
            (m ≫= f) s = Val a s1 → st_response s1 = st_response s).
  { intros A B m f s0 a0 s2 Hm Hf. rewrite bind_eq. specialize (Hm s0).
    destruct (m s0) as [x s3|?|?|?]; try done. cbn in Hm. rewrite <- Hm.
    apply Hf. }
  assert (Hfin : ∀ name s0, delete_finish md name s0 = Val a s1 → False).
  { intros name s0 H. destruct (delete_finish_returns md name s0) as [? H'].
    congruence. }
  unfold delete_body, delete_file.
  apply Hb; [solve_silent|intros pcmd s0].
  apply Hb; [solve_silent|intros [] s2].
  apply Hb; [solve_silent|intros [] s3].
  destruct (Mode.S_ISDIR _).
  - apply Hb; [solve_silent|intros cmd s4].
    destruct (_ || _); [done|].
    apply Hb; [solve_silent|intros [] s5].
    apply Hb; [solve_silent|intros [] s6].
    intros H. by destruct (Hfin _ _ H).
  - destruct (_ || _).
    + apply Hb; [solve_silent|intros [] s4].
      intros H. by destruct (Hfin _ _ H).
    + destruct (Mode.S_ISLNK _).
      * apply Hb; [solve_silent|intros fmd s4].
        apply Hb; [solve_silent|intros [] s5].
        intros H. by destruct (Hfin _ _ H).
      * by intros [= _ <-].
Qed.

(** A DELETE that [HandleMD] acknowledges with [OK] has run
    [Caps::Delete] for the inode of the request, and nothing else has
    happened to the capability store.  So the inode has no entry in the
    inode index any more, and when the index invariant held before, no
    capability naming the deleted inode is left in the store: a later
    request under such a capability finds it gone. *)
Theorem DELETE_drops_caps env vid md s s' :
  md_operation md = DELETE →
  st_response s = None →
  succeeded md (HandleMD env vid md s) s' →
  st_caps s' = (Delete (md_ino md) (st_caps s)).2
  ∧ mInodeCaps (st_caps s') !! md_ino md = None
  ∧ (indices_ok (st_caps s) →
     ∀ a c, mCaps (st_caps s') !! a = Some c → cap_id c ≠ md_ino md).
Proof.
  intros Hop Hnone [Hh [ino Hr]].
  assert (Hcaps : st_caps s' = (Delete (md_ino md) (st_caps s)).2).
  { unfold HandleMD in Hh. rewrite Hop in Hh.
    unfold run, HandleMD_DELETE in Hh. rewrite bind_eq in Hh.
    match type of Hh with
    | context [check_cap ?e ?v ?m ?mode ?p ?s] =>
        destruct (check_cap_cases e v m mode p s) as [Hc|Hc]
    end; rewrite Hc in Hh; [|by injection Hh].
    unfold try_catch in Hh.
    destruct (delete_body env md s) as [a s1|e s1|rc s1|s1] eqn:Hb.
    - injection Hh as <-. apply delete_body_falls_through in Hb.
      congruence.
    - cbn in Hh. injection Hh as <-. cbn in Hr. discriminate Hr.
    - injection Hh as -> ->.
      by apply (deletes_caps_delete_body env md s s' ino).
    - done. }
  split; [done|]. rewrite Hcaps.
  destruct (mInodeCaps (st_caps s) !! md_ino md) as [X|] eqn:HX.
  - destruct (Delete_effect _ _ _ HX) as (_ & Hc & _ & _ & _ & Hi & _).
    split; [rewrite Hi; apply lookup_delete_eq|].
    intros [[W1 _] _] a c. rewrite Hc. case_decide as Ha; [done|].
    intros Hac Hid. destruct (W1 a c Hac) as (X' & HX' & Hin).
    rewrite Hid, HX in HX'. by simplify_eq.
  - unfold Delete. rewrite HX. cbn [snd]. split; [done|].
    intros [[W1 _] _] a c Hac Hid. destruct (W1 a c Hac) as (X' & HX' & _).
    congruence.
Qed.

Lemma DELETE_drops_caps_witness :
  mInodeCaps (st_caps (state_after (HandleMD env3 vidA rmdir_d4 state_d))) !! 4
  = None.
Proof.
  destruct (DELETE_drops_caps env3 vidA rmdir_d4 state_d
              (state_after (HandleMD env3 vidA rmdir_d4 state_d)))
    as (_ & H & _).
  - reflexivity.
  - reflexivity.
  - split; [by vm_compute|]. eexists. by vm_compute.
  - exact H.
Defined.

(** ** Permissions re-derived from the namespace *)

Lemma accperm_contains (r w d : bool) :
  let accperm :=
    ("R" ++ (if r then "R" else "")
         ++ (if w then "WCKNV" else "")
         ++ (if d then "D" else ""))%string in
  Str.contains "R" accperm = true
  ∧ Str.contains "" accperm = true
  ∧ Str.contains "W" accperm = w
  ∧ Str.contains "D" accperm = d.
Proof. by destruct r, w, d. Qed.

(** What [ValidatePERM] grants.  Without the parent container nothing
    is granted.  With it, the mode "R" is always granted, whatever the
    mode bits and the ACL say, because the granted string starts with
    "R" before any check.  "W" and "D" follow the write bit of the
    container when there is no ACL; an ACL that is not mutable, or that
    gives neither write nor write-once, takes "W" away, and an ACL that
    is not mutable or forbids deletion takes "D" away. *)
Theorem ValidatePERM_grants env ns md vid :
  (ns_containers ns !! md_pino md = None →
   ∀ mode, ValidatePERM env ns md mode vid = false)
  ∧ (∀ cmd, ns_containers ns !! md_pino md = Some cmd →
       let acl := env_acl env (c_attrs cmd) vid in
       let w := ValidatePERM env ns md "W" vid in
       let d := ValidatePERM env ns md "D" vid in
       ValidatePERM env ns md "R" vid = true
       ∧ (HasAcl acl = false →
          w = env_access env cmd vid Mode.W_OK
          ∧ d = env_access env cmd vid Mode.W_OK)
       ∧ (HasAcl acl = true → IsMutable acl = false →
          w = false ∧ d = false)
       ∧ (HasAcl acl = true → CanWrite acl = false →
          CanWriteOnce acl = false → w = false)
       ∧ (HasAcl acl = true → CanNotDelete acl = true → d = false)
       ∧ (HasAcl acl = true → IsMutable acl = true → CanWrite acl = true →
          w = true ∧ d = negb (CanNotDelete acl))).
Proof.
  split.
  - intros H mode. unfold ValidatePERM. by rewrite H.
  - intros cmd Hcmd. cbv zeta. unfold ValidatePERM. rewrite Hcmd.
    set (acl := env_acl env (c_attrs cmd) vid).
    destruct (HasAcl acl) eqn:Hacl.
    + destruct (CanWrite acl), (CanWriteOnce acl), (CanNotDelete acl),
        (CanRead acl), (IsMutable acl),
        (env_access env cmd vid Mode.R_OK),
        (env_access env cmd vid Mode.W_OK); cbn;
        repeat split; intros; done.
    + destruct (env_access env cmd vid Mode.R_OK),
        (env_access env cmd vid Mode.W_OK); cbn;
        repeat split; intros; done.
Qed.

Lemma ValidatePERM_grants_witness :
  ValidatePERM env1 ns1 (source_md 2) "R" vidA = true
  ∧ ValidatePERM env1 ns1 (source_md 2) "W" vidA = false.
Proof.
  destruct (ValidatePERM_grants env1 ns1 (source_md 2) vidA) as [_ H].
  destruct (H (mk_dir 2 1 "P1" {[ "d"%string := 4 ]} {[ "f"%string := 5 ]}))
    as (HR & HW & _); [by vm_compute|].
  split; [exact HR|]. destruct HW as [HW _]; [by vm_compute|].
  rewrite HW. by vm_compute.
Defined.

(** ** The lock table *)

Lemma purgeset_spec {LockTracker} (inuse : LockTracker → bool)
  (l : list (Z * LockTracker)) (ps : gset Z) k :
  k ∈ fold_left (λ (ps : gset Z) (it : Z * LockTracker),
                   if negb (inuse it.2) then {[it.1]} ∪ ps else ps) l ps
  ↔ k ∈ ps ∨ ∃ t, (k, t) ∈ l ∧ inuse t = false.
Proof.
  revert ps. induction l as [|[k' t'] l IH]; intros ps; cbn [fold_left].
  - split; [by left|]. intros [?|(t & H & _)]; [done|].
    by apply elem_of_nil in H.
  - rewrite IH. cbn [fst snd]. split.
    + intros [H|(t & Hin & Hu)].
      * destruct (inuse t') eqn:Hu; cbn [negb] in H; [by left|].
        apply elem_of_union in H as [->%elem_of_singleton|H]; [|by left].
        right. exists t'. split; [by left|done].
      * right. exists t. split; [by right|done].
    + intros [H|(t & Hin & Hu)].
      * left. destruct (inuse t'); cbn [negb]; set_solver.
      * apply elem_of_cons in Hin as [Heq|Hin].
        -- injection Heq as -> ->. left. rewrite Hu. cbn [negb]. set_solver.
        -- right. eauto.
Qed.

Lemma erase_all_lookup {LockTracker} (l : list Z) (m : gmap Z LockTracker) k :
  fold_left (λ m k, delete k m) l m !! k
  = if decide (k ∈ l) then None else m !! k.
Proof.
  revert m. induction l as [|k' l IH]; intros m; cbn [fold_left].
  - rewrite decide_False; [done|]. by intros ?%elem_of_nil.
  - rewrite IH. repeat case_decide; try done.
    + set_solver.
    + apply elem_of_cons in H0 as [->|?]; [apply lookup_delete_eq|done].
    + rewrite lookup_delete_ne; [done|]. set_solver.
Qed.

Lemma purgeLocks_lookup {LockTracker} (inuse : LockTracker → bool)
  (m : gmap Z LockTracker) k :
  purgeLocks inuse m !! k
  = match m !! k with
    | Some t => if inuse t then Some t else None
    | None => None
    end.
Proof.
  unfold purgeLocks. rewrite erase_all_lookup.
  destruct (m !! k) as [t|] eqn:Hk.
  - destruct (inuse t) eqn:Hu.
    + rewrite decide_False; [done|].
      rewrite elem_of_elements, purgeset_spec.
      intros [H|(t' & Hin & Hu')]; [set_solver|].
      apply elem_of_map_to_list in Hin. congruence.
    + rewrite decide_True; [done|].
      rewrite elem_of_elements, purgeset_spec. right. exists t.
      split; [by apply elem_of_map_to_list|done].
  - by case_decide.
Qed.

(** [purgeLocks] keeps exactly the trackers that are in use, and each of
    them unchanged; purging twice is the same as purging once. *)
Theorem purgeLocks_keeps_inuse {LockTracker} (inuse : LockTracker → bool)
  (m : gmap Z LockTracker) :
  (∀ k t, purgeLocks inuse m !! k = Some t ↔ m !! k = Some t ∧ inuse t = true)
  ∧ purgeLocks inuse (purgeLocks inuse m) = purgeLocks inuse m.
Proof.
  split.
  - intros k t. rewrite purgeLocks_lookup.
    destruct (m !! k) as [t'|]; [|by split; [|intros []]].
    destruct (inuse t') eqn:Hu; split.
    + by intros [= <-].
    + by intros [[= <-] _].
    + done.
    + intros [[= <-] ?]. congruence.
  - apply map_eq. intros k. rewrite !purgeLocks_lookup.
    destruct (m !! k) as [t|]; [|done].
    destruct (inuse t) eqn:Hu; [by rewrite Hu|done].
Qed.

(** [dropLocks(id, pid)] answers [ENOENT] exactly when the inode has no
    tracker, [dropLocks(owner)] always answers 0.  Whatever the answer,
    the table is purged afterwards: a tracker survives only if it is
    still in use after the locks in question are gone, and then it is
    the tracker without those locks; trackers that were not touched
    survive exactly when they are in use. *)
Theorem dropLocks_spec {LockTracker} (inuse : LockTracker → bool)
  (removelk_pid : Z → LockTracker → LockTracker)
  (removelk_owner : string → LockTracker → LockTracker) id pid owner
  (m : gmap Z LockTracker) :
  let r := dropLocks_pid inuse removelk_pid id pid m in
  let q := dropLocks_owner inuse removelk_owner owner m in
  (r.1 = Errno.ENOENT ↔ m !! id = None)
  ∧ (r.1 = 0 ↔ is_Some (m !! id))
  ∧ r.2 !! id
    = match m !! id with
      | Some t => if inuse (removelk_pid pid t)
                  then Some (removelk_pid pid t) else None
      | None => None
      end
  ∧ (∀ k, k ≠ id →
          r.2 !! k = match m !! k with
                     | Some t => if inuse t then Some t else None
                     | None => None
                     end)
  ∧ q.1 = 0
  ∧ (∀ k, q.2 !! k
          = match m !! k with
            | Some t => if inuse (removelk_owner owner t)
                        then Some (removelk_owner owner t) else None
            | None => None
            end).
Proof.
  cbv zeta. unfold dropLocks_pid, dropLocks_owner.
  assert (Hq : ∀ k, purgeLocks inuse (removelk_owner owner <$> m) !! k
             = match m !! k with
               | Some t => if inuse (removelk_owner owner t)
                           then Some (removelk_owner owner t) else None
               | None => None
               end).
  { intros k. rewrite purgeLocks_lookup, lookup_fmap.
    by destruct (m !! k). }
  destruct (m !! id) as [t|] eqn:Hid; cbn [fst snd].
  - split; [by split|]. split; [by split; eauto|]. split.
    + by rewrite purgeLocks_lookup, lookup_insert_eq.
    + split; [|done].
      intros k Hk. by rewrite purgeLocks_lookup, lookup_insert_ne.
  - split; [by split|]. split; [split; [done|by intros [? ?]]|]. split.
    + by rewrite purgeLocks_lookup, Hid.
    + split; [|done]. intros k Hk. by rewrite purgeLocks_lookup.
Qed.

Lemma purgeLocks_keeps_inuse_witness :
  purgeLocks pid_tracker_inuse ({[ 1 := [10]; 2 := [] ]} : gmap Z (list Z))
  !! 1 = Some [10].
Proof.
  destruct (purgeLocks_keeps_inuse pid_tracker_inuse
              ({[ 1 := [10]; 2 := [] ]} : gmap Z (list Z))) as [H _].
  apply H. split; by vm_compute.
Defined.

Lemma dropLocks_spec_witness :
  (dropLocks_pid pid_tracker_inuse pid_tracker_removelk 7 10
     ({[ 1 := [10] ]} : gmap Z (list Z))).1 = Errno.ENOENT.
Proof.
  destruct (dropLocks_spec pid_tracker_inuse pid_tracker_removelk
              (λ _ t, t) 7 10 "u1"
              ({[ 1 := [10] ]} : gmap Z (list Z))) as [H _].
  apply H. by vm_compute.
Defined.

(** ** The flush table *)

Lemma flush_sweep_loop {T} (v : T → bool) (l : list (string * T))
  (b : bool) (fm : gmap string T) :
  NoDup l.*1 →
  let r := fold_left
    (λ (acc : bool * gmap string T) (it : string * T),
       if v it.2 then (true, acc.2) else (acc.1, delete it.1 acc.2))
    l (b, fm) in
  r.1 = b || existsb (λ it, v it.2) l
  ∧ ∀ k, r.2 !! k
         = match list_find (λ it, it.1 = k) l with
           | Some (_, it) => if v it.2 then fm !! k else None
           | None => fm !! k
           end.
Proof.
  revert b fm. induction l as [|[k0 t0] l IH]; intros b fm Hnd;
    cbn [fold_left existsb].
  - split; [by rewrite orb_false_r|]. done.
  - apply NoDup_cons in Hnd as [Hnotin Hnd]. cbn [fst snd].
    assert (Hnf : list_find (λ it : string * T, it.1 = k0) l = None).
    { apply list_find_None, Forall_forall. intros [k t] Hin Hk.
      cbn in Hk. subst k.
      apply Hnotin, list_elem_of_fmap. by exists (k0, t). }
    destruct (v t0) eqn:Hv.
    + destruct (IH true fm Hnd) as [H1 H2]. cbv zeta in H1, H2.
      rewrite H1. split; [by rewrite orb_true_r|].
      intros k. rewrite H2. cbn [list_find fst snd]. case_decide as Hk.
      * subst k0. rewrite Hnf. cbn. by rewrite Hv.
      * destruct (list_find (λ it : string * T, it.1 = k) l) as [[n it]|];
          by cbn.
    + destruct (IH b (delete k0 fm) Hnd) as [H1 H2]. cbv zeta in H1, H2.
      rewrite H1. split; [done|].
      intros k. rewrite H2. cbn [list_find fst snd]. case_decide as Hk.
      * subst k0. rewrite Hnf. cbn. rewrite Hv. apply lookup_delete_eq.
      * rewrite lookup_delete_ne by done.
        destruct (list_find (λ it : string * T, it.1 = k) l) as [[n it]|];
          by cbn.
Qed.

Lemma flush_sweep_spec {T} (v : T → bool) (fm : gmap string T) :
  (flush_sweep v fm).2 = filter (λ kv, v kv.2 = true) fm
  ∧ ((flush_sweep v fm).1 = true ↔ ∃ k t, fm !! k = Some t ∧ v t = true).
Proof.
  unfold flush_sweep.
  destruct (flush_sweep_loop v (map_order fm) false fm (NoDup_map_order fm))
    as [H1 H2]. cbv zeta in H1, H2. split.
  - apply map_eq. intros k. rewrite H2.
    destruct (list_find _ _) as [[n [k' t]]|] eqn:Hf.
    + apply list_find_Some in Hf as (Hl & Hk & _). cbn in Hk. subst k'.
      apply list_elem_of_lookup_2, elem_of_map_order in Hl. cbn.
      destruct (v t) eqn:Hv; symmetry.
      * rewrite Hl. by apply map_lookup_filter_Some.
      * apply map_lookup_filter_None. right. intros t' Hk'. cbn. congruence.
    + destruct (fm !! k) as [t|] eqn:Hk.
      * apply list_find_None in Hf. rewrite Forall_forall in Hf.
        exfalso. apply (Hf (k, t)); [by apply elem_of_map_order|done].
      * symmetry. apply map_lookup_filter_None. by left.
  - rewrite H1. cbn [orb]. rewrite existsb_exists. split.
    + intros ([k t] & Hin%list_elem_of_In%elem_of_map_order & Hv). eauto.
    + intros (k & t & Hk & Hv). exists (k, t).
      split; [|done]. by apply list_elem_of_In, elem_of_map_order.
Qed.

Lemma expire_loop {T} (v : T → bool) (l : list (Z * gmap string T))
  (m : gmap Z (gmap string T)) :
  NoDup l.*1 →
  ∀ k,
    fold_left
      (λ (m : gmap Z (gmap string T)) (it : Z * gmap string T),
         let r := flush_sweep v it.2 in
         if (size r.2 =? 0)%nat then delete it.1 m else <[it.1 := r.2]> m)
      l m !! k
    = match list_find (λ it, it.1 = k) l with
      | Some (_, it) =>
          let fm' := filter (λ kv, v kv.2 = true) it.2 in
          if (size fm' =? 0)%nat then None else Some fm'
      | None => m !! k
      end.
Proof.
  revert m. induction l as [|[k0 fm0] l IH]; intros m Hnd k;
    cbn [fold_left]; [done|].
  apply NoDup_cons in Hnd as [Hnotin Hnd]. rewrite IH by done.
  cbn [list_find fst snd]. case_decide as Hk.
  - subst k0. destruct (list_find (λ it, it.1 = k) l) as [[n it]|] eqn:Hf.
    + apply list_find_Some in Hf as (Hl & Hit & _).
      exfalso. apply Hnotin. apply list_elem_of_fmap. exists it.
      split; [done|]. by eapply list_elem_of_lookup_2.
    + cbn. rewrite (proj1 (flush_sweep_spec v fm0)).
      destruct (size _ =? 0)%nat.
      * apply lookup_delete_eq.
      * apply lookup_insert_eq.
  - destruct (list_find (λ it, it.1 = k) l) as [[n it]|] eqn:Hf; [done|].
    cbn. destruct (size _ =? 0)%nat.
    + by rewrite lookup_delete_ne.
    + by rewrite lookup_insert_ne.
Qed.

(** What the two sweeps of the flush table leave.  [expireFlush] keeps,
    for every inode, exactly the entries that are still valid, and no
    inode is left with an empty entry map.  [validateFlush] does the
    same to one inode and leaves the others alone; it answers [true]
    exactly when the inode has an entry that is still valid. *)
Theorem flush_sweeps_spec {T} (v : T → bool) (m : gmap Z (gmap string T)) id :
  let keep := λ fm : gmap string T, filter (λ kv, v kv.2 = true) fm in
  let r := validateFlush v id m in
  (∀ k, expireFlush v m !! k
        = match m !! k with
          | Some fm => if decide (keep fm = ∅) then None else Some (keep fm)
          | None => None
          end)
  ∧ r.2 !! id = expireFlush v m !! id
  ∧ (∀ k, k ≠ id → r.2 !! k = m !! k)
  ∧ (r.1 = true ↔ ∃ fm c t, m !! id = Some fm ∧ fm !! c = Some t
                            ∧ v t = true)
  ∧ (r.1 = true ↔ is_Some (expireFlush v m !! id)).
Proof.
  cbv zeta.
  assert (Hsz : ∀ fm : gmap string T,
            (size fm =? 0)%nat = bool_decide (fm = ∅)).
  { intros fm. destruct (Nat.eqb_spec (size fm) 0) as [H|H].
    - symmetry. apply bool_decide_eq_true_2. by apply map_size_empty_iff.
    - symmetry. apply bool_decide_eq_false_2. by rewrite <- map_size_empty_iff. }
  assert (Hexp : ∀ k, expireFlush v m !! k
        = match m !! k with
          | Some fm =>
              if decide (filter (λ kv, v kv.2 = true) fm = ∅) then None
              else Some (filter (λ kv, v kv.2 = true) fm)
          | None => None
          end).
  { intros k. unfold expireFlush.
    rewrite expire_loop by apply NoDup_fst_map_to_list.
    destruct (list_find _ _) as [[n [k' fm]]|] eqn:Hf.
    - apply list_find_Some in Hf as (Hl & Hk & _). cbn in Hk. subst k'.
      apply list_elem_of_lookup_2, elem_of_map_to_list in Hl. rewrite Hl.
      cbn. rewrite Hsz. by case_bool_decide; case_decide.
    - destruct (m !! k) as [fm|] eqn:Hk; [|done].
      apply list_find_None in Hf. rewrite Forall_forall in Hf.
      exfalso. apply (Hf (k, fm)); [by apply elem_of_map_to_list|done]. }
  assert (Hval : (validateFlush v id m).1 = true
                 ↔ ∃ fm c t, m !! id = Some fm ∧ fm !! c = Some t
                             ∧ v t = true).
  { unfold validateFlush. destruct (m !! id) as [fm|] eqn:Hid; cbn [fst].
    - rewrite (proj2 (flush_sweep_spec v fm)). split.
      + intros (c & t & ? & ?). by exists fm, c, t.
      + intros (fm' & c & t & [= <-] & ? & ?). eauto.
    - split; [done|]. by intros (? & ? & ? & ? & _). }
  split; [exact Hexp|]. split; [|split; [|split; [exact Hval|]]].
  - rewrite Hexp. unfold validateFlush.
    destruct (m !! id) as [fm|] eqn:Hid; cbn [snd]; [|done].
    rewrite (proj1 (flush_sweep_spec v fm)), Hsz.
    case_bool_decide; case_decide; try done.
    + apply lookup_delete_eq.
    + apply lookup_insert_eq.
  - intros k Hk. unfold validateFlush.
    destruct (m !! id) as [fm|] eqn:Hid; cbn [snd]; [|done].
    destruct (size _ =? 0)%nat.
    + by rewrite lookup_delete_ne.
    + by rewrite lookup_insert_ne.
  - rewrite Hval, Hexp. destruct (m !! id) as [fm|] eqn:Hid.
    + split.
      * intros (fm' & c & t & [= <-] & Hc & Hv).
        rewrite decide_False; [by eexists|].
        intros He. assert (H : filter (λ kv, v kv.2 = true) fm !! c = Some t)
          by (by apply map_lookup_filter_Some).
        rewrite He in H. by rewrite lookup_empty in H.
      * case_decide as He; [by intros [? ?]|]. intros _.
        apply map_choose in He as (c & t & H).
        apply map_lookup_filter_Some in H as [Hc Hv]. by exists fm, c, t.
    + split; [by intros (? & ? & ? & ? & _)|by intros [? ?]].
Qed.

Lemma flush_sweeps_spec_witness :
  (validateFlush (λ t : Z, 0 <? t) 7
     ({[ 7 := {[ "u1"%string := 5; "u2"%string := -1 ]} ]}
        : gmap Z (gmap string Z))).1 = true.
Proof.
  destruct (flush_sweeps_spec (λ t : Z, 0 <? t)
              ({[ 7 := {[ "u1"%string := 5; "u2"%string := -1 ]} ]}
                 : gmap Z (gmap string Z)) 7)
    as (_ & _ & _ & H & _).
  apply H. exists {[ "u1"%string := 5; "u2"%string := -1 ]}, "u1"%string, 5.
  repeat split; by vm_compute.
Defined.

(** ** Broadcasts that do not come from a client *)

Lemma external_loop_spec s l acc c :
  c ∈ external_loop s l acc
  ↔ c ∈ acc ∨ ∃ a, a ∈ l ∧ mCaps s !! a = Some c ∧ cap_id c ≠ 0.
Proof.
  revert acc. induction l as [|it r IH]; intros acc; cbn [external_loop].
  - split; [auto|]. intros [?|(a & Ha & _)]; [done|].
    by apply elem_of_nil in Ha.
  - destruct (mCaps s !! it) as [cap|] eqn:Hit.
    + destruct (Z.eqb_spec (cap_id cap) 0) as [Ez|Ez]; cbn [negb];
        rewrite IH; try rewrite elem_of_app, list_elem_of_singleton.
      * split; intros [H|(a & Ha & Hc & Hz)]; auto; right; exists a.
        -- split; [by right|done].
        -- apply elem_of_cons in Ha as [->|Ha]; [congruence|done].
      * split.
        -- intros [[H| ->]|(a & Ha & Hc & Hz)]; auto; right.
           ++ exists it. split; [by left|done].
           ++ exists a. split; [by right|done].
        -- intros [H|(a & Ha & Hc & Hz)]; auto.
           apply elem_of_cons in Ha as [->|Ha].
           ++ left. right. congruence.
           ++ right. by exists a.
    + rewrite IH. split; intros [H|(a & Ha & Hc & Hz)]; auto; right; exists a.
      * split; [by right|done].
      * apply elem_of_cons in Ha as [->|Ha]; [congruence|done].
Qed.

Lemma external_caps_spec s id c :
  c ∈ external_caps s id ↔ registered s id c ∧ cap_id c ≠ 0.
Proof.
  unfold external_caps, registered.
  destruct (mInodeCaps s !! id) as [X|] eqn:HX.
  - rewrite external_loop_spec. split.
    + intros [H|(a & Ha & Hc & Hz)]; [by apply elem_of_nil in H|].
      split; [|done]. exists X, a. by rewrite <- elem_of_set_order.
    + intros [(X' & a & [= <-] & Ha & Hc) Hz]. right. exists a.
      by rewrite elem_of_set_order.
  - split; [by intros H%elem_of_nil|]. by intros [(X & a & ? & _) _].
Qed.

Lemma omap_cons_eq {A B} (f : A → option B) x l :
  omap f (x :: l)
  = match f x with Some y => y :: omap f l | None => omap f l end.
Proof. reflexivity. Qed.

Lemma external_target_eq cl s a :
  external_target cl s a
  = match mCaps s !! a with
    | Some c =>
        if cap_id c =? 0 then None
        else match mUUIDView cl !! cap_clientuuid c with
             | Some idr => Some (a, c, idr)
             | None => None
             end
    | None => None
    end.
Proof. reflexivity. Qed.

Lemma external_loop_messages {E} cl s (f : capx → list E)
  (g : string * capx * string → E) l acc :
  (∀ c, f c = match mUUIDView cl !! cap_clientuuid c with
              | Some idr => [g (cap_authid c, c, idr)]
              | None => []
              end) →
  (∀ a b c idr, g (a, c, idr) = g (b, c, idr)) →
  flat_map f (external_loop s l acc)
  = flat_map f acc ++ (g <$> omap (external_target cl s) l).
Proof.
  intros Hf Hg. revert acc.
  induction l as [|it r IH]; intros acc; cbn [external_loop].
  - cbn. by rewrite app_nil_r.
  - rewrite omap_cons_eq, (external_target_eq cl s it).
    destruct (mCaps s !! it) as [cap|] eqn:Hit; [|apply IH].
    destruct (cap_id cap =? 0); cbn [negb]; [apply IH|].
    rewrite IH, flat_map_app. cbn [flat_map]. rewrite app_nil_r, Hf.
    destruct (mUUIDView cl !! cap_clientuuid cap) as [idr|].
    + cbn [fmap list_fmap]. rewrite <- app_assoc. cbn [app].
      by rewrite (Hg _ it).
    + by rewrite app_nil_r.
Qed.

Lemma external_target_Some cl s a x :
  external_target cl s a = Some x
  ↔ x.1.1 = a ∧ mCaps s !! a = Some x.1.2 ∧ cap_id x.1.2 ≠ 0
    ∧ mUUIDView cl !! cap_clientuuid x.1.2 = Some x.2.
Proof.
  unfold external_target. destruct x as [[b c] idr]. cbn [fst snd].
  destruct (mCaps s !! a) as [c'|]; [|by split; [|intros (_ & ? & _)]].
  destruct (Z.eqb_spec (cap_id c') 0) as [Ez|Ez].
  - split; [done|]. intros (_ & [= ->] & Hz & _). done.
  - destruct (mUUIDView cl !! cap_clientuuid c') as [i|] eqn:Hu.
    + split.
      * by intros [= <- <- <-].
      * intros (<- & [= <-] & _ & Hi). rewrite Hu in Hi. by injection Hi as <-.
    + split; [done|]. intros (_ & [= <-] & _ & Hi). congruence.
Qed.

Lemma NoDup_omap_keys {Y} (k : Y → string) (g : string → option Y) l :
  (∀ a y, g a = Some y → k y = a) → NoDup l → NoDup (k <$> omap g l).
Proof.
  intros Hg. induction 1 as [|a r Ha Hr IH]; [constructor|].
  rewrite omap_cons_eq. destruct (g a) as [y|] eqn:Hy; [|done].
  cbn [fmap list_fmap]. constructor; [|done].
  rewrite (Hg _ _ Hy). intros Hin. apply Ha.
  apply list_elem_of_fmap in Hin as (z & -> & Hz).
  apply list_elem_of_omap in Hz as (b & Hb & Hgb).
  by rewrite (Hg _ _ Hgb).
Qed.

(** A release or a deletion that does not come from a client (for
    instance from a change made through another protocol) reaches every
    mount that holds a capability on the inode, the originator's
    included.  The messages sent are exactly one for each auth-id
    registered under the inode whose capability is stored, names an
    inode and belongs to a mount known to the registry, each to the
    identity registered for the uuid of its capability: a mount holding
    two such capabilities is sent two messages, and nobody else gets
    one.  Both broadcasts return 0.  The broadcasts that come from a
    client address a part of these capabilities. *)
Theorem external_broadcast_spec cl s id name :
  (∃ l : list (string * capx * string),
     NoDup l.*1.*1
     ∧ (∀ a c idr,
          (a, c, idr) ∈ l
          ↔ (∃ X, mInodeCaps s !! id = Some X ∧ a ∈ X)
            ∧ mCaps s !! a = Some c ∧ cap_id c ≠ 0
            ∧ mUUIDView cl !! cap_clientuuid c = Some idr)
     ∧ BroadcastReleaseFromExternal cl s id
       = (0, (λ x, Reply x.2 (RSP_LEASE_RELEASECAP (cap_id x.1.2)
                                (cap_clientid x.1.2))) <$> l)
     ∧ BroadcastDeletionFromExternal cl s id name
       = (0, (λ x, Reply x.2 (RSP_DENTRY_REMOVE (cap_id x.1.2)
                                (cap_clientid x.1.2) name)) <$> l))
  ∧ (∀ e, e ∈ (BroadcastReleaseFromExternal cl s id).2
        ↔ ∃ c idr, registered s id c ∧ cap_id c ≠ 0
                   ∧ mUUIDView cl !! cap_clientuuid c = Some idr
                   ∧ e = Reply idr (RSP_LEASE_RELEASECAP (cap_id c)
                                      (cap_clientid c)))
  ∧ (∀ e, e ∈ (BroadcastDeletionFromExternal cl s id name).2
          ↔ ∃ c idr, registered s id c ∧ cap_id c ≠ 0
                     ∧ mUUIDView cl !! cap_clientuuid c = Some idr
                     ∧ e = Reply idr (RSP_DENTRY_REMOVE (cap_id c)
                                        (cap_clientid c) name))
  ∧ (∀ md c, release_inode s md = id →
             c ∈ BroadcastRelease s md → c ∈ external_caps s id).
Proof.
  split; [|split; [|split]].
  - unfold BroadcastReleaseFromExternal, BroadcastDeletionFromExternal,
      external_caps.
    destruct (mInodeCaps s !! id) as [X|] eqn:HX.
    + exists (omap (external_target cl s) (set_order X)).
      split; [|split; [|split]].
      * rewrite <- list_fmap_compose.
        apply NoDup_omap_keys; [|apply NoDup_set_order].
        by intros a y (Hy & _)%external_target_Some.
      * intros a c idr. rewrite list_elem_of_omap. split.
        -- intros (b & Hb%elem_of_set_order & Ht%external_target_Some).
           cbn [fst snd] in Ht. destruct Ht as (-> & Hc & Hz & Hu).
           split; [by exists X|done].
        -- intros ((X' & [= <-] & Ha) & Hc & Hz & Hu). exists a.
           split; [by apply elem_of_set_order|].
           by apply external_target_Some.
      * f_equal.
        rewrite (external_loop_messages cl s _
                   (λ x, Reply x.2 (RSP_LEASE_RELEASECAP (cap_id x.1.2)
                                      (cap_clientid x.1.2)))); [done| |done].
        intros c. unfold ReleaseCAP.
        by destruct (mUUIDView cl !! cap_clientuuid c).
      * f_equal.
        rewrite (external_loop_messages cl s _
                   (λ x, Reply x.2 (RSP_DENTRY_REMOVE (cap_id x.1.2)
                                      (cap_clientid x.1.2) name)));
          [done| |done].
        intros c. unfold DeleteEntry.
        by destruct (mUUIDView cl !! cap_clientuuid c).
    + exists []. split; [constructor|]. split; [|done].
      intros a c idr. split; [by intros H%elem_of_nil|].
      by intros ((X & ? & _) & _).
  - intros e. unfold BroadcastReleaseFromExternal. cbn [snd].
    rewrite list_elem_of_In, in_flat_map. split.
    + intros (c & Hc%list_elem_of_In%external_caps_spec & He).
      unfold ReleaseCAP in He.
      destruct (mUUIDView cl !! cap_clientuuid c) as [idr|] eqn:Hu;
        [|by destruct He].
      destruct He as [<-|[]]. exists c, idr. by destruct Hc.
    + intros (c & idr & Hr & Hz & Hu & ->). exists c. split.
      * by apply list_elem_of_In, external_caps_spec.
      * unfold ReleaseCAP. rewrite Hu. by left.
  - intros e. unfold BroadcastDeletionFromExternal. cbn [snd].
    rewrite list_elem_of_In, in_flat_map. split.
    + intros (c & Hc%list_elem_of_In%external_caps_spec & He).
      unfold DeleteEntry in He.
      destruct (mUUIDView cl !! cap_clientuuid c) as [idr|] eqn:Hu;
        [|by destruct He].
      destruct He as [<-|[]]. exists c, idr. by destruct Hc.
    + intros (c & idr & Hr & Hz & Hu & ->). exists c. split.
      * by apply list_elem_of_In, external_caps_spec.
      * unfold DeleteEntry. rewrite Hu. by left.
  - intros md c <- Hc. apply external_caps_spec.
    unfold BroadcastRelease in Hc.
    destruct (mInodeCaps s !! release_inode s md) as [X|] eqn:HX;
      [|by apply elem_of_nil in Hc].
    apply release_loop_spec in Hc as [Hc|Hc]; [by apply elem_of_nil in Hc|].
    apply (found_recipient _ _ _ _ _ _ HX) in Hc as [[Hr _] Hz]. done.
Qed.

Lemma external_broadcast_spec_witness :
  mk_cap "a1" 7 "c1" "u1" 66 1000 ∈ external_caps st2 7.
Proof.
  destruct (external_broadcast_spec (reg1 ONLINE) st2 7 "f")
    as (_ & _ & _ & H).
  apply (H (mkMdRef "a3" 9 7)); [by vm_compute|].
  vm_compute. by left.
Defined.

(** ** Issuing capabilities *)

Lemma testbit_grant c bits m k :
  Z.testbit (grant c bits m) k = Z.testbit m k || (c && Z.testbit bits k).
Proof.
  unfold grant. destruct c; cbn [andb].
  - apply Z.lor_spec.
  - by rewrite orb_false_r.
Qed.

Lemma testbit_revoke c bits m k :
  0 <= k →
  Z.testbit (revoke c bits m) k = Z.testbit m k && negb (c && Z.testbit bits k).
Proof.
  intros Hk. unfold revoke. destruct c; cbn [andb negb].
  - by rewrite Z.land_spec, Z.lnot_spec.
  - by rewrite andb_true_r.
Qed.

(** One bit of the permissions from the mode bits. *)
Lemma mode_from_bits_bit vid dir mask k :
  let own := vid_uid vid =? md_uid dir in
  let grp := vid_gid vid =? md_gid dir in
  let m := md_mode dir in
  let mm := Z.land (md_mode dir) mask in
  let X := Z.testbit Mode.X_OK k in
  let R := Z.testbit Mode.R_OK k in
  let Wb := Z.testbit write_bits k in
  Z.testbit (mode_from_bits vid dir mask) k
  = Z.testbit Mode.S_IFDIR k
    || (vid_sudoer vid
        && Z.testbit
             (Z.lor Mode.C_OK (Z.lor Mode.M_OK (Z.lor Mode.U_OK
                (Z.lor Mode.W_OK (Z.lor Mode.D_OK
                   (Z.lor Mode.SA_OK Mode.SU_OK)))))) k)
    || (own && bit_set m Stat.S_IRUSR
        && Z.testbit (Z.lor Mode.R_OK (Z.lor Mode.M_OK Mode.SU_OK)) k)
    || (own && bit_set m Stat.S_IWUSR && Wb)
    || (own && bit_set mm Stat.S_IXUSR && X)
    || (grp && bit_set mm Stat.S_IRGRP && R)
    || (grp && bit_set mm Stat.S_IWGRP && Wb)
    || (grp && bit_set mm Stat.S_IXGRP && X)
    || (bit_set mm Stat.S_IROTH && R)
    || (bit_set mm Stat.S_IWOTH && Wb)
    || (bit_set mm Stat.S_IXOTH && X).
Proof.
  cbv zeta. unfold mode_from_bits.
  destruct (vid_uid vid =? md_uid dir), (vid_gid vid =? md_gid dir);
    rewrite !testbit_grant; cbn [andb]; by rewrite ?orb_false_r.
Qed.

(** One bit of the permissions after the ACL. *)
Lemma mode_from_acl_bit vid dir acl mode k :
  0 <= k →
  Z.testbit (mode_from_acl vid dir acl mode) k
  = if acl_IsMutable acl then
      (((((((Z.testbit mode k
             || (acl_CanRead acl && Z.testbit Mode.R_OK k))
            || ((acl_CanWrite acl || acl_CanWriteOnce acl)
                && Z.testbit
                     (Z.lor Mode.W_OK (Z.lor Mode.SA_OK
                        (Z.lor Mode.D_OK Mode.M_OK))) k))
           || (acl_CanBrowse acl && Z.testbit Mode.X_OK k))
          && negb (acl_CanNotChmod acl && Z.testbit Mode.M_OK k))
         || (acl_CanChmod acl && Z.testbit Mode.M_OK k))
        || (acl_CanChown acl && Z.testbit Mode.C_OK k))
       || (acl_CanUpdate acl && Z.testbit (Z.lor Mode.U_OK Mode.SA_OK) k))
      && negb ((negb (vid_uid vid =? md_uid dir) && acl_CanNotDelete acl)
               && Z.testbit Mode.D_OK k)
    else Z.testbit mode k.
Proof.
  intros Hk. unfold mode_from_acl. destruct (acl_IsMutable acl); [|done].
  rewrite testbit_revoke by done. rewrite !testbit_grant.
  rewrite testbit_revoke by done. by rewrite !testbit_grant.
Qed.

(** A single permission [2^k] is covered exactly when the bit is set. *)
Lemma covers_bit m k :
  0 <= k → Z.land m (2 ^ k) = 2 ^ k ↔ Z.testbit m k = true.
Proof.
  intros Hk. split.
  - intros H. rewrite <- (Z.pow2_bits_true k) by done.
    rewrite <- H at 1. rewrite Z.land_spec, Z.pow2_bits_true by done.
    by rewrite andb_true_r.
  - intros H. apply Z.bits_inj'. intros i Hi. rewrite Z.land_spec.
    destruct (decide (i = k)) as [->|Hne].
    + by rewrite H, Z.pow2_bits_true.
    + rewrite Z.pow2_bits_false by lia. by rewrite andb_false_r.
Qed.

Lemma lacks_bit m k :
  0 <= k → Z.land m (2 ^ k) = 0 ↔ Z.testbit m k = false.
Proof.
  intros Hk. split.
  - intros H. destruct (Z.testbit m k) eqn:E; [|done].
    apply covers_bit in E; [|done]. rewrite E in H.
    pose proof (Z.pow_pos_nonneg 2 k). lia.
  - intros H. apply Z.bits_inj'. intros i Hi.
    rewrite Z.land_spec, Z.bits_0.
    destruct (decide (i = k)) as [->|Hne].
    + by rewrite H.
    + rewrite Z.pow2_bits_false by lia. by rewrite andb_false_r.
Qed.

Lemma attr_touch_value k m : (attr_touch k m).1 = default ""%string (m !! k).
Proof. unfold attr_touch. by destruct (m !! k). Qed.

Lemma attr_touch_other k k' m :
  k ≠ k' → (attr_touch k m).2 !! k' = m !! k'.
Proof.
  intros Hk. unfold attr_touch.
  destruct (m !! k); cbn [snd]; [done|]. by rewrite lookup_insert_ne.
Qed.

Lemma cap_mode_for_eq e vid dir mask :
  (cap_mode_for e vid dir mask (attr_touch "sys.mask" (md_attr dir)).2).1
  = if vid_uid vid =? 0 then Z.lor 255 Mode.S_IFDIR
    else match dir_acl e vid dir with
         | Some acl => mode_from_acl vid dir acl (mode_from_bits vid dir mask)
         | None => mode_from_bits vid dir mask
         end.
Proof.
  unfold cap_mode_for, dir_acl. destruct (vid_uid vid =? 0); [done|].
  set (a1 := (attr_touch "sys.mask" (md_attr dir)).2).
  destruct (attr_touch "sys.acl" a1) as [sysacl a2] eqn:E2.
  destruct (attr_touch "user.acl" a2) as [useracl a3] eqn:E3.
  assert (Hs : sysacl = default ""%string (md_attr dir !! "sys.acl")).
  { change sysacl with (sysacl, a2).1. rewrite <- E2, attr_touch_value.
    unfold a1. by rewrite attr_touch_other. }
  assert (Hu : useracl = default ""%string (md_attr dir !! "user.acl")).
  { change useracl with (useracl, a3).1. rewrite <- E3, attr_touch_value.
    change a2 with (sysacl, a2).2. rewrite <- E2.
    rewrite attr_touch_other by done. unfold a1.
    by rewrite attr_touch_other. }
  rewrite <- Hs, <- Hu. by destruct (has_length sysacl || has_length useracl).
Qed.

(** What a call that issues a capability returns. *)
Lemma FillContainerCAP_issued e id dir fullpath vid auth reuse one s cap
  attr' s' :
  FillContainerCAP e id dir fullpath vid auth reuse one s
  = (Some cap, attr', s') →
  s' = Store cap (Some vid) s
  ∧ cap_id cap = id
  ∧ cap_clientid cap = md_clientid dir
  ∧ cap_clientuuid cap = md_clientuuid dir
  ∧ cap_authid cap = (if has_length reuse then reuse else random_uuidstring e)
  ∧ cap_vtime cap
    = Int.add64 (tv_sec (cap_ts e))
        (let lt := leasetime (cap_clients e) (md_clientuuid dir) in
         if lt =? 0 then 300 else lt)
  ∧ cap_mode cap
    = (if vid_uid vid =? 0 then Z.lor 255 Mode.S_IFDIR
       else match dir_acl e vid dir with
            | Some acl =>
                mode_from_acl vid dir acl (mode_from_bits vid dir (dir_mask dir))
            | None => mode_from_bits vid dir (dir_mask dir)
            end)
  ∧ cap_quota cap
    = cap_quota_for e dir fullpath (cap_uid cap) (cap_gid cap).
Proof.
  unfold FillContainerCAP.
  destruct (one && _); [done|].
  pose proof (cap_mode_for_eq e vid dir (dir_mask dir)) as Hm.
  pose proof (attr_touch_value "sys.mask" (md_attr dir)) as Hv.
  destruct (attr_touch "sys.mask" (md_attr dir)) as [sysmask a1].
  cbn [fst snd] in Hm, Hv. unfold dir_mask in Hm at 1. rewrite <- Hv in Hm.
  cbv zeta in Hm.
  destruct (cap_mode_for e vid dir _ a1) as [mode a2]. cbn [fst] in Hm.
  destruct (attr_touch "sys.owner.auth" a2) as [ownerauth a3].
  destruct (cap_owner vid auth dir ownerauth) as [uid gid].
  intros [= <- <- <-]. cbn. by rewrite Hm.
Qed.

(** The permissions that are granted together with writing. *)
Lemma write_bits_bit k :
  k = 1 ∨ k = 3 ∨ k = 6 ∨ k = 7 → Z.testbit write_bits k = true.
Proof. by intros [->|[->|[->| ->]]]. Qed.

(** The permissions of an issued capability.  Root gets the low eight
    bits, which do not include the permission to set times ([SU_OK]).
    For everybody else: the owner of a directory that is writable for
    its owner can delete, whatever the mask and the ACL say; an ACL in
    force that forbids deletion takes the permission to delete from
    everybody but the owner, sudoers included; and as long as no ACL is
    in force, writing, deleting, updating and setting attributes are
    granted together or not at all. *)
Theorem FillContainerCAP_permissions e id dir fullpath vid auth reuse one s
  cap attr' s' :
  FillContainerCAP e id dir fullpath vid auth reuse one s
  = (Some cap, attr', s') →
  let covers := λ bits, Z.land (cap_mode cap) bits = bits in
  let lacks := λ bits, Z.land (cap_mode cap) bits = 0 in
  (vid_uid vid = 0 →
   cap_mode cap = Z.lor 255 Mode.S_IFDIR
   ∧ (∀ M, Z.land 255 M = M → covers M) ∧ lacks Mode.SU_OK)
  ∧ (vid_uid vid ≠ 0 → vid_uid vid = md_uid dir →
     bit_set (md_mode dir) Stat.S_IWUSR = true → covers Mode.D_OK)
  ∧ (∀ acl, vid_uid vid ≠ 0 → vid_uid vid ≠ md_uid dir →
            dir_acl e vid dir = Some acl → acl_IsMutable acl = true →
            acl_CanNotDelete acl = true → lacks Mode.D_OK)
  ∧ (vid_uid vid ≠ 0 → dir_acl e vid dir = None →
     (covers Mode.W_OK ↔ covers Mode.D_OK)
     ∧ (covers Mode.W_OK ↔ covers Mode.U_OK)
     ∧ (covers Mode.W_OK ↔ covers Mode.SA_OK)).
Proof.
  intros H. apply FillContainerCAP_issued in H
    as (_ & _ & _ & _ & _ & _ & Hm & _).
  cbv zeta. split; [|split; [|split]].
  - intros Hr. rewrite Hr in Hm. cbn [Z.eqb] in Hm. split; [done|].
    rewrite Hm. split; [|done].
    intros M HM. rewrite <- HM at 2. rewrite <- HM at 1.
    rewrite Z.land_assoc. f_equal.
  - intros Hr Ho Hw. apply Z.eqb_neq in Hr. rewrite Hr in Hm.
    change Mode.D_OK with (2 ^ 3). apply covers_bit; [done|]. rewrite Hm.
    assert (Hb : Z.testbit (mode_from_bits vid dir (dir_mask dir)) 3 = true).
    { rewrite mode_from_bits_bit. cbv zeta.
      apply Z.eqb_eq in Ho. rewrite Ho, Hw.
      rewrite (write_bits_bit 3) by auto. cbn [andb].
      by rewrite ?orb_true_r. }
    destruct (dir_acl e vid dir) as [acl|]; [|done].
    rewrite mode_from_acl_bit by done.
    destruct (acl_IsMutable acl); [|done].
    apply Z.eqb_eq in Ho. rewrite Hb, Ho. cbn [negb andb orb].
    change (Z.testbit Mode.M_OK 3) with false.
    by rewrite !andb_false_r.
  - intros acl Hr Ho Ha Hmu Hnd. apply Z.eqb_neq in Hr. rewrite Hr, Ha in Hm.
    change Mode.D_OK with (2 ^ 3). apply lacks_bit; [done|]. rewrite Hm.
    rewrite mode_from_acl_bit by done. rewrite Hmu, Hnd.
    apply Z.eqb_neq in Ho. rewrite Ho.
    change (Z.testbit Mode.D_OK 3) with true. cbn [negb andb].
    by rewrite andb_false_r.
  - intros Hr Ha. apply Z.eqb_neq in Hr. rewrite Hr, Ha in Hm.
    change Mode.W_OK with (2 ^ 1). change Mode.D_OK with (2 ^ 3).
    change Mode.U_OK with (2 ^ 7). change Mode.SA_OK with (2 ^ 6).
    rewrite !covers_bit by done. rewrite Hm, !mode_from_bits_bit. cbv zeta.
    rewrite !write_bits_bit by auto.
    change (Z.testbit Mode.X_OK 1) with false.
    change (Z.testbit Mode.X_OK 3) with false.
    change (Z.testbit Mode.X_OK 6) with false.
    change (Z.testbit Mode.X_OK 7) with false.
    change (Z.testbit Mode.R_OK 1) with false.
    change (Z.testbit Mode.R_OK 3) with false.
    change (Z.testbit Mode.R_OK 6) with false.
    change (Z.testbit Mode.R_OK 7) with false.
    change (Z.testbit Mode.S_IFDIR 1) with false.
    change (Z.testbit Mode.S_IFDIR 3) with false.
    change (Z.testbit Mode.S_IFDIR 6) with false.
    change (Z.testbit Mode.S_IFDIR 7) with false.
    change (Z.testbit (Z.lor Mode.R_OK (Z.lor Mode.M_OK Mode.SU_OK)) 1)
      with false.
    change (Z.testbit (Z.lor Mode.R_OK (Z.lor Mode.M_OK Mode.SU_OK)) 3)
      with false.
    change (Z.testbit (Z.lor Mode.R_OK (Z.lor Mode.M_OK Mode.SU_OK)) 6)
      with false.
    change (Z.testbit (Z.lor Mode.R_OK (Z.lor Mode.M_OK Mode.SU_OK)) 7)
      with false.
    set (sb := Z.lor Mode.C_OK _).
    change (Z.testbit sb 1) with true. change (Z.testbit sb 3) with true.
    change (Z.testbit sb 6) with true. change (Z.testbit sb 7) with true.
    done.
Qed.

Lemma FillContainerCAP_permissions_witness :
  ∃ cap, (FillContainerCAP cenv1 7 dir1 "/d" (mkVid 1000 1000 false) auth1
            "a9" false Caps_empty).1.1 = Some cap
         ∧ Z.land (cap_mode cap) Mode.D_OK = Mode.D_OK.
Proof.
  destruct (FillContainerCAP cenv1 7 dir1 "/d" (mkVid 1000 1000 false) auth1
              "a9" false Caps_empty) as [[[cap|] attr'] s'] eqn:E;
    [|by vm_compute in E].
  exists cap. split; [done|].
  destruct (FillContainerCAP_permissions _ _ _ _ _ _ _ _ _ _ _ _ E)
    as (_ & H & _).
  apply H; by vm_compute.
Defined.

(** A request under a stored capability that fits it. *)
Lemma ValidateCAP_stored ecap vid s md M now :
  md_authid md = cap_authid ecap → cap_id ecap ≠ 0 →
  md_ino md = cap_id ecap ∨ md_pino md = cap_id ecap →
  Z.land (cap_mode ecap) M = M →
  ValidateCAP (Store ecap vid s) md M now
  = if cap_vtime ecap <=? Int.add64 now 60 then (None, Errno.ETIMEDOUT)
    else (Some (set_vid vid ecap), 0).
Proof.
  intros Ha Hid Hino Hmode. unfold ValidateCAP, Get.
  rewrite Ha, Store_lookup, decide_True by done.
  cbn [set_vid cap_id cap_mode cap_vtime].
  apply Z.eqb_neq in Hid. rewrite Hid.
  assert (Hm : negb (cap_id ecap =? md_ino md)
               && negb (cap_id ecap =? md_pino md) = false).
  { destruct Hino as [->| ->]; rewrite Z.eqb_refl; cbn;
      [done|by rewrite andb_false_r]. }
  rewrite Hm. apply Z.eqb_eq in Hmode. by rewrite Hmode.
Qed.

(** An issued capability can be used at once, and for how long.  A
    request under the auth-id of the capability, on the inode it was
    issued for (or on a child of it), asking for a mode the capability
    covers, is validated as long as more than 60 seconds of the lease
    are left, and is refused with [ETIMEDOUT] from then on.  The lease
    is the lease time of the client, or 300 seconds when the client has
    none. *)
Theorem FillContainerCAP_then_ValidateCAP e id dir fullpath vid auth reuse
  one s cap attr' s' md M now :
  let lt := leasetime (cap_clients e) (md_clientuuid dir) in
  let lease := if lt =? 0 then 300 else lt in
  FillContainerCAP e id dir fullpath vid auth reuse one s
  = (Some cap, attr', s') →
  id ≠ 0 →
  md_authid md = (if has_length reuse then reuse else random_uuidstring e) →
  md_ino md = id ∨ md_pino md = id →
  Z.land (cap_mode cap) M = M →
  0 <= tv_sec (cap_ts e) → tv_sec (cap_ts e) + 604800 < 2 ^ 64 →
  0 <= lt → 0 <= now → now + 60 < 2 ^ 64 →
  ValidateCAP s' md M now
  = if now + 60 <? tv_sec (cap_ts e) + lease
    then (Some (set_vid (Some vid) cap), 0)
    else (None, Errno.ETIMEDOUT).
Proof.
  intros lt lease H Hid Ha Hino Hmode Hts Hts' Hlt Hnow Hnow'.
  apply FillContainerCAP_issued in H
    as (-> & Hi & _ & _ & Hau & Hvt & _ & _).
  rewrite ValidateCAP_stored; [|congruence|congruence|by rewrite Hi|done].
  rewrite Hvt. cbv zeta. fold lt. fold lease.
  pose proof (leasetime_ceiling (cap_clients e) (md_clientuuid dir)) as Hc.
  fold lt in Hc.
  assert (Hl : 0 <= lease <= 604800).
  { unfold lease. destruct (lt =? 0); lia. }
  unfold Int.add64, Int.wrap64, Int.two64.
  change (2 ^ 64) with 18446744073709551616 in *.
  rewrite !Z.mod_small by lia.
  destruct (Z.leb_spec (tv_sec (cap_ts e) + lease) (now + 60)),
    (Z.ltb_spec (now + 60) (tv_sec (cap_ts e) + lease)); try done; lia.
Qed.

Lemma FillContainerCAP_then_ValidateCAP_witness :
  ∃ cap s',
    (FillContainerCAP cenv1 7 dir1 "/d" (mkVid 1000 1000 false) auth1
       "a9" false Caps_empty).1.1 = Some cap
    ∧ (FillContainerCAP cenv1 7 dir1 "/d" (mkVid 1000 1000 false) auth1
         "a9" false Caps_empty).2 = s'
    ∧ ValidateCAP s' (mkMdRef "a9" 8 7) Mode.D_OK 200
      = (Some (set_vid (Some (mkVid 1000 1000 false)) cap), 0).
Proof.
  destruct (FillContainerCAP cenv1 7 dir1 "/d" (mkVid 1000 1000 false) auth1
              "a9" false Caps_empty) as [[[cap|] attr'] s'] eqn:E;
    [|by vm_compute in E].
  exists cap, s'. split; [done|]. split; [done|].
  rewrite (FillContainerCAP_then_ValidateCAP _ _ _ _ _ _ _ _ _ _ _ _
             (mkMdRef "a9" 8 7) Mode.D_OK 200 E); try by vm_compute.
  - by right.
  - injection E as <- _ _. by vm_compute.
Defined.

(** With [issue_only_one], a client is given no second capability on an
    inode: once [FillContainerCAP] has run for a client and an inode,
    with whatever outcome, a call for the same client and inode that is
    to issue only one issues nothing and leaves the store and the
    attributes of the request alone, whoever asks and whatever has
    changed in the surroundings. *)
Theorem FillContainerCAP_only_one e e' id dir dir' fullpath fullpath' vid vid'
  auth auth' reuse reuse' one s :
  md_clientid dir' = md_clientid dir →
  let s1 := (FillContainerCAP e id dir fullpath vid auth reuse one s).2 in
  FillContainerCAP e' id dir' fullpath' vid' auth' reuse' true s1
  = (None, md_attr dir', s1).
Proof.
  intros Hc s1.
  assert (H1 : ∃ X, mClientInoCaps s1 !! md_clientid dir = Some X ∧ id ∈ X).
  { unfold s1, FillContainerCAP.
    destruct (one && _) eqn:E.
    - apply andb_true_iff in E as [_ E]. cbn [snd].
      destruct (mClientInoCaps s !! md_clientid dir) as [X|]; [|done].
      apply bool_decide_eq_true in E. by exists X.
    - destruct (attr_touch "sys.mask" (md_attr dir)) as [sysmask a1].
      destruct (cap_mode_for e vid dir _ a1) as [mode a2].
      destruct (attr_touch "sys.owner.auth" a2) as [ownerauth a3].
      destruct (cap_owner vid auth dir ownerauth) as [uid gid].
      cbn [snd Store mClientInoCaps cap_clientid cap_id cap_authid].
      rewrite lookup_set_insert_at, decide_True by done.
      eexists. split; [done|]. set_solver. }
  destruct H1 as (X & HX & Hin).
  unfold FillContainerCAP at 1. rewrite Hc, HX. cbn [andb].
  by rewrite bool_decide_eq_true_2.
Qed.

Lemma FillContainerCAP_only_one_witness :
  FillContainerCAP cenv1 7 dir1 "/d" (mkVid 0 0 false) auth1 "b1" true
    (FillContainerCAP cenv1 7 dir1 "/d" (mkVid 1000 1000 false) auth1
       "a9" false Caps_empty).2
  = (None, md_attr dir1,
     (FillContainerCAP cenv1 7 dir1 "/d" (mkVid 1000 1000 false) auth1
        "a9" false Caps_empty).2).
Proof.
  by apply (FillContainerCAP_only_one cenv1 cenv1 7 dir1 dir1).
Defined.

(** ** The quota check of [MonitorCaps] *)

(** *** The names of the quota nodes *)

Lemma no_colon_uint d : no_colon (NilEmpty.string_of_uint d) = true.
Proof. induction d; cbn; done. Qed.

Lemma no_colon_to_string z : no_colon (Str.to_string z) = true.
Proof.
  unfold Str.to_string. destruct (Z.to_int z) as [d|d];
    cbn [NilZero.string_of_int NilZero.string_of_uint].
  - destruct d; try done; apply (no_colon_uint (_ _)).
  - cbn [no_colon]. destruct d; try done; apply (no_colon_uint (_ _)).
Qed.

Lemma append_colon_inj (a a' b b' : string) :
  no_colon a = true → no_colon a' = true →
  (a +:+ (":" +:+ b))%string = (a' +:+ (":" +:+ b'))%string →
  a = a' ∧ b = b'.
Proof.
  revert a'. induction a as [|c a IH]; intros [|c' a'] Ha Ha' H.
  - split; [done|]. by injection H.
  - injection H as <- _. by cbn in Ha'.
  - injection H as -> _. by cbn in Ha.
  - injection H as -> H. cbn in Ha, Ha'.
    apply andb_true_iff in Ha as [_ Ha]. apply andb_true_iff in Ha' as [_ Ha'].
    destruct (IH a' Ha Ha' H) as [-> ->]. done.
Qed.

Lemma to_string_inj z z' : Str.to_string z = Str.to_string z' → z = z'.
Proof.
  intros H. pose proof (parse_int_to_string z) as Hz.
  rewrite H, parse_int_to_string in Hz. congruence.
Qed.

Lemma quotainfo_id_inj u g q u' g' q' :
  quotainfo_id u g q = quotainfo_id u' g' q' → u = u' ∧ g = g' ∧ q = q'.
Proof.
  unfold quotainfo_id. intros H.
  apply append_colon_inj in H as [Hu H]; [|apply no_colon_to_string..].
  apply append_colon_inj in H as [Hg Hq]; [|apply no_colon_to_string..].
  by rewrite (to_string_inj _ _ Hu), (to_string_inj _ _ Hg),
    (to_string_inj _ _ Hq).
Qed.

(** *** The loop over the capabilities *)

Lemma watched_cases c :
  watched c = negb (inode_quota (cap_quota c) =? noquota)
              && negb (quota_inode (cap_quota c) =? 0).
Proof. done. Qed.

Lemma qmap_step_unwatched qm it : watched it.2 = false → qmap_step qm it = qm.
Proof.
  unfold watched, qmap_step. destruct (inode_quota _ =? noquota); [done|].
  by destruct (quota_inode _ =? 0).
Qed.

Lemma qmap_step_watched qm it :
  watched it.2 = true →
  qmap_step qm it
  = <[cap_group it.2 :=
        push_authid (cap_authid it.2)
          (default (mkQuotainfo (cap_uid it.2) (cap_gid it.2)
                      (quota_inode (cap_quota it.2)) [])
             (qm !! cap_group it.2))]> qm.
Proof.
  unfold watched, qmap_step, cap_group.
  destruct (inode_quota _ =? noquota); [done|].
  destruct (quota_inode _ =? 0); [done|]. intros _. cbn [negb].
  cbn [qi_uid qi_gid qi_qid]. by destruct (qm !! _).
Qed.

(** What the loop over the capabilities leaves in [qmap]. *)
Lemma quota_groups_inv (l : list (string * capx)) :
  let qm := fold_left qmap_step l ∅ in
  (∀ k qi, qm !! k = Some qi →
     quotainfo_id (qi_uid qi) (qi_gid qi) (qi_qid qi) = k
     ∧ ∀ a, a ∈ qi_authids qi
            ↔ ∃ it, it ∈ l ∧ watched it.2 = true ∧ cap_group it.2 = k
                    ∧ cap_authid it.2 = a)
  ∧ (∀ it, it ∈ l → watched it.2 = true → is_Some (qm !! cap_group it.2)).
Proof.
  induction l as [|it l IH] using rev_ind; cbv zeta.
  - cbn. split; [by intros k qi H|]. by intros it H%elem_of_nil.
  - rewrite fold_left_app. cbn [fold_left].
    set (qm := fold_left qmap_step l ∅) in *. cbv zeta in IH.
    destruct IH as [IH1 IH2].
    destruct (watched it.2) eqn:Hw.
    + rewrite qmap_step_watched by done. split.
      * intros k qi. rewrite lookup_insert. case_decide as Hk.
        -- intros [= <-]. subst k. cbn [push_authid qi_uid qi_gid qi_qid qi_authids].
           destruct (qm !! cap_group it.2) as [q|] eqn:Hq; cbn [default].
           ++ destruct (IH1 _ _ Hq) as [Hid Hmem]. split; [done|].
              intros a. rewrite elem_of_app, list_elem_of_singleton, Hmem.
              split.
              ** intros [(it' & Hin & ?)| ->].
                 --- exists it'. rewrite elem_of_app. auto.
                 --- exists it. rewrite elem_of_app, list_elem_of_singleton. auto.
              ** intros (it' & Hin & Hw' & Hg & Ha).
                 apply elem_of_app in Hin as [Hin|Hin%list_elem_of_singleton].
                 --- left. by exists it'.
                 --- right. by subst it'.
           ++ cbn [qi_uid qi_gid qi_qid qi_authids]. split; [done|].
              intros a. rewrite app_nil_l, list_elem_of_singleton. split.
              ** intros ->. exists it.
                 rewrite elem_of_app, list_elem_of_singleton. auto.
              ** intros (it' & Hin & Hw' & Hg & Ha).
                 apply elem_of_app in Hin as [Hin|Hin%list_elem_of_singleton].
                 --- destruct (IH2 _ Hin Hw') as [q Hq']. congruence.
                 --- by subst it'.
        -- intros Hq. destruct (IH1 _ _ Hq) as [Hid Hmem]. split; [done|].
           intros a. rewrite Hmem. split.
           ++ intros (it' & Hin & ?). exists it'. rewrite elem_of_app. auto.
           ++ intros (it' & Hin & Hw' & Hg & Ha).
              apply elem_of_app in Hin as [Hin|Hin%list_elem_of_singleton].
              ** by exists it'.
              ** subst it'. congruence.
      * intros it' Hin Hw'. rewrite lookup_insert. case_decide; [by eexists|].
        apply elem_of_app in Hin as [Hin|Hin%list_elem_of_singleton].
        -- by apply IH2.
        -- by subst it'.
    + rewrite qmap_step_unwatched by done. split.
      * intros k qi Hq. destruct (IH1 _ _ Hq) as [Hid Hmem]. split; [done|].
        intros a. rewrite Hmem. split.
        -- intros (it' & Hin & ?). exists it'. rewrite elem_of_app. auto.
        -- intros (it' & Hin & Hw' & Hg & Ha).
           apply elem_of_app in Hin as [Hin|Hin%list_elem_of_singleton].
           ++ by exists it'.
           ++ subst it'. congruence.
      * intros it' Hin Hw'.
        apply elem_of_app in Hin as [Hin|Hin%list_elem_of_singleton].
        -- by apply IH2.
        -- subst it'. congruence.
Qed.

(** *** The loop over the quota nodes *)

Lemma fold_groups cl Q now gl st :
  fold_left (group_step cl Q now) gl st
  = fold_left (λ st (w : string * (Z * Z)),
                 notify_step cl now w.2.1 w.2.2 st w.1)
      (quota_work Q gl) st.
Proof.
  revert st. induction gl as [|it gl IH]; intros st; [done|].
  cbn [fold_left quota_work flat_map]. rewrite fold_left_app, IH.
  f_equal. unfold group_step.
  destruct (Q _ _ _) as [[f b]|]; [|done].
  generalize (qi_authids it.2). intros l. revert st.
  induction l as [|a l IHl]; intros st; [done|]. cbn. by rewrite IHl.
Qed.

Lemma quota_work_spec Q s a f b :
  (a, (f, b)) ∈ quota_work Q (map_order (quota_groups s))
  ↔ ∃ key c, mCaps s !! key = Some c ∧ watched c = true
             ∧ cap_authid c = a
             ∧ Q (quota_inode (cap_quota c)) (cap_uid c) (cap_gid c)
               = Some (f, b).
Proof.
  pose proof (quota_groups_inv (map_order (mCaps s))) as [I1 I2].
  fold (quota_groups s) in I1, I2.
  unfold quota_work. rewrite list_elem_of_In, in_flat_map. split.
  - intros ([k qi] & Hin%list_elem_of_In%elem_of_map_order & Hw).
    cbn [snd] in Hw. destruct (I1 _ _ Hin) as [Hid Hmem].
    destruct (Q _ _ _) as [fb|] eqn:HQ; [|done].
    apply list_elem_of_In, list_elem_of_fmap in Hw as (a' & [= <- <-] & Ha).
    apply Hmem in Ha as ([key c] & Hl%elem_of_map_order & Hw & Hg & Hau).
    cbn [snd] in *. exists key, c. repeat split; try done.
    unfold cap_group in Hg. rewrite <- Hid in Hg.
    apply quotainfo_id_inj in Hg as (-> & -> & ->). done.
  - intros (key & c & Hc & Hw & Ha & HQ).
    assert (Hl : (key, c) ∈ map_order (mCaps s)) by by apply elem_of_map_order.
    destruct (I2 _ Hl Hw) as [qi Hqi]. cbn [snd] in Hqi.
    destruct (I1 _ _ Hqi) as [Hid Hmem].
    exists (cap_group c, qi). split.
    + by apply list_elem_of_In, elem_of_map_order.
    + cbn [snd]. unfold cap_group in Hid.
      apply quotainfo_id_inj in Hid as (-> & -> & ->). rewrite HQ.
      apply list_elem_of_In, list_elem_of_fmap. exists a. split; [done|].
      apply Hmem. by exists (key, c).
Qed.

Lemma with_mCaps_same s : with_mCaps (mCaps s) s = s.
Proof. by destruct s. Qed.

Lemma quota_settled now f b x :
  quota_changed f b (bool_decide (is_Some (mark_after now f b x))) = false.
Proof.
  unfold quota_changed, mark_after.
  destruct (out_of_quota f b); cbn [andb orb negb].
  - by rewrite bool_decide_eq_true_2 by eauto.
  - rewrite bool_decide_eq_false_2; [done|]. by intros [? ?].
Qed.

Lemma mark_after_idemp now f b x :
  mark_after now f b (mark_after now f b x) = mark_after now f b x.
Proof. unfold mark_after. by destruct (out_of_quota f b). Qed.

Lemma cap_after_settled now f b x c :
  cap_after f b (mark_after now f b x) c = c.
Proof. unfold cap_after. by rewrite quota_settled. Qed.

Lemma news_settled cl now f b x c : news cl f b (mark_after now f b x) c = [].
Proof. unfold news. by rewrite quota_settled. Qed.

Lemma mark_after_changed now f b x :
  quota_changed f b (bool_decide (is_Some x)) = true →
  mark_after now f b x = if out_of_quota f b then Some now else None.
Proof.
  unfold quota_changed, mark_after.
  destruct (out_of_quota f b); cbn [andb orb negb]; [|done].
  destruct x; [|done]. by rewrite bool_decide_eq_true_2 by eauto.
Qed.

Lemma mark_after_unchanged now f b x :
  quota_changed f b (bool_decide (is_Some x)) = false →
  mark_after now f b x = x.
Proof.
  unfold quota_changed, mark_after.
  destruct (out_of_quota f b); cbn [andb orb negb]; destruct x; try done;
    try (rewrite bool_decide_eq_false_2; [done|by intros [? ?]]);
    try (by rewrite bool_decide_eq_true_2 by eauto).
Qed.

Lemma notify_step_spec cl now f b s o eff a0 :
  let r := notify_step cl now f b (s, o, eff) a0 in
  (∀ a, r.1.2 !! a
        = if decide (a = a0) then mark_after now f b (o !! a0) else o !! a)
  ∧ (∀ a, mCaps r.1.1 !! a
          = if decide (a = a0) then cap_after f b (o !! a0) (mCaps s !! a0)
            else mCaps s !! a)
  ∧ r.2 = eff ++ news cl f b (o !! a0) (mCaps s !! a0)
  ∧ r.1.1 = with_mCaps (mCaps r.1.1) s.
Proof.
  cbv zeta. unfold notify_step, cap_after, news.
  destruct (quota_changed f b (bool_decide (is_Some (o !! a0)))) eqn:Hch.
  - rewrite (mark_after_changed now) by done.
    destruct (mCaps s !! a0) as [c|] eqn:Hc; cbn [fst snd].
    + split; [|split; [|split]].
      * intros a. destruct (out_of_quota f b); case_decide; subst;
          by rewrite ?lookup_insert_eq, ?lookup_insert_ne,
            ?lookup_delete_eq, ?lookup_delete_ne by done.
      * intros a. cbn [with_mCaps mCaps]. case_decide; subst;
          by rewrite ?lookup_insert_eq, ?lookup_insert_ne by done.
      * done.
      * done.
    + split; [|split; [|split]].
      * intros a. destruct (out_of_quota f b); case_decide; subst;
          by rewrite ?lookup_insert_eq, ?lookup_insert_ne,
            ?lookup_delete_eq, ?lookup_delete_ne by done.
      * intros a. by case_decide; subst.
      * by rewrite app_nil_r.
      * by rewrite with_mCaps_same.
  - rewrite (mark_after_unchanged now) by done. cbn [fst snd].
    split; [|split; [|split]].
    + intros a. by case_decide; subst.
    + intros a. by case_decide; subst.
    + by rewrite app_nil_r.
    + by rewrite with_mCaps_same.
Qed.

(** What the loop over the quota nodes leaves, auth-id by auth-id. *)
Lemma notify_fold cl now (W : list (string * (Z * Z))) :
  (∀ a fb fb', (a, fb) ∈ W → (a, fb') ∈ W → fb = fb') →
  ∀ s o eff,
    let r := fold_left (λ st (w : string * (Z * Z)),
                          notify_step cl now w.2.1 w.2.2 st w.1)
               W (s, o, eff) in
    (∀ a, a ∉ W.*1 → r.1.2 !! a = o !! a ∧ mCaps r.1.1 !! a = mCaps s !! a)
    ∧ (∀ a f b, (a, (f, b)) ∈ W →
         r.1.2 !! a = mark_after now f b (o !! a)
         ∧ mCaps r.1.1 !! a = cap_after f b (o !! a) (mCaps s !! a))
    ∧ (∀ e, e ∈ r.2
            ↔ e ∈ eff ∨ ∃ a f b, (a, (f, b)) ∈ W
                                 ∧ e ∈ news cl f b (o !! a) (mCaps s !! a))
    ∧ r.1.1 = with_mCaps (mCaps r.1.1) s.
Proof.
  induction W as [|[a0 [f0 b0]] W IH]; intros Hfun s o eff; cbv zeta.
  - cbn [fold_left fst snd]. split; [by intros a _|].
    split; [intros a f b H; by apply elem_of_nil in H|].
    split; [|by rewrite with_mCaps_same].
    intros e. split; [by left|].
    intros [?|(a & f & b & H & _)]; [done|by apply elem_of_nil in H].
  - cbn [fold_left fst snd].
    destruct (notify_step_spec cl now f0 b0 s o eff a0) as (So & Sc & Se & Ss).
    destruct (notify_step cl now f0 b0 (s, o, eff) a0) as [[s1 o1] eff1].
    cbn [fst snd] in So, Sc, Se, Ss.
    assert (Hfun' : ∀ a fb fb', (a, fb) ∈ W → (a, fb') ∈ W → fb = fb').
    { intros a fb fb' H1 H2. apply (Hfun a); by right. }
    destruct (IH Hfun' s1 o1 eff1) as (I1 & I2 & I3 & I4).
    set (r := fold_left _ W (s1, o1, eff1)) in *.
    assert (Hhead : ∀ f b, (a0, (f, b)) ∈ W → f = f0 ∧ b = b0).
    { intros f b H.
      assert (E : (f, b) = (f0, b0)) by (apply (Hfun a0); [by right|by left]).
      by injection E. }
    split; [|split; [|split]].
    + intros a Ha. cbn [fmap list_fmap fst] in Ha.
      apply not_elem_of_cons in Ha as [Hne Ha].
      destruct (I1 a Ha) as [-> ->]. rewrite So, Sc.
      by rewrite !decide_False by done.
    + intros a f b Hin.
      destruct (decide (a ∈ W.*1)) as [Hw|Hw].
      * apply list_elem_of_fmap in Hw as ([a' fb'] & -> & Hw). cbn [fst] in *.
        assert (fb' = (f, b)) as ->.
        { apply (Hfun a'); [by right|done]. }
        destruct (I2 _ _ _ Hw) as [-> ->]. rewrite So, Sc.
        case_decide as Ha; [|done]. subst a'.
        destruct (Hhead _ _ Hw) as [-> ->].
        by rewrite mark_after_idemp, cap_after_settled.
      * apply elem_of_cons in Hin as [[= -> -> ->]|Hin].
        -- destruct (I1 a0 Hw) as [-> ->]. rewrite So, Sc.
           by rewrite !decide_True by done.
        -- exfalso. apply Hw. apply list_elem_of_fmap. by exists (a, (f, b)).
    + intros e. rewrite I3, Se, elem_of_app. split.
      * intros [[He|He]|(a & f & b & Hin & He)].
        -- by left.
        -- right. exists a0, f0, b0. split; [by left|done].
        -- rewrite So, Sc in He. case_decide as Ha.
           ++ subst a. destruct (Hhead _ _ Hin) as [-> ->].
              rewrite news_settled in He. by apply elem_of_nil in He.
           ++ right. exists a, f, b. split; [by right|done].
      * intros [He|(a & f & b & Hin & He)]; [by left; left|].
        apply elem_of_cons in Hin as [[= -> -> ->]|Hin]; [by left; right|].
        destruct (decide (a = a0)) as [->|Ha].
        -- destruct (Hhead _ _ Hin) as [-> ->]. by left; right.
        -- right. exists a, f, b. split; [done|].
           rewrite So, Sc. by rewrite !decide_False by done.
    + rewrite I4, Ss. by destruct s.
Qed.

(** *** The loop over [outofquota] *)

Lemma expire_fold_none now (l : list (string * Z)) (m : gmap string Z) a :
  m !! a = None →
  fold_left (λ (m : gmap string Z) (it : string * Z),
               if it.2 + 3600 <? now then delete it.1 m else m) l m !! a
  = None.
Proof.
  revert m. induction l as [|it l IH]; intros m Hm; [done|].
  cbn [fold_left]. apply IH. destruct (_ <? now); [|done].
  destruct (decide (it.1 = a)) as [->|Hne];
    [by rewrite lookup_delete_eq|by rewrite lookup_delete_ne].
Qed.

Lemma expire_fold_keep now (l : list (string * Z)) (m : gmap string Z) a :
  (∀ t, (a, t) ∈ l → ¬ t + 3600 < now) →
  fold_left (λ (m : gmap string Z) (it : string * Z),
               if it.2 + 3600 <? now then delete it.1 m else m) l m !! a
  = m !! a.
Proof.
  revert m. induction l as [|[k t] l IH]; intros m H; [done|].
  cbn [fold_left fst snd]. rewrite IH.
  - destruct (Z.ltb_spec (t + 3600) now) as [Hlt|_]; [|done].
    rewrite lookup_delete_ne; [done|]. intros ->. apply (H t); [by left|done].
  - intros t' Hin. apply H. by right.
Qed.

Lemma expire_fold_drop now (l : list (string * Z)) (m : gmap string Z) a t :
  (a, t) ∈ l → t + 3600 < now →
  fold_left (λ (m : gmap string Z) (it : string * Z),
               if it.2 + 3600 <? now then delete it.1 m else m) l m !! a
  = None.
Proof.
  revert m. induction l as [|[k t'] l IH]; intros m Hin Hlt;
    [by apply elem_of_nil in Hin|].
  cbn [fold_left fst snd].
  apply elem_of_cons in Hin as [[= <- <-]|Hin]; [|by apply IH].
  rewrite (proj2 (Z.ltb_lt _ _) Hlt). apply expire_fold_none.
  apply lookup_delete_eq.
Qed.

Lemma expire_outofquota_lookup now o a :
  expire_outofquota now o !! a = keep_mark now (o !! a).
Proof.
  unfold expire_outofquota, keep_mark.
  destruct (o !! a) as [t|] eqn:Ho.
  - destruct (Z.ltb_spec (t + 3600) now) as [Hlt|Hge].
    + apply (expire_fold_drop now _ _ a t); [|done]. by apply elem_of_map_order.
    + rewrite expire_fold_keep; [done|].
      intros t' Hin%elem_of_map_order. assert (t' = t) as -> by congruence. lia.
  - by apply expire_fold_none.
Qed.

(** *** One quota check *)

Lemma checked_dec Q s a :
  (∃ c f b, checked Q s a c f b) ∨ (∀ c f b, ¬ checked Q s a c f b).
Proof.
  unfold checked. destruct (mCaps s !! a) as [c|] eqn:Hc.
  - destruct (watched c) eqn:Hw.
    + destruct (Q (quota_inode (cap_quota c)) (cap_uid c) (cap_gid c))
        as [[f b]|] eqn:HQ.
      * left. by exists c, f, b.
      * right. intros c' f b ([= <-] & _ & H). congruence.
    + right. intros c' f b ([= <-] & H & _). congruence.
  - right. by intros c' f b (H & _).
Qed.

Lemma checked_fun Q s a c f b c' f' b' :
  checked Q s a c f b → checked Q s a c' f' b' → c = c' ∧ f = f' ∧ b = b'.
Proof.
  intros (Hc & _ & HQ) (Hc' & _ & HQ').
  assert (c' = c) as -> by congruence. rewrite HQ in HQ'.
  by injection HQ' as -> ->.
Qed.

Lemma quota_work_checked Q s a f b :
  authids_are_keys s →
  (a, (f, b)) ∈ quota_work Q (map_order (quota_groups s))
  ↔ ∃ c, checked Q s a c f b.
Proof.
  intros Hk. rewrite quota_work_spec. unfold checked. split.
  - intros (key & c & Hc & Hw & Ha & HQ). exists c.
    rewrite <- Ha, (Hk _ _ Hc). done.
  - intros (c & Hc & Hw & HQ). exists a, c. by rewrite (Hk _ _ Hc).
Qed.

(** What one quota check leaves, auth-id by auth-id. *)
Lemma quota_pass cl Q now s o :
  authids_are_keys s →
  let r := MonitorCaps_quota cl Q now s o in
  (∀ a c f b, checked Q s a c f b →
     mCaps r.1.1 !! a = cap_after f b (o !! a) (Some c)
     ∧ r.1.2 !! a = keep_mark now (mark_after now f b (o !! a)))
  ∧ (∀ a, (∀ c f b, ¬ checked Q s a c f b) →
       mCaps r.1.1 !! a = mCaps s !! a ∧ r.1.2 !! a = keep_mark now (o !! a))
  ∧ (∀ e, e ∈ r.2 ↔ ∃ a c f b, checked Q s a c f b
                               ∧ e ∈ news cl f b (o !! a) (Some c))
  ∧ r.1.1 = with_mCaps (mCaps r.1.1) s.
Proof.
  intros Hk. cbv zeta. unfold MonitorCaps_quota. rewrite fold_groups.
  set (W := quota_work Q (map_order (quota_groups s))).
  assert (Hfun : ∀ a fb fb', (a, fb) ∈ W → (a, fb') ∈ W → fb = fb').
  { intros a [f b] [f' b'] [c H]%quota_work_checked [c' H']%quota_work_checked;
      try done.
    destruct (checked_fun _ _ _ _ _ _ _ _ _ H H') as (_ & -> & ->). done. }
  destruct (notify_fold cl now W Hfun s o []) as (N1 & N2 & N3 & N4).
  destruct (fold_left _ W (s, o, [])) as [[s1 o1] eff1].
  cbn [fst snd] in *. split; [|split; [|split]].
  - intros a c f b Hch.
    assert (Hin : (a, (f, b)) ∈ W) by (apply quota_work_checked; eauto).
    destruct (N2 _ _ _ Hin) as [Ho Hc].
    rewrite expire_outofquota_lookup, Ho, Hc. by destruct Hch as [-> _].
  - intros a Hn.
    assert (Hin : a ∉ W.*1).
    { intros ([a' [f b]] & -> & [c H]%quota_work_checked)%list_elem_of_fmap;
        [|done]. by apply (Hn c f b). }
    destruct (N1 _ Hin) as [Ho Hc].
    by rewrite expire_outofquota_lookup, Ho, Hc.
  - intros e. rewrite N3. split.
    + intros [He|(a & f & b & [c H]%quota_work_checked & He)];
        [by apply elem_of_nil in He| |done].
      exists a, c, f, b. split; [done|]. by destruct H as [<- _].
    + intros (a & c & f & b & H & He). right. exists a, f, b. split.
      * apply quota_work_checked; eauto.
      * by destruct H as [-> _].
  - done.
Qed.

Lemma news_elem cl f b x c e :
  e ∈ news cl f b x (Some c)
  ↔ quota_changed f b (bool_decide (is_Some x)) = true
    ∧ cap_id c ≠ 0
    ∧ ∃ idr, mUUIDView cl !! cap_clientuuid c = Some idr
             ∧ e = Reply idr (RSP_CAP (set_quota f b c)).
Proof.
  unfold news, BroadcastCap, SendCAP. cbn [set_quota cap_id cap_clientuuid].
  destruct (quota_changed f b _).
  - destruct (Z.eqb_spec (cap_id c) 0) as [Hz|Hz]; cbn [negb snd].
    + split; [by intros H%elem_of_nil|]. by intros (_ & ? & _).
    + destruct (mUUIDView cl !! cap_clientuuid c) as [idr|]; cbn [snd].
      * rewrite list_elem_of_singleton. split.
        -- intros ->. repeat split; try done. by exists idr.
        -- by intros (_ & _ & idr' & [= <-] & ->).
      * split; [by intros H%elem_of_nil|]. by intros (_ & _ & ? & ? & _).
  - split; [by intros H%elem_of_nil|]. by intros (? & _).
Qed.

(** One quota check of [MonitorCaps].  A capability is looked at when
    its quota is not the one of a space without quota and it names a
    quota node for which [QuotaBySpace] answers.  Such a capability is
    sent to its mount again, with the new numbers, exactly when its
    quota status has changed: out of quota and not marked yet, or back
    to quota and still marked; it is then marked with the time of the
    check, or its mark is taken away.  Nothing else is sent, no other
    capability is changed, and the other indices of the store are left
    alone.  At the end, every mark older than an hour is dropped. *)
Theorem MonitorCaps_quota_spec cl Q now s o :
  authids_are_keys s →
  let r := MonitorCaps_quota cl Q now s o in
  let marked := λ a, bool_decide (is_Some (o !! a)) in
  (∀ a c f b, checked Q s a c f b →
     mCaps r.1.1 !! a
     = Some (if quota_changed f b (marked a) then set_quota f b c else c)
     ∧ r.1.2 !! a
       = (if out_of_quota f b
          then keep_mark now (Some (default now (o !! a))) else None))
  ∧ (∀ a, (∀ c f b, ¬ checked Q s a c f b) →
       mCaps r.1.1 !! a = mCaps s !! a ∧ r.1.2 !! a = keep_mark now (o !! a))
  ∧ (∀ e, e ∈ r.2
          ↔ ∃ a c f b idr,
              checked Q s a c f b ∧ quota_changed f b (marked a) = true
              ∧ cap_id c ≠ 0
              ∧ mUUIDView cl !! cap_clientuuid c = Some idr
              ∧ e = Reply idr (RSP_CAP (set_quota f b c)))
  ∧ r.1.1 = with_mCaps (mCaps r.1.1) s.
Proof.
  intros Hk. destruct (quota_pass cl Q now s o Hk) as (P1 & P2 & P3 & P4).
  cbv zeta. split; [|split; [|split]]; [|done| |done].
  - intros a c f b H. destruct (P1 _ _ _ _ H) as [-> ->].
    unfold cap_after, mark_after. split.
    + by destruct (quota_changed f b _).
    + by destruct (out_of_quota f b).
  - intros e. rewrite P3. split.
    + intros (a & c & f & b & H & (Hc & Hz & idr & Hu & ->)%news_elem).
      by exists a, c, f, b, idr.
    + intros (a & c & f & b & idr & H & Hc & Hz & Hu & ->).
      exists a, c, f, b. split; [done|]. apply news_elem. eauto.
Qed.

Lemma authids_are_keys_Store ecap vid s :
  authids_are_keys s → authids_are_keys (Store ecap vid s).
Proof.
  intros Hk a c. rewrite Store_lookup. case_decide as Ha.
  - intros [= <-]. by subst a.
  - apply Hk.
Qed.

Lemma authids_are_keys_empty : authids_are_keys Caps_empty.
Proof. by intros a c H. Qed.

Lemma qstore_keys : authids_are_keys qstore.
Proof.
  unfold qstore. do 2 apply authids_are_keys_Store.
  apply authids_are_keys_empty.
Qed.

Lemma MonitorCaps_quota_spec_witness :
  mCaps (MonitorCaps_quota (reg1 ONLINE) no_files 100 qstore ∅).1.1 !! "q1"
  = Some (set_quota 0 100 (qcap "q1" "u1")).
Proof.
  destruct (MonitorCaps_quota_spec (reg1 ONLINE) no_files 100 qstore ∅
              qstore_keys) as (H & _).
  destruct (H "q1" (qcap "q1" "u1") 0 100) as [H1 _]; [by vm_compute|].
  exact H1.
Defined.

(** *** Checks in a row *)

Lemma set_quota_watch_fields f b c :
  cap_uid (set_quota f b c) = cap_uid c
  ∧ cap_gid (set_quota f b c) = cap_gid c
  ∧ quota_inode (cap_quota (set_quota f b c)) = quota_inode (cap_quota c)
  ∧ cap_authid (set_quota f b c) = cap_authid c.
Proof. done. Qed.

Lemma quota_pass_keys cl Q now s o :
  authids_are_keys s → authids_are_keys (MonitorCaps_quota cl Q now s o).1.1.
Proof.
  intros Hk a c'. destruct (quota_pass cl Q now s o Hk) as (P1 & P2 & _).
  destruct (checked_dec Q s a) as [(c & f & b & H)|Hn].
  - destruct (P1 _ _ _ _ H) as [-> _]. unfold cap_after.
    destruct H as (Hc & _). apply Hk in Hc.
    by destruct (quota_changed f b _); intros [= <-].
  - destruct (P2 _ Hn) as [-> _]. apply Hk.
Qed.

(** A capability that the next check looks at was looked at by this
    one, with the same answer of [QuotaBySpace]. *)
Lemma quota_pass_checked cl Q now s o a c' f b :
  authids_are_keys s →
  checked Q (MonitorCaps_quota cl Q now s o).1.1 a c' f b →
  ∃ c, checked Q s a c f b
       ∧ c' = (if quota_changed f b (bool_decide (is_Some (o !! a)))
               then set_quota f b c else c).
Proof.
  intros Hk (Hc' & Hw' & HQ').
  destruct (quota_pass cl Q now s o Hk) as (P1 & P2 & _).
  destruct (checked_dec Q s a) as [(c & f0 & b0 & H)|Hn].
  - destruct (P1 _ _ _ _ H) as [Hc _]. rewrite Hc in Hc'.
    unfold cap_after in Hc'. cbn [fmap option_fmap option_map] in Hc'.
    assert (Hf : Q (quota_inode (cap_quota c')) (cap_uid c') (cap_gid c')
                 = Some (f0, b0)).
    { destruct H as (_ & _ & HQ).
      destruct (quota_changed f0 b0 _); injection Hc' as <-; exact HQ. }
    rewrite Hf in HQ'. injection HQ' as <- <-.
    exists c. split; [done|].
    by destruct (quota_changed f0 b0 _); injection Hc' as <-.
  - destruct (P2 _ Hn) as [Hc _]. rewrite Hc in Hc'.
    by destruct (Hn c' f b).
Qed.

Lemma keep_mark_fresh now f b x :
  (∀ t, x = Some t → now <= t + 3600) →
  keep_mark now (mark_after now f b x) = mark_after now f b x.
Proof.
  intros H. unfold mark_after, keep_mark.
  destruct (out_of_quota f b); [|done].
  destruct x as [t|]; cbn [from_option id].
  - specialize (H t eq_refl).
    by rewrite (proj2 (Z.ltb_ge (t + 3600) now)) by lia.
  - by rewrite (proj2 (Z.ltb_ge (now + 3600) now)) by lia.
Qed.

(** Nothing is sent twice.  When no mark is older than an hour at the
    time of a check, the check that follows it, with the same answers of
    [QuotaBySpace], sends nothing and changes no capability, however
    much later it runs. *)
Theorem MonitorCaps_quota_settles cl Q now now' s o :
  authids_are_keys s →
  (∀ a t, o !! a = Some t → now <= t + 3600) →
  let r := MonitorCaps_quota cl Q now s o in
  let r' := MonitorCaps_quota cl Q now' r.1.1 r.1.2 in
  r'.2 = [] ∧ r'.1.1 = r.1.1.
Proof.
  intros Hk Hfresh. cbv zeta.
  pose proof (quota_pass_keys cl Q now s o Hk) as Hk1.
  destruct (quota_pass cl Q now s o Hk) as (P1 & P2 & _).
  destruct (quota_pass cl Q now' _ (MonitorCaps_quota cl Q now s o).1.2 Hk1)
    as (R1 & R2 & R3 & R4).
  assert (Hquiet : ∀ a c' f b,
            checked Q (MonitorCaps_quota cl Q now s o).1.1 a c' f b →
            quota_changed f b
              (bool_decide
                 (is_Some ((MonitorCaps_quota cl Q now s o).1.2 !! a)))
            = false).
  { intros a c' f b H.
    destruct (quota_pass_checked _ _ _ _ _ _ _ _ _ Hk H) as (c & Hc & _).
    destruct (P1 _ _ _ _ Hc) as [_ ->].
    rewrite keep_mark_fresh by (intros t; apply Hfresh).
    apply quota_settled. }
  split.
  - apply elem_of_nil_inv. intros e He. apply R3 in He
      as (a & c' & f & b & H & He).
    unfold news in He. rewrite (Hquiet _ _ _ _ H) in He.
    by apply elem_of_nil in He.
  - rewrite R4.
    transitivity (with_mCaps (mCaps (MonitorCaps_quota cl Q now s o).1.1)
                    (MonitorCaps_quota cl Q now s o).1.1);
      [|apply with_mCaps_same].
    f_equal. apply map_eq. intros a.
    destruct (checked_dec Q (MonitorCaps_quota cl Q now s o).1.1 a)
      as [(c' & f & b & H)|Hn].
    + destruct (R1 _ _ _ _ H) as [-> _]. unfold cap_after.
      rewrite (Hquiet _ _ _ _ H). by destruct H as [-> _].
    + by destruct (R2 _ Hn) as [-> _].
Qed.

Lemma MonitorCaps_quota_settles_witness :
  (MonitorCaps_quota (reg1 ONLINE) no_files 5000
     (MonitorCaps_quota (reg1 ONLINE) no_files 100 qstore ∅).1.1
     (MonitorCaps_quota (reg1 ONLINE) no_files 100 qstore ∅).1.2).2 = [].
Proof.
  apply (MonitorCaps_quota_settles (reg1 ONLINE) no_files 100 5000 qstore ∅).
  - exact qstore_keys.
  - intros a t H. by rewrite lookup_empty in H.
Defined.

(** A mount that stays out of quota is reminded.  The check that finds
    the mark of a capability older than an hour sends nothing for it,
    since it is marked, but drops the mark; so the check after that one,
    if the quota is still used up, sends the capability again and marks
    it anew. *)
Theorem MonitorCaps_quota_reminds cl Q now now' s o a c f b t idr :
  authids_are_keys s →
  checked Q s a c f b → out_of_quota f b = true →
  o !! a = Some t → t + 3600 < now →
  cap_id c ≠ 0 → mUUIDView cl !! cap_clientuuid c = Some idr →
  let r := MonitorCaps_quota cl Q now s o in
  let r' := MonitorCaps_quota cl Q now' r.1.1 r.1.2 in
  let msg := Reply idr (RSP_CAP (set_quota f b c)) in
  (msg ∉ r.2) ∧ r.1.2 !! a = None
  ∧ msg ∈ r'.2 ∧ r'.1.2 !! a = Some now'.
Proof.
  intros Hk H Hout Ho Hold Hz Hu. cbv zeta.
  pose proof (quota_pass_keys cl Q now s o Hk) as Hk1.
  destruct (quota_pass cl Q now s o Hk) as (P1 & _ & P3 & _).
  destruct (quota_pass cl Q now' _ (MonitorCaps_quota cl Q now s o).1.2 Hk1)
    as (R1 & _ & R3 & _).
  assert (Hch : quota_changed f b (bool_decide (is_Some (o !! a))) = false).
  { unfold quota_changed. rewrite Hout, Ho.
    by rewrite bool_decide_eq_true_2 by eauto. }
  destruct (P1 _ _ _ _ H) as [Hc1 Ho1].
  unfold cap_after in Hc1. rewrite Hch in Hc1.
  unfold mark_after in Ho1. rewrite Hout, Ho in Ho1.
  cbn [from_option id keep_mark] in Ho1.
  rewrite (proj2 (Z.ltb_lt _ _) Hold) in Ho1.
  assert (H1 : checked Q (MonitorCaps_quota cl Q now s o).1.1 a c f b).
  { destruct H as (_ & Hw & HQ). by split. }
  split; [|split; [done|split]].
  - intros (a' & c' & f' & b' & H' & He)%P3.
    apply news_elem in He as (Hc' & _ & idr' & _ & E).
    apply (f_equal (λ e, match e with
                         | Reply _ (RSP_CAP x) => cap_authid x
                         | _ => ""%string
                         end)) in E.
    cbn [set_quota cap_authid] in E.
    assert (a' = a) as ->.
    { destruct H' as (Ha' & _), H as (Ha & _).
      by rewrite <- (Hk _ _ Ha'), <- (Hk _ _ Ha). }
    destruct (checked_fun _ _ _ _ _ _ _ _ _ H H') as (_ & <- & <-).
    congruence.
  - apply R3. exists a, c, f, b. split; [done|]. apply news_elem.
    rewrite Ho1. split; [|split; [done|by exists idr]].
    unfold quota_changed. rewrite Hout.
    rewrite bool_decide_eq_false_2; [done|]. by intros [? ?].
  - destruct (R1 _ _ _ _ H1) as [_ ->]. rewrite Ho1.
    unfold mark_after. rewrite Hout. cbn [from_option id keep_mark].
    by rewrite (proj2 (Z.ltb_ge (now' + 3600) now')) by lia.
Qed.

Lemma MonitorCaps_quota_reminds_witness :
  Reply "id1" (RSP_CAP (set_quota 0 100 (qcap "q1" "u1")))
  ∈ (MonitorCaps_quota (reg1 ONLINE) no_files 5001
       (MonitorCaps_quota (reg1 ONLINE) no_files 5000 qstore
          {[ "q1"%string := 100 ]}).1.1
       (MonitorCaps_quota (reg1 ONLINE) no_files 5000 qstore
          {[ "q1"%string := 100 ]}).1.2).2.
Proof.
  destruct (MonitorCaps_quota_reminds (reg1 ONLINE) no_files 5000 5001 qstore
              {[ "q1"%string := 100 ]} "q1" (qcap "q1" "u1") 0 100 100 "id1")
    as (_ & _ & H & _); [exact qstore_keys|by vm_compute..|exact H].
Defined.

(** *** Capabilities without quota *)

(** A capability issued for a directory in a space without quota, or
    for which [QuotaByPath] gave no answer, is never looked at by the
    quota check: the check leaves it as it was stored and sends nothing
    for it. *)
Theorem unlimited_capability_is_not_checked e id dir fullpath vid auth reuse
  one s cap attr' s' cl Q now o :
  FillContainerCAP e id dir fullpath vid auth reuse one s
  = (Some cap, attr', s') →
  authids_are_keys s →
  IsQuotaEnabled e (dir_space dir) = false
  ∨ QuotaByPath e fullpath (cap_uid cap) (cap_gid cap) = None →
  let r := MonitorCaps_quota cl Q now s' o in
  mCaps r.1.1 !! cap_authid cap = Some (set_vid (Some vid) cap)
  ∧ (∀ idr c, Reply idr (RSP_CAP c) ∈ r.2 → cap_authid c ≠ cap_authid cap).
Proof.
  intros H Hk Hq. cbv zeta.
  apply FillContainerCAP_issued in H as (-> & _ & _ & _ & _ & _ & _ & Hquota).
  assert (Hw : watched (set_vid (Some vid) cap) = false).
  { unfold watched. cbn [set_vid cap_quota]. rewrite Hquota.
    unfold cap_quota_for. destruct Hq as [-> | ->].
    - done.
    - destruct (IsQuotaEnabled e _); [|done]. cbn.
      by rewrite andb_false_r. }
  pose proof (authids_are_keys_Store cap (Some vid) s Hk) as Hk'.
  assert (Hs : mCaps (Store cap (Some vid) s) !! cap_authid cap
               = Some (set_vid (Some vid) cap)).
  { by rewrite Store_lookup, decide_True. }
  assert (Hn : ∀ c f b,
            ¬ checked Q (Store cap (Some vid) s) (cap_authid cap) c f b).
  { intros c f b (Hc & Hw' & _). congruence. }
  destruct (quota_pass cl Q now _ o Hk') as (_ & P2 & P3 & _).
  split.
  - destruct (P2 _ Hn) as [-> _]. done.
  - intros idr c (a & c0 & f & b & H0 & He)%P3 Ha.
    apply news_elem in He as (_ & _ & idr' & _ & [= _ ->]).
    cbn [set_quota cap_authid] in Ha.
    destruct H0 as (Hc0 & Hr). rewrite (Hk' _ _ Hc0) in Ha. subst a.
    apply (Hn c0 f b). by split.
Qed.

Lemma unlimited_capability_is_not_checked_witness :
  ∃ cap, (FillContainerCAP cenv1 7 dir1 "/d" (mkVid 1000 1000 false) auth1
            "a9" false Caps_empty).1.1 = Some cap
         ∧ mCaps (MonitorCaps_quota (reg1 ONLINE) no_files 100
                    (FillContainerCAP cenv1 7 dir1 "/d"
                       (mkVid 1000 1000 false) auth1 "a9" false
                       Caps_empty).2 ∅).1.1 !! cap_authid cap
           = Some (set_vid (Some (mkVid 1000 1000 false)) cap).
Proof.
  destruct (FillContainerCAP cenv1 7 dir1 "/d" (mkVid 1000 1000 false) auth1
              "a9" false Caps_empty) as [[[cap|] attr'] s'] eqn:E;
    [|by vm_compute in E].
  exists cap. split; [done|].
  apply (unlimited_capability_is_not_checked _ _ _ _ _ _ _ _ _ _ _ _
           (reg1 ONLINE) no_files 100 ∅ E).
  - apply authids_are_keys_empty.
  - by left.
Defined.

(** ** Who is told about a deletion *)

(** [BroadcastDeletion] addresses the capabilities registered under the
    inode of the sender's own capability, whatever inode it is called
    for, leaving out the sender's capability and mount.  When the
    sender's capability is stored under its auth-id, these are exactly
    the capabilities [BroadcastRelease] addresses, so a deletion is
    announced to the mounts that are asked to release.  A sender without
    a stored capability reaches nobody, since no capability is
    registered under inode 0 when the inode index is exact. *)
Theorem BroadcastDeletion_recipients s md :
  let refcap := Get (md_authid md) s in
  (∀ c, c ∈ BroadcastDeletion s md
        ↔ recipient s (cap_id refcap) (cap_authid refcap)
            (cap_clientuuid refcap) c ∧ cap_id c ≠ 0)
  ∧ (cap_id refcap ≠ 0 → cap_authid refcap = md_authid md →
     BroadcastDeletion s md = BroadcastRelease s md)
  ∧ (mCaps s !! md_authid md = None → Caps_exact s →
     BroadcastDeletion s md = []).
Proof.
  cbv zeta.
  assert (Hrec : ∀ c, c ∈ BroadcastDeletion s md
            ↔ recipient s (cap_id (Get (md_authid md) s))
                (cap_authid (Get (md_authid md) s))
                (cap_clientuuid (Get (md_authid md) s)) c ∧ cap_id c ≠ 0).
  { intros c. unfold BroadcastDeletion.
    destruct (mInodeCaps s !! cap_id (Get (md_authid md) s)) as [X|] eqn:HX.
    - rewrite release_loop_spec, <- (found_recipient _ _ _ _ _ _ HX).
      split; [|by right]. intros [H|H]; [by apply elem_of_nil in H|done].
    - split; [by intros H%elem_of_nil|].
      intros [H _]. by apply no_recipient_without_index in H. }
  split; [exact Hrec|split].
  - intros Hid Ha. unfold BroadcastDeletion, BroadcastRelease, release_inode.
    apply Z.eqb_neq in Hid. by rewrite Hid, Ha.
  - intros Hnone Hex. apply elem_of_nil_inv. intros c Hc.
    apply Hrec in Hc as [[(X & a & HX & Ha & Hc) _] Hz].
    destruct (Hex _ _ _ HX Ha) as (c' & Hc' & Hid).
    assert (c' = c) as -> by congruence.
    unfold Get in Hid. rewrite Hnone in Hid. by cbn in Hid.
Qed.

Lemma BroadcastDeletion_recipients_witness :
  BroadcastDeletion st2 (mkMdRef "a1" 9 7)
  = BroadcastRelease st2 (mkMdRef "a1" 9 7).
Proof.
  apply (BroadcastDeletion_recipients st2 (mkMdRef "a1" 9 7)); by vm_compute.
Defined.

(** ** Changing the heartbeat interval *)





(** ** The reply for a hard-linked file *)

Lemma fill_attr_step_eq fe has attr bt k v :
  fill_attr_step fe has (attr, bt) (k, v)
  = if has && String.eqb k k_nlink then (attr, bt)
    else (<[k := v]> attr,
          if String.eqb k "sys.eos.btime"
          then (CStr.strtoull10 (SplitKeyValue fe v).1,
                CStr.strtoull10 (SplitKeyValue fe v).2)
          else bt).
Proof.
  unfold fill_attr_step. cbn [fst snd].
  destruct (has && String.eqb k k_nlink); [done|].
  by destruct (String.eqb k "sys.eos.btime").
Qed.

Lemma fill_attr_loop fe has (l : list (string * string)) attr0 bt k :
  NoDup l.*1 →
  let r := fold_left (fill_attr_step fe has) l (attr0, bt) in
  (has && String.eqb k k_nlink = true → r.1 !! k = attr0 !! k)
  ∧ (has && String.eqb k k_nlink = false →
     (∀ v, (k, v) ∈ l → r.1 !! k = Some v)
     ∧ ((∀ v, (k, v) ∉ l) → r.1 !! k = attr0 !! k)).
Proof.
  revert attr0 bt. induction l as [|[k' v'] l IH]; intros attr0 bt Hnd;
    cbv zeta.
  - cbn [fold_left fst]. split; [done|]. intros _. split; [|done].
    intros v H. by apply elem_of_nil in H.
  - apply NoDup_cons in Hnd as [Hk' Hnd]. cbn [fold_left].
    rewrite fill_attr_step_eq.
    destruct (has && String.eqb k' k_nlink) eqn:Hskip.
    + destruct (IH attr0 bt Hnd) as [I1 I2]. split; [done|].
      intros Hs. destruct (I2 Hs) as [I3 I4]. split.
      * intros v [[= -> ->]|Hin]%elem_of_cons; [congruence|by apply I3].
      * intros Hn. apply I4. intros v Hin. apply (Hn v). by right.
    + set (attr1 := <[k' := v']> attr0).
      set (bt1 := if String.eqb k' "sys.eos.btime" then _ else bt).
      destruct (IH attr1 bt1 Hnd) as [I1 I2]. split.
      * intros Hs. rewrite (I1 Hs). unfold attr1.
        rewrite lookup_insert_ne; [done|]. intros ->. congruence.
      * intros Hs. destruct (I2 Hs) as [I3 I4]. split.
        -- intros v [[= -> ->]|Hin]%elem_of_cons; [|by apply I3].
           rewrite I4.
           ++ unfold attr1. by rewrite lookup_insert_eq.
           ++ intros v Hin. apply Hk'. apply list_elem_of_fmap.
              by exists (k', v).
        -- intros Hn. rewrite I4.
           ++ unfold attr1. rewrite lookup_insert_ne; [done|].
              intros ->. apply (Hn v'). by left.
           ++ intros v Hin. apply (Hn v). by right.
Qed.

(** What [fill_file] reports. *)
Lemma fill_file_spec fe clock has gmd fmd file more n :
  (match f_attrs fmd !! k_nlink with
   | Some v => Str.stoi v
   | None => Some 0
   end) = Some n →
  ∃ fl xl,
    fill_file fe clock has gmd fmd file more = Filled true fl xl
    ∧ md_nlink xl = n + 1
    ∧ md_ino fl = FidToInode (fill_env fe) (f_id gmd)
    ∧ md_name fl = f_name gmd
    ∧ md_pino fl = f_container fmd ∧ md_size fl = f_size fmd
    ∧ md_uid fl = f_uid fmd ∧ md_gid fl = f_gid fmd
    ∧ md_mode fl
      = Z.lor (f_flags fmd)
          (if isLink fmd then Mode.S_IFLNK else Mode.S_IFREG)
    ∧ (md_ctime fl, md_ctime_ns fl) = f_ctime fmd
    ∧ (md_mtime fl, md_mtime_ns fl) = f_mtime fmd
    ∧ (has = true →
       md_attr fl !! k_mdino
       = Some (default ""%string (f_attrs gmd !! k_mdino))
       ∧ md_attr fl !! k_nlink = md_attr file !! k_nlink)
    ∧ (has = false → md_attr fl !! k_nlink
                     = match f_attrs fmd !! k_nlink with
                       | Some v => Some v
                       | None => md_attr file !! k_nlink
                       end).
Proof.
  intros Hn. unfold fill_file.
  assert (Hl : (match f_attrs fmd !! k_nlink with
                | Some v => (λ n, n + 1) <$> Str.stoi v
                | None => Some 1
                end) = Some (n + 1)).
  { destruct (f_attrs fmd !! k_nlink); [by rewrite Hn|].
    by injection Hn as <-. }
  rewrite Hl. eexists _, _. split; [done|].
  cbn [md_nlink md_ino md_name md_pino md_size md_uid md_gid md_mode
         md_ctime md_ctime_ns md_mtime md_mtime_ns md_attr].
  repeat (split; [done|]).
  split; [by destruct (f_ctime fmd)|]. split; [by destruct (f_mtime fmd)|].
  pose proof (fill_attr_loop fe has (map_order (f_attrs fmd))
                (md_attr file) ((f_ctime fmd).1, (f_ctime fmd).2) k_nlink
                (NoDup_map_order _)) as [L1 L2].
  split.
  - intros ->. rewrite lookup_insert_eq. split; [done|].
    rewrite lookup_insert_ne by done. by apply L1.
  - intros ->. destruct (L2 eq_refl) as [L3 L4].
    destruct (f_attrs fmd !! k_nlink) as [v|] eqn:Hv.
    + apply L3. by apply elem_of_map_order.
    + apply L4. intros v Hin%elem_of_map_order. congruence.
Qed.

(** All names of a hard-linked file show the same file.  For a link
    entry, [FillFileMD] reports the inode and the name of the entry, but
    the parent, the size, the owner, the mode, the times and the link
    count of the target; the link count is the counter of the target
    plus one, for the target and for every link entry alike (the
    counter staying below [INT_MAX]).  The counter itself is not shown
    with a link entry, the pointer to the target is.  After [N]
    successful hard link creations on a file without counter, the link
    count reported for it is [N + 1]. *)
Theorem FillFileMD_hardlinks fe t (Ht : 0 <= t < 2 ^ 63) :
  let env := fill_env fe in
  (∀ ns link lf tf file more n,
     ns_files ns !! InodeToFid env link = Some lf →
     f_attrs lf !! k_mdino = Some (Str.to_string t) →
     ns_files ns !! InodeToFid env t = Some tf →
     f_attrs tf !! k_mdino = None →
     f_attrs tf !! k_nlink = Some (Str.to_string n) →
     0 <= n < 2 ^ 31 - 1 →
     ∃ fl xl ft xt,
       FillFileMD fe ns link file more = Filled true fl xl
       ∧ FillFileMD fe ns t file more = Filled true ft xt
       ∧ md_nlink xl = n + 1 ∧ md_nlink xt = n + 1
       ∧ md_ino fl = FidToInode env (f_id lf) ∧ md_name fl = f_name lf
       ∧ md_ino ft = FidToInode env (f_id tf) ∧ md_name ft = f_name tf
       ∧ md_pino fl = md_pino ft ∧ md_size fl = md_size ft
       ∧ md_uid fl = md_uid ft ∧ md_gid fl = md_gid ft
       ∧ md_mode fl = md_mode ft
       ∧ md_ctime fl = md_ctime ft ∧ md_mtime fl = md_mtime ft
       ∧ md_attr fl !! k_mdino = Some (Str.to_string t)
       ∧ md_attr fl !! k_nlink = md_attr file !! k_nlink
       ∧ md_attr ft !! k_nlink = Some (Str.to_string n))
  ∧ (∀ reqs s s' tf file more,
       InodeToFid env t < ns_next_fid (st_ns s) →
       attr_of (st_ns s) (InodeToFid env t) k_nlink = None →
       created env t reqs s s' →
       Z.of_nat (length reqs) < 2 ^ 31 - 1 →
       ns_files (st_ns s') !! InodeToFid env t = Some tf →
       f_attrs tf !! k_mdino = None →
       ∃ ft xt,
         FillFileMD fe (st_ns s') t file more
         = Filled true ft xt
         ∧ md_nlink xt = Z.of_nat (length reqs) + 1).
Proof.
  intros env. split.
  - intros ns link lf tf file more n Hlf Hmd Htf Hnomd Hnl Hn.
    assert (Hsto : Str.stoi (Str.to_string n) = Some n).
    { apply (sto_to_string 32). change (2 ^ (32 - 1)) with (2 ^ 31). lia. }
    assert (Hstoll : Str.stoll (Str.to_string t) = Some t).
    { apply (sto_to_string 64). change (2 ^ (64 - 1)) with (2 ^ 63). lia. }
    assert (Hw : Int.wrap64 t = t).
    { unfold Int.wrap64, Int.two64. apply Z.mod_small.
      change (2 ^ 63) with 9223372036854775808 in Ht.
      change (2 ^ 64) with 18446744073709551616. lia. }
    assert (Hcnt : (match f_attrs tf !! k_nlink with
                    | Some v => Str.stoi v
                    | None => Some 0
                    end) = Some n) by by rewrite Hnl.
    destruct (fill_file_spec fe (clock_of fe (InodeToFid env t)) true lf tf
                (md_with_name (f_name lf) file) more n Hcnt)
      as (fl & xl & El & L1 & L2 & L3 & L4 & L5 & L6 & L7 & L8 & L9 & L10
          & L11 & _).
    destruct (fill_file_spec fe (clock_of fe (InodeToFid env t)) false tf tf
                (md_with_name (f_name tf) file) more n Hcnt)
      as (ft & xt & Et & T1 & T2 & T3 & T4 & T5 & T6 & T7 & T8 & T9 & T10
          & _ & T12).
    exists fl, xl, ft, xt.
    split. { unfold FillFileMD. fold env. by rewrite Hlf, Hmd, Hstoll, Hw, Htf. }
    split. { unfold FillFileMD. fold env. by rewrite Htf, Hnomd. }
    destruct (L11 eq_refl) as [L12 L13]. specialize (T12 eq_refl).
    rewrite Hmd in L12. rewrite Hnl in T12.
    repeat split; try done; try congruence.
  - intros reqs s s' tf file more Hlt Ha Hc HN Htf Hnomd.
    pose proof (created_counter env t reqs Ht s s' 0 Hlt) as H.
    rewrite Z.add_0_l in H. specialize (H ltac:(lia) ltac:(lia) Ha Hc).
    unfold attr_of in H. rewrite Htf in H. cbn in H.
    assert (Hcnt : (match f_attrs tf !! k_nlink with
                    | Some v => Str.stoi v
                    | None => Some 0
                    end) = Some (Z.of_nat (length reqs))).
    { rewrite H. destruct (Z.eqb_spec (Z.of_nat (length reqs)) 0) as [->|Hz];
        [done|].
      apply (sto_to_string 32). change (2 ^ (32 - 1)) with (2 ^ 31). lia. }
    destruct (fill_file_spec fe (clock_of fe (InodeToFid env t)) false tf tf
                (md_with_name (f_name tf) file) more _ Hcnt)
      as (ft & xt & Et & T1 & _).
    exists ft, xt. split; [|done].
    unfold FillFileMD. fold env. by rewrite Htf, Hnomd.
Qed.

Lemma FillFileMD_hardlinks_witness :
  ∃ ft xt,
    FillFileMD fenv3 (st_ns state3_2) inode5
      (mkMdRef "" 0 0) (mkMore 0 0 0 0 0)
    = Filled true ft xt
    ∧ md_nlink xt = 3.
Proof.
  assert (Ht : 0 <= inode5 < 2 ^ 63) by (by vm_compute).
  destruct (ns_files (st_ns state3_2) !! InodeToFid env3 inode5)
    as [tf|] eqn:Etf; [|by vm_compute in Etf].
  apply (proj2 (FillFileMD_hardlinks fenv3 inode5 Ht)
           [(vidA, link1); (vidA, link2)] state3 state3_2 tf).
  - by vm_compute.
  - by vm_compute.
  - split; [repeat split; by vm_compute|].
    exists state3_1. split.
    { split; [by vm_compute|]. eexists. by vm_compute. }
    split; [repeat split; by vm_compute|].
    exists state3_2. split; [|done].
    split; [by vm_compute|]. eexists. by vm_compute.
  - by vm_compute.
  - exact Etf.
  - vm_compute in Etf. injection Etf as <-. by vm_compute.
Defined.

(** ** The reply for a directory *)

Lemma fill_dir_attr_step_eq fe attr bt k v :
  fill_dir_attr_step fe (attr, bt) (k, v)
  = (<[k := v]> attr,
     if String.eqb k "eos.btime"
     then (CStr.strtoull10 (SplitKeyValue fe v).1,
           CStr.strtoull10 (SplitKeyValue fe v).2)
     else bt).
Proof.
  unfold fill_dir_attr_step. cbn [fst snd].
  by destruct (String.eqb k "eos.btime").
Qed.

Lemma fill_dir_attr_loop fe (l : list (string * string)) attr0 bt :
  NoDup l.*1 →
  let r := fold_left (fill_dir_attr_step fe) l (attr0, bt) in
  (∀ k v, (k, v) ∈ l → r.1 !! k = Some v)
  ∧ (∀ k, (∀ v, (k, v) ∉ l) → r.1 !! k = attr0 !! k)
  ∧ ((∀ v, ("eos.btime"%string, v) ∉ l) → r.2 = bt).
Proof.
  revert attr0 bt. induction l as [|[k' v'] l IH]; intros attr0 bt Hnd;
    cbv zeta.
  - cbn [fold_left fst snd]. split; [|done].
    intros k v H. by apply elem_of_nil in H.
  - apply NoDup_cons in Hnd as [Hk' Hnd]. cbn [fold_left].
    rewrite fill_dir_attr_step_eq.
    set (attr1 := <[k' := v']> attr0).
    set (bt1 := if String.eqb k' "eos.btime" then _ else bt).
    destruct (IH attr1 bt1 Hnd) as (I1 & I2 & I3). split; [|split].
    + intros k v [[= -> ->]|Hin]%elem_of_cons; [|by apply I1].
      rewrite I2.
      * unfold attr1. by rewrite lookup_insert_eq.
      * intros v Hin. apply Hk'. apply list_elem_of_fmap. by exists (k', v).
    + intros k Hn. rewrite I2.
      * unfold attr1. rewrite lookup_insert_ne; [done|].
        intros ->. apply (Hn v'). by left.
      * intros v Hin. apply (Hn v). by right.
    + intros Hn. rewrite I3.
      * unfold bt1. destruct (String.eqb_spec k' "eos.btime") as [->|_];
          [|done].
        exfalso. apply (Hn v'). by left.
      * intros v Hin. apply (Hn v). by right.
Qed.

(** Entering a list of children under their encoded names. *)
Lemma enter_children (enc : string → string) (g : Z → Z)
  (l : list (string * Z)) (m : gmap string Z) k :
  let r := fold_left (λ (m : gmap string Z) (it : string * Z),
                        <[enc it.1 := g it.2]> m) l m in
  ((∀ it, it ∈ l → enc it.1 ≠ k) → r !! k = m !! k)
  ∧ ((∃ it, it ∈ l ∧ enc it.1 = k) →
     ∃ it, it ∈ l ∧ enc it.1 = k ∧ r !! k = Some (g it.2)).
Proof.
  revert m. induction l as [|it l IH]; intros m; cbv zeta.
  - cbn [fold_left]. split; [done|].
    intros (it & H & _). by apply elem_of_nil in H.
  - cbn [fold_left]. destruct (IH (<[enc it.1 := g it.2]> m)) as [I1 I2].
    split.
    + intros Hn. rewrite I1.
      * rewrite lookup_insert_ne; [done|]. apply Hn. by left.
      * intros it' Hin. apply Hn. by right.
    + intros (it' & Hin & Hk).
      destruct (decide (Exists (λ x : string * Z, enc x.1 = k) l))
        as [Hl|Hl]; rewrite Exists_exists in Hl.
      * destruct (I2 Hl) as (x & Hx & Hxk & Hr). exists x.
        split; [by right|done].
      * assert (Hit : enc it.1 = k).
        { apply elem_of_cons in Hin as [->|Hin]; [done|].
          exfalso. apply Hl. by exists it'. }
        exists it. split; [by left|]. split; [done|].
        rewrite I1.
        -- by rewrite <- Hit, lookup_insert_eq.
        -- intros x Hx Hxk. apply Hl. by exists x.
Qed.

(** What [FillContainerMD] puts into the reply.  A container that does
    not exist leaves the message alone, but for the error code.
    Otherwise the attributes of the container are copied, the link count
    is 2, and the birth time is taken from the attribute [eos.btime]
    only: without it the birth time of the message stays as it was,
    whatever [sys.eos.btime] says.  A listing of more than 32768
    children is refused with [ENAMETOOLONG] and no child is entered.  In
    a listing that is not refused, each child is entered under its
    encoded name, files with their inodes; where a container and a file
    have the same encoded name the container is listed. *)
Theorem FillContainerMD_listing fe ns id dir more :
  let r := FillContainerMD fe ns id dir more in
  let enc := EncodeInvalidUTF8 fe in
  (ns_containers ns !! id = None →
   r.1.1 = Errno.ENOENT ∧ r.1.2 = dir
   ∧ md_err (dm_more r.2) = Errno.ENOENT
   ∧ md_children r.2 = md_children more)
  ∧ (∀ cmd, ns_containers ns !! id = Some cmd →
       let n := Z.of_nat (size (c_containers cmd))
                + Z.of_nat (size (c_files cmd)) in
       md_ino r.1.2 = id ∧ md_nlink (dm_more r.2) = 2
       ∧ md_nchildren r.2 = n
       ∧ (∀ k, md_attr r.1.2 !! k
               = match c_attrs cmd !! k with
                 | Some v => Some v
                 | None => md_attr dir !! k
                 end)
       ∧ (c_attrs cmd !! "eos.btime" = None →
          md_btime r.1.2 = md_btime dir
          ∧ md_btime_ns r.1.2 = md_btime_ns dir)
       ∧ (md_operation dir ≠ LS →
          r.1.1 = 0 ∧ md_type r.1.2 = MD
          ∧ md_children r.2 = md_children more)
       ∧ (md_operation dir = LS → 32768 < n →
          r.1.1 = Errno.ENAMETOOLONG ∧ md_type r.1.2 = md_type dir
          ∧ md_children r.2 = md_children more)
       ∧ (md_operation dir = LS → n <= 32768 →
          r.1.1 = 0 ∧ md_type r.1.2 = MDLS
          ∧ (∀ name cid, c_containers cmd !! name = Some cid →
               ∃ name' cid', c_containers cmd !! name' = Some cid'
                             ∧ enc name' = enc name
                             ∧ md_children r.2 !! enc name = Some cid')
          ∧ (∀ name fid, c_files cmd !! name = Some fid →
               (∀ name' cid, c_containers cmd !! name' = Some cid →
                             enc name' ≠ enc name) →
               ∃ name' fid', c_files cmd !! name' = Some fid'
                             ∧ enc name' = enc name
                             ∧ md_children r.2 !! enc name
                               = Some (FidToInode (fill_env fe) fid'))
          ∧ (∀ k, (∀ name cid, c_containers cmd !! name = Some cid →
                               enc name ≠ k) →
                  (∀ name fid, c_files cmd !! name = Some fid →
                               enc name ≠ k) →
                  md_children r.2 !! k = md_children more !! k))).
Proof.
  cbv zeta. unfold FillContainerMD. split.
  - by intros ->.
  - intros cmd ->.
    pose proof (fill_dir_attr_loop fe (map_order (c_attrs cmd)) (md_attr dir)
                  (md_btime dir, md_btime_ns dir) (NoDup_map_order _))
      as (A1 & A2 & A3).
    set (ra := fold_left (fill_dir_attr_step fe) _ _) in *.
    assert (Hattr : ∀ k, ra.1 !! k = match c_attrs cmd !! k with
                                     | Some v => Some v
                                     | None => md_attr dir !! k
                                     end).
    { intros k. destruct (c_attrs cmd !! k) as [v|] eqn:Hk.
      - apply A1. by apply elem_of_map_order.
      - apply A2. intros v Hin%elem_of_map_order. congruence. }
    assert (Hbt : c_attrs cmd !! "eos.btime" = None →
                  ra.2 = (md_btime dir, md_btime_ns dir)).
    { intros Hn. apply A3. intros v Hin%elem_of_map_order. congruence. }
    destruct (bool_decide (md_operation dir = LS)) eqn:Hop.
    + apply bool_decide_eq_true in Hop.
      destruct (Z.ltb_spec 32768
                  (Z.of_nat (size (c_containers cmd))
                   + Z.of_nat (size (c_files cmd)))) as [Hbig|Hok];
        cbn [fst snd md_ino md_attr md_btime md_btime_ns md_type
               md_nlink dm_more md_nchildren md_children].
      * split; [done|]. split; [done|]. split; [done|].
        split; [exact Hattr|].
        split; [by intros ->%Hbt|]. split; [done|]. split; [done|].
        intros _ ?. lia.
      * split; [done|]. split; [done|]. split; [done|].
        split; [exact Hattr|].
        split; [by intros ->%Hbt|]. split; [done|].
        split; [intros _ ?; lia|]. intros _ _.
        split; [done|]. split; [done|].
        unfold list_children.
        set (m1 := fold_left _ (map_to_list (c_files cmd)) _).
        split; [|split].
        -- intros name cid Hc.
           destruct (enter_children (EncodeInvalidUTF8 fe) (λ z : Z, z)
                       (map_to_list (c_containers cmd)) m1
                       (EncodeInvalidUTF8 fe name)) as [_ E].
           destruct E as ([n' c'] & Hin & Hk & Hr).
           { exists (name, cid). split; [|done]. by apply elem_of_map_to_list. }
           exists n', c'. split; [by apply elem_of_map_to_list|]. done.
        -- intros name fid Hf Hnc.
           destruct (enter_children (EncodeInvalidUTF8 fe) (λ z : Z, z)
                       (map_to_list (c_containers cmd)) m1
                       (EncodeInvalidUTF8 fe name)) as [E _].
           cbv beta zeta in E. rewrite E.
           2:{ intros [n' c'] Hin%elem_of_map_to_list. by apply (Hnc n' c'). }
           destruct (enter_children (EncodeInvalidUTF8 fe)
                       (FidToInode (fill_env fe))
                       (map_to_list (c_files cmd)) (md_children more)
                       (EncodeInvalidUTF8 fe name)) as [_ F].
           destruct F as ([n' f'] & Hin & Hk & Hr).
           { exists (name, fid). split; [|done]. by apply elem_of_map_to_list. }
           exists n', f'. split; [by apply elem_of_map_to_list|]. done.
        -- intros k Hc Hf.
           destruct (enter_children (EncodeInvalidUTF8 fe) (λ z : Z, z)
                       (map_to_list (c_containers cmd)) m1 k) as [E _].
           cbv beta zeta in E. rewrite E.
           2:{ intros [n' c'] Hin%elem_of_map_to_list. by apply (Hc n' c'). }
           destruct (enter_children (EncodeInvalidUTF8 fe)
                       (FidToInode (fill_env fe))
                       (map_to_list (c_files cmd)) (md_children more) k)
             as [F _].
           apply F. intros [n' f'] Hin%elem_of_map_to_list.
           by apply (Hf n' f').
    + apply bool_decide_eq_false in Hop.
      cbn [fst snd md_ino md_attr md_btime md_btime_ns md_type
             md_nlink dm_more md_nchildren md_children].
      split; [done|]. split; [done|]. split; [done|].
      split; [exact Hattr|].
      split; [by intros ->%Hbt|]. done.
Qed.

Lemma FillContainerMD_listing_witness :
  (FillContainerMD fenv3 ns1 2 ls_request no_more).1.1 = 0
  ∧ md_type (FillContainerMD fenv3 ns1 2 ls_request no_more).1.2 = MDLS
  ∧ md_children (FillContainerMD fenv3 ns1 2 ls_request no_more).2
    !! "zz"%string = None.
Proof.
  destruct (FillContainerMD_listing fenv3 ns1 2 ls_request no_more)
    as [_ H].
  destruct (H (mk_dir 2 1 "P1" {[ "d"%string := 4 ]} {[ "f"%string := 5 ]}))
    as (_ & _ & _ & _ & _ & _ & _ & H1); [by vm_compute|].
  destruct H1 as (H1 & H2 & _ & _ & H3); [done|by vm_compute|].
  split; [exact H1|]. split; [exact H2|].
  rewrite H3; [done|..].
  - intros name cid Hc. cbn in Hc.
    apply lookup_singleton_Some in Hc as [<- _]. done.
  - intros name fid Hf. cbn in Hf.
    apply lookup_singleton_Some in Hf as [<- _]. done.
Defined.
